(** * Texas Hold'em hand engine: deck, evaluator, pot builder, betting engine

    A shallow embedding of the TypeScript sources
    - [game/types.ts]          (cards, players, table state, messages),
    - [game/deck.ts]           (createDeck, shuffleDeck, HandDeck),
    - [game/hand-evaluator.ts] (evaluateBestHand, compareHands, evaluateFiveCards),
    - [game/game-engine.ts]    (GameEngine),
    followed by the properties established about them.

    Conventions of the embedding.
    - A JavaScript [number] holding a chip amount, a seat or an index is a [Z]
      (all amounts stay far below 2^53, where doubles are exact integers).
      [%] is [Z.rem] (truncated, sign of the dividend), [Math.min] is [Z.min],
      [Math.floor (a / n)] for a positive [n] is [Z.div].
    - [Uint32Array] cells are reduced modulo 2^32.
    - Objects shared by reference (the players of [state.players]) are
      addressed by their position in that array; a filtered view such as
      [getActivePlayers ()] is a list of (position, player) pairs, so that a
      write through the view lands in the array.
    - A thrown exception is a [Throw] result; dereferencing [undefined] is
      [Throw TypeError]. A [Throw] carries no engine: what a half-run call
      left behind is not described.
    - The event sink [onEvent] appends to the log [emitted]; [Date.now ()] and
      [crypto.getRandomValues] are inputs ([now], [rv]).
    - [Array.prototype.sort] is the stable insertion sort driven by the
      comparator (ECMAScript 2019 requires stability). *)

From Stdlib Require Import String ZArith List Bool Lia Arith Permutation Sorted.
Import ListNotations.
Open Scope Z_scope.

(* ================================================================= *)
(** ** Results of fallible code *)

Inductive Exn : Type :=
| DeckExhausted            (* 'Deck exhausted - this should never happen ...' *)
| InsufficientCards (n : nat) (* 'Need at least 5 cards, got n' *)
| TypeError                (* property read on undefined *)
| OutOfFuel.               (* recursion budget of the model, never reached *)

Inductive Res (A : Type) : Type :=
| Ok (a : A)
| Throw (e : Exn).
Arguments Ok {A} a.
Arguments Throw {A} e.

Definition bind {A B : Type} (m : Res A) (f : A -> Res B) : Res B :=
  match m with
  | Ok a => f a
  | Throw e => Throw e
  end.

Notation "x <- m ;; k" := (bind m (fun x => k))
  (at level 61, m at next level, right associativity).
Notation "' pat <- m ;; k" := (bind m (fun x => match x with pat => k end))
  (at level 61, pat pattern, m at next level, right associativity).

(* ================================================================= *)
(** ** Arrays *)

(** [arr[i]] for a JavaScript number [i]: [undefined] outside the array. *)
Definition at_ {A : Type} (arr : list A) (i : Z) : option A :=
  if i <? 0 then None else nth_error arr (Z.to_nat i).

(** [arr[i].field]: reading a property of [undefined] throws. *)
Definition deref {A : Type} (arr : list A) (i : Z) : Res A :=
  match at_ arr i with
  | Some a => Ok a
  | None => Throw TypeError
  end.

Definition len {A : Type} (arr : list A) : Z := Z.of_nat (length arr).

(** The array paired with its positions: the identity of each element. *)
Definition withIndex {A : Type} (arr : list A) : list (nat * A) :=
  combine (seq 0 (length arr)) arr.

(** [arr.findIndex (f)], [-1] when nothing matches. *)
Fixpoint findIndexFrom {A : Type} (f : A -> bool) (arr : list A) (k : Z) : Z :=
  match arr with
  | [] => -1
  | a :: rest => if f a then k else findIndexFrom f rest (k + 1)
  end.

Definition findIndex {A : Type} (f : A -> bool) (arr : list A) : Z :=
  findIndexFrom f arr 0.

(** [arr[i] = f (arr[i])] for an existing position. *)
Fixpoint updateAt {A : Type} (i : nat) (f : A -> A) (arr : list A) : list A :=
  match arr, i with
  | [], _ => []
  | a :: rest, O => f a :: rest
  | a :: rest, S i' => a :: updateAt i' f rest
  end.

(** [arr.sort (cmp)]: stable; [cmp a b <= 0] keeps [a] before [b]. *)
Fixpoint insertBy {A : Type} (cmp : A -> A -> Z) (x : A) (sorted : list A) : list A :=
  match sorted with
  | [] => [x]
  | y :: rest => if cmp x y <=? 0 then x :: y :: rest else y :: insertBy cmp x rest
  end.

Fixpoint sortBy {A : Type} (cmp : A -> A -> Z) (arr : list A) : list A :=
  match arr with
  | [] => []
  | x :: rest => insertBy cmp x (sortBy cmp rest)
  end.

(** [[...new Set (arr)]]: first occurrences, in insertion order. *)
Fixpoint dedupe (seen : list Z) (arr : list Z) : list Z :=
  match arr with
  | [] => []
  | x :: rest =>
      if existsb (Z.eqb x) seen then dedupe seen rest
      else x :: dedupe (x :: seen) rest
  end.

Definition sumZ (l : list Z) : Z := fold_right Z.add 0 l.

(* ================================================================= *)
(** ** Cards (types.ts) *)

Inductive Suit : Type := hearts | diamonds | clubs | spades.

Inductive Rank : Type :=
| R2 | R3 | R4 | R5 | R6 | R7 | R8 | R9 | R10 | RJ | RQ | RK | RA.

Record Card : Type := mkCard { rank : Rank; suit : Suit }.

Definition SUITS : list Suit := [hearts; diamonds; clubs; spades].

Definition RANKS : list Rank :=
  [R2; R3; R4; R5; R6; R7; R8; R9; R10; RJ; RQ; RK; RA].

Definition RANK_VALUES (r : Rank) : Z :=
  match r with
  | R2 => 2 | R3 => 3 | R4 => 4 | R5 => 5 | R6 => 6 | R7 => 7 | R8 => 8
  | R9 => 9 | R10 => 10 | RJ => 11 | RQ => 12 | RK => 13 | RA => 14
  end.

Definition suit_eqb (a b : Suit) : bool :=
  match a, b with
  | hearts, hearts | diamonds, diamonds | clubs, clubs | spades, spades => true
  | _, _ => false
  end.

Inductive HandRank : Type :=
| HighCard | OnePair | TwoPair | ThreeOfAKind | Straight
| Flush | FullHouse | FourOfAKind | StraightFlush | RoyalFlush.

(** The numeric value of the enum member. *)
Definition handRankValue (r : HandRank) : Z :=
  match r with
  | HighCard => 0 | OnePair => 1 | TwoPair => 2 | ThreeOfAKind => 3
  | Straight => 4 | Flush => 5 | FullHouse => 6 | FourOfAKind => 7
  | StraightFlush => 8 | RoyalFlush => 9
  end.

Definition HAND_RANK_NAMES (r : HandRank) : string :=
  match r with
  | HighCard => "High Card" | OnePair => "One Pair" | TwoPair => "Two Pair"
  | ThreeOfAKind => "Three of a Kind" | Straight => "Straight"
  | Flush => "Flush" | FullHouse => "Full House"
  | FourOfAKind => "Four of a Kind" | StraightFlush => "Straight Flush"
  | RoyalFlush => "Royal Flush"
  end%string.

Record EvaluatedHand : Type := mkEvaluatedHand {
  eh_rank : HandRank;
  eh_values : list Z;
  eh_cards : list Card;
  eh_name : string
}.

(* ================================================================= *)
(** ** Deck (deck.ts) *)

Definition createDeck : list Card :=
  flat_map (fun s => map (fun r => mkCard r s) RANKS) SUITS.

(** A cell of a [Uint32Array]. *)
Definition uint32 (v : Z) : Z := v mod 2 ^ 32.

(** [randomValues[i] % (i + 1)]: the swap index of step [i]. *)
Definition pickIndex (v : Z) (i : nat) : Z := Z.rem v (Z.of_nat i + 1).

(** [temp = deck[i]; deck[i] = deck[j]; deck[j] = temp]. *)
Definition swap (deck : list Card) (i j : nat) : list Card :=
  match nth_error deck i, nth_error deck j with
  | Some ci, Some cj => updateAt j (fun _ => ci) (updateAt i (fun _ => cj) deck)
  | _, _ => deck
  end.

(** The loop [for (let i = n - 1; i > 0; i--)], entered at [i]. *)
Fixpoint shuffleFrom (rv : nat -> Z) (i : nat) (deck : list Card) : list Card :=
  match i with
  | O => deck
  | S i' =>
      let j := Z.to_nat (pickIndex (uint32 (rv i)) i) in
      shuffleFrom rv i' (swap deck i j)
  end.

(** [rv i] is the word [crypto.getRandomValues] wrote at index [i]. *)
Definition shuffleDeck (rv : nat -> Z) (deck : list Card) : list Card :=
  shuffleFrom rv (length deck - 1) deck.

Record HandDeck : Type := mkHandDeck {
  cards : list Card;
  position : nat
}.

(** [new HandDeck ()]. *)
Definition newHandDeck (rv : nat -> Z) : HandDeck :=
  mkHandDeck (shuffleDeck rv createDeck) 0.

Definition deal (d : HandDeck) : Res (Card * HandDeck) :=
  if (length (cards d) <=? position d)%nat then Throw DeckExhausted
  else
    match nth_error (cards d) (position d) with
    | Some c => Ok (c, mkHandDeck (cards d) (S (position d)))
    | None => Throw DeckExhausted
    end.

Fixpoint dealMultiple (count : nat) (d : HandDeck) : Res (list Card * HandDeck) :=
  match count with
  | O => Ok ([], d)
  | S count' =>
      '(c, d1) <- deal d ;;
      '(cs, d2) <- dealMultiple count' d1 ;;
      Ok (c :: cs, d2)
  end.

Definition burn (d : HandDeck) : Res HandDeck :=
  '(_, d1) <- deal d ;; Ok d1.

Definition remaining (d : HandDeck) : Z :=
  len (cards d) - Z.of_nat (position d).

(* ================================================================= *)
(** ** Hand evaluator (hand-evaluator.ts) *)

(** The [for] loop of [compareHands] over the common prefix. *)
Fixpoint compareValues (a b : list Z) : Z :=
  match a, b with
  | x :: a', y :: b' => if x =? y then compareValues a' b' else x - y
  | _, _ => 0
  end.

Definition compareHands (a b : EvaluatedHand) : Z :=
  if negb (handRankValue (eh_rank a) =? handRankValue (eh_rank b))
  then handRankValue (eh_rank a) - handRankValue (eh_rank b)
  else compareValues (eh_values a) (eh_values b).

Fixpoint checkStraight (values : list Z) : bool :=
  match values with
  | x :: ((y :: _) as rest) => if negb (x - y =? 1) then false else checkStraight rest
  | _ => true
  end.

Definition checkWheelStraight (values : list Z) : bool :=
  match values with
  | [a; b; c; d; e] =>
      (a =? 14) && (b =? 5) && (c =? 4) && (d =? 3) && (e =? 2)
  | _ => false
  end.

Definition makeResult (r : HandRank) (values : list Z) (cs : list Card)
  : EvaluatedHand :=
  mkEvaluatedHand r values cs (HAND_RANK_NAMES r).

(** [rankCounts.set (v, (rankCounts.get (v) || 0) + 1)] on a [Map], whose
    entries keep their insertion order. *)
Fixpoint bump (v : Z) (m : list (Z * Z)) : list (Z * Z) :=
  match m with
  | [] => [(v, 1)]
  | (k, c) :: rest => if k =? v then (k, c + 1) :: rest else (k, c) :: bump v rest
  end.

Definition rankCounts (values : list Z) : list (Z * Z) :=
  fold_left (fun m v => bump v m) values [].

(** Count descending, then value descending. *)
Definition cmpCounts (a b : Z * Z) : Z :=
  if negb (snd b =? snd a) then snd b - snd a else fst b - fst a.

Definition isFlushOf (suits : list Suit) : bool :=
  match suits with
  | [] => true
  | s0 :: _ => forallb (fun s => suit_eqb s s0) suits
  end.

(** [values[0] === 14 && values[1] === 13]. *)
Definition topIsAceKing (values : list Z) : bool :=
  match values with
  | a :: k :: _ => (a =? 14) && (k =? 13)
  | _ => false
  end.

(** [[values[0]]]. Every caller passes five cards; on the empty array the
    source would build [[undefined]], the model builds [[]]. *)
Definition firstValue (values : list Z) : list Z := firstn 1 values.

Definition evaluateFiveCards (cs : list Card) : Res EvaluatedHand :=
  let sorted :=
    sortBy (fun a b => RANK_VALUES (rank b) - RANK_VALUES (rank a)) cs in
  let values := map (fun c => RANK_VALUES (rank c)) sorted in
  let suits := map suit sorted in
  let isFlush := isFlushOf suits in
  let isStraight := checkStraight values in
  let isWheelStraight := checkWheelStraight values in
  let counts := sortBy cmpCounts (rankCounts values) in
  if isFlush && isStraight then
    if topIsAceKing values then Ok (makeResult RoyalFlush [14] sorted)
    else Ok (makeResult StraightFlush (firstValue values) sorted)
  else if isFlush && isWheelStraight then
    Ok (makeResult StraightFlush [5] sorted)
  else
    c0 <- deref counts 0 ;;
    if snd c0 =? 4 then
      c1 <- deref counts 1 ;;
      Ok (makeResult FourOfAKind [fst c0; fst c1] sorted)
    else
      isFull <- (if snd c0 =? 3
                 then c1 <- deref counts 1 ;; Ok (snd c1 =? 2)
                 else Ok false) ;;
      if isFull then
        c1 <- deref counts 1 ;;
        Ok (makeResult FullHouse [fst c0; fst c1] sorted)
      else if isFlush then Ok (makeResult Flush values sorted)
      else if isStraight then
        Ok (makeResult Straight (firstValue values) sorted)
      else if isWheelStraight then Ok (makeResult Straight [5] sorted)
      else if snd c0 =? 3 then
        Ok (makeResult ThreeOfAKind (fst c0 :: map fst (tl counts)) sorted)
      else
        isTwoPair <- (if snd c0 =? 2
                      then c1 <- deref counts 1 ;; Ok (snd c1 =? 2)
                      else Ok false) ;;
        if isTwoPair then
          c1 <- deref counts 1 ;;
          c2 <- deref counts 2 ;;
          Ok (makeResult TwoPair
                [Z.max (fst c0) (fst c1); Z.min (fst c0) (fst c1); fst c2] sorted)
        else if snd c0 =? 2 then
          Ok (makeResult OnePair
                (fst c0 :: sortBy (fun a b => b - a) (map fst (tl counts))) sorted)
        else Ok (makeResult HighCard values sorted).

(** [getCombinations (arr, k)]: the k-subsets in the order of the
    backtracking search (lexicographic in the positions). *)
Fixpoint getCombinations {A : Type} (arr : list A) (k : nat) : list (list A) :=
  match k with
  | O => [[]]
  | S k' =>
      match arr with
      | [] => []
      | x :: rest =>
          map (cons x) (getCombinations rest k') ++ getCombinations rest k
      end
  end.

(** The loop of [evaluateBestHand] over the combinations. *)
Fixpoint bestOf (combos : list (list Card)) (best : option EvaluatedHand)
  : Res (option EvaluatedHand) :=
  match combos with
  | [] => Ok best
  | combo :: rest =>
      evaluated <- evaluateFiveCards combo ;;
      match best with
      | None => bestOf rest (Some evaluated)
      | Some b =>
          if compareHands evaluated b >? 0 then bestOf rest (Some evaluated)
          else bestOf rest best
      end
  end.

Definition evaluateBestHand (cs : list Card) : Res EvaluatedHand :=
  if (length cs <? 5)%nat then Throw (InsufficientCards (length cs))
  else
    best <- bestOf (getCombinations cs 5) None ;;
    match best with
    | Some b => Ok b
    | None => Throw TypeError
    end.

(* ================================================================= *)
(** ** Players and table state (types.ts) *)

Inductive PlayerAction : Type :=
| ActFold | ActCheck | ActCall | ActRaise | ActAllIn.

(** What reaches [handleAction] at run time: one of the five tags, or any
    other string of a peer message (the [default] branch of the switch). *)
Inductive ActionRequest : Type :=
| Known (a : PlayerAction)
| Unknown (tag : string).

Inductive BettingRound : Type := preflop | flop | turn | river.

Record Player : Type := mkPlayer {
  id : string;
  name : string;
  seatIndex : Z;
  chips : Z;
  holeCards : list Card;
  currentBet : Z;
  totalBetThisRound : Z;
  hasFolded : bool;
  isAllIn : bool;
  isSittingOut : bool;
  lastAction : option PlayerAction;
  isConnected : bool
}.

Record SidePot : Type := mkSidePot {
  amount : Z;
  eligiblePlayerIds : list string
}.

Record HandResult : Type := mkHandResult {
  hr_playerId : string;
  hr_amount : Z;
  hr_hand : option EvaluatedHand;
  hr_potIndex : Z
}.

Record GameState : Type := mkGameState {
  roomCode : string;
  hostId : string;
  players : list Player;
  dealerSeatIndex : Z;
  smallBlind : Z;
  bigBlind : Z;
  buyIn : Z;
  handInProgress : bool;
  bettingRound : BettingRound;
  communityCards : list Card;
  pot : Z;
  sidePots : list SidePot;
  stateCurrentBet : Z;          (* [state.currentBet] *)
  minRaise : Z;
  lastRaiseAmount : Z;
  activePlayerIndex : Z;
  actionTimerDeadline : option Z;
  winners : option (list HandResult);
  handNumber : Z
}.

Record PlayerPublicInfo : Type := mkPlayerPublicInfo {
  pub_id : string;
  pub_name : string;
  pub_seatIndex : Z;
  pub_chips : Z;
  pub_currentBet : Z;
  pub_hasFolded : bool;
  pub_isAllIn : bool;
  pub_lastAction : option PlayerAction
}.

Record ValidAction : Type := mkValidAction {
  va_action : PlayerAction;
  va_minAmount : option Z;
  va_maxAmount : option Z
}.

Record ShowdownResult : Type := mkShowdownResult {
  sr_playerId : string;
  sr_cards : list Card;
  sr_hand : option EvaluatedHand;
  sr_winAmount : Z
}.

(** The events of game-engine.ts. *)
Inductive GameEvent : Type :=
| hand_start (dealerSeat handNo : Z) (ps : list PlayerPublicInfo)
| hole_cards (playerId : string) (cs : list Card)
| community (cs : list Card) (round : BettingRound)
| action_on (playerId : string) (validActions : list ValidAction)
            (potNow currentBetNow timeDeadline : Z)
| player_acted (playerId : string) (action : option PlayerAction)
               (amountNow potNow playerChips : Z)
| pot_update (potNow : Z) (sps : list SidePot)
| showdown_event (results : list ShowdownResult)
| hand_end (ps : list PlayerPublicInfo).

(** The engine object: its table state, its deck, the pending auto-fold
    timer (the id it would fold) and everything passed to [onEvent]. *)
Record GameEngine : Type := mkGameEngine {
  state : GameState;
  deck : option HandDeck;
  actionTimer : option string;
  emitted : list GameEvent
}.

Definition ACTION_TIMEOUT : Z := 30000.

(** *** Field assignments *)

Definition setChips (v : Z) (p : Player) : Player :=
  mkPlayer (id p) (name p) (seatIndex p) v (holeCards p) (currentBet p)
    (totalBetThisRound p) (hasFolded p) (isAllIn p) (isSittingOut p)
    (lastAction p) (isConnected p).

Definition setHoleCards (v : list Card) (p : Player) : Player :=
  mkPlayer (id p) (name p) (seatIndex p) (chips p) v (currentBet p)
    (totalBetThisRound p) (hasFolded p) (isAllIn p) (isSittingOut p)
    (lastAction p) (isConnected p).

Definition setCurrentBet (v : Z) (p : Player) : Player :=
  mkPlayer (id p) (name p) (seatIndex p) (chips p) (holeCards p) v
    (totalBetThisRound p) (hasFolded p) (isAllIn p) (isSittingOut p)
    (lastAction p) (isConnected p).

Definition setTotalBetThisRound (v : Z) (p : Player) : Player :=
  mkPlayer (id p) (name p) (seatIndex p) (chips p) (holeCards p) (currentBet p)
    v (hasFolded p) (isAllIn p) (isSittingOut p) (lastAction p) (isConnected p).

Definition setHasFolded (v : bool) (p : Player) : Player :=
  mkPlayer (id p) (name p) (seatIndex p) (chips p) (holeCards p) (currentBet p)
    (totalBetThisRound p) v (isAllIn p) (isSittingOut p) (lastAction p)
    (isConnected p).

Definition setIsAllIn (v : bool) (p : Player) : Player :=
  mkPlayer (id p) (name p) (seatIndex p) (chips p) (holeCards p) (currentBet p)
    (totalBetThisRound p) (hasFolded p) v (isSittingOut p) (lastAction p)
    (isConnected p).

Definition setLastAction (v : option PlayerAction) (p : Player) : Player :=
  mkPlayer (id p) (name p) (seatIndex p) (chips p) (holeCards p) (currentBet p)
    (totalBetThisRound p) (hasFolded p) (isAllIn p) (isSittingOut p) v
    (isConnected p).

Definition setIsConnected (v : bool) (p : Player) : Player :=
  mkPlayer (id p) (name p) (seatIndex p) (chips p) (holeCards p) (currentBet p)
    (totalBetThisRound p) (hasFolded p) (isAllIn p) (isSittingOut p)
    (lastAction p) v.

Definition setPlayers (v : list Player) (s : GameState) : GameState :=
  mkGameState (roomCode s) (hostId s) v (dealerSeatIndex s) (smallBlind s)
    (bigBlind s) (buyIn s) (handInProgress s) (bettingRound s)
    (communityCards s) (pot s) (sidePots s) (stateCurrentBet s) (minRaise s)
    (lastRaiseAmount s) (activePlayerIndex s) (actionTimerDeadline s)
    (winners s) (handNumber s).

Definition setDealerSeatIndex (v : Z) (s : GameState) : GameState :=
  mkGameState (roomCode s) (hostId s) (players s) v (smallBlind s)
    (bigBlind s) (buyIn s) (handInProgress s) (bettingRound s)
    (communityCards s) (pot s) (sidePots s) (stateCurrentBet s) (minRaise s)
    (lastRaiseAmount s) (activePlayerIndex s) (actionTimerDeadline s)
    (winners s) (handNumber s).

Definition setHandInProgress (v : bool) (s : GameState) : GameState :=
  mkGameState (roomCode s) (hostId s) (players s) (dealerSeatIndex s)
    (smallBlind s) (bigBlind s) (buyIn s) v (bettingRound s)
    (communityCards s) (pot s) (sidePots s) (stateCurrentBet s) (minRaise s)
    (lastRaiseAmount s) (activePlayerIndex s) (actionTimerDeadline s)
    (winners s) (handNumber s).

Definition setBettingRound (v : BettingRound) (s : GameState) : GameState :=
  mkGameState (roomCode s) (hostId s) (players s) (dealerSeatIndex s)
    (smallBlind s) (bigBlind s) (buyIn s) (handInProgress s) v
    (communityCards s) (pot s) (sidePots s) (stateCurrentBet s) (minRaise s)
    (lastRaiseAmount s) (activePlayerIndex s) (actionTimerDeadline s)
    (winners s) (handNumber s).

Definition setCommunityCards (v : list Card) (s : GameState) : GameState :=
  mkGameState (roomCode s) (hostId s) (players s) (dealerSeatIndex s)
    (smallBlind s) (bigBlind s) (buyIn s) (handInProgress s) (bettingRound s)
    v (pot s) (sidePots s) (stateCurrentBet s) (minRaise s)
    (lastRaiseAmount s) (activePlayerIndex s) (actionTimerDeadline s)
    (winners s) (handNumber s).

Definition setPot (v : Z) (s : GameState) : GameState :=
  mkGameState (roomCode s) (hostId s) (players s) (dealerSeatIndex s)
    (smallBlind s) (bigBlind s) (buyIn s) (handInProgress s) (bettingRound s)
    (communityCards s) v (sidePots s) (stateCurrentBet s) (minRaise s)
    (lastRaiseAmount s) (activePlayerIndex s) (actionTimerDeadline s)
    (winners s) (handNumber s).

Definition setSidePots (v : list SidePot) (s : GameState) : GameState :=
  mkGameState (roomCode s) (hostId s) (players s) (dealerSeatIndex s)
    (smallBlind s) (bigBlind s) (buyIn s) (handInProgress s) (bettingRound s)
    (communityCards s) (pot s) v (stateCurrentBet s) (minRaise s)
    (lastRaiseAmount s) (activePlayerIndex s) (actionTimerDeadline s)
    (winners s) (handNumber s).

Definition setStateCurrentBet (v : Z) (s : GameState) : GameState :=
  mkGameState (roomCode s) (hostId s) (players s) (dealerSeatIndex s)
    (smallBlind s) (bigBlind s) (buyIn s) (handInProgress s) (bettingRound s)
    (communityCards s) (pot s) (sidePots s) v (minRaise s)
    (lastRaiseAmount s) (activePlayerIndex s) (actionTimerDeadline s)
    (winners s) (handNumber s).

Definition setMinRaise (v : Z) (s : GameState) : GameState :=
  mkGameState (roomCode s) (hostId s) (players s) (dealerSeatIndex s)
    (smallBlind s) (bigBlind s) (buyIn s) (handInProgress s) (bettingRound s)
    (communityCards s) (pot s) (sidePots s) (stateCurrentBet s) v
    (lastRaiseAmount s) (activePlayerIndex s) (actionTimerDeadline s)
    (winners s) (handNumber s).

Definition setLastRaiseAmount (v : Z) (s : GameState) : GameState :=
  mkGameState (roomCode s) (hostId s) (players s) (dealerSeatIndex s)
    (smallBlind s) (bigBlind s) (buyIn s) (handInProgress s) (bettingRound s)
    (communityCards s) (pot s) (sidePots s) (stateCurrentBet s) (minRaise s)
    v (activePlayerIndex s) (actionTimerDeadline s)
    (winners s) (handNumber s).

Definition setActivePlayerIndex (v : Z) (s : GameState) : GameState :=
  mkGameState (roomCode s) (hostId s) (players s) (dealerSeatIndex s)
    (smallBlind s) (bigBlind s) (buyIn s) (handInProgress s) (bettingRound s)
    (communityCards s) (pot s) (sidePots s) (stateCurrentBet s) (minRaise s)
    (lastRaiseAmount s) v (actionTimerDeadline s)
    (winners s) (handNumber s).

Definition setActionTimerDeadline (v : option Z) (s : GameState) : GameState :=
  mkGameState (roomCode s) (hostId s) (players s) (dealerSeatIndex s)
    (smallBlind s) (bigBlind s) (buyIn s) (handInProgress s) (bettingRound s)
    (communityCards s) (pot s) (sidePots s) (stateCurrentBet s) (minRaise s)
    (lastRaiseAmount s) (activePlayerIndex s) v
    (winners s) (handNumber s).

Definition setWinners (v : option (list HandResult)) (s : GameState) : GameState :=
  mkGameState (roomCode s) (hostId s) (players s) (dealerSeatIndex s)
    (smallBlind s) (bigBlind s) (buyIn s) (handInProgress s) (bettingRound s)
    (communityCards s) (pot s) (sidePots s) (stateCurrentBet s) (minRaise s)
    (lastRaiseAmount s) (activePlayerIndex s) (actionTimerDeadline s)
    v (handNumber s).

Definition setHandNumber (v : Z) (s : GameState) : GameState :=
  mkGameState (roomCode s) (hostId s) (players s) (dealerSeatIndex s)
    (smallBlind s) (bigBlind s) (buyIn s) (handInProgress s) (bettingRound s)
    (communityCards s) (pot s) (sidePots s) (stateCurrentBet s) (minRaise s)
    (lastRaiseAmount s) (activePlayerIndex s) (actionTimerDeadline s)
    (winners s) v.

Definition setState (v : GameState) (e : GameEngine) : GameEngine :=
  mkGameEngine v (deck e) (actionTimer e) (emitted e).

Definition setDeck (v : option HandDeck) (e : GameEngine) : GameEngine :=
  mkGameEngine (state e) v (actionTimer e) (emitted e).

Definition setActionTimer (v : option string) (e : GameEngine) : GameEngine :=
  mkGameEngine (state e) (deck e) v (emitted e).

(** [this.onEvent (ev)]. *)
Definition onEvent (ev : GameEvent) (e : GameEngine) : GameEngine :=
  mkGameEngine (state e) (deck e) (actionTimer e) (emitted e ++ [ev]).

(** A change of [this.state] inside the engine. *)
Definition onState (f : GameState -> GameState) (e : GameEngine) : GameEngine :=
  setState (f (state e)) e.

(** A write to the player stored at position [i]. *)
Definition modifyPlayer (i : nat) (f : Player -> Player) (s : GameState)
  : GameState :=
  setPlayers (updateAt i f (players s)) s.

(* ================================================================= *)
(** ** The engine (game-engine.ts) *)

(** [new GameEngine (roomCode, hostId, onEvent)]. *)
Definition newGameEngine (room host : string) : GameEngine :=
  mkGameEngine
    (mkGameState room host [] (-1) 1 2 200 false preflop [] 0 [] 0 2 2 (-1)
       None None 0)
    None None [].

(** *** Helpers *)

Definition getActivePlayers (s : GameState) : list (nat * Player) :=
  filter (fun ip => negb (isSittingOut (snd ip)) && (chips (snd ip) >=? 0)
                    && isConnected (snd ip))
    (withIndex (players s)).

Definition getPlayersWhoCanAct (s : GameState) : list (nat * Player) :=
  filter (fun ip => negb (hasFolded (snd ip)) && negb (isAllIn (snd ip))
                    && isConnected (snd ip))
    (withIndex (players s)).

(** [this.state.players.filter (p => !p.hasFolded)]. *)
Definition notFoldedPlayers (s : GameState) : list (nat * Player) :=
  filter (fun ip => negb (hasFolded (snd ip))) (withIndex (players s)).

Definition getActivePlayer (s : GameState) : option (nat * Player) :=
  if (activePlayerIndex s <? 0) || (activePlayerIndex s >=? len (players s))
  then None
  else
    match at_ (players s) (activePlayerIndex s) with
    | Some p => Some (Z.to_nat (activePlayerIndex s), p)
    | None => None
    end.

Definition getPublicPlayers (s : GameState) : list PlayerPublicInfo :=
  map (fun p => mkPlayerPublicInfo (id p) (name p) (seatIndex p) (chips p)
                  (currentBet p) (hasFolded p) (isAllIn p) (lastAction p))
    (players s).

(** [this.state.players.find (p => p.id === playerId)] with its position. *)
Definition findPlayer (playerId : string) (s : GameState)
  : option (nat * Player) :=
  find (fun ip => String.eqb (id (snd ip)) playerId) (withIndex (players s)).


Definition clearActionTimer (e : GameEngine) : GameEngine :=
  setActionTimer None e.

(** *** Player management *)

(** [addPlayer]. The seat index is an integer here. The source tests it with
    [seatIndex < 0 || seatIndex > 5] alone, so what keeps the table to six
    players is the test of [players.length], not the number of seats. *)
Definition addPlayer (pid nm : string) (seat : Z) (e : GameEngine)
  : bool * GameEngine :=
  let s := state e in
  if (seat <? 0) || (seat >? 5) then (false, e)
  else if existsb (fun p => seatIndex p =? seat) (players s) then (false, e)
  else if existsb (fun p => String.eqb (id p) pid) (players s) then (false, e)
  else if len (players s) >=? 6 then (false, e)
  else
    let p := mkPlayer pid nm seat (buyIn s) [] 0 0 false false false None true in
    (true,
     onState (setPlayers
                (sortBy (fun a b => seatIndex a - seatIndex b)
                   (players s ++ [p]))) e).

Definition setPlayerConnected (pid : string) (connected : bool) (e : GameEngine)
  : GameEngine :=
  match findPlayer pid (state e) with
  | Some (i, _) => onState (modifyPlayer i (setIsConnected connected)) e
  | None => e
  end.

(** [players.splice (idx, 1)]. *)
Fixpoint removeAt {A : Type} (i : nat) (arr : list A) : list A :=
  match arr, i with
  | [], _ => []
  | _ :: rest, O => rest
  | a :: rest, S i' => a :: removeAt i' rest
  end.

(** *** Hand flow *)

Definition canStartHand (s : GameState) : bool :=
  (len (filter (fun p => isConnected p && (chips p >? 0)
                           && negb (isSittingOut p)) (players s)) >=? 2)
  && negb (handInProgress s).

Definition advanceDealer (s : GameState) : Res GameState :=
  let activePlayers := getActivePlayers s in
  if len activePlayers =? 0 then Ok s
  else if dealerSeatIndex s =? -1 then
    first <- deref activePlayers 0 ;;
    Ok (setDealerSeatIndex (seatIndex (snd first)) s)
  else
    let currentIdx :=
      findIndex (fun ip => seatIndex (snd ip) =? dealerSeatIndex s)
        activePlayers in
    let nextIdx := Z.rem (currentIdx + 1) (len activePlayers) in
    next <- deref activePlayers nextIdx ;;
    Ok (setDealerSeatIndex (seatIndex (snd next)) s).

(** [postBlind (player, amount)], the player being the one at position [i]. *)
Definition postBlind (i : nat) (blind : Z) (s : GameState) : GameState :=
  match nth_error (players s) i with
  | None => s
  | Some player =>
      let actualAmount := Z.min blind (chips player) in
      let p1 :=
        setTotalBetThisRound actualAmount
          (setCurrentBet actualAmount
             (setChips (chips player - actualAmount) player)) in
      let p2 := if chips p1 =? 0 then setIsAllIn true p1 else p1 in
      setPot (pot s + actualAmount) (modifyPlayer i (fun _ => p2) s)
  end.

Definition postBlinds (s : GameState) : Res GameState :=
  let activePlayers := getActivePlayers s in
  if len activePlayers <? 2 then Ok s
  else
    let dealerIdx :=
      findIndex (fun ip => seatIndex (snd ip) =? dealerSeatIndex s)
        activePlayers in
    let sbIdx :=
      if len activePlayers =? 2 then dealerIdx
      else Z.rem (dealerIdx + 1) (len activePlayers) in
    let bbIdx :=
      if len activePlayers =? 2 then Z.rem (dealerIdx + 1) (len activePlayers)
      else Z.rem (dealerIdx + 2) (len activePlayers) in
    sbPlayer <- deref activePlayers sbIdx ;;
    let s1 := postBlind (fst sbPlayer) (smallBlind s) s in
    bbPlayer <- deref activePlayers bbIdx ;;
    let s2 := postBlind (fst bbPlayer) (bigBlind s1) s1 in
    Ok (setStateCurrentBet (bigBlind s2) s2).

(** The loop of [dealHoleCards] over the active players. *)
Fixpoint dealHoleCardsTo (view : list (nat * Player)) (e : GameEngine)
  : Res GameEngine :=
  match view with
  | [] => Ok e
  | (i, player) :: rest =>
      if negb (hasFolded player) then
        match deck e with
        | None => Throw TypeError
        | Some d =>
            '(cs, d1) <- dealMultiple 2 d ;;
            let e1 := setDeck (Some d1)
                        (onState (modifyPlayer i (setHoleCards cs)) e) in
            dealHoleCardsTo rest (onEvent (hole_cards (id player) cs) e1)
        end
      else dealHoleCardsTo rest e
  end.

Definition dealHoleCards (e : GameEngine) : Res GameEngine :=
  dealHoleCardsTo (getActivePlayers (state e)) e.

(** *** Betting *)

(** The search loop of [findFirstActor]: [k] iterations left, at offset [i]. *)
Fixpoint findFirstActorFrom (activePlayers : list (nat * Player)) (startIdx : Z)
  (k : nat) (i : Z) (s : GameState) : Res GameState :=
  match k with
  | O => Ok s
  | S k' =>
      let idx := Z.rem (startIdx + i) (len activePlayers) in
      ip <- deref activePlayers idx ;;
      if negb (hasFolded (snd ip)) && negb (isAllIn (snd ip))
      then Ok (setActivePlayerIndex (Z.of_nat (fst ip)) s)
      else findFirstActorFrom activePlayers startIdx k' (i + 1) s
  end.

(** With no active player the start index is [NaN] in the source; the loop
    then makes no iteration, in the source as in the model. A negative
    index (dealer not found, heads-up) reads [undefined] and throws. *)
Definition findFirstActor (s : GameState) : Res GameState :=
  let activePlayers := getActivePlayers s in
  let dealerIdx :=
    findIndex (fun ip => seatIndex (snd ip) =? dealerSeatIndex s)
      activePlayers in
  let startIdx :=
    match bettingRound s with
    | preflop =>
        if len activePlayers =? 2 then dealerIdx
        else Z.rem (dealerIdx + 3) (len activePlayers)
    | _ => Z.rem (dealerIdx + 1) (len activePlayers)
    end in
  findFirstActorFrom activePlayers startIdx (length activePlayers) 0 s.

Definition getValidActions (s : GameState) (player : Player)
  : list ValidAction :=
  let toCall := stateCurrentBet s - currentBet player in
  let a1 := [mkValidAction ActFold None None] in
  let a2 :=
    if toCall <=? 0 then a1 ++ [mkValidAction ActCheck None None]
    else if toCall >=? chips player then
      a1 ++ [mkValidAction ActCall (Some (chips player)) (Some (chips player))]
    else a1 ++ [mkValidAction ActCall (Some toCall) (Some toCall)] in
  if chips player >? toCall then
    let minRaiseTotal := stateCurrentBet s + minRaise s in
    let minRaiseAmount := Z.min (minRaiseTotal - currentBet player) (chips player) in
    let maxRaiseAmount := chips player in
    if minRaiseAmount <=? maxRaiseAmount
    then a2 ++ [mkValidAction ActRaise (Some minRaiseAmount) (Some maxRaiseAmount)]
    else a2
  else a2.

(** [promptAction], its call of [advanceToNextRound] being [next]. *)
Definition promptActionWith (next : GameEngine -> Res GameEngine) (now : Z)
  (e : GameEngine) : Res GameEngine :=
  match getActivePlayer (state e) with
  | None => next e
  | Some (_, player) =>
      let validActions := getValidActions (state e) player in
      let deadline := now + ACTION_TIMEOUT in
      let e1 := onState (setActionTimerDeadline (Some deadline)) e in
      let e2 :=
        onEvent (action_on (id player) validActions (pot (state e1))
                   (stateCurrentBet (state e1)) deadline) e1 in
      Ok (setActionTimer (Some (id player)) (clearActionTimer e2))
  end.

(** [startBettingRound], its call of [advanceToNextRound] being [next]. *)
Definition startBettingRoundWith (next : GameEngine -> Res GameEngine)
  (now : Z) (e : GameEngine) : Res GameEngine :=
  let e1 :=
    match bettingRound (state e) with
    | preflop => e
    | _ =>
        let e' :=
          onState (fun s =>
            setLastRaiseAmount (bigBlind s)
              (setMinRaise (bigBlind s)
                 (setStateCurrentBet 0
                    (setPlayers
                       (map (fun p => setLastAction None (setCurrentBet 0 p))
                          (players s)) s)))) e in
        onEvent (pot_update (pot (state e')) (sidePots (state e'))) e'
    end in
  let canAct := getPlayersWhoCanAct (state e1) in
  let notFolded := notFoldedPlayers (state e1) in
  if (len notFolded <=? 1) || (len canAct =? 0) then next e1
  else
    s2 <- findFirstActor (state e1) ;;
    promptActionWith next now (setState s2 e1).

Definition getNextBettingRound (s : GameState) : option BettingRound :=
  match bettingRound s with
  | preflop => Some flop
  | flop => Some turn
  | turn => Some river
  | river => None
  end.

Definition dealCommunityCards (round : BettingRound) (e : GameEngine)
  : Res GameEngine :=
  match deck e with
  | None => Ok e
  | Some d =>
      d1 <- burn d ;;
      match round with
      | preflop => Ok (setDeck (Some d1) e)
      | _ =>
          '(newCards, d2) <-
            dealMultiple (match round with flop => 3 | _ => 1 end) d1 ;;
          let e1 :=
            setDeck (Some d2)
              (onState (fun s =>
                 setCommunityCards (communityCards s ++ newCards) s) e) in
          Ok (onEvent (community (communityCards (state e1)) round) e1)
      end
  end.

(** *** Showdown *)

(** The inner loop of [calculatePots] over the bettors, for one level. *)
Fixpoint levelLoop (bettors : list Player) (level prevLevel : Z)
  (potAmount : Z) (eligible : list string) : Z * list string :=
  match bettors with
  | [] => (potAmount, eligible)
  | p :: rest =>
      let contribution := Z.min (totalBetThisRound p) level - prevLevel in
      let potAmount1 :=
        if contribution >? 0 then potAmount + contribution else potAmount in
      let eligible1 :=
        if negb (hasFolded p) && (totalBetThisRound p >=? level)
        then eligible ++ [id p] else eligible in
      levelLoop rest level prevLevel potAmount1 eligible1
  end.

(** The loop over the all-in levels; the accumulator is
    [(pots, processedAmount, prevLevel)]. *)
Fixpoint levelsLoop (bettors : list Player) (levels : list Z)
  (acc : list SidePot * Z * Z) : list SidePot * Z * Z :=
  match levels with
  | [] => acc
  | level :: rest =>
      let '(pots, processedAmount, prevLevel) := acc in
      let '(potAmount, eligible) := levelLoop bettors level prevLevel 0 [] in
      let acc1 :=
        if potAmount >? 0
        then (pots ++ [mkSidePot potAmount eligible],
              processedAmount + potAmount, level)
        else (pots, processedAmount, level) in
      levelsLoop bettors rest acc1
  end.

Definition calculatePots (s : GameState) : list SidePot :=
  let activePlayers := filter (fun p => negb (hasFolded p)) (players s) in
  let allInPlayers :=
    sortBy (fun a b => totalBetThisRound a - totalBetThisRound b)
      (filter isAllIn activePlayers) in
  if len allInPlayers =? 0 then
    [mkSidePot (pot s) (map id activePlayers)]
  else
    let bettors := filter (fun p => totalBetThisRound p >? 0) (players s) in
    let levels :=
      sortBy (fun a b => a - b)
        (dedupe [] (map totalBetThisRound allInPlayers)) in
    let '(pots, processedAmount, prevLevel) :=
      levelsLoop bettors levels ([], 0, 0) in
    let remainingAmount := pot s - processedAmount in
    let pots1 :=
      if remainingAmount >? 0 then
        pots ++
        [mkSidePot remainingAmount
           (map id
              (filter (fun p => (totalBetThisRound p >? prevLevel)
                                || negb (isAllIn p)) activePlayers))]
      else pots in
    if len pots1 =? 0
    then pots1 ++ [mkSidePot (pot s) (map id activePlayers)]
    else pots1.

(** An entry of [evaluations]: the player (with its position) and its hand. *)
Definition Evaluation : Type := (nat * Player) * EvaluatedHand.

(** The loop that fills [evaluations] for one pot. *)
Fixpoint evaluateEligible (eligible : list (nat * Player))
  (board : list Card) : Res (list Evaluation) :=
  match eligible with
  | [] => Ok []
  | ip :: rest =>
      let allCards := holeCards (snd ip) ++ board in
      if (5 <=? length allCards)%nat then
        hand <- evaluateBestHand allCards ;;
        more <- evaluateEligible rest board ;;
        Ok ((ip, hand) :: more)
      else evaluateEligible rest board
  end.

(** The loop that pays the winners of one pot: winner number [i] receives
    [share + (i === 0 ? remainder : 0)]. *)
Fixpoint payWinners (winnersOfPot : list Evaluation) (i : Z)
  (share remainder potIdx : Z) (ps : list Player) (handResults : list HandResult)
  : list Player * list HandResult :=
  match winnersOfPot with
  | [] => (ps, handResults)
  | (ip, hand) :: rest =>
      let winAmount := share + (if i =? 0 then remainder else 0) in
      payWinners rest (i + 1) share remainder potIdx
        (updateAt (fst ip) (fun p => setChips (chips p + winAmount) p) ps)
        (handResults ++ [mkHandResult (id (snd ip)) winAmount (Some hand) potIdx])
  end.

(** The loop that adds the evaluated players to the showdown results. *)
Fixpoint addResults (evaluations : list Evaluation)
  (handResults : list HandResult) (results : list ShowdownResult)
  : list ShowdownResult :=
  match evaluations with
  | [] => results
  | (ip, hand) :: rest =>
      let pid := id (snd ip) in
      if existsb (fun r => String.eqb (sr_playerId r) pid) results
      then addResults rest handResults results
      else
        let winAmount :=
          match find (fun h => String.eqb (hr_playerId h) pid) handResults with
          | Some h => hr_amount h
          | None => 0
          end in
        addResults rest handResults
          (results ++ [mkShowdownResult pid (holeCards (snd ip)) (Some hand) winAmount])
  end.

(** The winners of one pot: the evaluations sorted best first, then the
    ones that tie with the first. *)
Definition winnersOf (evaluations : list Evaluation) : list Evaluation :=
  let sorted :=
    sortBy (fun a b => compareHands (snd b) (snd a)) evaluations in
  match sorted with
  | [] => []
  | best :: _ =>
      filter (fun ev => compareHands (snd ev) (snd best) =? 0) sorted
  end.

(** The loop of [showdown] over the pots. [winners] holds at least the
    best evaluation, so [share] divides by a positive length. *)
Fixpoint showdownPots (pots : list SidePot) (potIdx : Z)
  (notFolded : list (nat * Player)) (board : list Card)
  (acc : list Player * list HandResult * list ShowdownResult)
  : Res (list Player * list HandResult * list ShowdownResult) :=
  match pots with
  | [] => Ok acc
  | sidePot :: rest =>
      let '(ps, handResults, results) := acc in
      let eligible :=
        filter (fun ip => existsb (String.eqb (id (snd ip)))
                            (eligiblePlayerIds sidePot)) notFolded in
      evaluations <- evaluateEligible eligible board ;;
      if len evaluations =? 0
      then showdownPots rest (potIdx + 1) notFolded board acc
      else
        let sorted :=
          sortBy (fun a b => compareHands (snd b) (snd a)) evaluations in
        let winnersOfPot := winnersOf evaluations in
        let share := amount sidePot / len winnersOfPot in
        let remainder := amount sidePot - share * len winnersOfPot in
        let '(ps1, handResults1) :=
          payWinners winnersOfPot 0 share remainder potIdx ps handResults in
        showdownPots rest (potIdx + 1) notFolded board
          (ps1, handResults1, addResults sorted handResults1 results)
  end.

Definition endHand (e : GameEngine) : GameEngine :=
  let e1 := clearActionTimer e in
  let e2 :=
    onState (fun s =>
      setPlayers (filter (fun p => isConnected p || (chips p >? 0)) (players s))
        (setActivePlayerIndex (-1) (setHandInProgress false s))) e1 in
  onEvent (hand_end (getPublicPlayers (state e2))) e2.

Definition endHandFold (winner : option (nat * Player)) (e : GameEngine)
  : GameEngine :=
  match winner with
  | Some (i, w) =>
      let s := state e in
      let s1 := modifyPlayer i (fun p => setChips (chips p + pot s) p) s in
      let s2 := setWinners (Some [mkHandResult (id w) (pot s1) None 0]) s1 in
      endHand
        (onEvent (showdown_event [mkShowdownResult (id w) [] None (pot s2)])
           (setState s2 e))
  | None => endHand e
  end.

Definition showdown (e : GameEngine) : Res GameEngine :=
  let s := state e in
  let notFolded := notFoldedPlayers s in
  let pots := calculatePots s in
  '(ps, handResults, results) <-
    showdownPots pots 0 notFolded (communityCards s) (players s, [], []) ;;
  let s1 := setWinners (Some handResults) (setPlayers ps s) in
  Ok (endHand (onEvent (showdown_event results) (setState s1 e))).

(** *** Round advance *)

(** [advanceToNextRound]; it calls itself directly and through
    [startBettingRound] and [promptAction], each time after moving
    [bettingRound] one street on, so four nested calls are the most a hand
    can make. [fuel] bounds the nesting. *)
Fixpoint advanceToNextRound (fuel : nat) (now : Z) (e : GameEngine)
  : Res GameEngine :=
  match fuel with
  | O => Throw OutOfFuel
  | S fuel' =>
      let notFolded := notFoldedPlayers (state e) in
      if len notFolded <=? 1 then Ok (endHandFold (hd_error notFolded) e)
      else
        let canAct := filter (fun ip => negb (isAllIn (snd ip))) notFolded in
        match getNextBettingRound (state e) with
        | None => showdown e
        | Some nextRound =>
            let e1 := onState (setBettingRound nextRound) e in
            e2 <- dealCommunityCards nextRound e1 ;;
            if len canAct <=? 1 then advanceToNextRound fuel' now e2
            else startBettingRoundWith (advanceToNextRound fuel' now) now e2
        end
  end.

(** Nesting budget of one public call. *)
Definition roundFuel : nat := 5.

Definition startBettingRound (now : Z) (e : GameEngine) : Res GameEngine :=
  startBettingRoundWith (advanceToNextRound roundFuel now) now e.

Definition promptAction (now : Z) (e : GameEngine) : Res GameEngine :=
  promptActionWith (advanceToNextRound roundFuel now) now e.

(** The search loop of [findNextActor]: [k] iterations left, at offset [i]. *)
Fixpoint findNextActorFrom (activePlayers : list (nat * Player))
  (currentActiveIdx : Z) (k : nat) (i : Z) (s : GameState)
  : Res (option (nat * Player)) :=
  match k with
  | O => Ok None
  | S k' =>
      let idx := Z.rem (currentActiveIdx + i) (len activePlayers) in
      ip <- deref activePlayers idx ;;
      let player := snd ip in
      if hasFolded player || isAllIn player
      then findNextActorFrom activePlayers currentActiveIdx k' (i + 1) s
      else if currentBet player <? stateCurrentBet s then Ok (Some ip)
      else
        match bettingRound s, lastAction player with
        | preflop, None => Ok (Some ip)
        | _, _ => findNextActorFrom activePlayers currentActiveIdx k' (i + 1) s
        end
  end.

Definition findNextActor (s : GameState) : Res (option (nat * Player)) :=
  let activePlayers := getActivePlayers s in
  match getActivePlayer s with
  | None => Ok None
  | Some (ci, currentPlayer) =>
      let found := findIndex (fun ip => Nat.eqb (fst ip) ci) activePlayers in
      let currentActiveIdx :=
        if found <? 0 then
          let bySeat :=
            findIndex (fun ip => seatIndex (snd ip) >=? seatIndex currentPlayer)
              activePlayers in
          if bySeat <? 0 then 0 else bySeat
        else found in
      findNextActorFrom activePlayers currentActiveIdx (length activePlayers) 1 s
  end.

Definition advanceAction (now : Z) (e : GameEngine) : Res GameEngine :=
  nextPlayer <- findNextActor (state e) ;;
  match nextPlayer with
  | None => advanceToNextRound roundFuel now e
  | Some (i, _) =>
      promptAction now (onState (setActivePlayerIndex (Z.of_nat i)) e)
  end.

(** *** Actions *)

(** [amount] is truthy: given and not zero. *)
Definition truthy (amt : option Z) : bool :=
  match amt with
  | Some a => negb (a =? 0)
  | None => false
  end.

(** The chips a raise or all-in request adds ([raiseAmount]). *)
Definition raiseAmountOf (action : PlayerAction) (amt : option Z)
  (player : Player) : Z :=
  let isAllInRequest := match action with ActAllIn => true | _ => false end in
  if isAllInRequest
     || (truthy amt && (match amt with Some a => a | None => 0 end >=? chips player))
  then chips player
  else match amt with Some a => a | None => 0 end.

(** The [switch (action)] of [handleAction] applied to the player stored at
    position [i]; [None] stands for its [return false]. *)
Definition applyAction (i : nat) (player : Player) (action : ActionRequest)
  (amt : option Z) (s : GameState) : option GameState :=
  let toCall := stateCurrentBet s - currentBet player in
  match action with
  | Known ActFold =>
      Some (modifyPlayer i
              (fun p => setLastAction (Some ActFold) (setHasFolded true p)) s)
  | Known ActCheck =>
      if toCall >? 0 then None
      else Some (modifyPlayer i (setLastAction (Some ActCheck)) s)
  | Known ActCall =>
      let callAmount := Z.min toCall (chips player) in
      let p1 :=
        setLastAction (Some ActCall)
          (setTotalBetThisRound (totalBetThisRound player + callAmount)
             (setCurrentBet (currentBet player + callAmount)
                (setChips (chips player - callAmount) player))) in
      let p2 := if chips p1 =? 0 then setIsAllIn true p1 else p1 in
      Some (modifyPlayer i (fun _ => p2) (setPot (pot s + callAmount) s))
  | Known ((ActRaise | ActAllIn) as a) =>
      let raiseAmount := raiseAmountOf a amt player in
      let minRaiseTotal := stateCurrentBet s + minRaise s in
      let minAllowedBet := minRaiseTotal - currentBet player in
      if (raiseAmount <? minAllowedBet) && (raiseAmount <? chips player)
      then None
      else
        let newBet := currentBet player + raiseAmount in
        let raiseOver := newBet - stateCurrentBet s in
        let s1 :=
          if (raiseOver >? 0) && (raiseOver >=? minRaise s)
          then setMinRaise raiseOver (setLastRaiseAmount raiseOver s)
          else s in
        let p1 :=
          setTotalBetThisRound (totalBetThisRound player + raiseAmount)
            (setCurrentBet newBet
               (setChips (chips player - raiseAmount) player)) in
        let s2 := setPot (pot s1 + raiseAmount) s1 in
        let s3 :=
          if newBet >? stateCurrentBet s2 then setStateCurrentBet newBet s2
          else s2 in
        let p2 :=
          if chips p1 =? 0
          then setLastAction (Some ActAllIn) (setIsAllIn true p1)
          else setLastAction (Some ActRaise) p1 in
        Some (modifyPlayer i (fun _ => p2) s3)
  | Unknown _ => None
  end.

Definition handleAction (now : Z) (playerId : string) (action : ActionRequest)
  (amt : option Z) (e : GameEngine) : Res (bool * GameEngine) :=
  match findPlayer playerId (state e) with
  | None => Ok (false, e)
  | Some (i, player) =>
      match getActivePlayer (state e) with
      | None => Ok (false, e)
      | Some (_, activePlayer) =>
          if negb (String.eqb (id activePlayer) playerId) then Ok (false, e)
          else
            let e1 := clearActionTimer e in
            match applyAction i player action amt (state e1) with
            | None => Ok (false, e1)
            | Some s2 =>
                let e2 := setState s2 e1 in
                let e3 :=
                  match nth_error (players s2) i with
                  | Some p =>
                      onEvent (player_acted (id p) (lastAction p)
                                 (currentBet p) (pot s2) (chips p)) e2
                  | None => e2
                  end in
                let notFolded := notFoldedPlayers (state e3) in
                if len notFolded <=? 1
                then Ok (true, endHandFold (hd_error notFolded) e3)
                else e4 <- advanceAction now e3 ;; Ok (true, e4)
            end
      end
  end.

Definition removePlayer (now : Z) (pid : string) (e : GameEngine)
  : Res GameEngine :=
  match findPlayer pid (state e) with
  | None => Ok e
  | Some (idx, _) =>
      if handInProgress (state e) then
        let e1 :=
          onState (modifyPlayer idx
                     (fun p => setIsConnected false (setHasFolded true p))) e in
        match getActivePlayer (state e1) with
        | Some (_, a) =>
            if String.eqb (id a) pid
            then '(_, e2) <- handleAction now pid (Known ActFold) None e1 ;; Ok e2
            else Ok e1
        | None => Ok e1
        end
      else Ok (onState (fun s => setPlayers (removeAt idx (players s)) s) e)
  end.

(** The callback of the auto-fold timer set by [promptAction], run when the
    timeout elapses. *)
Definition actionTimerFires (now : Z) (e : GameEngine) : Res GameEngine :=
  match actionTimer e with
  | None => Ok e
  | Some pid =>
      let e1 := setActionTimer None e in
      match getActivePlayer (state e1) with
      | Some (_, a) =>
          if handInProgress (state e1) && String.eqb (id a) pid
          then '(_, e2) <- handleAction now pid (Known ActFold) None e1 ;; Ok e2
          else Ok e1
      | None => Ok e1
      end
  end.

(** *** Starting a hand *)

(** The per-player reset of [startHand]. *)
Definition resetForHand (p : Player) : Player :=
  mkPlayer (id p) (name p) (seatIndex p) (chips p) [] 0 0
    (negb (isConnected p) || (chips p =? 0) || isSittingOut p)
    false (isSittingOut p) None (isConnected p).

Definition startHand (rv : nat -> Z) (now : Z) (e : GameEngine)
  : Res GameEngine :=
  if negb (canStartHand (state e)) then Ok e
  else
    let s0 := state e in
    let s1 :=
      setPlayers
        (filter (fun p => (chips p >? 0) && isConnected p) (players s0)) s0 in
    let s2 :=
      setBettingRound preflop
        (setWinners None
           (setLastRaiseAmount (bigBlind s1)
              (setMinRaise (bigBlind s1)
                 (setStateCurrentBet 0
                    (setSidePots []
                       (setPot 0
                          (setCommunityCards []
                             (setHandNumber (handNumber s1 + 1)
                                (setHandInProgress true s1))))))))) in
    let s3 := setPlayers (map resetForHand (players s2)) s2 in
    s4 <- advanceDealer s3 ;;
    let e1 := setDeck (Some (newHandDeck rv)) (setState s4 e) in
    s5 <- postBlinds (state e1) ;;
    let e2 :=
      onEvent (hand_start (dealerSeatIndex s5) (handNumber s5)
                 (getPublicPlayers s5)) (setState s5 e1) in
    e3 <- dealHoleCards e2 ;;
    let e4 := onState (setBettingRound preflop) e3 in
    startBettingRound now e4.

(** *** Driving the engine *)

(** A call made on the engine by its operator. *)
Inductive Command : Type :=
| CmdAddPlayer (pid nm : string) (seat : Z)
| CmdRemovePlayer (now : Z) (pid : string)
| CmdSetPlayerConnected (pid : string) (connected : bool)
| CmdStartHand (rv : nat -> Z) (now : Z)
| CmdHandleAction (now : Z) (pid : string) (action : ActionRequest)
                  (amt : option Z)
| CmdTimerFires (now : Z).

Definition perform (c : Command) (e : GameEngine) : Res GameEngine :=
  match c with
  | CmdAddPlayer pid nm seat => Ok (snd (addPlayer pid nm seat e))
  | CmdRemovePlayer now pid => removePlayer now pid e
  | CmdSetPlayerConnected pid connected => Ok (setPlayerConnected pid connected e)
  | CmdStartHand rv now => startHand rv now e
  | CmdHandleAction now pid action amt =>
      '(_, e1) <- handleAction now pid action amt e ;; Ok e1
  | CmdTimerFires now => actionTimerFires now e
  end.

Fixpoint performAll (cs : list Command) (e : GameEngine) : Res GameEngine :=
  match cs with
  | [] => Ok e
  | c :: rest => e1 <- perform c e ;; performAll rest e1
  end.

(** The same run, which also tells whether every [handleAction] of the
    list returned [true]. *)
Fixpoint performAccepted (cs : list Command) (e : GameEngine)
  : Res (bool * GameEngine) :=
  match cs with
  | [] => Ok (true, e)
  | CmdHandleAction now pid action amt :: rest =>
      '(ok, e1) <- handleAction now pid action amt e ;;
      '(oks, e2) <- performAccepted rest e1 ;;
      Ok (ok && oks, e2)
  | c :: rest => e1 <- perform c e ;; performAccepted rest e1
  end.

(** All the chips on the table: the stacks of the seated players. *)
Definition totalChips (e : GameEngine) : Z :=
  sumZ (map chips (players (state e))).

(* ================================================================= *)
(** ** Notions used by the statements *)

(** Cards drawn from the deck of the current hand. *)
Definition cardsDrawn (e : GameEngine) : nat :=
  match deck e with
  | Some d => position d
  | None => O
  end.

(** The most cards a hand can have drawn once it is on a given street:
    two per seat for six seats, then a burn and three cards, a burn and one
    card, a burn and one card. *)
Definition streetBound (r : BettingRound) : nat :=
  match r with
  | preflop => 12
  | flop => 16
  | turn => 18
  | river => 20
  end.

(** The deck of the engine is a full deck whose cursor respects the street. *)
Definition DeckOK (e : GameEngine) : Prop :=
  match deck e with
  | None => True
  | Some d =>
      length (cards d) = 52%nat
      /\ (position d <= streetBound (bettingRound (state e)))%nat
  end.

(** Streets still to be dealt. *)
Definition streetsLeft (r : BettingRound) : nat :=
  match r with
  | preflop => 3
  | flop => 2
  | turn => 1
  | river => 0
  end.

(** The requestor of an action is the player on action. *)
Definition onAction (playerId : string) (s : GameState) : Prop :=
  exists i player a,
    findPlayer playerId s = Some (i, player)
    /\ getActivePlayer s = Some a
    /\ id (snd a) = playerId.

(** The four kinds of request the engine refuses. *)
Inductive Refused (playerId : string) (s : GameState)
  : ActionRequest -> option Z -> Prop :=
| refused_not_active action amt :
    ~ onAction playerId s -> Refused playerId s action amt
| refused_check i player amt :
    onAction playerId s ->
    findPlayer playerId s = Some (i, player) ->
    stateCurrentBet s - currentBet player > 0 ->
    Refused playerId s (Known ActCheck) amt
| refused_short_raise i player amt :
    onAction playerId s ->
    findPlayer playerId s = Some (i, player) ->
    raiseAmountOf ActRaise amt player
      < stateCurrentBet s + minRaise s - currentBet player ->
    raiseAmountOf ActRaise amt player < chips player ->
    Refused playerId s (Known ActRaise) amt
| refused_unknown tag amt :
    Refused playerId s (Unknown tag) amt.

(** The values of a hand in descending order, as the evaluator sorts them. *)
Definition descendingValues (cs : list Card) : list Z :=
  map (fun c => RANK_VALUES (rank c))
    (sortBy (fun a b => RANK_VALUES (rank b) - RANK_VALUES (rank a)) cs).

(** Words of a [Uint32Array] cell, [0 .. n-1], that satisfy [f]. *)
Definition countWords (f : Z -> bool) (n : nat) : Z :=
  len (filter f (map Z.of_nat (seq 0 n))).

(** Number of 32-bit words that select swap index [j] at step [i]. *)
Definition preimages (i : nat) (j : Z) : Z :=
  countWords (fun v => pickIndex v i =? j) (Z.to_nat (2 ^ 32)).




(* ================================================================= *)
(** ** Concrete tables *)

Definition zeroWords : nat -> Z := fun _ => 0.

Definition request (pid : string) (a : PlayerAction) (amt : option Z)
  : Command :=
  CmdHandleAction 0 pid (Known a) amt.

(** Three players seated at a fresh table (200 chips each). *)
Definition threeSeats : GameEngine :=
  snd (addPlayer "c" "C" 2
         (snd (addPlayer "b" "B" 1
                 (snd (addPlayer "a" "A" 0 (newGameEngine "room" "a")))))).

(** First hand (button a, blinds b and c): a raises to 199 and is called
    twice; b, first to act on the flop, folds, which closes the street; c,
    first to act on the turn, folds. Stacks become 598, 1, 1. *)
Definition firstHand : list Command :=
  [ CmdStartHand zeroWords 0;
    request "a" ActRaise (Some 199);
    request "b" ActCall None;
    request "c" ActCall None;
    request "b" ActFold None;
    request "c" ActFold None ].

(** Second hand: b has the button, c posts the small blind all-in, a posts
    the big blind; b calls all-in for one chip and a folds the big blind. *)
Definition secondHand : list Command :=
  [ CmdStartHand zeroWords 0;
    request "b" ActCall None;
    request "a" ActFold None ].

(** Six players seated at a fresh table. *)
Definition sixSeats : GameEngine :=
  snd (addPlayer "f" "F" 5
    (snd (addPlayer "e" "E" 4
      (snd (addPlayer "d" "D" 3 threeSeats))))).

(** A hand in which all six players end up all-in before the flop. *)
Definition sixWayAllIn : list Command :=
  [ CmdStartHand zeroWords 0;
    request "d" ActAllIn None;
    request "e" ActCall None;
    request "f" ActCall None;
    request "a" ActCall None;
    request "b" ActCall None;
    request "c" ActCall None ].

Definition card (r : Rank) (s : Suit) : Card := mkCard r s.

(** Scenario S3: hero A-2 of spades, villain K-K, board 3 4 5 9 J. *)
Definition boardS3 : list Card :=
  [card R3 diamonds; card R4 hearts; card R5 clubs; card R9 clubs; card RJ hearts].
Definition heroS3 : list Card := [card RA spades; card R2 spades] ++ boardS3.
Definition villainS3 : list Card := [card RK spades; card RK diamonds] ++ boardS3.

(** A table at showdown: the button is on seat 1; seats 1 and 2 have
    folded (seat 2 after posting one chip), seats 0 and 3 have 20 chips each
    in a pot of 41 and both play the board (kings and queens, ace kicker). *)
Definition splitSeat (pid : string) (seat stack total : Z) (hole : list Card)
  (folded : bool) : Player :=
  mkPlayer pid pid seat stack hole 0 total folded false false None true.

Definition splitPotTable : GameEngine :=
  mkGameEngine
    (mkGameState "room" "p0"
       [ splitSeat "p0" 0 180 20 [card R2 clubs; card R3 diamonds] false;
         splitSeat "p1" 1 200 0 [card R7 clubs; card R8 diamonds] true;
         splitSeat "p2" 2 199 1 [card R9 clubs; card R10 diamonds] true;
         splitSeat "p3" 3 180 20 [card R4 hearts; card R5 spades] false ]
       1 1 2 200 true river
       [card RK hearts; card RK spades; card RQ hearts; card RQ clubs;
        card RA diamonds]
       41 [] 0 2 2 0 None None 1)
    (Some (mkHandDeck createDeck 16)) None [].


(** The sum of the contributions, each capped at [level]. *)
Definition cappedTotal (bettors : list Player) (level : Z) : Z :=
  sumZ (map (fun p => Z.min (totalBetThisRound p) level) bettors).

(** [levels] ascends (weakly) and starts at or above [prev]. *)
Fixpoint ascendsFrom (prev : Z) (levels : list Z) : Prop :=
  match levels with
  | [] => True
  | level :: rest => prev <= level /\ ascendsFrom level rest
  end.

(** The table right after the first deal at [threeSeats]: a is on action
    facing the big blind. *)
Definition preflopTable : GameEngine :=
  Eval vm_compute in
  match startHand zeroWords 0 threeSeats with
  | Ok e => e
  | Throw _ => threeSeats
  end.

(** A wheel in mixed suits. *)
Definition wheelHand : list Card :=
  [card R3 diamonds; card RA spades; card R5 clubs; card R2 spades;
   card R4 hearts].

(** The table after [firstHand]: stacks 598, 1, 1, no hand in progress. *)
Definition afterFirstHand : GameEngine :=
  Eval vm_compute in
  match performAll firstHand threeSeats with
  | Ok e => e
  | Throw _ => threeSeats
  end.

(** The second hand just before a folds the big blind. *)
Definition beforeLastFold : GameEngine :=
  Eval vm_compute in
  match performAll (firstn 2 secondHand) afterFirstHand with
  | Ok e => e
  | Throw _ => afterFirstHand
  end.

(** The players and the pot once a has folded the big blind: what
    [calculatePots] reads at the showdown of the second hand. *)
Definition bigBlindFolded : GameState :=
  Eval vm_compute in
  match findPlayer "a" (state beforeLastFold) with
  | Some (i, p) =>
      match applyAction i p (Known ActFold) None (state beforeLastFold) with
      | Some s => s
      | None => state beforeLastFold
      end
  | None => state beforeLastFold
  end.

(** [e'] has the deck and the street of [e], and no more players. *)
Definition Frame (e e' : GameEngine) : Prop :=
  deck e' = deck e
  /\ bettingRound (state e') = bettingRound (state e)
  /\ (length (players (state e')) <= length (players (state e)))%nat.

(** What a step of the hand started at [e] guarantees of its outcome. *)
Definition Post (e e' : GameEngine) : Prop :=
  DeckOK e'
  /\ (length (players (state e')) <= length (players (state e)))%nat.

(** No more than the six seats of the table are taken. *)
Definition Seated (e : GameEngine) : Prop :=
  (length (players (state e)) <= 6)%nat.

(** Some active player sits on the dealer's seat. *)
Definition DealerSeated (s : GameState) : Prop :=
  exists ip,
    In ip (getActivePlayers s) /\ seatIndex (snd ip) = dealerSeatIndex s.

(** [p'] sits where [p] sat and is as active as [p] was. *)
Definition keepsSeat (p p' : Player) : Prop :=
  seatIndex p' = seatIndex p
  /\ isSittingOut p' = isSittingOut p
  /\ isConnected p' = isConnected p
  /\ (0 <= chips p -> 0 <= chips p').

(** Cards a street deals, its burn included. *)
Definition streetCards (r : BettingRound) : nat :=
  match r with
  | preflop => 1
  | flop => 4
  | turn => 2
  | river => 2
  end.

(** The dealer's seat can be found among the active players (or there are
    none to search). *)
Definition DealerPlaced (s : GameState) : Prop :=
  DealerSeated s \/ getActivePlayers s = [].

(** [findFirstActor] can index the active players from the dealer's seat. *)
Definition FirstActorSafe (s : GameState) : Prop :=
  bettingRound s <> preflop \/ DealerPlaced s.

(** The table invariant: at most six players, and a deck that respects the
    street. *)
Definition Inv (e : GameEngine) : Prop := Seated e /\ DeckOK e.

(** [e'] is on the street of [e] with the same raise bookkeeping. *)
Definition SameRaise (e e' : GameEngine) : Prop :=
  bettingRound (state e') = bettingRound (state e)
  /\ minRaise (state e') = minRaise (state e)
  /\ lastRaiseAmount (state e') = lastRaiseAmount (state e).

(** [e'] is on a later street than [e]. *)
Definition LaterStreet (e e' : GameEngine) : Prop :=
  (streetsLeft (bettingRound (state e'))
   < streetsLeft (bettingRound (state e)))%nat.

(** Length of the tiebreak vector the evaluator builds for each category. *)
Definition tiebreakLength (r : HandRank) : nat :=
  match r with
  | RoyalFlush | StraightFlush | Straight => 1
  | FourOfAKind | FullHouse => 2
  | ThreeOfAKind | TwoPair => 3
  | OnePair => 4
  | Flush | HighCard => 5
  end.

(** [c] picks elements of [l] in the order in which [l] lists them. *)
Inductive Subseq {A : Type} : list A -> list A -> Prop :=
| subseq_nil : Subseq [] []
| subseq_skip x c l : Subseq c l -> Subseq c (x :: l)
| subseq_take x c l : Subseq c l -> Subseq (x :: c) (x :: l).

(** Number of ways to choose [k] positions among [n]. *)
Fixpoint binomial (n k : nat) : nat :=
  match n, k with
  | _, O => 1
  | O, S _ => 0
  | S n', S k' => binomial n' k' + binomial n' k
  end.

(** The tiebreak vector of [h] has the length of its category. *)
Definition WellFormed (h : EvaluatedHand) : Prop :=
  length (eh_values h) = tiebreakLength (eh_rank h).

(** Three five-card hands: a pair of aces, two pair, a flush. *)
Definition pairOfAces : list Card :=
  [card RA spades; card RA hearts; card R9 clubs; card R5 clubs; card R2 hearts].
Definition twoPairHand : list Card :=
  [card RK spades; card RK hearts; card R9 clubs; card R9 spades; card R2 hearts].
Definition flushHand : list Card :=
  [card RK clubs; card R7 clubs; card R9 clubs; card R5 clubs; card R2 clubs].

(** The player on action at [preflopTable]. *)
Definition preflopActor : nat * Player :=
  (0%nat,
   mkPlayer "a" "A" 0 200 [card R3 hearts; card R4 hearts] 0 0
     false false false None true).

(** The players are listed by strictly ascending seat index, every seat
    index is between 0 and 5 (the bounds [addPlayer] tests), and the ids
    are distinct. *)
Definition Roster (ps : list Player) : Prop :=
  StronglySorted (fun a b => seatIndex a < seatIndex b) ps
  /\ NoDup (map id ps)
  /\ Forall (fun p => 0 <= seatIndex p <= 5) ps.

(** The player [addPlayer] seats. *)
Definition newcomer (pid nm : string) (seat : Z) (s : GameState) : Player :=
  mkPlayer pid nm seat (buyIn s) [] 0 0 false false false None true.

(** A pot that is paid only to players still in the hand, and holds
    chips. *)
Definition SoundPot (s : GameState) (sp : SidePot) : Prop :=
  0 < amount sp
  /\ forall pid,
      In pid (eligiblePlayerIds sp) ->
      exists p, In p (players s) /\ id p = pid /\ hasFolded p = false.

(* ================================================================= *)
(** ** The moves of a table *)

(** [e'] shows the same table as [e]: the same players, chips on the
    table, blinds, street, turn, board and deck. What may differ is what
    the engine reports: its events, its timer, the dealer's seat, the side
    pots, the last raise, the winners and the number of the hand. *)
Definition Quiet (e e' : GameEngine) : Prop :=
  players (state e') = players (state e)
  /\ pot (state e') = pot (state e)
  /\ stateCurrentBet (state e') = stateCurrentBet (state e)
  /\ minRaise (state e') = minRaise (state e)
  /\ smallBlind (state e') = smallBlind (state e)
  /\ bigBlind (state e') = bigBlind (state e)
  /\ buyIn (state e') = buyIn (state e)
  /\ handInProgress (state e') = handInProgress (state e)
  /\ bettingRound (state e') = bettingRound (state e)
  /\ activePlayerIndex (state e') = activePlayerIndex (state e)
  /\ communityCards (state e') = communityCards (state e)
  /\ deck e' = deck e.

(** The state [startHand] has built when it calls [advanceDealer]: busted
    and disconnected players removed, the hand fields and every player
    reset. *)
Definition handReset (s0 : GameState) : GameState :=
  let s1 :=
    setPlayers
      (filter (fun p => (chips p >? 0) && isConnected p) (players s0)) s0 in
  let s2 :=
    setBettingRound preflop
      (setWinners None
         (setLastRaiseAmount (bigBlind s1)
            (setMinRaise (bigBlind s1)
               (setStateCurrentBet 0
                  (setSidePots []
                     (setPot 0
                        (setCommunityCards []
                           (setHandNumber (handNumber s1 + 1)
                              (setHandInProgress true s1))))))))) in
  setPlayers (map resetForHand (players s2)) s2.

(** The reset [startBettingRound] makes on a street after the first. *)
Definition streetReset (s : GameState) : GameState :=
  setLastRaiseAmount (bigBlind s)
    (setMinRaise (bigBlind s)
       (setStateCurrentBet 0
          (setPlayers
             (map (fun p => setLastAction None (setCurrentBet 0 p))
                (players s)) s))).

(** [p'] is [p] but for its flags. *)
Definition SameStake (p p' : Player) : Prop :=
  id p' = id p
  /\ seatIndex p' = seatIndex p
  /\ chips p' = chips p
  /\ currentBet p' = currentBet p
  /\ totalBetThisRound p' = totalBetThisRound p
  /\ holeCards p' = holeCards p
  /\ isSittingOut p' = isSittingOut p.

(** One change the engine makes to a table, [addPlayer] apart. *)
Inductive Move : GameEngine -> GameEngine -> Prop :=
| move_quiet e e' :
    Quiet e e' -> Move e e'
| move_turn e j :
    handInProgress (state e) = true ->
    Move e (onState (setActivePlayerIndex j) e)
| move_street e :
    Move e (onState streetReset e)
| move_action e i player action amt s2 :
    nth_error (players (state e)) i = Some player ->
    applyAction i player action amt (state e) = Some s2 ->
    Move e (setState s2 e)
| move_deal e r e' :
    handInProgress (state e) = true ->
    getNextBettingRound (state e) = Some r ->
    dealCommunityCards r (onState (setBettingRound r) e) = Ok e' ->
    Move e e'
| move_fold_win e :
    handInProgress (state e) = true ->
    Move e (endHandFold (hd_error (notFoldedPlayers (state e))) e)
| move_showdown e e' :
    handInProgress (state e) = true ->
    showdown e = Ok e' ->
    Move e e'
| move_open e rv s4 s5 :
    canStartHand (state e) = true ->
    advanceDealer (handReset (state e)) = Ok s4 ->
    postBlinds s4 = Ok s5 ->
    Move e (setState s5 (setDeck (Some (newHandDeck rv)) (setState s4 e)))
| move_hole e d i cs d1 :
    deck e = Some d ->
    dealMultiple 2 d = Ok (cs, d1) ->
    Move e (setDeck (Some d1) (onState (modifyPlayer i (setHoleCards cs)) e))
| move_leave e idx :
    handInProgress (state e) = false ->
    Move e (onState (fun s => setPlayers (removeAt idx (players s)) s) e)
| move_flags e i f :
    (forall p, SameStake p (f p)) ->
    Move e (onState (modifyPlayer i f) e).

Inductive Moves : GameEngine -> GameEngine -> Prop :=
| moves_done e : Moves e e
| moves_next e e1 e2 : Move e e1 -> Moves e1 e2 -> Moves e e2.

(** Between hands nobody is on action. *)
Definition Idle (s : GameState) : Prop :=
  handInProgress s = false -> activePlayerIndex s = -1.

(** A command other than [addPlayer]. *)
Definition seatsNobody (c : Command) : bool :=
  match c with
  | CmdAddPlayer _ _ _ => false
  | _ => true
  end.

(** *** What the table keeps *)

(** The seat a player takes and the id it takes it under. *)
Definition seating (p : Player) : string * Z := (id p, seatIndex p).

(** [p'] is [p] with chips added. *)
Definition Raised (p p' : Player) : Prop :=
  exists w, 0 <= w /\ p' = setChips (chips p + w) p.

(** A stack and bets that are not negative, the bet of the street within
    [limit]. *)
Definition PlayerStake (limit : Z) (p : Player) : Prop :=
  0 <= chips p /\ 0 <= currentBet p <= limit /\ 0 <= totalBetThisRound p.

(** The blinds and the buy-in are the ones of the constructor, the minimum
    raise is at least the big blind, and no stack, bet or pot is
    negative. *)
Definition Stakes (s : GameState) : Prop :=
  smallBlind s = 1 /\ bigBlind s = 2 /\ buyIn s = 200
  /\ 2 <= minRaise s /\ 0 <= pot s /\ 0 <= stateCurrentBet s
  /\ Forall (PlayerStake (stateCurrentBet s)) (players s).

(** During a hand the pot is what the players at the table have put in. *)
Definition PotBacked (s : GameState) : Prop :=
  handInProgress s = true ->
  pot s = sumZ (map totalBetThisRound (players s)).

(** The cards on the table: every hole card, then the board. *)
Definition dealtCards (s : GameState) : list Card :=
  flat_map holeCards (players s) ++ communityCards s.

(** The cards on the table are distinct cards taken from the part of the
    deck already dealt; without a deck there are none. *)
Definition CardsOK (e : GameEngine) : Prop :=
  match deck e with
  | None => dealtCards (state e) = []
  | Some d =>
      NoDup (cards d)
      /\ NoDup (dealtCards (state e))
      /\ incl (dealtCards (state e)) (firstn (position d) (cards d))
  end.

(** Cards on the board on each street. *)
Definition boardSize (r : BettingRound) : nat :=
  match r with
  | preflop => 0
  | flop => 3
  | turn => 4
  | river => 5
  end.

(** Every player holds no or two hole cards, the board has the size of the
    street, and a hand in progress has a deck. *)
Definition BoardOK (e : GameEngine) : Prop :=
  Forall (fun p => holeCards p = [] \/ length (holeCards p) = 2%nat)
    (players (state e))
  /\ length (communityCards (state e)) = boardSize (bettingRound (state e))
  /\ (handInProgress (state e) = true -> deck e <> None).

(** The chips in the game: the stacks, and the pot of a hand in progress. *)
Definition chipsInGame (e : GameEngine) : Z :=
  totalChips e + (if handInProgress (state e) then pot (state e) else 0).

(** The calls of [addPlayer] in a list of commands. *)
Definition seatingsOf (cs : list Command) : Z :=
  len (filter (fun c => negb (seatsNobody c)) cs).

(** Everything the engine keeps of a table. *)
Definition Table (e : GameEngine) : Prop :=
  Roster (players (state e))
  /\ Stakes (state e)
  /\ PotBacked (state e)
  /\ Idle (state e)
  /\ CardsOK e
  /\ BoardOK e.

(** A player the betting still waits for: in the hand, not all-in, and
    either behind the bet of the street or, before the flop, yet to act. *)
Definition owesAction (s : GameState) (p : Player) : bool :=
  negb (hasFolded p) && negb (isAllIn p)
  && ((currentBet p <? stateCurrentBet s)
      || match bettingRound s, lastAction p with
         | preflop, None => true
         | _, _ => false
         end).

(** A player who can still bet: in the hand and not all-in. *)
Definition canBet (p : Player) : bool :=
  negb (hasFolded p) && negb (isAllIn p).

(** [splitPotTable] after its showdown. *)
Definition splitPotPaid : GameEngine :=
  Eval vm_compute in
  match showdown splitPotTable with
  | Ok e => e
  | Throw _ => splitPotTable
  end.

(** [p'] is [p] with winnings added, none if [p] has folded. *)
Definition Paid (p p' : Player) : Prop :=
  exists w,
    0 <= w /\ p' = setChips (chips p + w) p
    /\ (if hasFolded p then w = 0 else True).

(* ================================================================= *)
(** ** Room codes (connection.ts) *)

(** [chars] of [generateRoomCode]. *)
Definition roomCodeChars : string := "ABCDEFGHJKLMNPQRSTUVWXYZ23456789".

(** A cell of a [Uint8Array]. *)
Definition uint8 (v : Z) : Z := v mod 2 ^ 8.

(** [chars[i]] as [join] renders it: the character at [i], nothing where
    the index reads [undefined]. *)
Definition charAt (chars : string) (i : Z) : string :=
  if i <? 0 then EmptyString
  else
    match String.get (Z.to_nat i) chars with
    | Some c => String c EmptyString
    | None => EmptyString
    end.

(** [rv i] is the byte [crypto.getRandomValues] wrote at index [i]. *)
Definition generateRoomCode (rv : nat -> Z) : string :=
  String.concat EmptyString
    (map (fun i => charAt roomCodeChars
                     (Z.rem (uint8 (rv i))
                        (Z.of_nat (String.length roomCodeChars))))
       (seq 0 6)).

(** Number of bytes that select the character at index [k]. *)
Definition bytesFor (k : Z) : Z :=
  countWords (fun v => Z.rem v (Z.of_nat (String.length roomCodeChars)) =? k)
    256.

(** The state [postBlinds] leaves at [threeSeats] before any hand: seat 0
    has posted the small blind, seat 1 the big blind. *)
Definition blindsPosted : GameState :=
  Eval vm_compute in
  match postBlinds (state threeSeats) with
  | Ok s => s
  | Throw _ => state threeSeats
  end.

(** [p'] is [p] after posting [min (blind, chips)]. *)
Definition Posted (blind : Z) (p p' : Player) : Prop :=
  let x := Z.min blind (chips p) in
  chips p' = chips p - x
  /\ currentBet p' = x
  /\ totalBetThisRound p' = x
  /\ isAllIn p' = (if chips p - x =? 0 then true else isAllIn p)
  /\ id p' = id p /\ seatIndex p' = seatIndex p
  /\ holeCards p' = holeCards p /\ hasFolded p' = hasFolded p.

(** [threeSeats] with a deck in factory order, as [dealHoleCards] finds
    the table of a first hand, and the table after it. *)
Definition readyToDeal : GameEngine :=
  setDeck (Some (mkHandDeck createDeck 0)) threeSeats.

Definition holeCardsDealt : GameEngine :=
  Eval vm_compute in
  match dealHoleCards readyToDeal with
  | Ok e => e
  | Throw _ => readyToDeal
  end.

(** The event tells the player at the position of [ip] the two cards its
    record holds in [s]. *)
Definition ToldItsCards (s : GameState) (ip : nat * Player) (ev : GameEvent)
  : Prop :=
  exists cs p',
    ev = hole_cards (id (snd ip)) cs
    /\ length cs = 2%nat
    /\ nth_error (players s) (fst ip) = Some p'
    /\ holeCards p' = cs
    /\ id p' = id (snd ip).

(** Nobody at the table is sitting out: the engine never sets the flag. *)
Definition NobodySitsOut (s : GameState) : Prop :=
  Forall (fun p => isSittingOut p = false) (players s).

(** What the betting code needs of a table: sound stakes and nobody
    sitting out. *)
Definition Ready (e : GameEngine) : Prop :=
  Stakes (state e) /\ NobodySitsOut (state e).

(** While a hand is in progress, the player on action is connected, in the
    hand and not all-in, and the auto-fold timer runs for that player. *)
Definition Prompted (e : GameEngine) : Prop :=
  if handInProgress (state e) then
    exists i p,
      getActivePlayer (state e) = Some (i, p)
      /\ canBet p = true
      /\ isConnected p = true
      /\ actionTimer e = Some (id p)
  else True.


(* ================================================================= *)
(** * Properties *)

(** Case analysis on every test the goal branches on. *)
Ltac break_if :=
  repeat match goal with
         | |- context [if ?b then _ else _] => destruct b
         end.

(** Facts about steps that leave the deck and the street alone. *)
Create HintDb frames.

(* ================================================================= *)
(** ** Starting a hand *)

Lemma canStartHand_false_iff s :
  canStartHand s = false
  <-> len (filter (fun p => isConnected p && (chips p >? 0)
                            && negb (isSittingOut p)) (players s)) < 2
      \/ handInProgress s = true.
Proof.
  unfold canStartHand.
  rewrite andb_false_iff, negb_false_iff, Z.geb_leb, Z.leb_gt. tauto.
Qed.

(** C10. When [canStartHand] is false, [startHand] returns at once: the
    table state, the deck, the timer and the event log are those of the
    engine it was called on. *)
Theorem startHand_unmet_precondition_noop :
  forall rv now e,
    canStartHand (state e) = false -> startHand rv now e = Ok e.
Proof.
  intros rv now e H. unfold startHand. rewrite H. reflexivity.
Qed.

Lemma startHand_unmet_precondition_noop_witness :
  canStartHand (state (newGameEngine "room" "a")) = false
  /\ startHand zeroWords 0 (newGameEngine "room" "a")
     = Ok (newGameEngine "room" "a").
Proof.
  split; [reflexivity | apply startHand_unmet_precondition_noop; reflexivity].
Defined.

(** ** Refused requests *)

Lemma onAction_inv pid s i player :
  onAction pid s -> findPlayer pid s = Some (i, player) ->
  exists j a, getActivePlayer s = Some (j, a) /\ String.eqb (id a) pid = true.
Proof.
  intros (i' & p' & [j a] & _ & Ha & Hid) _.
  exists j, a. split; [exact Ha|]. simpl in Hid. subst pid. apply String.eqb_refl.
Qed.

(** C5. A request from someone who is not on action, a check facing a bet,
    a raise below the minimum that is not all-in, and an unknown action all
    make [handleAction] return [false]; the table state is unchanged and
    nothing is emitted (nor is the deck touched). *)
Theorem handleAction_refused_is_noop :
  forall now pid action amt e,
    Refused pid (state e) action amt ->
    exists e',
      handleAction now pid action amt e = Ok (false, e')
      /\ state e' = state e
      /\ emitted e' = emitted e
      /\ deck e' = deck e.
Proof.
  intros now pid action amt e H.
  destruct H as [action amt Hna | i player amt Hon Hf Hcall
                | i player amt Hon Hf Hlow Hshort | tag amt].
  - unfold handleAction.
    destruct (findPlayer pid (state e)) as [[i player]|] eqn:Hf;
      [|exists e; auto].
    destruct (getActivePlayer (state e)) as [[j a]|] eqn:Ha;
      [|exists e; auto].
    destruct (String.eqb (id a) pid) eqn:Hid; simpl; [|exists e; auto].
    exfalso. apply Hna. exists i, player, (j, a).
    repeat split; auto. simpl. now apply String.eqb_eq.
  - destruct (onAction_inv _ _ _ _ Hon Hf) as (j & a & Ha & Hid).
    unfold handleAction. rewrite Hf, Ha, Hid. simpl.
    replace (stateCurrentBet (state e) - currentBet player >? 0) with true
      by (symmetry; apply Z.gtb_lt; lia).
    exists (clearActionTimer e). auto.
  - destruct (onAction_inv _ _ _ _ Hon Hf) as (j & a & Ha & Hid).
    unfold handleAction. rewrite Hf, Ha, Hid. simpl.
    replace (raiseAmountOf ActRaise amt player
             <? stateCurrentBet (state e) + minRaise (state e) - currentBet player)
      with true by (symmetry; apply Z.ltb_lt; lia).
    replace (raiseAmountOf ActRaise amt player <? chips player)
      with true by (symmetry; apply Z.ltb_lt; lia).
    simpl. exists (clearActionTimer e). auto.
  - unfold handleAction.
    destruct (findPlayer pid (state e)) as [[i player]|];
      [|exists e; auto].
    destruct (getActivePlayer (state e)) as [[j a]|];
      [|exists e; auto].
    destruct (String.eqb (id a) pid); simpl;
      [exists (clearActionTimer e) | exists e]; auto.
Qed.

Lemma handleAction_refused_is_noop_witness :
  Refused "a" (state preflopTable) (Known ActCheck) None
  /\ exists e',
       handleAction 0 "a" (Known ActCheck) None preflopTable = Ok (false, e')
       /\ state e' = state preflopTable
       /\ emitted e' = emitted preflopTable
       /\ deck e' = deck preflopTable.
Proof.
  assert (H : Refused "a" (state preflopTable) (Known ActCheck) None).
  { eapply refused_check.
    - unfold onAction. do 3 eexists. repeat split; reflexivity.
    - reflexivity.
    - vm_compute. reflexivity. }
  split; [exact H | apply handleAction_refused_is_noop; exact H].
Defined.

(** The private timer handle is not part of the table state: a request
    refused inside the switch has already cleared it. *)
Remark refused_check_clears_timer :
  actionTimer preflopTable = Some "a"%string
  /\ exists e',
       handleAction 0 "a" (Known ActCheck) None preflopTable = Ok (false, e')
       /\ actionTimer e' = None.
Proof. split; [reflexivity|]. eexists. split; reflexivity. Qed.

(** ** Sorting *)

Lemma insertBy_perm {A} (cmp : A -> A -> Z) x l :
  Permutation (x :: l) (insertBy cmp x l).
Proof.
  induction l as [|y l IH]; simpl; [apply Permutation_refl|].
  destruct (cmp x y <=? 0); [apply Permutation_refl|].
  eapply perm_trans; [apply perm_swap|]. now apply perm_skip.
Qed.

Lemma sortBy_perm {A} (cmp : A -> A -> Z) l : Permutation l (sortBy cmp l).
Proof.
  induction l as [|x l IH]; simpl; [constructor|].
  eapply perm_trans; [apply perm_skip, IH | apply insertBy_perm].
Qed.

Lemma sortBy_length {A} (cmp : A -> A -> Z) l :
  length (sortBy cmp l) = length l.
Proof. symmetry. apply Permutation_length, sortBy_perm. Qed.

(** ** The wheel *)

Lemma isFlushOf_true_iff suits :
  isFlushOf suits = true <-> forall a b, In a suits -> In b suits -> a = b.
Proof.
  assert (Heq : forall a b, suit_eqb a b = true <-> a = b).
  { intros a b. destruct a, b; simpl; split; intro H; try reflexivity;
      discriminate. }
  destruct suits as [|s0 rest]; simpl.
  - split; [intros _ a b []| reflexivity].
  - rewrite andb_true_iff, forallb_forall. split.
    + intros [_ Hall] a b Ha Hb.
      assert (Hs : forall x, In x (s0 :: rest) -> x = s0).
      { intros x [Hx|Hx]; [now subst|]. apply Heq. now apply Hall. }
      rewrite (Hs a Ha), (Hs b Hb). reflexivity.
    + intros Hall. split; [now apply Heq|].
      intros x Hx. apply Heq. apply Hall; simpl; auto.
Qed.

Lemma isFlushOf_perm l l' :
  Permutation l l' -> isFlushOf l = isFlushOf l'.
Proof.
  intros HP.
  destruct (isFlushOf l) eqn:E1, (isFlushOf l') eqn:E2; try reflexivity.
  - rewrite <- E2. symmetry. apply isFlushOf_true_iff.
    intros a b Ha Hb. apply (proj1 (isFlushOf_true_iff l) E1);
      eapply Permutation_in; try eassumption; now apply Permutation_sym.
  - rewrite <- E1. apply isFlushOf_true_iff.
    intros a b Ha Hb. apply (proj1 (isFlushOf_true_iff l') E2);
      eapply Permutation_in; eassumption.
Qed.

(** C6. A five-card hand whose values in descending order are
    14, 5, 4, 3, 2 and whose suits are not all equal evaluates to a Straight
    with tiebreak [5]; in scenario S3 the hero's best hand is that straight,
    the villain's is a pair of kings, and [compareHands] ranks the hero
    above the villain. *)
Theorem wheel_is_five_high_straight :
  forall cs,
    descendingValues cs = [14; 5; 4; 3; 2] ->
    isFlushOf (map suit cs) = false ->
    (exists h,
        evaluateFiveCards cs = Ok h
        /\ eh_rank h = Straight /\ eh_values h = [5])
    /\ (exists hero villain,
           evaluateBestHand heroS3 = Ok hero
           /\ evaluateBestHand villainS3 = Ok villain
           /\ eh_rank hero = Straight /\ eh_values hero = [5]
           /\ eh_rank villain = OnePair /\ eh_values villain = [13; 11; 9; 5]
           /\ compareHands hero villain > 0).
Proof.
  intros cs Hv Hf. split.
  - unfold evaluateFiveCards.
    change (map (fun c => RANK_VALUES (rank c))
              (sortBy (fun a b => RANK_VALUES (rank b) - RANK_VALUES (rank a)) cs))
      with (descendingValues cs).
    rewrite Hv.
    rewrite <- (isFlushOf_perm (map suit cs)), Hf
      by (apply Permutation_map, sortBy_perm).
    eexists. split; [reflexivity|]. split; reflexivity.
  - do 2 eexists. vm_compute. repeat split; reflexivity.
Qed.

Lemma wheel_is_five_high_straight_witness :
  descendingValues wheelHand = [14; 5; 4; 3; 2]
  /\ isFlushOf (map suit wheelHand) = false
  /\ exists h,
       evaluateFiveCards wheelHand = Ok h
       /\ eh_rank h = Straight /\ eh_values h = [5].
Proof.
  split; [reflexivity|]. split; [reflexivity|].
  apply (wheel_is_five_high_straight wheelHand); reflexivity.
Defined.
(** ** Index selection of the shuffle *)

Lemma countWords_succ f n :
  countWords f (S n)
  = countWords f n + (if f (Z.of_nat n) then 1 else 0).
Proof.
  unfold countWords, len.
  rewrite seq_S, map_app, filter_app, length_app, Nat2Z.inj_add. simpl.
  destruct (f (Z.of_nat n)); reflexivity.
Qed.

Lemma countWords_residue m j n :
  0 < m -> 0 <= j < m ->
  countWords (fun v => Z.rem v m =? j) n
  = Z.of_nat n / m + (if j <? Z.of_nat n mod m then 1 else 0).
Proof.
  intros Hm Hj. induction n as [|n IH].
  - unfold countWords. simpl. rewrite Z.mod_0_l by lia.
    destruct (Z.ltb_spec j 0); [lia | reflexivity].
  - rewrite countWords_succ, IH. clear IH.
    rewrite Z.rem_mod_nonneg by lia.
    rewrite Nat2Z.inj_succ. unfold Z.succ.
    set (x := Z.of_nat n). assert (Hx : 0 <= x) by (subst x; lia).
    pose proof (Z.div_mod x m ltac:(lia)) as Hdm.
    pose proof (Z.mod_pos_bound x m Hm) as Hb.
    destruct (Z.eq_dec (x mod m + 1) m) as [Hw | Hw].
    + assert (Hq : (x + 1) / m = x / m + 1).
      { symmetry. apply (Z.div_unique _ _ _ 0); lia. }
      assert (Hr : (x + 1) mod m = 0).
      { symmetry. apply (Z.mod_unique _ _ (x / m + 1)); lia. }
      rewrite Hq, Hr.
      destruct (Z.ltb_spec j (x mod m)), (Z.eqb_spec (x mod m) j),
        (Z.ltb_spec j 0); lia.
    + assert (Hq : (x + 1) / m = x / m).
      { symmetry. apply (Z.div_unique _ _ _ (x mod m + 1)); lia. }
      assert (Hr : (x + 1) mod m = x mod m + 1).
      { symmetry. apply (Z.mod_unique _ _ (x / m)); lia. }
      rewrite Hq, Hr.
      destruct (Z.ltb_spec j (x mod m)), (Z.eqb_spec (x mod m) j),
        (Z.ltb_spec j (x mod m + 1)); lia.
Qed.

Lemma preimages_closed_form i j :
  0 <= j <= Z.of_nat i ->
  preimages i j
  = 2 ^ 32 / (Z.of_nat i + 1)
    + (if j <? 2 ^ 32 mod (Z.of_nat i + 1) then 1 else 0).
Proof.
  intros Hj. unfold preimages, pickIndex.
  remember (Z.to_nat (2 ^ 32)) as n eqn:Hn.
  rewrite countWords_residue by lia.
  assert (Hz : Z.of_nat n = 2 ^ 32) by (subst n; apply Z2Nat.id; lia).
  rewrite Hz. reflexivity.
Qed.

(** The selection of step [i] is free of bias exactly when [i + 1] divides
    2^32. *)
Lemma shuffle_index_unbiased_iff i :
  (forall j k,
      0 <= j <= Z.of_nat i -> 0 <= k <= Z.of_nat i ->
      preimages i j = preimages i k)
  <-> 2 ^ 32 mod (Z.of_nat i + 1) = 0.
Proof.
  pose proof (Z.mod_pos_bound (2 ^ 32) (Z.of_nat i + 1) ltac:(lia)) as Hb.
  split.
  - intros H. specialize (H 0 (Z.of_nat i) ltac:(lia) ltac:(lia)).
    rewrite !preimages_closed_form in H by lia.
    destruct (Z.ltb_spec 0 (2 ^ 32 mod (Z.of_nat i + 1))),
      (Z.ltb_spec (Z.of_nat i) (2 ^ 32 mod (Z.of_nat i + 1))); lia.
  - intros H j k Hj Hk. rewrite !preimages_closed_form by lia. rewrite H.
    destruct (Z.ltb_spec j 0), (Z.ltb_spec k 0); lia.
Qed.

(** C9 (the code at step [i = 2]). Of the 2^32 words, 1431655766 select
    index 0 and 1431655765 select index 1 (and as many index 2): the three
    indexes do not have the same number of preimages. *)
Theorem shuffle_index_biased_at_step_2 :
  preimages 2 0 = 1431655766
  /\ preimages 2 1 = 1431655765
  /\ preimages 2 2 = 1431655765
  /\ preimages 2 0 <> preimages 2 1.
Proof.
  rewrite !preimages_closed_form by lia.
  repeat split; try reflexivity. vm_compute. discriminate.
Qed.

(** ** The pot builder *)

Lemma sumZ_app l1 l2 : sumZ (l1 ++ l2) = sumZ l1 + sumZ l2.
Proof. unfold sumZ. induction l1; simpl; lia. Qed.

Lemma levelLoop_amount bettors level prev a el :
  prev <= level ->
  fst (levelLoop bettors level prev a el)
  = a + cappedTotal bettors level - cappedTotal bettors prev.
Proof.
  intros Hle. revert a el.
  induction bettors as [|p rest IH]; intros a el; simpl.
  - unfold cappedTotal; simpl; lia.
  - rewrite IH. unfold cappedTotal; simpl. fold (cappedTotal rest level).
    fold (cappedTotal rest prev).
    destruct (Z.gtb_spec (Z.min (totalBetThisRound p) level - prev) 0); lia.
Qed.

Lemma cappedTotal_mono bettors a b :
  a <= b -> cappedTotal bettors a <= cappedTotal bettors b.
Proof.
  intros Hab. unfold cappedTotal.
  induction bettors as [|p rest IH]; simpl; lia.
Qed.

Lemma levelsLoop_processed bettors levels pots processed prev :
  ascendsFrom prev levels ->
  let '(pots', processed', prev') :=
    levelsLoop bettors levels (pots, processed, prev) in
  sumZ (map amount pots') = sumZ (map amount pots) + (processed' - processed)
  /\ processed' - processed
     = cappedTotal bettors prev' - cappedTotal bettors prev.
Proof.
  revert pots processed prev.
  induction levels as [|level rest IH]; intros pots processed prev Hasc.
  - simpl. split; lia.
  - destruct Hasc as [Hle Hrest].
    cbn [levelsLoop].
    pose proof (levelLoop_amount bettors level prev 0 [] Hle) as Hamt.
    destruct (levelLoop bettors level prev 0 []) as [potAmount eligible].
    simpl in Hamt.
    pose proof (cappedTotal_mono bettors prev level Hle) as Hmono.
    destruct (Z.gtb_spec potAmount 0) as [Hpos | Hzero].
    + specialize (IH (pots ++ [mkSidePot potAmount eligible])
                     (processed + potAmount) level Hrest).
      destruct (levelsLoop bettors rest
                  (pots ++ [mkSidePot potAmount eligible],
                   processed + potAmount, level))
        as [[pots' processed'] prev'].
      destruct IH as (H1 & H2).
      rewrite map_app, sumZ_app in H1. simpl in H1.
      split; lia.
    + specialize (IH pots processed level Hrest).
      destruct (levelsLoop bettors rest (pots, processed, level))
        as [[pots' processed'] prev'].
      destruct IH as (H1 & H2).
      split; lia.
Qed.

Lemma insertBy_ascends m x l :
  m <= x -> ascendsFrom m l -> ascendsFrom m (insertBy (fun a b => a - b) x l).
Proof.
  revert m. induction l as [|y l IH]; intros m Hm Hl; simpl.
  - auto.
  - destruct Hl as [Hmy Hl].
    destruct (Z.leb_spec (x - y) 0); simpl.
    + repeat split; auto; lia.
    + split; [exact Hmy|]. apply IH; [lia | exact Hl].
Qed.

Lemma sortBy_ascends m l :
  Forall (fun x => m <= x) l -> ascendsFrom m (sortBy (fun a b => a - b) l).
Proof.
  induction 1 as [|x l Hx Hl IH]; simpl; [exact I|].
  now apply insertBy_ascends.
Qed.

Lemma dedupe_incl seen l x : In x (dedupe seen l) -> In x l.
Proof.
  revert seen. induction l as [|y l IH]; intros seen; simpl; [auto|].
  destruct (existsb (Z.eqb y) seen).
  - intro H. right. eauto.
  - intros [H|H]; [now left | right; eauto].
Qed.

Lemma bettors_total ps :
  Forall (fun p => 0 <= totalBetThisRound p) ps ->
  sumZ (map totalBetThisRound (filter (fun p => totalBetThisRound p >? 0) ps))
  = sumZ (map totalBetThisRound ps).
Proof.
  induction 1 as [|p ps Hp Hps IH]; simpl; [reflexivity|].
  destruct (Z.gtb_spec (totalBetThisRound p) 0); simpl; lia.
Qed.

Lemma cappedTotal_le_total bettors level :
  cappedTotal bettors level <= sumZ (map totalBetThisRound bettors).
Proof.
  unfold cappedTotal. induction bettors as [|p rest IH]; simpl; lia.
Qed.

Lemma cappedTotal_zero ps :
  cappedTotal (filter (fun p => totalBetThisRound p >? 0) ps) 0 = 0.
Proof.
  unfold cappedTotal. induction ps as [|p rest IH]; simpl; [reflexivity|].
  destruct (Z.gtb_spec (totalBetThisRound p) 0); simpl; lia.
Qed.

(** C2. When every contribution is non-negative and the pot is the sum of
    the contributions of all players, folded ones included, the amounts of
    the pots built by [calculatePots] add up to the pot. *)
Theorem calculatePots_amounts_sum_to_pot :
  forall s,
    Forall (fun p => 0 <= totalBetThisRound p) (players s) ->
    pot s = sumZ (map totalBetThisRound (players s)) ->
    sumZ (map amount (calculatePots s)) = pot s.
Proof.
  intros s Hnn Hpot. unfold calculatePots.
  set (activePlayers := filter (fun p => negb (hasFolded p)) (players s)).
  set (allIn := sortBy (fun a b => totalBetThisRound a - totalBetThisRound b)
                  (filter isAllIn activePlayers)).
  destruct (len allIn =? 0); [simpl; lia|].
  set (bettors := filter (fun p => totalBetThisRound p >? 0) (players s)).
  set (levels := sortBy (fun a b => a - b)
                   (dedupe [] (map totalBetThisRound allIn))).
  assert (Hasc : ascendsFrom 0 levels).
  { apply sortBy_ascends. apply Forall_forall. intros x Hx.
    apply dedupe_incl in Hx. apply in_map_iff in Hx.
    destruct Hx as (p & <- & Hp).
    apply (Permutation_in _ (Permutation_sym (sortBy_perm _ _))) in Hp.
    apply filter_In in Hp. destruct Hp as [Hp _].
    apply filter_In in Hp. destruct Hp as [Hp _].
    rewrite Forall_forall in Hnn. now apply Hnn. }
  pose proof (levelsLoop_processed bettors levels [] 0 0 Hasc) as HL.
  destruct (levelsLoop bettors levels ([], 0, 0)) as [[pots processed] prev].
  destruct HL as (H1 & H2). simpl in H1.
  assert (Hcap : processed <= pot s).
  { pose proof (cappedTotal_le_total bettors prev).
    pose proof (cappedTotal_zero (players s)) as Hz. fold bettors in Hz.
    pose proof (bettors_total (players s) Hnn) as Hb. fold bettors in Hb.
    lia. }
  destruct (Z.gtb_spec (pot s - processed) 0) as [Hrem | Hrem].
  - unfold len. rewrite length_app. simpl.
    replace (Z.of_nat (length pots + 1) =? 0) with false
      by (symmetry; apply Z.eqb_neq; lia).
    rewrite map_app, sumZ_app. simpl. lia.
  - destruct (Z.eqb_spec (len pots) 0) as [He | He].
    + rewrite map_app, sumZ_app. simpl.
      assert (pots = []) by (destruct pots; [reflexivity | discriminate]).
      subst pots. simpl in *. lia.
    + lia.
Qed.

Lemma calculatePots_amounts_sum_to_pot_witness :
  Forall (fun p => 0 <= totalBetThisRound p) (players bigBlindFolded)
  /\ pot bigBlindFolded = sumZ (map totalBetThisRound (players bigBlindFolded))
  /\ sumZ (map amount (calculatePots bigBlindFolded)) = pot bigBlindFolded.
Proof.
  assert (H1 : Forall (fun p => 0 <= totalBetThisRound p)
                 (players bigBlindFolded)).
  { repeat constructor; simpl; lia. }
  assert (H2 : pot bigBlindFolded
               = sumZ (map totalBetThisRound (players bigBlindFolded)))
    by reflexivity.
  split; [exact H1|]. split; [exact H2|].
  apply calculatePots_amounts_sum_to_pot; [exact H1 | exact H2].
Defined.

(** The builder reads the players and the pot, nothing else of the table:
    the cards dealt between the last action and the showdown do not
    change what it returns. *)
Lemma calculatePots_reads_players_and_pot s s' :
  players s' = players s -> pot s' = pot s ->
  calculatePots s' = calculatePots s.
Proof. intros Hp Hpot. unfold calculatePots. now rewrite Hp, Hpot. Qed.

(** C3 (the code at the showdown of [secondHand]). Both remaining players
    are all-in for one chip and the folded big blind has two chips in the
    pot: the builder returns the pot of 3 for b and c, and a remainder pot
    of 1 chip whose eligibility list is empty. *)
Theorem remainder_pot_without_eligible_player :
  map (fun p => (id p, totalBetThisRound p, hasFolded p, isAllIn p))
    (players bigBlindFolded)
  = [("a", 2, true, false); ("b", 1, false, true); ("c", 1, false, true)]%string
  /\ pot bigBlindFolded = 4
  /\ calculatePots bigBlindFolded
     = [mkSidePot 3 ["b"; "c"]; mkSidePot 1 []]%string.
Proof. repeat split; reflexivity. Qed.

(** ** Chip conservation *)

(** C1 (the code on [firstHand] followed by [secondHand]). The three
    players sit down with 600 chips between them and still hold 600 after
    the first hand; the second hand runs from its start to its end, every
    action in it is accepted, and it leaves 599 chips on the table. *)
Theorem chips_lost_when_blind_folds_to_all_ins :
  totalChips threeSeats = 600
  /\ performAccepted firstHand threeSeats = Ok (true, afterFirstHand)
  /\ totalChips afterFirstHand = 600
  /\ handInProgress (state afterFirstHand) = false
  /\ exists e,
       performAccepted secondHand afterFirstHand = Ok (true, e)
       /\ handInProgress (state e) = false
       /\ map (fun p => (id p, chips p)) (players (state e))
          = [("a", 596); ("b", 0); ("c", 3)]%string
       /\ totalChips e = 599.
Proof.
  split; [reflexivity|]. split; [vm_compute; reflexivity|].
  split; [reflexivity|]. split; [reflexivity|].
  eexists. split; [vm_compute; reflexivity|].
  repeat split; reflexivity.
Qed.

(** ** Splitting a pot *)

Lemma nth_error_updateAt {A} (f : A -> A) l j i :
  nth_error (updateAt j f l) i
  = if Nat.eqb i j then option_map f (nth_error l i) else nth_error l i.
Proof.
  revert j i. induction l as [|a l IH]; intros [|j] [|i]; simpl; auto;
    destruct (Nat.eqb _ _); reflexivity.
Qed.








(** ** The deck never runs out *)

(** *** Dealing *)

Lemma deal_ok d :
  (position d < length (cards d))%nat ->
  exists c, deal d = Ok (c, mkHandDeck (cards d) (S (position d))).
Proof.
  intros H. unfold deal.
  destruct (Nat.leb_spec (length (cards d)) (position d)); [lia|].
  destruct (nth_error (cards d) (position d)) eqn:E; [eauto|].
  apply nth_error_None in E. lia.
Qed.

Lemma dealMultiple_ok k d :
  (position d + k <= length (cards d))%nat ->
  exists cs,
    dealMultiple k d = Ok (cs, mkHandDeck (cards d) (position d + k)).
Proof.
  revert d. induction k as [|k IH]; intros d H; simpl.
  - exists []. rewrite Nat.add_0_r. destruct d; reflexivity.
  - destruct (deal_ok d ltac:(lia)) as [c Hc]. rewrite Hc. simpl.
    destruct (IH (mkHandDeck (cards d) (S (position d)))
                ltac:(simpl; lia)) as [cs Hcs].
    rewrite Hcs. simpl. exists (c :: cs). do 3 f_equal. lia.
Qed.

Lemma burn_ok d :
  (position d < length (cards d))%nat ->
  burn d = Ok (mkHandDeck (cards d) (S (position d))).
Proof.
  intros H. unfold burn. destruct (deal_ok d H) as [c Hc].
  rewrite Hc. reflexivity.
Qed.

Lemma updateAt_length {A} i (f : A -> A) l :
  length (updateAt i f l) = length l.
Proof.
  revert i. induction l as [|a l IH]; intros [|i]; simpl; auto.
Qed.

Lemma swap_length dk i j : length (swap dk i j) = length dk.
Proof.
  unfold swap. destruct (nth_error dk i), (nth_error dk j); auto.
  now rewrite !updateAt_length.
Qed.

Lemma shuffleFrom_length rv i dk :
  length (shuffleFrom rv i dk) = length dk.
Proof.
  revert dk. induction i as [|i IH]; intros dk; simpl; [reflexivity|].
  rewrite IH. apply swap_length.
Qed.

Lemma newHandDeck_full rv :
  length (cards (newHandDeck rv)) = 52%nat /\ position (newHandDeck rv) = O.
Proof.
  split; [|reflexivity]. simpl. unfold shuffleDeck.
  rewrite shuffleFrom_length. reflexivity.
Qed.

(** *** The evaluator returns on five cards *)

Lemma deref_ok {A} (l : list A) i :
  0 <= i < len l -> exists a, deref l i = Ok a.
Proof.
  intros [H0 H1]. unfold deref, at_.
  destruct (Z.ltb_spec i 0); [lia|].
  destruct (nth_error l (Z.to_nat i)) eqn:E; [eauto|].
  apply nth_error_None in E. unfold len in H1. lia.
Qed.

Lemma bump_total v m :
  sumZ (map snd (bump v m)) = sumZ (map snd m) + 1.
Proof.
  induction m as [|[k c] m IH]; simpl; [reflexivity|].
  destruct (k =? v); simpl; lia.
Qed.

Lemma rankCounts_total values :
  sumZ (map snd (rankCounts values)) = len values.
Proof.
  unfold rankCounts.
  assert (H : forall m,
             sumZ (map snd (fold_left (fun m v => bump v m) values m))
             = sumZ (map snd m) + len values).
  { induction values as [|v values IH]; intros m; simpl.
    - unfold len; simpl. lia.
    - rewrite IH, bump_total. unfold len. simpl length. lia. }
  apply (H []).
Qed.

Lemma sortBy_counts_total (counts : list (Z * Z)) cmp :
  sumZ (map snd (sortBy cmp counts)) = sumZ (map snd counts).
Proof.
  pose proof (Permutation_map snd (sortBy_perm cmp counts)) as HP.
  unfold sumZ. symmetry. induction HP; simpl; lia.
Qed.

Lemma evaluateFiveCards_ok cs :
  length cs = 5%nat -> exists h, evaluateFiveCards cs = Ok h.
Proof.
  intros Hlen. unfold evaluateFiveCards.
  set (sorted := sortBy (fun a b => RANK_VALUES (rank b) - RANK_VALUES (rank a)) cs).
  set (values := map (fun c => RANK_VALUES (rank c)) sorted).
  set (counts := sortBy cmpCounts (rankCounts values)).
  assert (Hv : len values = 5).
  { unfold len, values, sorted. now rewrite length_map, sortBy_length, Hlen. }
  assert (Hs : sumZ (map snd counts) = 5).
  { unfold counts. now rewrite sortBy_counts_total, rankCounts_total. }
  clearbody counts values sorted.
  destruct counts as [|[v0 c0] [|[v1 c1] [|[v2 c2] counts]]];
    simpl in Hs; unfold deref, at_; simpl;
    repeat match goal with
      | |- context [?a =? ?b] => destruct (Z.eqb_spec a b)
      | |- context [if ?b then _ else _] => destruct b
      end; cbn [bind]; eauto; lia.
Qed.

Lemma getCombinations_length {A} (arr : list A) k c :
  In c (getCombinations arr k) -> length c = k.
Proof.
  revert k c. induction arr as [|x arr IH]; intros [|k] c; simpl.
  - intros [<-|[]]. reflexivity.
  - intros [].
  - intros [<-|[]]. reflexivity.
  - rewrite in_app_iff, in_map_iff.
    intros [(c' & <- & Hc') | Hc]; [simpl; f_equal; eauto | eauto].
Qed.

Lemma getCombinations_nonempty {A} (arr : list A) k :
  (k <= length arr)%nat -> getCombinations arr k <> [].
Proof.
  revert k. induction arr as [|x arr IH]; intros [|k] H; simpl;
    try discriminate.
  - simpl in H. lia.
  - simpl in H. specialize (IH k ltac:(lia)).
    destruct (getCombinations arr k); [contradiction | discriminate].
Qed.

Lemma bestOf_ok combos best :
  Forall (fun c => length c = 5%nat) combos ->
  exists r, bestOf combos best = Ok r
            /\ (best <> None \/ combos <> [] -> r <> None).
Proof.
  intros H. revert best.
  induction H as [|c combos Hc Hcs IH]; intros best; simpl.
  - exists best. split; [reflexivity|]. intros [?|?]; congruence.
  - destruct (evaluateFiveCards_ok c Hc) as [h Hh]. rewrite Hh. cbn [bind].
    destruct best as [b|].
    + destruct (compareHands h b >? 0).
      * destruct (IH (Some h)) as (r & Hr & Hn). exists r.
        split; [exact Hr|]. intros _. apply Hn. left. discriminate.
      * destruct (IH (Some b)) as (r & Hr & Hn). exists r.
        split; [exact Hr|]. intros _. apply Hn. left. discriminate.
    + destruct (IH (Some h)) as (r & Hr & Hn). exists r.
      split; [exact Hr|]. intros _. apply Hn. left. discriminate.
Qed.

Lemma evaluateBestHand_ok cs :
  (5 <= length cs)%nat -> exists h, evaluateBestHand cs = Ok h.
Proof.
  intros H. unfold evaluateBestHand.
  destruct (Nat.ltb_spec (length cs) 5); [lia|].
  destruct (bestOf_ok (getCombinations cs 5) None) as (r & Hr & Hn).
  { apply Forall_forall. intros c. apply getCombinations_length. }
  rewrite Hr. cbn [bind].
  destruct r as [b|]; [eauto|].
  exfalso. apply Hn; [|reflexivity]. right.
  now apply getCombinations_nonempty.
Qed.

(** *** Steps that keep the deck and the street *)

Lemma Frame_refl e : Frame e e.
Proof. repeat split; auto. Qed.

Lemma Frame_trans e1 e2 e3 : Frame e1 e2 -> Frame e2 e3 -> Frame e1 e3.
Proof.
  intros (A1 & A2 & A3) (B1 & B2 & B3). repeat split; try congruence. lia.
Qed.

Lemma DeckOK_frame e e' : DeckOK e -> Frame e e' -> DeckOK e'.
Proof.
  intros H (F1 & F2 & _). unfold DeckOK in *. rewrite F1, F2. exact H.
Qed.

Lemma Post_frame e e' : DeckOK e -> Frame e e' -> Post e e'.
Proof.
  intros H F. split; [eapply DeckOK_frame; eassumption | apply F].
Qed.

Lemma Post_trans_frame e0 e1 e2 : Frame e0 e1 -> Post e1 e2 -> Post e0 e2.
Proof.
  intros (_ & _ & F) (P1 & P2). split; [exact P1 | lia].
Qed.

Lemma filter_length_le {A} (f : A -> bool) l :
  (length (filter f l) <= length l)%nat.
Proof. induction l as [|a l IH]; simpl; [lia|]. destruct (f a); simpl; lia. Qed.

Lemma endHand_frame e : Frame e (endHand e).
Proof.
  unfold endHand, Frame. simpl. repeat split. apply filter_length_le.
Qed.

Lemma endHandFold_frame w e : Frame e (endHandFold w e).
Proof.
  unfold endHandFold. destruct w as [[i w]|]; [|apply endHand_frame].
  eapply Frame_trans; [|apply endHand_frame].
  unfold Frame. simpl. repeat split. now rewrite updateAt_length.
Qed.

#[local] Hint Resolve Frame_refl endHand_frame endHandFold_frame Post_frame
  : frames.

Lemma payWinners_length ws i share remainder potIdx ps hrs :
  length (fst (payWinners ws i share remainder potIdx ps hrs)) = length ps.
Proof.
  revert i ps hrs. induction ws as [|[ip hand] ws IH]; intros i ps hrs; simpl.
  - reflexivity.
  - rewrite IH. apply updateAt_length.
Qed.

Lemma evaluateEligible_ok eligible board :
  exists evs, evaluateEligible eligible board = Ok evs.
Proof.
  induction eligible as [|ip rest [evs IH]]; [simpl; eauto|].
  cbn [evaluateEligible].
  destruct (Nat.leb_spec 5 (length (holeCards (snd ip) ++ board)));
    [|exists evs; exact IH].
  destruct (evaluateBestHand_ok (holeCards (snd ip) ++ board)) as [h Hh];
    [lia|].
  rewrite Hh, IH. simpl. eauto.
Qed.

Lemma showdownPots_ok pots potIdx notFolded board ps hrs rs :
  exists ps' hrs' rs',
    showdownPots pots potIdx notFolded board (ps, hrs, rs)
    = Ok (ps', hrs', rs')
    /\ length ps' = length ps.
Proof.
  revert potIdx ps hrs rs.
  induction pots as [|sidePot pots IH]; intros potIdx ps hrs rs; simpl.
  - eauto.
  - match goal with |- context [evaluateEligible ?a ?b] =>
      destruct (evaluateEligible_ok a b) as [evs Hevs]; rewrite Hevs end.
    cbn [bind].
    destruct (len evs =? 0); [apply IH|].
    match goal with |- context [payWinners ?a ?b ?c ?d ?e ?f ?g] =>
      pose proof (payWinners_length a b c d e f g) as Hlen;
      destruct (payWinners a b c d e f g) as [ps1 hrs1] end.
    simpl in Hlen.
    match goal with |- context [showdownPots pots ?a notFolded board (ps1, hrs1, ?r)] =>
      destruct (IH a ps1 hrs1 r) as (ps' & hrs' & rs' & H1 & H2) end.
    exists ps', hrs', rs'. split; [exact H1 | congruence].
Qed.

Lemma showdown_ok e : exists e', showdown e = Ok e' /\ Frame e e'.
Proof.
  unfold showdown.
  match goal with |- context [showdownPots ?a ?b ?c ?d (?p, ?h, ?r)] =>
    destruct (showdownPots_ok a b c d p h r) as (ps' & hrs' & rs' & H1 & H2);
    rewrite H1 end.
  cbn [bind]. eexists. split; [reflexivity|].
  eapply Frame_trans; [|apply endHand_frame].
  unfold Frame. simpl. repeat split. lia.
Qed.

Lemma dealCommunityCards_ok round e :
  round <> preflop ->
  match deck e with
  | None => True
  | Some d => (position d + streetCards round <= length (cards d))%nat
  end ->
  exists e',
    dealCommunityCards round e = Ok e'
    /\ deck e'
       = option_map
           (fun d => mkHandDeck (cards d) (position d + streetCards round))
           (deck e)
    /\ bettingRound (state e') = bettingRound (state e)
    /\ players (state e') = players (state e).
Proof.
  intros Hr Hd. unfold dealCommunityCards.
  destruct (deck e) as [d|] eqn:Ed; [|exists e; rewrite Ed; auto].
  rewrite burn_ok by (destruct round; simpl in Hd; lia). cbn [bind].
  destruct round; [congruence| | |];
    match goal with |- context [dealMultiple ?k ?d1] =>
      destruct (dealMultiple_ok k d1 ltac:(simpl in *; lia)) as [cs Hcs];
      rewrite Hcs end;
    cbn [bind]; eexists; (split; [reflexivity|]); simpl;
    repeat split; do 2 f_equal; lia.
Qed.

(** *** Finding who acts *)

Lemma findIndexFrom_bounds {A} (f : A -> bool) l k :
  findIndexFrom f l k = -1
  \/ k <= findIndexFrom f l k < k + len l.
Proof.
  revert k. induction l as [|a l IH]; intros k; simpl; [auto|].
  unfold len. simpl length. rewrite Nat2Z.inj_succ.
  destruct (f a); [right; lia|].
  destruct (IH (k + 1)) as [H|H]; [auto | right; unfold len in H; lia].
Qed.

Lemma findIndex_ge {A} (f : A -> bool) l : -1 <= findIndex f l.
Proof.
  unfold findIndex. destruct (findIndexFrom_bounds f l 0) as [H|H]; lia.
Qed.

Lemma findIndexFrom_found {A} (f : A -> bool) l k x :
  In x l -> f x = true -> k <= findIndexFrom f l k.
Proof.
  revert k. induction l as [|a l IH]; intros k Hin Hf; simpl; [destruct Hin|].
  destruct (f a) eqn:E; [lia|].
  destruct Hin as [->|Hin]; [congruence|].
  specialize (IH (k + 1) Hin Hf). lia.
Qed.

Lemma findIndex_found {A} (f : A -> bool) l x :
  In x l -> f x = true -> 0 <= findIndex f l < len l.
Proof.
  intros Hin Hf. pose proof (findIndexFrom_found f l 0 x Hin Hf).
  unfold findIndex. destruct (findIndexFrom_bounds f l 0); lia.
Qed.

Lemma rem_index a n : 0 <= a -> 0 < n -> 0 <= Z.rem a n < n.
Proof. intros. apply Z.rem_bound_pos; lia. Qed.

Lemma findFirstActorFrom_ok ap startIdx k i s :
  0 <= startIdx -> 0 <= i -> (k = O \/ 0 < len ap) ->
  exists s',
    findFirstActorFrom ap startIdx k i s = Ok s'
    /\ (s' = s \/ exists j, s' = setActivePlayerIndex j s).
Proof.
  intros Hs. revert i. induction k as [|k IH]; intros i Hi Hn; simpl.
  - eauto.
  - destruct Hn as [Hn|Hn]; [discriminate|].
    destruct (deref_ok ap (Z.rem (startIdx + i) (len ap))
                ltac:(apply rem_index; lia)) as [ip Hip].
    rewrite Hip. cbn [bind].
    destruct (negb (hasFolded (snd ip)) && negb (isAllIn (snd ip))).
    + eauto.
    + apply IH; [lia | auto].
Qed.

Lemma findFirstActor_ok s :
  FirstActorSafe s ->
  exists s',
    findFirstActor s = Ok s'
    /\ (s' = s \/ exists j, s' = setActivePlayerIndex j s).
Proof.
  intros Hsafe. unfold findFirstActor.
  set (ap := getActivePlayers s).
  set (dealerIdx := findIndex _ ap).
  assert (Hd : -1 <= dealerIdx) by apply findIndex_ge.
  destruct ap as [|a0 ap'] eqn:Eap.
  { simpl. eauto. }
  assert (Hn : 0 < len (a0 :: ap')) by (unfold len; simpl length; lia).
  apply findFirstActorFrom_ok; [|lia|right; exact Hn].
  destruct (bettingRound s) eqn:Er.
  - destruct Hsafe as [Hr|[(ip & Hin & Hseat)|Hnone]]; [congruence| |].
    2:{ fold ap in Hnone. congruence. }
    destruct (len (a0 :: ap') =? 2).
    + fold ap in Hin. rewrite Eap in Hin.
      apply (findIndex_found _ _ ip Hin). simpl. now apply Z.eqb_eq.
    + apply Z.rem_nonneg; lia.
  - apply Z.rem_nonneg; lia.
  - apply Z.rem_nonneg; lia.
  - apply Z.rem_nonneg; lia.
Qed.

Lemma findNextActorFrom_ok ap cur k i s :
  0 <= cur -> 0 <= i -> (k = O \/ 0 < len ap) ->
  exists r, findNextActorFrom ap cur k i s = Ok r.
Proof.
  intros Hc. revert i. induction k as [|k IH]; intros i Hi Hn; simpl.
  - eauto.
  - destruct Hn as [Hn|Hn]; [discriminate|].
    destruct (deref_ok ap (Z.rem (cur + i) (len ap))
                ltac:(apply rem_index; lia)) as [ip Hip].
    rewrite Hip. cbn [bind].
    destruct (hasFolded (snd ip) || isAllIn (snd ip)); [apply IH; [lia|auto]|].
    destruct (currentBet (snd ip) <? stateCurrentBet s); [eauto|].
    destruct (bettingRound s), (lastAction (snd ip)); eauto;
      apply IH; auto; lia.
Qed.

Lemma findNextActor_ok s : exists r, findNextActor s = Ok r.
Proof.
  unfold findNextActor.
  destruct (getActivePlayer s) as [[ci currentPlayer]|]; [|eauto].
  set (ap := getActivePlayers s).
  apply findNextActorFrom_ok; [|lia|].
  - pose proof (findIndex_ge (fun ip : nat * Player => Nat.eqb (fst ip) ci) ap).
    pose proof (findIndex_ge
                  (fun ip : nat * Player =>
                     seatIndex (snd ip) >=? seatIndex currentPlayer) ap).
    repeat match goal with |- context [?a <? 0] => destruct (Z.ltb_spec a 0) end;
      lia.
  - destruct ap; [left; reflexivity | right; unfold len; simpl length; lia].
Qed.

(** *** Prompting, starting a round, moving to the next street *)

Section Continuation.

(** [next] stands for the nested call of [advanceToNextRound]; [Q] is what
    the caller wants of the outcome. *)
Variable Q : GameEngine -> Prop.
Variable next : GameEngine -> Res GameEngine.
Variable now : Z.

Lemma promptActionWith_ok e :
  (forall e1, Frame e e1 -> exists e2, next e1 = Ok e2 /\ Q e2) ->
  (forall e1, Frame e e1 -> Q e1) ->
  exists e2, promptActionWith next now e = Ok e2 /\ Q e2.
Proof.
  intros Hnext HQ. unfold promptActionWith.
  destruct (getActivePlayer (state e)) as [[i player]|].
  - eexists. split; [reflexivity|]. apply HQ.
    unfold Frame. simpl. auto.
  - apply Hnext, Frame_refl.
Qed.

Lemma startBettingRoundWith_ok e :
  FirstActorSafe (state e) ->
  (forall e1, Frame e e1 -> exists e2, next e1 = Ok e2 /\ Q e2) ->
  (forall e1, Frame e e1 -> Q e1) ->
  exists e2, startBettingRoundWith next now e = Ok e2 /\ Q e2.
Proof.
  intros Hsafe Hnext HQ. unfold startBettingRoundWith.
  assert (Hcore : forall e1,
             Frame e e1 ->
             FirstActorSafe (state e1) ->
             exists e2,
               (if (len (notFoldedPlayers (state e1)) <=? 1)
                   || (len (getPlayersWhoCanAct (state e1)) =? 0)
                then next e1
                else s2 <- findFirstActor (state e1) ;;
                     promptActionWith next now (setState s2 e1)) = Ok e2
               /\ Q e2).
  { intros e1 F1 Hsafe1.
    destruct ((len (notFoldedPlayers (state e1)) <=? 1)
              || (len (getPlayersWhoCanAct (state e1)) =? 0)).
    - now apply Hnext.
    - destruct (findFirstActor_ok (state e1) Hsafe1) as (s2 & Hs2 & Hshape).
      rewrite Hs2. cbn [bind].
      assert (F2 : Frame e (setState s2 e1)).
      { eapply Frame_trans; [exact F1|].
        destruct Hshape as [->|[j ->]]; unfold Frame; simpl; auto. }
      apply promptActionWith_ok.
      + intros e3 F3. apply Hnext. eapply Frame_trans; eassumption.
      + intros e3 F3. apply HQ. eapply Frame_trans; eassumption. }
  cbv zeta.
  destruct (bettingRound (state e)) eqn:Er.
  - apply Hcore; [apply Frame_refl|].
    destruct Hsafe as [H|H]; [congruence | now right].
  - apply Hcore; [|left; simpl; congruence].
    unfold Frame; simpl; rewrite length_map; auto.
  - apply Hcore; [|left; simpl; congruence].
    unfold Frame; simpl; rewrite length_map; auto.
  - apply Hcore; [|left; simpl; congruence].
    unfold Frame; simpl; rewrite length_map; auto.
Qed.

End Continuation.

Lemma advanceToNextRound_ok fuel now e :
  DeckOK e ->
  (streetsLeft (bettingRound (state e)) < fuel)%nat ->
  exists e', advanceToNextRound fuel now e = Ok e' /\ Post e e'.
Proof.
  revert e. induction fuel as [|fuel IH]; intros e Hdeck Hfuel; [lia|].
  cbn [advanceToNextRound].
  destruct (len (notFoldedPlayers (state e)) <=? 1).
  { eexists. split; [reflexivity|].
    apply Post_frame; [exact Hdeck | apply endHandFold_frame]. }
  unfold getNextBettingRound.
  destruct (bettingRound (state e)) eqn:Er.
  4:{ destruct (showdown_ok e) as (e' & He' & F). exists e'.
      split; [exact He' | now apply Post_frame]. }
  all: match goal with |- context [dealCommunityCards ?r ?x] =>
         destruct (dealCommunityCards_ok r x ltac:(discriminate)) as
           (e2 & He2 & Hd2 & Hr2 & Hp2);
         [ unfold DeckOK in Hdeck; simpl; destruct (deck e) as [d|];
           [rewrite Er in Hdeck; simpl in *; lia | exact I]
         | rewrite He2; cbn [bind] ]
       end.
  all: simpl in Hd2, Hr2, Hp2.
  all: assert (Hdeck2 : DeckOK e2)
         by (unfold DeckOK in *; rewrite Hd2, Hr2;
             destruct (deck e) as [d|]; simpl; [|exact I];
             rewrite Er in Hdeck; simpl in *; lia).
  all: assert (Hfuel2 : (streetsLeft (bettingRound (state e2)) < fuel)%nat)
         by (rewrite Hr2; simpl in *; lia).
  all: assert (Hlen2 : length (players (state e2)) = length (players (state e)))
         by (now rewrite Hp2).
  all: match goal with |- context [if ?b then _ else _] => destruct b end.
  all: try (destruct (IH e2 Hdeck2 Hfuel2) as (e' & He' & P1 & P2);
            exists e'; split; [exact He' | split; [exact P1 | lia]]).
  all: apply startBettingRoundWith_ok;
         [ left; rewrite Hr2; discriminate
         | intros e3 F3;
           destruct (IH e3) as (e' & He' & P1 & P2);
             [ eapply DeckOK_frame; eassumption
             | destruct F3 as (_ & F3 & _); rewrite F3; exact Hfuel2
             | exists e'; split; [exact He'|]; split; [exact P1|];
               destruct F3 as (_ & _ & F3); lia ]
         | intros e3 F3; split;
             [ eapply DeckOK_frame; eassumption
             | destruct F3 as (_ & _ & F3); lia ] ].
Qed.

(** *** Handling an action *)

Lemma streetsLeft_roundFuel r : (streetsLeft r < roundFuel)%nat.
Proof. destruct r; unfold roundFuel; simpl; lia. Qed.

Lemma promptAction_ok now e0 e :
  DeckOK e -> Frame e0 e ->
  exists e', promptAction now e = Ok e' /\ Post e0 e'.
Proof.
  intros Hd F. unfold promptAction. apply promptActionWith_ok.
  - intros e1 F1.
    destruct (advanceToNextRound_ok roundFuel now e1) as (e' & He' & P).
    + eapply DeckOK_frame; eassumption.
    + apply streetsLeft_roundFuel.
    + exists e'. split; [exact He'|].
      eapply Post_trans_frame; [|exact P]. eapply Frame_trans; eassumption.
  - intros e1 F1. eapply Post_trans_frame; [exact F|].
    now apply Post_frame.
Qed.

Lemma advanceAction_ok now e :
  DeckOK e -> exists e', advanceAction now e = Ok e' /\ Post e e'.
Proof.
  intros Hd. unfold advanceAction.
  destruct (findNextActor_ok (state e)) as [r Hr]. rewrite Hr. cbn [bind].
  destruct r as [[i p]|].
  - apply promptAction_ok.
    + eapply DeckOK_frame; [exact Hd|]. unfold Frame; simpl; auto.
    + unfold Frame; simpl; auto.
  - apply advanceToNextRound_ok; [exact Hd | apply streetsLeft_roundFuel].
Qed.

Lemma applyAction_frame i player action amt s s2 :
  applyAction i player action amt s = Some s2 ->
  bettingRound s2 = bettingRound s
  /\ length (players s2) = length (players s).
Proof.
  unfold applyAction. destruct action as [[| | | |]|tag]; intros H.
  - inversion H; subst; simpl. now rewrite updateAt_length.
  - destruct (_ >? 0); inversion H; subst; simpl.
    now rewrite updateAt_length.
  - inversion H; subst; simpl. now rewrite updateAt_length.
  - destruct (_ && _); [discriminate|]. inversion H; subst; clear H.
    break_if; simpl; now rewrite updateAt_length.
  - destruct (_ && _); [discriminate|]. inversion H; subst; clear H.
    break_if; simpl; now rewrite updateAt_length.
  - discriminate.
Qed.

(** What [handleAction] does for the player on action: refuse exactly when
    the switch refuses, otherwise run to completion. *)
Lemma handleAction_on_action now pid action amt e i player a :
  DeckOK e ->
  findPlayer pid (state e) = Some (i, player) ->
  getActivePlayer (state e) = Some a ->
  id (snd a) = pid ->
  match applyAction i player action amt (state e) with
  | None =>
      handleAction now pid action amt e = Ok (false, clearActionTimer e)
  | Some _ =>
      exists e', handleAction now pid action amt e = Ok (true, e')
                 /\ Post e e'
  end.
Proof.
  intros Hd Hf Ha Hid. unfold handleAction. rewrite Hf, Ha.
  destruct a as [j a]. simpl in Hid. subst pid.
  rewrite String.eqb_refl. cbn [negb].
  change (state (clearActionTimer e)) with (state e).
  destruct (applyAction i player action amt (state e)) as [s2|] eqn:Eapp;
    [|reflexivity].
  destruct (applyAction_frame _ _ _ _ _ _ Eapp) as [Hr Hl].
  match goal with |- context [notFoldedPlayers (state ?x)] => set (e3 := x) end.
  assert (F3 : Frame e e3).
  { unfold e3. destruct (nth_error (players s2) i);
      unfold Frame; simpl; repeat split; auto; lia. }
  clearbody e3.
  destruct (len (notFoldedPlayers (state e3)) <=? 1).
  - eexists. split; [reflexivity|].
    apply Post_frame; [exact Hd|].
    eapply Frame_trans; [exact F3 | apply endHandFold_frame].
  - destruct (advanceAction_ok now e3) as (e4 & He4 & P4).
    { eapply DeckOK_frame; eassumption. }
    rewrite He4. cbn [bind]. exists e4. split; [reflexivity|].
    eapply Post_trans_frame; eassumption.
Qed.

Lemma handleAction_ok now pid action amt e :
  DeckOK e ->
  exists b e', handleAction now pid action amt e = Ok (b, e') /\ Post e e'.
Proof.
  intros Hd.
  destruct (findPlayer pid (state e)) as [[i player]|] eqn:Hf.
  2:{ exists false, e. unfold handleAction. rewrite Hf.
      split; [reflexivity | auto with frames]. }
  destruct (getActivePlayer (state e)) as [[j a]|] eqn:Ha.
  2:{ exists false, e. unfold handleAction. rewrite Hf, Ha.
      split; [reflexivity | auto with frames]. }
  destruct (String.eqb (id a) pid) eqn:Hid.
  2:{ exists false, e. unfold handleAction. rewrite Hf, Ha, Hid.
      split; [reflexivity | auto with frames]. }
  apply String.eqb_eq in Hid.
  pose proof (handleAction_on_action now pid action amt e i player (j, a)
                Hd Hf Ha Hid) as H.
  destruct (applyAction i player action amt (state e)).
  - destruct H as (e' & He' & P). eauto.
  - exists false, (clearActionTimer e). split; [exact H|].
    apply Post_frame; [exact Hd|]. unfold Frame; simpl; auto.
Qed.

Lemma removeAt_length_le {A} i (l : list A) :
  (length (removeAt i l) <= length l)%nat.
Proof.
  revert i. induction l as [|a l IH]; intros [|i]; simpl; auto.
  specialize (IH i). lia.
Qed.

Lemma removePlayer_ok now pid e :
  DeckOK e -> exists e', removePlayer now pid e = Ok e' /\ Post e e'.
Proof.
  intros Hd. unfold removePlayer.
  destruct (findPlayer pid (state e)) as [[idx p]|].
  2:{ exists e. split; [reflexivity | auto with frames]. }
  destruct (handInProgress (state e)).
  - match goal with |- context [getActivePlayer (state ?x)] => set (e1 := x) end.
    assert (F1 : Frame e e1).
    { unfold e1, Frame; simpl. rewrite updateAt_length. auto. }
    clearbody e1.
    assert (P1 : Post e e1) by now apply Post_frame.
    destruct (getActivePlayer (state e1)) as [[j a]|]; [|eauto].
    destruct (String.eqb (id a) pid); [|eauto].
    destruct (handleAction_ok now pid (Known ActFold) None e1)
      as (b & e2 & He2 & P2).
    { eapply DeckOK_frame; eassumption. }
    rewrite He2. cbn [bind]. exists e2. split; [reflexivity|].
    eapply Post_trans_frame; eassumption.
  - eexists. split; [reflexivity|]. apply Post_frame; [exact Hd|].
    unfold Frame; simpl. repeat split. apply removeAt_length_le.
Qed.

Lemma actionTimerFires_ok now e :
  DeckOK e -> exists e', actionTimerFires now e = Ok e' /\ Post e e'.
Proof.
  intros Hd. unfold actionTimerFires.
  destruct (actionTimer e) as [pid|].
  2:{ exists e. split; [reflexivity | auto with frames]. }
  set (e1 := setActionTimer None e).
  assert (F1 : Frame e e1) by (unfold e1, Frame; simpl; auto).
  clearbody e1.
  assert (P1 : Post e e1) by now apply Post_frame.
  destruct (getActivePlayer (state e1)) as [[j a]|]; [|eauto].
  destruct (handInProgress (state e1) && String.eqb (id a) pid); [|eauto].
  destruct (handleAction_ok now pid (Known ActFold) None e1)
    as (b & e2 & He2 & P2).
  { eapply DeckOK_frame; eassumption. }
  rewrite He2. cbn [bind]. exists e2. split; [reflexivity|].
  eapply Post_trans_frame; eassumption.
Qed.

(** *** Starting a hand *)

Lemma combine_seq_In {A} (l : list A) k i p :
  In (i, p) (combine (seq k (length l)) l)
  <-> (k <= i)%nat /\ nth_error l (i - k) = Some p.
Proof.
  revert k. induction l as [|a l IH]; intros k; simpl.
  - split; [intros [] | intros [_ H]]. destruct (i - k)%nat; discriminate.
  - rewrite IH. split.
    + intros [H | [Hk Hn]].
      * inversion H; subst. rewrite Nat.sub_diag. split; [lia | reflexivity].
      * split; [lia|]. replace (i - k)%nat with (S (i - S k)) by lia.
        exact Hn.
    + intros [Hk Hn]. destruct (Nat.eq_dec i k) as [->|Hne].
      * rewrite Nat.sub_diag in Hn. simpl in Hn. left. congruence.
      * right. split; [lia|].
        replace (i - k)%nat with (S (i - S k)) in Hn by lia. exact Hn.
Qed.

Lemma withIndex_In {A} (l : list A) i p :
  In (i, p) (withIndex l) <-> nth_error l i = Some p.
Proof.
  unfold withIndex. rewrite combine_seq_In, Nat.sub_0_r.
  split; [tauto | split; [lia | assumption]].
Qed.

Lemma getActivePlayers_In s i p :
  In (i, p) (getActivePlayers s)
  <-> nth_error (players s) i = Some p
      /\ isSittingOut p = false /\ 0 <= chips p /\ isConnected p = true.
Proof.
  unfold getActivePlayers. rewrite filter_In, withIndex_In. simpl.
  rewrite !andb_true_iff, negb_true_iff, Z.geb_le. tauto.
Qed.

Lemma DealerSeated_update s s' j f :
  dealerSeatIndex s' = dealerSeatIndex s ->
  players s' = updateAt j f (players s) ->
  (forall p, nth_error (players s) j = Some p -> keepsSeat p (f p)) ->
  DealerSeated s -> DealerSeated s'.
Proof.
  intros Hd Hp Hk ([i p] & Hin & Hseat). simpl in Hseat.
  apply getActivePlayers_In in Hin. destruct Hin as (Hn & H1 & H2 & H3).
  destruct (Nat.eqb i j) eqn:E.
  - apply Nat.eqb_eq in E. subst j.
    destruct (Hk p Hn) as (K1 & K2 & K3 & K4).
    exists (i, f p). split.
    + apply getActivePlayers_In. rewrite Hp, nth_error_updateAt, Nat.eqb_refl, Hn.
      simpl. repeat split; try congruence. auto.
    + simpl. congruence.
  - exists (i, p). split.
    + apply getActivePlayers_In. rewrite Hp, nth_error_updateAt, E.
      auto.
    + simpl. congruence.
Qed.

Lemma DealerSeated_ext s s' :
  dealerSeatIndex s' = dealerSeatIndex s ->
  players s' = players s ->
  DealerSeated s -> DealerSeated s'.
Proof.
  intros Hd Hp (ip & Hin & Hseat). exists ip.
  unfold getActivePlayers in *. rewrite Hp, Hd. auto.
Qed.

Lemma postBlind_spec i blind s :
  bettingRound (postBlind i blind s) = bettingRound s
  /\ length (players (postBlind i blind s)) = length (players s)
  /\ (DealerSeated s -> DealerSeated (postBlind i blind s)).
Proof.
  unfold postBlind. destruct (nth_error (players s) i) as [player|] eqn:En;
    [|auto].
  simpl. rewrite updateAt_length. repeat split.
  apply DealerSeated_update with (j := i)
    (f := fun _ : Player =>
            if chips player - Z.min blind (chips player) =? 0
            then setIsAllIn true
                   (setTotalBetThisRound (Z.min blind (chips player))
                      (setCurrentBet (Z.min blind (chips player))
                         (setChips (chips player - Z.min blind (chips player))
                            player)))
            else setTotalBetThisRound (Z.min blind (chips player))
                   (setCurrentBet (Z.min blind (chips player))
                      (setChips (chips player - Z.min blind (chips player))
                         player))); try reflexivity.
  intros p Hp. assert (p = player) by congruence. subst p.
  destruct (_ =? 0); unfold keepsSeat; simpl; repeat split; lia.
Qed.

Lemma deref_In {A} (l : list A) i a : deref l i = Ok a -> In a l.
Proof.
  unfold deref, at_. destruct (i <? 0); [discriminate|].
  destruct (nth_error l (Z.to_nat i)) eqn:E; [|discriminate].
  intros H. inversion H; subst. eapply nth_error_In; eassumption.
Qed.

Lemma advanceDealer_ok s :
  exists s',
    advanceDealer s = Ok s'
    /\ players s' = players s
    /\ bettingRound s' = bettingRound s
    /\ DealerPlaced s'.
Proof.
  unfold advanceDealer. set (ap := getActivePlayers s).
  destruct (Z.eqb_spec (len ap) 0) as [H0|H0].
  { exists s. repeat split. right. change (ap = []).
    destruct ap; [reflexivity | unfold len in H0; simpl in H0; lia]. }
  assert (Hn : 0 < len ap) by (unfold len in *; lia).
  assert (Hplaced : forall ip,
             In ip ap ->
             DealerPlaced (setDealerSeatIndex (seatIndex (snd ip)) s)).
  { intros ip Hin. left. exists ip. split; [exact Hin | reflexivity]. }
  destruct (dealerSeatIndex s =? -1).
  - destruct (deref_ok ap 0 ltac:(lia)) as [first Hfirst].
    rewrite Hfirst. cbn [bind]. eexists. split; [reflexivity|].
    repeat split. apply Hplaced. eapply deref_In; eassumption.
  - match goal with |- context [deref ap ?k] =>
      destruct (deref_ok ap k) as [next Hnext] end.
    { apply rem_index; [|exact Hn].
      pose proof (findIndex_ge
                    (fun ip : nat * Player =>
                       seatIndex (snd ip) =? dealerSeatIndex s) ap). lia. }
    rewrite Hnext. cbn [bind]. eexists. split; [reflexivity|].
    repeat split. apply Hplaced. eapply deref_In; eassumption.
Qed.

Lemma postBlinds_ok s :
  DealerPlaced s ->
  exists s',
    postBlinds s = Ok s'
    /\ DealerPlaced s'
    /\ bettingRound s' = bettingRound s
    /\ length (players s') = length (players s).
Proof.
  intros Hplaced. unfold postBlinds. set (ap := getActivePlayers s).
  destruct (Z.ltb_spec (len ap) 2) as [Hlt|Hge]; [eauto|].
  destruct Hplaced as [Hseated | Hnone].
  2:{ fold ap in Hnone. rewrite Hnone in Hge. unfold len in Hge.
      simpl in Hge. lia. }
  assert (Hidx : 0 <= findIndex
                        (fun ip : nat * Player =>
                           seatIndex (snd ip) =? dealerSeatIndex s) ap
                 < len ap).
  { destruct Hseated as (ip & Hin & Hseat).
    apply (findIndex_found _ _ ip Hin). now apply Z.eqb_eq. }
  set (dealerIdx := findIndex _ ap) in *.
  match goal with |- context [deref ap ?k] =>
    destruct (deref_ok ap k) as [sb Hsb] end.
  { destruct (len ap =? 2); [lia | apply rem_index; lia]. }
  rewrite Hsb. cbn [bind].
  match goal with |- context [bind (deref ap ?k)] =>
    destruct (deref_ok ap k) as [bb Hbb] end.
  { destruct (len ap =? 2); apply rem_index; lia. }
  rewrite Hbb. cbn [bind].
  eexists. split; [reflexivity|].
  destruct (postBlind_spec (fst sb) (smallBlind s) s) as (A1 & A2 & A3).
  match goal with |- context [postBlind (fst bb) ?b ?x] =>
    destruct (postBlind_spec (fst bb) b x) as (B1 & B2 & B3) end.
  repeat split.
  - left. eapply DealerSeated_ext; [| |apply B3, A3, Hseated]; reflexivity.
  - simpl. congruence.
  - simpl. congruence.
Qed.

Lemma dealHoleCardsTo_ok view e d :
  deck e = Some d ->
  (position d + 2 * length view <= length (cards d))%nat ->
  exists e' d',
    dealHoleCardsTo view e = Ok e'
    /\ deck e' = Some d'
    /\ cards d' = cards d
    /\ (position d' <= position d + 2 * length view)%nat
    /\ bettingRound (state e') = bettingRound (state e)
    /\ length (players (state e')) = length (players (state e))
    /\ (DealerSeated (state e) -> DealerSeated (state e')).
Proof.
  revert e d. induction view as [|[i player] view IH]; intros e d Hd Hpos.
  - simpl. exists e, d. repeat split; auto. lia.
  - cbn [dealHoleCardsTo]. simpl length in Hpos.
    destruct (negb (hasFolded player)).
    + rewrite Hd.
      destruct (dealMultiple_ok 2 d ltac:(lia)) as [cs Hcs].
      rewrite Hcs. cbn [bind].
      match goal with |- context [dealHoleCardsTo view ?x] =>
        destruct (IH x (mkHandDeck (cards d) (position d + 2)))
          as (e' & d' & H1 & H2 & H3 & H4 & H5 & H6 & H7) end;
        [reflexivity | simpl; lia |].
      exists e', d'. split; [exact H1|]. split; [exact H2|].
      simpl in *. rewrite updateAt_length in H6.
      repeat split; try assumption; try lia.
      intros HS. apply H7.
      apply DealerSeated_update with (s := state e) (j := i)
        (f := setHoleCards cs); try reflexivity; [|exact HS].
      intros p _. unfold keepsSeat; simpl; auto.
    + destruct (IH e d Hd ltac:(lia))
        as (e' & d' & H1 & H2 & H3 & H4 & H5 & H6 & H7).
      exists e', d'. repeat split; try assumption. simpl length. lia.
Qed.

Lemma getActivePlayers_length s :
  (length (getActivePlayers s) <= length (players s))%nat.
Proof.
  unfold getActivePlayers. etransitivity; [apply filter_length_le|].
  unfold withIndex. rewrite length_combine, length_seq. lia.
Qed.

Lemma startHand_ok rv now e :
  Inv e -> exists e', startHand rv now e = Ok e' /\ Inv e'.
Proof.
  intros [Hseat Hdeck]. unfold startHand.
  destruct (canStartHand (state e)); [|exists e; split; [reflexivity|split; auto]].
  cbn [negb].
  match goal with |- context [advanceDealer ?x] =>
    set (s3 := x); destruct (advanceDealer_ok s3) as (s4 & Hs4 & Hp4 & Hr4 & Hpl4)
  end.
  assert (Hlen3 : (length (players s3) <= 6)%nat).
  { unfold s3. simpl. rewrite length_map.
    etransitivity; [apply filter_length_le | exact Hseat]. }
  assert (Hr3 : bettingRound s3 = preflop) by reflexivity.
  clearbody s3. rewrite Hs4. cbn [bind].
  change (state (setDeck (Some (newHandDeck rv)) (setState s4 e))) with s4.
  destruct (postBlinds_ok s4 Hpl4) as (s5 & Hs5 & Hpl5 & Hr5 & Hlen5).
  rewrite Hs5. cbn [bind].
  match goal with |- context [dealHoleCards ?x] => set (e2 := x) end.
  assert (Hstate2 : state e2 = s5) by reflexivity.
  assert (Hdeck2 : deck e2 = Some (newHandDeck rv)) by reflexivity.
  destruct (newHandDeck_full rv) as [Hfull Hzero].
  assert (Hview : (length (getActivePlayers (state e2)) <= 6)%nat).
  { etransitivity; [apply getActivePlayers_length|].
    rewrite Hstate2, Hlen5, Hp4. exact Hlen3. }
  unfold dealHoleCards.
  destruct (dealHoleCardsTo_ok (getActivePlayers (state e2)) e2
              (newHandDeck rv) Hdeck2 ltac:(lia))
    as (e3 & d3 & He3 & Hd3 & Hc3 & Hpos3 & Hr3' & Hlen3' & Hseat3).
  assert (Hplaced3 : DealerPlaced (state e3)).
  { destruct Hpl5 as [HS | Hnone].
    - left. apply Hseat3. now rewrite Hstate2.
    - rewrite <- Hstate2 in Hnone. rewrite Hnone in He3. simpl in He3.
      inversion He3; subst e3. right. exact Hnone. }
  clearbody e2. rewrite He3. cbn [bind].
  set (e4 := onState (setBettingRound preflop) e3).
  assert (Hdeck4 : DeckOK e4).
  { unfold DeckOK, e4. simpl. rewrite Hd3. simpl. split; [congruence | lia]. }
  assert (Hlen4 : (length (players (state e4)) <= 6)%nat).
  { unfold e4. simpl. rewrite Hlen3', Hstate2, Hlen5, Hp4. exact Hlen3. }
  assert (Hsafe4 : FirstActorSafe (state e4)).
  { right. destruct Hplaced3 as [HS|Hnone].
    - left. eapply DealerSeated_ext; [| |exact HS]; reflexivity.
    - right. exact Hnone. }
  clearbody e4. unfold startBettingRound.
  apply startBettingRoundWith_ok; [exact Hsafe4 | |].
  - intros e5 F5.
    destruct (advanceToNextRound_ok roundFuel now e5) as (e6 & He6 & P1 & P2).
    + eapply DeckOK_frame; eassumption.
    + apply streetsLeft_roundFuel.
    + exists e6. split; [exact He6|]. split; [|exact P1].
      unfold Seated. destruct F5 as (_ & _ & F5). lia.
  - intros e5 F5. split; [|eapply DeckOK_frame; eassumption].
    unfold Seated. destruct F5 as (_ & _ & F5). lia.
Qed.

(** *** Every command keeps the table invariant *)

Lemma Inv_post e e' : Inv e -> Post e e' -> Inv e'.
Proof.
  intros [Hs _] [Hd Hl]. split; [unfold Seated in *; lia | exact Hd].
Qed.

Lemma addPlayer_inv pid nm seat e : Inv e -> Inv (snd (addPlayer pid nm seat e)).
Proof.
  intros [Hs Hd]. unfold addPlayer.
  destruct ((seat <? 0) || (seat >? 5)); [split; assumption|].
  destruct (existsb _ _); [split; assumption|].
  destruct (existsb _ _); [split; assumption|].
  destruct (Z.geb_spec (len (players (state e))) 6) as [H6|H6];
    [split; assumption|].
  split.
  - unfold Seated. simpl. rewrite sortBy_length, length_app. simpl.
    unfold len in H6. lia.
  - exact Hd.
Qed.

Lemma setPlayerConnected_inv pid connected e :
  Inv e -> Inv (setPlayerConnected pid connected e).
Proof.
  intros [Hs Hd]. unfold setPlayerConnected.
  destruct (findPlayer pid (state e)) as [[i p]|]; [|split; assumption].
  split.
  - unfold Seated. simpl. now rewrite updateAt_length.
  - exact Hd.
Qed.

Lemma perform_ok c e :
  Inv e -> exists e', perform c e = Ok e' /\ Inv e'.
Proof.
  intros HI. destruct c as [pid nm seat | now pid | pid connected | rv now
                           | now pid action amt | now]; simpl.
  - eexists. split; [reflexivity | now apply addPlayer_inv].
  - destruct (removePlayer_ok now pid e (proj2 HI)) as (e' & He' & P).
    exists e'. split; [exact He' | eapply Inv_post; eassumption].
  - eexists. split; [reflexivity | now apply setPlayerConnected_inv].
  - now apply startHand_ok.
  - destruct (handleAction_ok now pid action amt e (proj2 HI))
      as (b & e' & He' & P).
    rewrite He'. cbn [bind]. exists e'.
    split; [reflexivity | eapply Inv_post; eassumption].
  - destruct (actionTimerFires_ok now e (proj2 HI)) as (e' & He' & P).
    exists e'. split; [exact He' | eapply Inv_post; eassumption].
Qed.

Lemma performAll_ok cs e :
  Inv e -> exists e', performAll cs e = Ok e' /\ Inv e'.
Proof.
  revert e. induction cs as [|c cs IH]; intros e HI; simpl.
  - eauto.
  - destruct (perform_ok c e HI) as (e1 & He1 & HI1).
    rewrite He1. cbn [bind]. now apply IH.
Qed.

Lemma newGameEngine_inv room host : Inv (newGameEngine room host).
Proof. split; [unfold Seated; simpl; lia | exact I]. Qed.

Lemma DeckOK_cardsDrawn e : DeckOK e -> (cardsDrawn e <= 20)%nat.
Proof.
  unfold DeckOK, cardsDrawn. destruct (deck e) as [d|]; [|lia].
  destruct (bettingRound (state e)); simpl; lia.
Qed.

(** C8, amended. Whatever commands the operator issues on a new engine
    (seating and removing players, connection changes, starting hands,
    actions, timer expiries), every call returns normally: no call throws,
    so [deal] never takes its deck-exhausted branch; the table never holds
    more than six players and the deck of the current hand never has more
    than 20 cards drawn (two per player, three burns, five community
    cards). *)
Theorem deck_never_exhausted :
  forall room host cs,
    exists e,
      performAll cs (newGameEngine room host) = Ok e
      /\ Seated e
      /\ (cardsDrawn e <= 20)%nat.
Proof.
  intros room host cs.
  destruct (performAll_ok cs (newGameEngine room host)
              (newGameEngine_inv room host)) as (e & He & Hs & Hd).
  exists e. split; [exact He|]. split; [exact Hs|].
  now apply DeckOK_cardsDrawn.
Qed.

(** C8, as stated, fails on [sixWayAllIn]: with six players all-in before
    the flop the engine deals twelve hole cards, burns three times and
    deals five community cards, 20 cards in all, not at most 19. *)
Lemma six_players_draw_twenty_cards :
  exists e,
    performAccepted sixWayAllIn sixSeats = Ok (true, e)
    /\ length (players (state e)) = 6%nat
    /\ length (communityCards (state e)) = 5%nat
    /\ cardsDrawn e = 20%nat
    /\ ~ (cardsDrawn e <= 19)%nat.
Proof.
  eexists. split; [vm_compute; reflexivity|].
  repeat split; try reflexivity. vm_compute. lia.
Qed.

(** ** Raises *)

(** *** The raise bookkeeping survives until the street changes *)

Lemma endHandFold_same w e : SameRaise e (endHandFold w e).
Proof. destruct w as [[i w]|]; repeat split. Qed.

Lemma showdown_same e e' : showdown e = Ok e' -> SameRaise e e'.
Proof.
  unfold showdown.
  destruct (showdownPots _ _ _ _ _) as [[[ps hrs] rs]|]; [|discriminate].
  cbn [bind]. intros H. inversion H; subst. repeat split.
Qed.

Lemma dealCommunityCards_round r e e' :
  dealCommunityCards r e = Ok e' ->
  bettingRound (state e') = bettingRound (state e).
Proof.
  unfold dealCommunityCards. destruct (deck e) as [d|].
  2:{ intros H; inversion H; reflexivity. }
  destruct (burn d) as [d1|]; [|discriminate]. cbn [bind].
  destruct r; try (intros H; inversion H; reflexivity);
    (destruct (dealMultiple _ d1) as [[cs d2]|]; [|discriminate]);
    cbn [bind]; intros H; inversion H; reflexivity.
Qed.

Lemma findFirstActorFrom_shape ap startIdx k i s s' :
  findFirstActorFrom ap startIdx k i s = Ok s' ->
  s' = s \/ exists j, s' = setActivePlayerIndex j s.
Proof.
  revert i. induction k as [|k IH]; intros i; simpl.
  - intros H; inversion H; auto.
  - destruct (deref ap _) as [ip|]; [|discriminate]. cbn [bind].
    destruct (_ && _); [|apply IH].
    intros H; inversion H; eauto.
Qed.

Lemma promptActionWith_later next now e e' :
  (forall x y, next x = Ok y -> SameRaise x y \/ LaterStreet x y) ->
  promptActionWith next now e = Ok e' ->
  SameRaise e e' \/ LaterStreet e e'.
Proof.
  intros Hnext. unfold promptActionWith.
  destruct (getActivePlayer (state e)) as [[i player]|]; [|apply Hnext].
  intros H; inversion H; subst. left. repeat split.
Qed.

Lemma startBettingRoundWith_later next now e e' :
  (forall x y, next x = Ok y -> SameRaise x y \/ LaterStreet x y) ->
  startBettingRoundWith next now e = Ok e' ->
  (streetsLeft (bettingRound (state e'))
   <= streetsLeft (bettingRound (state e)))%nat.
Proof.
  intros Hnext. unfold startBettingRoundWith. cbv zeta.
  match goal with |- context [if _ then next ?x else _] => set (e1 := x) end.
  assert (Hr1 : bettingRound (state e1) = bettingRound (state e)).
  { unfold e1. destruct (bettingRound (state e)) eqn:Er; simpl; auto. }
  clearbody e1.
  assert (Hle : forall x y,
             SameRaise x y \/ LaterStreet x y ->
             (streetsLeft (bettingRound (state y))
              <= streetsLeft (bettingRound (state x)))%nat).
  { unfold LaterStreet. intros x y [(A & _)|L]; [rewrite A|]; lia. }
  destruct (_ || _).
  - intros H. apply Hnext, Hle in H. rewrite Hr1 in H. exact H.
  - destruct (findFirstActor (state e1)) as [s2|] eqn:Es2; [|discriminate].
    cbn [bind]. intros H.
    apply promptActionWith_later, Hle in H; [|exact Hnext].
    apply findFirstActorFrom_shape in Es2.
    destruct Es2 as [->|[j ->]]; simpl in H; rewrite Hr1 in H; exact H.
Qed.

Lemma advanceToNextRound_later fuel now e e' :
  advanceToNextRound fuel now e = Ok e' ->
  SameRaise e e' \/ LaterStreet e e'.
Proof.
  revert e e'. induction fuel as [|fuel IH]; intros e e'; [discriminate|].
  cbn [advanceToNextRound].
  destruct (len (notFoldedPlayers (state e)) <=? 1).
  { intros H; inversion H; subst. left. apply endHandFold_same. }
  unfold getNextBettingRound.
  destruct (bettingRound (state e)) eqn:Er.
  4:{ intros H. left. now apply showdown_same. }
  all: match goal with |- context [dealCommunityCards ?r ?x] =>
         destruct (dealCommunityCards r x) as [e2|] eqn:Ed; [|discriminate];
         apply dealCommunityCards_round in Ed; simpl in Ed
       end.
  all: cbn [bind].
  all: match goal with |- context [if ?b then _ else _] => destruct b end.
  all: intros H; right; unfold LaterStreet; rewrite Er.
  all: try (apply IH in H; unfold LaterStreet in H;
            destruct H as [(A & _)|L]; [rewrite A, Ed | rewrite Ed in L];
            simpl in *; lia).
  all: apply startBettingRoundWith_later in H; [|exact IH];
         rewrite Ed in H; simpl in *; lia.
Qed.

Lemma advanceAction_later now e e' :
  advanceAction now e = Ok e' -> SameRaise e e' \/ LaterStreet e e'.
Proof.
  unfold advanceAction.
  destruct (findNextActor (state e)) as [[[i p]|]|]; [| |discriminate];
    cbn [bind].
  - intros H. apply promptActionWith_later in H;
      [|intros x y; apply advanceToNextRound_later].
    destruct H as [(A & B & C)|L]; [left; repeat split; assumption | right].
    exact L.
  - apply advanceToNextRound_later.
Qed.

(** After an accepted action the table either still shows the raise
    bookkeeping the switch left, or has moved to a later street. *)
Lemma handleAction_keeps_raise now pid action amt e e' i player a s2 :
  findPlayer pid (state e) = Some (i, player) ->
  getActivePlayer (state e) = Some a ->
  id (snd a) = pid ->
  applyAction i player action amt (state e) = Some s2 ->
  handleAction now pid action amt e = Ok (true, e') ->
  (minRaise (state e') = minRaise s2
   /\ lastRaiseAmount (state e') = lastRaiseAmount s2)
  \/ LaterStreet e e'.
Proof.
  intros Hf Ha Hid Happ. unfold handleAction. rewrite Hf, Ha.
  destruct a as [j a]. simpl in Hid. subst pid.
  rewrite String.eqb_refl. cbn [negb].
  change (state (clearActionTimer e)) with (state e). rewrite Happ.
  destruct (applyAction_frame _ _ _ _ _ _ Happ) as [Hr _].
  match goal with |- context [notFoldedPlayers (state ?x)] => set (e3 := x) end.
  assert (H3 : bettingRound (state e3) = bettingRound (state e)
               /\ minRaise (state e3) = minRaise s2
               /\ lastRaiseAmount (state e3) = lastRaiseAmount s2).
  { unfold e3. destruct (nth_error (players s2) i); simpl; auto. }
  clearbody e3. destruct H3 as (R3 & M3 & L3).
  destruct (len (notFoldedPlayers (state e3)) <=? 1).
  - intros H. inversion H; subst. left.
    destruct (endHandFold_same (hd_error (notFoldedPlayers (state e3))) e3)
      as (_ & B & C). split; congruence.
  - destruct (advanceAction now e3) as [e4|] eqn:E4; [|discriminate].
    cbn [bind]. intros H. inversion H; subst.
    destruct (advanceAction_later _ _ _ E4) as [(A & B & C)|L].
    + left. split; congruence.
    + right. unfold LaterStreet in *. now rewrite <- R3.
Qed.

(** *** Acceptance of a raise *)

Lemma raiseAmountOf_le a amt player :
  0 <= chips player -> raiseAmountOf a amt player <= chips player.
Proof.
  intros Hc. unfold raiseAmountOf, truthy.
  destruct a, amt as [z|]; simpl; try lia;
    try (destruct (Z.eqb_spec z 0), (Z.geb_spec z (chips player));
         simpl; lia).
Qed.

(** C4. For the player on action at a table with a positive minimum raise,
    a raise or all-in request adding [raiseAmount] chips, with
    [raiseOver = currentBet + raiseAmount - state.currentBet], is accepted
    exactly when [raiseOver >= minRaise] or [raiseAmount] is the whole stack,
    and is refused otherwise. The switch sets [minRaise] and
    [lastRaiseAmount] to [raiseOver] for a full raise and leaves them alone
    for a short all-in; the table returned by [handleAction] still shows
    those values unless the action closed the street. *)
Theorem raise_acceptance_and_min_raise :
  forall now pid a amt e i player active,
    DeckOK e ->
    a = ActRaise \/ a = ActAllIn ->
    findPlayer pid (state e) = Some (i, player) ->
    getActivePlayer (state e) = Some active ->
    id (snd active) = pid ->
    0 < minRaise (state e) ->
    0 <= chips player ->
    let raiseAmount := raiseAmountOf a amt player in
    let raiseOver :=
      currentBet player + raiseAmount - stateCurrentBet (state e) in
    let legal :=
      minRaise (state e) <= raiseOver \/ raiseAmount = chips player in
    ((exists e', handleAction now pid (Known a) amt e = Ok (true, e'))
     <-> legal)
    /\ (~ legal ->
        handleAction now pid (Known a) amt e = Ok (false, clearActionTimer e))
    /\ (forall s',
          applyAction i player (Known a) amt (state e) = Some s' ->
          (minRaise (state e) <= raiseOver ->
           minRaise s' = raiseOver /\ lastRaiseAmount s' = raiseOver)
          /\ (raiseOver < minRaise (state e) ->
              raiseAmount = chips player
              /\ minRaise s' = minRaise (state e)
              /\ lastRaiseAmount s' = lastRaiseAmount (state e)))
    /\ (forall e',
          handleAction now pid (Known a) amt e = Ok (true, e') ->
          (minRaise (state e) <= raiseOver ->
           (minRaise (state e') = raiseOver
            /\ lastRaiseAmount (state e') = raiseOver)
           \/ LaterStreet e e')
          /\ (raiseOver < minRaise (state e) ->
              (minRaise (state e') = minRaise (state e)
               /\ lastRaiseAmount (state e') = lastRaiseAmount (state e))
              \/ LaterStreet e e')).
Proof.
  intros now pid a amt e i player active Hd Ha Hf Hact Hid Hmin Hchips
         raiseAmount raiseOver legal.
  pose proof (raiseAmountOf_le a amt player Hchips) as Hle.
  fold raiseAmount in Hle.
  pose proof (handleAction_on_action now pid (Known a) amt e i player active
                Hd Hf Hact Hid) as Hrun.
  assert (Hsw :
    applyAction i player (Known a) amt (state e)
    = if (raiseAmount <? stateCurrentBet (state e) + minRaise (state e)
                         - currentBet player)
         && (raiseAmount <? chips player)
      then None
      else
        Some
          (modifyPlayer i
             (fun _ =>
                if chips player - raiseAmount =? 0
                then setLastAction (Some ActAllIn)
                       (setIsAllIn true
                          (setTotalBetThisRound
                             (totalBetThisRound player + raiseAmount)
                             (setCurrentBet (currentBet player + raiseAmount)
                                (setChips (chips player - raiseAmount) player))))
                else setLastAction (Some ActRaise)
                       (setTotalBetThisRound
                          (totalBetThisRound player + raiseAmount)
                          (setCurrentBet (currentBet player + raiseAmount)
                             (setChips (chips player - raiseAmount) player))))
             (let s1 :=
                if (raiseOver >? 0) && (raiseOver >=? minRaise (state e))
                then setMinRaise raiseOver
                       (setLastRaiseAmount raiseOver (state e))
                else state e in
              let s2 := setPot (pot s1 + raiseAmount) s1 in
              if currentBet player + raiseAmount >? stateCurrentBet s2
              then setStateCurrentBet (currentBet player + raiseAmount) s2
              else s2))).
  { destruct Ha as [-> | ->]; reflexivity. }
  assert (Hlegal :
    legal <->
    (raiseAmount <? stateCurrentBet (state e) + minRaise (state e)
                    - currentBet player)
    && (raiseAmount <? chips player) = false).
  { unfold legal, raiseOver. rewrite andb_false_iff, !Z.ltb_ge. lia. }
  assert (Hbook : forall s',
    applyAction i player (Known a) amt (state e) = Some s' ->
    (minRaise (state e) <= raiseOver ->
     minRaise s' = raiseOver /\ lastRaiseAmount s' = raiseOver)
    /\ (raiseOver < minRaise (state e) ->
        raiseAmount = chips player
        /\ minRaise s' = minRaise (state e)
        /\ lastRaiseAmount s' = lastRaiseAmount (state e))).
  { intros s' Hs'. rewrite Hsw in Hs'.
    destruct ((raiseAmount <? _) && (raiseAmount <? chips player)) eqn:Et;
      [discriminate|].
    assert (Hl : legal) by (apply Hlegal; reflexivity).
    inversion Hs'; subst s'; clear Hs'.
    destruct (Z.gtb_spec raiseOver 0), (Z.geb_spec raiseOver (minRaise (state e)));
      simpl; break_if; simpl; unfold legal in Hl; repeat split; intros; lia. }
  split; [|split; [|split; [exact Hbook|]]].
  - rewrite Hlegal. rewrite Hsw in Hrun.
    destruct ((raiseAmount <? _) && (raiseAmount <? chips player)).
    + split; [|discriminate]. intros [e' He']. rewrite Hrun in He'.
      discriminate.
    + split; [reflexivity|]. intros _. destruct Hrun as (e' & He' & _). eauto.
  - intros Hn. rewrite Hsw in Hrun.
    destruct ((raiseAmount <? _) && (raiseAmount <? chips player)) eqn:Et;
      [exact Hrun|].
    exfalso. apply Hn, Hlegal. reflexivity.
  - intros e' He'.
    destruct (applyAction i player (Known a) amt (state e)) as [s'|] eqn:Es'.
    2:{ rewrite Hrun in He'. discriminate. }
    destruct (Hbook s' eq_refl) as [Hfull Hshort].
    pose proof (handleAction_keeps_raise now pid (Known a) amt e e' i player
                  active s' Hf Hact Hid Es' He') as [[Hm Hl]|Hlater].
    + split; intros H.
      * left. destruct (Hfull H). split; congruence.
      * left. destruct (Hshort H) as (_ & ? & ?). split; congruence.
    + split; intros _; right; exact Hlater.
Qed.

Lemma raise_acceptance_and_min_raise_witness :
  exists e',
    handleAction 0 "a" (Known ActRaise) (Some 10) preflopTable = Ok (true, e').
Proof.
  edestruct (raise_acceptance_and_min_raise 0 "a" ActRaise (Some 10)
               preflopTable) as [Hacc _].
  - unfold DeckOK. simpl. split; [reflexivity | lia].
  - left. reflexivity.
  - reflexivity.
  - reflexivity.
  - reflexivity.
  - simpl. lia.
  - simpl. lia.
  - apply Hacc. left. simpl. lia.
Defined.

(* ================================================================= *)
(** * Further properties of the deck *)

Lemma replace_perm {A} (l : list A) j a c :
  nth_error l j = Some c ->
  Permutation (a :: l) (c :: updateAt j (fun _ => a) l).
Proof.
  revert j. induction l as [|x l IH]; intros [|j] H; simpl in *;
    try discriminate.
  - inversion H; subst. apply perm_swap.
  - eapply perm_trans; [apply perm_swap|].
    eapply perm_trans; [apply perm_skip, (IH j H)|]. apply perm_swap.
Qed.

Lemma swap_perm dk i j : Permutation dk (swap dk i j).
Proof.
  unfold swap.
  destruct (nth_error dk i) as [ci|] eqn:Ei; [|apply Permutation_refl].
  destruct (nth_error dk j) as [cj|] eqn:Ej; [|apply Permutation_refl].
  revert i j Ei Ej. induction dk as [|x dk IH]; intros [|i] [|j] Ei Ej;
    simpl in *; try discriminate.
  - inversion Ei; inversion Ej; subst. apply Permutation_refl.
  - inversion Ei; subst. now apply replace_perm.
  - inversion Ej; subst. now apply replace_perm.
  - apply perm_skip. now apply IH.
Qed.

Lemma shuffleFrom_perm rv i dk : Permutation dk (shuffleFrom rv i dk).
Proof.
  revert dk. induction i as [|i IH]; intros dk; simpl;
    [apply Permutation_refl|].
  eapply perm_trans; [apply swap_perm | apply IH].
Qed.

(** X1. Whatever words the random source delivers, [shuffleDeck] returns a
    rearrangement of the deck it was given: no card is lost, none is
    duplicated. *)
Theorem shuffleDeck_is_permutation :
  forall rv dk, Permutation dk (shuffleDeck rv dk).
Proof. intros. apply shuffleFrom_perm. Qed.

Lemma createDeck_NoDup : NoDup createDeck.
Proof.
  apply (NoDup_map_inv
           (fun c => 13 * match suit c with
                          | hearts => 0 | diamonds => 1 | clubs => 2
                          | spades => 3 end
                     + RANK_VALUES (rank c))).
  vm_compute.
  repeat (constructor; [simpl; intuition discriminate|]). constructor.
Qed.

Lemma createDeck_complete c : In c createDeck.
Proof. destruct c as [[] []]; vm_compute; tauto. Qed.

(** X2. The deck of a new hand holds every one of the 52 cards exactly
    once, whatever the random source. *)
Theorem newHandDeck_has_each_card_once :
  forall rv,
    length (cards (newHandDeck rv)) = 52%nat
    /\ NoDup (cards (newHandDeck rv))
    /\ (forall c, In c (cards (newHandDeck rv)))
    /\ position (newHandDeck rv) = O.
Proof.
  intros rv.
  assert (HP : Permutation createDeck (cards (newHandDeck rv)))
    by apply shuffleFrom_perm.
  split; [apply newHandDeck_full|]. split; [|split; [|reflexivity]].
  - eapply Permutation_NoDup; [exact HP | apply createDeck_NoDup].
  - intros c. eapply Permutation_in; [exact HP | apply createDeck_complete].
Qed.

Lemma deal_exhausted d :
  (length (cards d) <= position d)%nat -> deal d = Throw DeckExhausted.
Proof.
  intros H. unfold deal.
  destruct (Nat.leb_spec (length (cards d)) (position d)); [reflexivity|lia].
Qed.

Lemma deal_next d :
  (position d < length (cards d))%nat ->
  exists c,
    nth_error (cards d) (position d) = Some c
    /\ deal d = Ok (c, mkHandDeck (cards d) (S (position d))).
Proof.
  intros H. unfold deal.
  destruct (Nat.leb_spec (length (cards d)) (position d)); [lia|].
  destruct (nth_error (cards d) (position d)) eqn:E; [eauto|].
  apply nth_error_None in E. lia.
Qed.

Lemma skipn_cons_nth {A} (l : list A) n c :
  nth_error l n = Some c -> skipn n l = c :: skipn (S n) l.
Proof.
  revert n. induction l as [|x l IH]; intros [|n] H; simpl in *;
    try discriminate.
  - now inversion H.
  - now apply IH.
Qed.

(** X3. [dealMultiple (k)] hands out the next [k] cards of the deck in
    order and moves the cursor past them; when fewer than [k] cards are left
    it throws the deck-exhausted error (asking for no card always
    succeeds). *)
Theorem dealMultiple_deals_next_cards_or_throws :
  forall k d,
    dealMultiple k d
    = if (k =? 0)%nat || (position d + k <=? length (cards d))%nat
      then Ok (firstn k (skipn (position d) (cards d)),
               mkHandDeck (cards d) (position d + k))
      else Throw DeckExhausted.
Proof.
  induction k as [|k IH]; intros d.
  - simpl. rewrite Nat.add_0_r. destruct d; reflexivity.
  - cbn [dealMultiple Nat.eqb orb].
    destruct (Nat.leb_spec (position d + S k) (length (cards d))) as [Hle|Hgt].
    + destruct (deal_next d ltac:(lia)) as (c & Hc & Hd).
      rewrite Hd. cbn [bind]. rewrite IH. simpl position. simpl cards.
      replace (S (position d) + k <=? length (cards d))%nat with true
        by (symmetry; apply Nat.leb_le; lia).
      rewrite orb_true_r. cbn [bind].
      rewrite (skipn_cons_nth _ _ _ Hc). simpl.
      do 3 f_equal. lia.
    + destruct (Nat.le_gt_cases (length (cards d)) (position d)) as [He|Hlt].
      * now rewrite deal_exhausted.
      * destruct (deal_next d Hlt) as (c & Hc & Hd).
        rewrite Hd. cbn [bind]. rewrite IH. simpl position. simpl cards.
        destruct k as [|k]; [lia|]. cbn [Nat.eqb orb].
        replace (S (position d) + S k <=? length (cards d))%nat with false
          by (symmetry; apply Nat.leb_gt; lia).
        reflexivity.
Qed.

Lemma dealMultiple_ok_inv k d cs d' :
  dealMultiple k d = Ok (cs, d') ->
  cs = firstn k (skipn (position d) (cards d))
  /\ d' = mkHandDeck (cards d) (position d + k)
  /\ length cs = k
  /\ (k = O \/ position d + k <= length (cards d))%nat.
Proof.
  revert d cs d'. induction k as [|k IH]; intros d cs d' H.
  - simpl in H. inversion H; subst. rewrite Nat.add_0_r.
    repeat split; auto. destruct d'; reflexivity.
  - cbn [dealMultiple] in H.
    destruct (Nat.le_gt_cases (length (cards d)) (position d)) as [He|Hlt].
    { rewrite deal_exhausted in H by exact He. discriminate. }
    destruct (deal_next d Hlt) as (c & Hc & Hd). rewrite Hd in H.
    cbn [bind] in H.
    destruct (dealMultiple k (mkHandDeck (cards d) (S (position d))))
      as [[cs1 d1]|] eqn:E; [|discriminate].
    cbn [bind] in H. inversion H; subst.
    destruct (IH _ _ _ E) as (H1 & H2 & H3 & H4). simpl in *.
    rewrite (skipn_cons_nth _ _ _ Hc). simpl.
    repeat split.
    + now rewrite H1.
    + rewrite H2. f_equal. lia.
    + now rewrite H3.
    + right. destruct H4 as [->|H4]; lia.
Qed.

Lemma NoDup_firstn {A} (l : list A) n : NoDup l -> NoDup (firstn n l).
Proof.
  revert n. induction l as [|x l IH]; intros [|n] H; simpl; try constructor.
  - inversion H; subst. intros Hin. apply H2.
    revert Hin. clear. revert n. induction l as [|y l IH]; intros [|n] Hin;
      simpl in *; try contradiction.
    destruct Hin as [->|Hin]; [now left | right; eauto].
  - inversion H; subst. now apply IH.
Qed.

Lemma NoDup_skipn {A} (l : list A) n : NoDup l -> NoDup (skipn n l).
Proof.
  revert n. induction l as [|x l IH]; intros [|n] H; simpl; auto.
  inversion H; subst. now apply IH.
Qed.

Lemma firstn_add_skipn {A} (l : list A) a b :
  firstn (a + b) l = firstn a l ++ firstn b (skipn a l).
Proof.
  revert l. induction a as [|a IH]; intros l; simpl; [reflexivity|].
  destruct l as [|x l]; simpl.
  - now rewrite firstn_nil.
  - now rewrite IH.
Qed.

(** X4. Two deals made one after the other from a deck without repeated
    cards never hand out the same card twice: the cards of both deals are
    pairwise distinct, and the deck is left with [k + k'] cards fewer. *)
Theorem successive_deals_are_distinct :
  forall k k' d d1 d2 cs cs',
    NoDup (cards d) ->
    dealMultiple k d = Ok (cs, d1) ->
    dealMultiple k' d1 = Ok (cs', d2) ->
    NoDup (cs ++ cs')
    /\ cards d2 = cards d
    /\ position d2 = (position d + k + k')%nat.
Proof.
  intros k k' d d1 d2 cs cs' Hnd H1 H2.
  destruct (dealMultiple_ok_inv _ _ _ _ H1) as (A1 & A2 & _ & _).
  destruct (dealMultiple_ok_inv _ _ _ _ H2) as (B1 & B2 & _ & _).
  subst d1 d2 cs cs'. simpl. repeat split.
  rewrite (Nat.add_comm (position d) k), <- skipn_skipn.
  rewrite <- firstn_add_skipn.
  apply NoDup_firstn, NoDup_skipn, Hnd.
Qed.

Lemma successive_deals_are_distinct_witness :
  exists cs cs' : list Card,
    NoDup (cs ++ cs') /\ length cs = 2%nat /\ length cs' = 3%nat.
Proof.
  do 2 eexists. split.
  - refine (proj1 (successive_deals_are_distinct 2 3
                     (mkHandDeck createDeck 0) _ _ _ _
                     createDeck_NoDup _ _));
      vm_compute; reflexivity.
  - split; reflexivity.
Defined.

(* ================================================================= *)
(** * Further properties of the evaluator *)

Lemma compareValues_antisym a b : compareValues b a = - compareValues a b.
Proof.
  revert b. induction a as [|x a IH]; intros [|y b]; simpl; try reflexivity.
  rewrite (Z.eqb_sym y x). destruct (Z.eqb_spec x y); [apply IH | lia].
Qed.

Lemma compareValues_refl a : compareValues a a = 0.
Proof. induction a as [|x a IH]; simpl; [|rewrite Z.eqb_refl]; auto. Qed.

Lemma compareHands_antisym a b : compareHands b a = - compareHands a b.
Proof.
  unfold compareHands.
  rewrite (Z.eqb_sym (handRankValue (eh_rank b))).
  destruct (Z.eqb_spec (handRankValue (eh_rank a)) (handRankValue (eh_rank b)));
    simpl; [apply compareValues_antisym | lia].
Qed.

Lemma compareHands_refl a : compareHands a a = 0.
Proof.
  unfold compareHands. rewrite Z.eqb_refl. simpl. apply compareValues_refl.
Qed.

(** X5. [compareHands] is antisymmetric on all hands: swapping the
    arguments negates the result, so a hand never beats itself and two hands
    never beat each other. *)
Theorem compareHands_is_antisymmetric :
  forall a b,
    compareHands b a = - compareHands a b
    /\ compareHands a a = 0
    /\ ~ (compareHands a b > 0 /\ compareHands b a > 0).
Proof.
  intros a b. pose proof (compareHands_antisym a b).
  split; [assumption|]. split; [apply compareHands_refl | lia].
Qed.

(** X6. [evaluateBestHand] throws the insufficient-cards error, carrying
    the number of cards it got, exactly when it is given fewer than five
    cards; on five cards or more it returns a hand. *)
Theorem evaluateBestHand_needs_five_cards :
  forall cs,
    if (length cs <? 5)%nat
    then evaluateBestHand cs = Throw (InsufficientCards (length cs))
    else exists h, evaluateBestHand cs = Ok h.
Proof.
  intros cs. destruct (Nat.ltb_spec (length cs) 5) as [H|H].
  - unfold evaluateBestHand.
    destruct (Nat.ltb_spec (length cs) 5); [reflexivity | lia].
  - now apply evaluateBestHand_ok.
Qed.

(** ** The combinations *)

Lemma getCombinations_zero {A} (arr : list A) : getCombinations arr 0 = [[]].
Proof. destruct arr; reflexivity. Qed.

Lemma getCombinations_subseq {A} (arr : list A) k c :
  In c (getCombinations arr k) <-> Subseq c arr /\ length c = k.
Proof.
  split.
  - revert k c. induction arr as [|x arr IH]; intros [|k] c; simpl.
    + intros [<-|[]]. split; [constructor | reflexivity].
    + intros [].
    + intros [<-|[]]. split; [|reflexivity].
      destruct (IH O []) as [Hs _];
        [rewrite getCombinations_zero; now left|].
      now constructor.
    + rewrite in_app_iff, in_map_iff.
      intros [(c' & <- & Hc') | Hc].
      * destruct (IH _ _ Hc') as [Hs Hl]. split; [now constructor|].
        simpl. now rewrite Hl.
      * destruct (IH _ _ Hc) as [Hs Hl]. split; [now constructor | exact Hl].
  - intros [Hs Hl]. subst k. induction Hs as [|x c l Hs IH|x c l Hs IH].
    + now left.
    + destruct c as [|y c]; simpl.
      * now left.
      * rewrite in_app_iff. right. exact IH.
    + simpl. rewrite in_app_iff, in_map_iff. left. eauto.
Qed.

Lemma getCombinations_count {A} (arr : list A) k :
  length (getCombinations arr k) = binomial (length arr) k.
Proof.
  revert k. induction arr as [|x arr IH]; intros [|k]; simpl; auto.
  now rewrite length_app, length_map, !IH.
Qed.

(** X7. [getCombinations (arr, k)] lists exactly the selections of [k]
    elements of [arr] that keep the order of [arr], one entry per choice of
    positions: binomial(n, k) of them, so 21 for seven cards taken five at
    a time. *)
Theorem getCombinations_enumerates_selections :
  forall (arr : list Card) k,
    (forall c, In c (getCombinations arr k)
               <-> Subseq c arr /\ length c = k)
    /\ length (getCombinations arr k) = binomial (length arr) k
    /\ binomial 7 5 = 21%nat.
Proof.
  intros arr k. split; [intros c; apply getCombinations_subseq|].
  split; [apply getCombinations_count | reflexivity].
Qed.

(** ** The order on evaluated hands *)

Section InsertionSort.

(** A comparator that decides a relation [R] in both directions. *)
Context {A : Type} (cmp : A -> A -> Z) (R : A -> A -> Prop).
Hypothesis cmp_le : forall x y, cmp x y <= 0 -> R x y.
Hypothesis cmp_gt : forall x y, cmp x y > 0 -> R y x.

Lemma insertBy_HdRel a x l :
  R a x -> HdRel R a l -> HdRel R a (insertBy cmp x l).
Proof.
  intros Hax Hl. destruct l as [|y l]; simpl; [now constructor|].
  destruct (cmp x y <=? 0); constructor; auto.
  now inversion Hl.
Qed.

Lemma insertBy_Sorted x l : Sorted R l -> Sorted R (insertBy cmp x l).
Proof.
  induction l as [|y l IH]; intros Hs; simpl.
  - repeat constructor.
  - destruct (Z.leb_spec (cmp x y) 0).
    + constructor; [exact Hs | constructor; now apply cmp_le].
    + inversion Hs; subst. constructor; [now apply IH|].
      apply insertBy_HdRel; [apply cmp_gt; lia | assumption].
Qed.

Lemma sortBy_Sorted l : Sorted R (sortBy cmp l).
Proof.
  induction l as [|x l IH]; simpl; [constructor | now apply insertBy_Sorted].
Qed.

End InsertionSort.

Lemma insertBy_length {A} (cmp : A -> A -> Z) x l :
  length (insertBy cmp x l) = S (length l).
Proof.
  induction l as [|y l IH]; simpl; [reflexivity|].
  destruct (cmp x y <=? 0); simpl; auto.
Qed.

Lemma bump_positive v m :
  Forall (fun kc => 0 < snd kc) m -> Forall (fun kc => 0 < snd kc) (bump v m).
Proof.
  induction 1 as [|[k c] m Hc Hm IH]; simpl.
  - repeat constructor.
  - destruct (k =? v); constructor; simpl in *; auto; lia.
Qed.

Lemma rankCounts_positive values :
  Forall (fun kc => 0 < snd kc) (rankCounts values).
Proof.
  unfold rankCounts.
  assert (H : forall m,
             Forall (fun kc => 0 < snd kc) m ->
             Forall (fun kc => 0 < snd kc)
               (fold_left (fun m v => bump v m) values m)).
  { induction values as [|v values IH]; intros m Hm; simpl; [exact Hm|].
    apply IH, bump_positive, Hm. }
  apply H. constructor.
Qed.

Lemma counts_descend counts :
  StronglySorted (fun x y : Z * Z => snd y <= snd x) (sortBy cmpCounts counts).
Proof.
  apply Sorted_StronglySorted; [intros x y z; lia|].
  apply sortBy_Sorted; intros x y; unfold cmpCounts;
    destruct (Z.eqb_spec (snd y) (snd x)); simpl; lia.
Qed.

Lemma all_ones (l : list (Z * Z)) :
  Forall (fun kc => 0 < snd kc) l ->
  Forall (fun kc => snd kc <= 1) l ->
  sumZ (map snd l) = len l.
Proof.
  unfold len. induction 1 as [|x l Hx Hl IH]; intros H1; simpl; [reflexivity|].
  inversion H1; subst. rewrite IH by assumption. lia.
Qed.

(** The shape of the sorted histogram of five cards. *)
Lemma counts_of_five cs :
  length cs = 5%nat ->
  let values :=
    map (fun c => RANK_VALUES (rank c))
      (sortBy (fun a b => RANK_VALUES (rank b) - RANK_VALUES (rank a)) cs) in
  let counts := sortBy cmpCounts (rankCounts values) in
  length values = 5%nat
  /\ sumZ (map snd counts) = 5
  /\ Forall (fun kc => 0 < snd kc) counts
  /\ StronglySorted (fun x y : Z * Z => snd y <= snd x) counts.
Proof.
  intros Hlen values counts.
  assert (Hv : length values = 5%nat).
  { unfold values. now rewrite length_map, sortBy_length. }
  split; [exact Hv|]. split; [|split].
  - unfold counts. rewrite sortBy_counts_total, rankCounts_total.
    unfold len. now rewrite Hv.
  - eapply Permutation_Forall; [apply sortBy_perm | apply rankCounts_positive].
  - apply counts_descend.
Qed.

Lemma kickers_length (c0 : Z * Z) rest k :
  StronglySorted (fun x y : Z * Z => snd y <= snd x) (c0 :: rest) ->
  Forall (fun kc => 0 < snd kc) rest ->
  sumZ (map snd rest) = Z.of_nat k ->
  (match rest with
   | [] => True
   | c1 :: _ => snd c1 <= 1
   end) ->
  length rest = k.
Proof.
  intros Hs Hp Hsum H1.
  assert (Hall : Forall (fun kc => snd kc <= 1) rest).
  { inversion Hs as [|? ? Hs' _]; subst.
    destruct rest as [|c1 rest]; [constructor|].
    inversion Hs' as [|? ? _ Hc1]; subst.
    constructor; [exact H1|].
    eapply Forall_impl; [|exact Hc1]. simpl. intros; lia. }
  pose proof (all_ones rest Hp Hall) as Hones. unfold len in Hones. lia.
Qed.

Lemma evaluateFiveCards_tiebreak cs h :
  length cs = 5%nat ->
  evaluateFiveCards cs = Ok h ->
  length (eh_values h) = tiebreakLength (eh_rank h).
Proof.
  intros Hlen. destruct (counts_of_five cs Hlen) as (Hv & Hs & Hp & Hd).
  unfold evaluateFiveCards.
  set (sorted := sortBy (fun a b => RANK_VALUES (rank b) - RANK_VALUES (rank a)) cs) in *.
  set (values := map (fun c => RANK_VALUES (rank c)) sorted) in *.
  set (counts := sortBy cmpCounts (rankCounts values)) in *.
  assert (Hfirst : length (firstValue values) = 1%nat).
  { unfold firstValue. destruct values; [discriminate | reflexivity]. }
  clearbody counts values sorted.
  assert (Hmap : forall l : list (Z * Z), length (map fst l) = length l)
    by (intros; apply length_map).
  destruct (isFlushOf (map suit sorted) && checkStraight values).
  { destruct (topIsAceKing values); intros H; inversion H; subst; simpl; auto. }
  destruct (isFlushOf (map suit sorted) && checkWheelStraight values).
  { intros H; inversion H; subst; reflexivity. }
  destruct counts as [|[v0 c0] rest]; [simpl in Hs; lia|].
  simpl in Hs. inversion Hp as [|? ? Hc0 Hprest]; subst. simpl in Hc0.
  change (deref ((v0, c0) :: rest) 0) with (Ok (A:=Z*Z) (v0, c0)).
  cbn [bind fst snd tl].
  destruct rest as [|[v1 c1] more].
  { simpl in Hs. assert (c0 = 5) by lia. subst c0.
    unfold deref, at_. simpl.
    break_if; intros H; inversion H; subst; simpl; auto. }
  inversion Hprest as [|? ? Hc1 Hpmore]; subst. simpl in Hc1.
  change (deref ((v0, c0) :: (v1, c1) :: more) 1) with (Ok (A:=Z*Z) (v1, c1)).
  cbn [bind fst snd].
  inversion Hd as [|? ? _ Hle0]; subst.
  inversion Hle0 as [|? ? Hc1le _]; subst. simpl in Hc1le, Hs.
  assert (Hmore0 : 0 <= sumZ (map snd more)).
  { clear -Hpmore. induction Hpmore; simpl; lia. }
  assert (Hkick : forall k,
             c1 <= 1 -> c1 + sumZ (map snd more) = Z.of_nat k ->
             length ((v1, c1) :: more) = k).
  { intros k H1 Hk. eapply kickers_length; eauto. }
  destruct (Z.eqb_spec c0 4); [intros H; inversion H; subst; reflexivity|].
  destruct (Z.eqb_spec c0 3) as [E3|E3]; cbn [bind].
  { destruct (Z.eqb_spec c1 2); [intros H; inversion H; reflexivity|].
    destruct (isFlushOf (map suit sorted));
      [intros H; inversion H; subst; simpl; auto|].
    destruct (checkStraight values);
      [intros H; inversion H; subst; simpl; auto|].
    destruct (checkWheelStraight values);
      [intros H; inversion H; subst; simpl; auto|].
    intros H; injection H as <-.
    pose proof (Hkick 2%nat ltac:(lia) ltac:(lia)) as Hk.
    cbn [makeResult eh_values eh_rank tiebreakLength length tl] in *.
    repeat (rewrite insertBy_length || rewrite sortBy_length
            || rewrite length_map).
    cbn [length]. lia. }
  destruct (isFlushOf (map suit sorted));
    [intros H; inversion H; subst; simpl; auto|].
  destruct (checkStraight values);
    [intros H; inversion H; subst; simpl; auto|].
  destruct (checkWheelStraight values);
    [intros H; inversion H; subst; simpl; auto|].
  destruct (Z.eqb_spec c0 2) as [E2|E2]; cbn [bind].
  2:{ intros H; inversion H; subst; simpl; auto. }
  destruct (Z.eqb_spec c1 2) as [E12|E12].
  { destruct more as [|[v2 c2] more]; [simpl in Hs; lia|].
    change (deref ((v0, c0) :: (v1, c1) :: (v2, c2) :: more) 2)
      with (Ok (A:=Z*Z) (v2, c2)).
    cbn [bind]. intros H; inversion H; reflexivity. }
  intros H; injection H as <-.
  pose proof (Hkick 3%nat ltac:(lia) ltac:(lia)) as Hk.
  cbn [makeResult eh_values eh_rank tiebreakLength length tl] in *.
  repeat (rewrite insertBy_length || rewrite sortBy_length
          || rewrite length_map).
  cbn [length]. lia.
Qed.

Lemma compareValues_trans a b c :
  length a = length b -> length b = length c ->
  compareValues a b <= 0 -> compareValues b c <= 0 -> compareValues a c <= 0.
Proof.
  revert b c. induction a as [|x a IH]; intros [|y b] [|z c] Hab Hbc;
    simpl in *; try discriminate; try lia.
  destruct (Z.eqb_spec x y), (Z.eqb_spec y z), (Z.eqb_spec x z);
    try lia.
  apply IH; lia.
Qed.

Lemma compareValues_zero a b :
  length a = length b -> compareValues a b = 0 -> a = b.
Proof.
  revert b. induction a as [|x a IH]; intros [|y b] Hl; simpl in *;
    try discriminate; [reflexivity|].
  destruct (Z.eqb_spec x y); [|lia].
  intros H. subst. f_equal. apply IH; [lia | exact H].
Qed.

Lemma handRankValue_inj r r' : handRankValue r = handRankValue r' -> r = r'.
Proof. destruct r, r'; simpl; intros H; try reflexivity; discriminate. Qed.

Lemma compareHands_trans a b c :
  WellFormed a -> WellFormed b -> WellFormed c ->
  compareHands a b <= 0 -> compareHands b c <= 0 -> compareHands a c <= 0.
Proof.
  unfold WellFormed, compareHands. intros Wa Wb Wc.
  destruct (Z.eqb_spec (handRankValue (eh_rank a)) (handRankValue (eh_rank b)))
    as [Eab|Eab],
    (Z.eqb_spec (handRankValue (eh_rank b)) (handRankValue (eh_rank c)))
    as [Ebc|Ebc],
    (Z.eqb_spec (handRankValue (eh_rank a)) (handRankValue (eh_rank c)))
    as [Eac|Eac]; simpl; try lia.
  apply handRankValue_inj in Eab, Ebc.
  apply compareValues_trans; congruence.
Qed.

Lemma compareHands_zero a b :
  WellFormed a -> WellFormed b -> compareHands a b = 0 ->
  eh_rank a = eh_rank b /\ eh_values a = eh_values b.
Proof.
  unfold WellFormed, compareHands. intros Wa Wb.
  destruct (Z.eqb_spec (handRankValue (eh_rank a)) (handRankValue (eh_rank b)))
    as [E|E]; simpl; [|lia].
  apply handRankValue_inj in E. intros H. split; [exact E|].
  apply compareValues_zero; congruence.
Qed.

(** X8. On hands evaluated from five cards the tiebreak vector has the
    length of its category, [compareHands] is transitive, and it returns 0
    only for hands of the same category with the same tiebreak vector. *)
Theorem evaluated_hands_are_ordered :
  forall ca cb cc a b c,
    length ca = 5%nat -> length cb = 5%nat -> length cc = 5%nat ->
    evaluateFiveCards ca = Ok a ->
    evaluateFiveCards cb = Ok b ->
    evaluateFiveCards cc = Ok c ->
    length (eh_values a) = tiebreakLength (eh_rank a)
    /\ (compareHands a b <= 0 -> compareHands b c <= 0 ->
        compareHands a c <= 0)
    /\ (compareHands a b = 0 ->
        eh_rank a = eh_rank b /\ eh_values a = eh_values b).
Proof.
  intros ca cb cc a b c La Lb Lc Ea Eb Ec.
  pose proof (evaluateFiveCards_tiebreak _ _ La Ea) as Wa.
  pose proof (evaluateFiveCards_tiebreak _ _ Lb Eb) as Wb.
  pose proof (evaluateFiveCards_tiebreak _ _ Lc Ec) as Wc.
  split; [exact Wa|]. split.
  - now apply compareHands_trans.
  - now apply compareHands_zero.
Qed.

Lemma evaluated_hands_are_ordered_witness :
  exists a b c,
    evaluateFiveCards pairOfAces = Ok a
    /\ evaluateFiveCards twoPairHand = Ok b
    /\ evaluateFiveCards flushHand = Ok c
    /\ compareHands a b <= 0 /\ compareHands b c <= 0
    /\ compareHands a c <= 0.
Proof.
  do 3 eexists.
  split; [vm_compute; reflexivity|].
  split; [vm_compute; reflexivity|].
  split; [vm_compute; reflexivity|].
  assert (H1 : compareHands
                 (makeResult OnePair [14; 9; 5; 2]
                    [card RA spades; card RA hearts; card R9 clubs;
                     card R5 clubs; card R2 hearts])
                 (makeResult TwoPair [13; 9; 2]
                    [card RK spades; card RK hearts; card R9 clubs;
                     card R9 spades; card R2 hearts]) <= 0)
    by (vm_compute; discriminate).
  assert (H2 : compareHands
                 (makeResult TwoPair [13; 9; 2]
                    [card RK spades; card RK hearts; card R9 clubs;
                     card R9 spades; card R2 hearts])
                 (makeResult Flush [13; 9; 7; 5; 2]
                    [card RK clubs; card R9 clubs; card R7 clubs;
                     card R5 clubs; card R2 clubs]) <= 0)
    by (vm_compute; discriminate).
  split; [exact H1|]. split; [exact H2|].
  refine (proj1 (proj2 (evaluated_hands_are_ordered
                          pairOfAces twoPairHand flushHand _ _ _
                          eq_refl eq_refl eq_refl eq_refl eq_refl eq_refl))
            H1 H2).
Defined.

(** ** The best hand *)

Lemma evaluateFiveCards_cards cs h :
  evaluateFiveCards cs = Ok h -> Permutation cs (eh_cards h).
Proof.
  unfold evaluateFiveCards.
  set (sorted := sortBy (fun a b => RANK_VALUES (rank b) - RANK_VALUES (rank a)) cs).
  assert (HP : Permutation cs sorted) by apply sortBy_perm.
  clearbody sorted.
  intros H.
  repeat match type of H with
         | context [if ?b then _ else _] => destruct b
         | context [deref ?l ?i] => destruct (deref l i); cbn [bind] in H
         | (Throw _ = Ok _) => discriminate H
         end;
    try discriminate H; injection H as <-; exact HP.
Qed.

Lemma bestOf_max combos best r :
  Forall (fun c => length c = 5%nat) combos ->
  match best with Some b => WellFormed b | None => True end ->
  bestOf combos best = Ok r ->
  match r with
  | Some rb =>
      WellFormed rb
      /\ (forall c h, In c combos -> evaluateFiveCards c = Ok h ->
                      compareHands h rb <= 0)
      /\ match best with
         | Some b => compareHands b rb <= 0
         | None => True
         end
      /\ ((exists c, In c combos /\ evaluateFiveCards c = Ok rb)
          \/ best = Some rb)
  | None => best = None /\ combos = []
  end.
Proof.
  intros Hall. revert best r.
  induction Hall as [|c combos Hc Hcs IH]; intros best r Wb H; simpl in H.
  - inversion H; subst r. destruct best as [b|]; [|auto].
    split; [exact Wb|]. split; [intros ? ? []|].
    split; [rewrite compareHands_refl; lia | now right].
  - destruct (evaluateFiveCards c) as [h|] eqn:Eh; [|discriminate].
    cbn [bind] in H.
    pose proof (evaluateFiveCards_tiebreak _ _ Hc Eh) as Wh.
    assert (Hnext : forall keep,
               WellFormed keep ->
               compareHands h keep <= 0 ->
               match best with
               | Some b => compareHands b keep <= 0
               | None => True
               end ->
               (keep = h \/ best = Some keep) ->
               bestOf combos (Some keep) = Ok r ->
               match r with
               | Some rb =>
                   WellFormed rb
                   /\ (forall c0 h0, In c0 (c :: combos) ->
                                     evaluateFiveCards c0 = Ok h0 ->
                                     compareHands h0 rb <= 0)
                   /\ match best with
                      | Some b => compareHands b rb <= 0
                      | None => True
                      end
                   /\ ((exists c0, In c0 (c :: combos)
                                   /\ evaluateFiveCards c0 = Ok rb)
                       \/ best = Some rb)
               | None => best = None /\ c :: combos = []
               end).
    { intros keep Wk Hhk Hbk Horigin Hrun.
      specialize (IH (Some keep) r Wk Hrun).
      destruct r as [rb|]; [|destruct IH; discriminate].
      destruct IH as (Wr & Hmax & Hkr & Hfrom).
      split; [exact Wr|]. split; [|split].
      - intros c0 h0 [<-|Hin] E0.
        + assert (h0 = h) by congruence. subst h0.
          apply (compareHands_trans h keep rb); assumption.
        + apply (Hmax c0 h0); assumption.
      - destruct best as [b|]; [|exact I].
        apply (compareHands_trans b keep rb); assumption.
      - destruct Hfrom as [(c0 & Hin & E0)|E].
        + left. exists c0. split; [now right | exact E0].
        + inversion E; subst rb.
          destruct Horigin as [ Hk | Hk ]; [subst keep | now right].
          left. exists c. split; [now left | exact Eh]. }
    destruct best as [b|].
    + destruct (Z.gtb_spec (compareHands h b) 0) as [Hgt|Hle].
      * apply (Hnext h); auto.
        -- rewrite compareHands_refl; lia.
        -- rewrite compareHands_antisym. lia.
      * apply (Hnext b); auto. rewrite compareHands_refl; lia.
    + apply (Hnext h); auto. rewrite compareHands_refl; lia.
Qed.

Lemma Subseq_incl {A} (c l : list A) : Subseq c l -> incl c l.
Proof.
  induction 1 as [|x c l Hs IH|x c l Hs IH]; intros y Hy.
  - exact Hy.
  - right. now apply IH.
  - destruct Hy as [->|Hy]; [now left | right; now apply IH].
Qed.

(** X9. The hand returned by [evaluateBestHand] is the evaluation of one
    of the five-card selections of the input, its five cards are cards of
    the input, and no five-card selection of the input evaluates to a hand
    that beats it. *)
Theorem evaluateBestHand_is_best :
  forall cs best,
    evaluateBestHand cs = Ok best ->
    (exists combo,
        Subseq combo cs /\ length combo = 5%nat
        /\ evaluateFiveCards combo = Ok best
        /\ Permutation combo (eh_cards best))
    /\ incl (eh_cards best) cs
    /\ (forall combo h,
          Subseq combo cs -> length combo = 5%nat ->
          evaluateFiveCards combo = Ok h ->
          compareHands h best <= 0).
Proof.
  intros cs best. unfold evaluateBestHand.
  destruct (length cs <? 5)%nat; [discriminate|].
  destruct (bestOf (getCombinations cs 5) None) as [r|] eqn:Er;
    [|discriminate].
  cbn [bind]. destruct r as [rb|]; [|discriminate].
  intros H; inversion H; subst rb.
  apply bestOf_max in Er; [|apply Forall_forall; intros c;
                            apply getCombinations_length | exact I].
  destruct Er as (_ & Hmax & _ & [(c & Hin & Ec)|E]); [|discriminate].
  apply getCombinations_subseq in Hin. destruct Hin as [Hsub Hlen].
  pose proof (evaluateFiveCards_cards _ _ Ec) as HP.
  split; [exists c; auto|]. split.
  - intros x Hx. apply (Subseq_incl _ _ Hsub).
    eapply Permutation_in; [apply Permutation_sym, HP | exact Hx].
  - intros combo h Hs Hl Eh. apply (Hmax combo h); [|exact Eh].
    apply getCombinations_subseq. auto.
Qed.

Lemma evaluateBestHand_is_best_witness :
  exists best,
    evaluateBestHand heroS3 = Ok best
    /\ incl (eh_cards best) heroS3.
Proof.
  eexists. split; [vm_compute; reflexivity|].
  refine (proj1 (proj2 (evaluateBestHand_is_best heroS3 _ _))).
  vm_compute. reflexivity.
Defined.

(* ================================================================= *)
(** ** Further properties of the engine *)

(** *** What [getValidActions] offers *)

Lemma offered_action_applies s i player va amt :
  In va (getValidActions s player) ->
  match va_action va with
  | ActRaise =>
      exists x lo hi,
        amt = Some x /\ va_minAmount va = Some lo /\ va_maxAmount va = Some hi
        /\ lo <= x <= hi
  | _ => True
  end ->
  applyAction i player (Known (va_action va)) amt s <> None.
Proof.
  unfold getValidActions.
  set (toCall := stateCurrentBet s - currentBet player).
  intros Hin.
  assert (Hcases :
            va = mkValidAction ActFold None None
            \/ (toCall <= 0 /\ va = mkValidAction ActCheck None None)
            \/ va_action va = ActCall
            \/ (chips player > toCall
                /\ va = mkValidAction ActRaise
                          (Some (Z.min (stateCurrentBet s + minRaise s
                                        - currentBet player) (chips player)))
                          (Some (chips player)))).
  { destruct (Z.leb_spec toCall 0);
      destruct (Z.geb_spec toCall (chips player));
      destruct (Z.gtb_spec (chips player) toCall);
      try destruct (Z.leb_spec
                      (Z.min (stateCurrentBet s + minRaise s - currentBet player)
                         (chips player)) (chips player));
      repeat (apply in_app_or in Hin; destruct Hin as [Hin|Hin]);
      simpl in Hin;
      repeat match goal with
             | H : _ \/ _ |- _ => destruct H
             | H : False |- _ => destruct H
             end;
      subst; simpl; auto 6;
      try (do 3 right; split; [lia | reflexivity]); exfalso; lia. }
  intros Hamt.
  destruct Hcases as [->|[[Hc ->]|[Hcall|[Hc ->]]]]; simpl.
  - discriminate.
  - fold toCall. destruct (Z.gtb_spec toCall 0); [lia | discriminate].
  - rewrite Hcall. simpl. discriminate.
  - simpl in Hamt. destruct Hamt as (x & lo & hi & -> & Hlo & Hhi & Hx).
    inversion Hlo; inversion Hhi; subst lo hi. clear Hlo Hhi.
    unfold raiseAmountOf, truthy. cbn [orb].
    destruct (Z.eqb_spec x 0) as [Hx0|Hx0]; cbn [negb andb];
      [|destruct (Z.geb_spec x (chips player))].
    + destruct (Z.ltb_spec x (stateCurrentBet s + minRaise s - currentBet player));
        destruct (Z.ltb_spec x (chips player)); simpl; try discriminate.
      lia.
    + rewrite Z.ltb_irrefl, andb_false_r. discriminate.
    + destruct (Z.ltb_spec x (stateCurrentBet s + minRaise s - currentBet player));
        simpl; [lia | discriminate].
Qed.

Lemma check_applies_iff_offered s i player amt :
  applyAction i player (Known ActCheck) amt s <> None
  <-> In (mkValidAction ActCheck None None) (getValidActions s player).
Proof.
  unfold getValidActions, applyAction.
  set (toCall := stateCurrentBet s - currentBet player).
  destruct (Z.gtb_spec toCall 0) as [Hgt|Hle].
  - split; [intros H; now elim H|].
    destruct (Z.leb_spec toCall 0); [lia|].
    intros Hin.
    destruct (toCall >=? chips player);
      destruct (chips player >? toCall);
      try destruct (Z.min _ _ <=? chips player);
      repeat (apply in_app_or in Hin; destruct Hin as [Hin|Hin]);
      simpl in Hin;
      repeat match goal with
             | H : _ \/ _ |- _ => destruct H
             | H : False |- _ => destruct H
             end; discriminate.
  - split; [|discriminate]. intros _.
    destruct (Z.leb_spec toCall 0); [|lia].
    destruct (chips player >? toCall);
      try destruct (Z.min _ _ <=? chips player);
      repeat (apply in_or_app; simpl; auto; left);
      repeat (apply in_or_app; simpl; auto).
Qed.

(** X10. Every action [getValidActions] offers to the player on action is
    accepted by [handleAction]: fold, check and call as offered, and a raise
    with any amount between the offered minimum and maximum. A check is
    accepted exactly when it is offered. *)
Theorem offered_actions_are_accepted :
  forall now e a,
    DeckOK e ->
    getActivePlayer (state e) = Some a ->
    findPlayer (id (snd a)) (state e) = Some a ->
    (forall va amt,
        In va (getValidActions (state e) (snd a)) ->
        match va_action va with
        | ActRaise =>
            exists x lo hi,
              amt = Some x /\ va_minAmount va = Some lo
              /\ va_maxAmount va = Some hi /\ lo <= x <= hi
        | _ => True
        end ->
        exists e',
          handleAction now (id (snd a)) (Known (va_action va)) amt e
          = Ok (true, e'))
    /\ (forall amt,
          In (mkValidAction ActCheck None None)
            (getValidActions (state e) (snd a))
          <-> exists e',
              handleAction now (id (snd a)) (Known ActCheck) amt e
              = Ok (true, e')).
Proof.
  intros now e [j p] Hd Ha Hf. simpl in *.
  split.
  - intros va amt Hin Hamt.
    pose proof (handleAction_on_action now (id p) (Known (va_action va)) amt
                  e j p (j, p) Hd Hf Ha eq_refl) as H.
    pose proof (offered_action_applies (state e) j p va amt Hin Hamt) as Happ.
    destruct (applyAction j p (Known (va_action va)) amt (state e));
      [|now elim Happ].
    destruct H as (e' & He' & _). eauto.
  - intros amt.
    pose proof (handleAction_on_action now (id p) (Known ActCheck) amt
                  e j p (j, p) Hd Hf Ha eq_refl) as H.
    rewrite <- (check_applies_iff_offered (state e) j p amt).
    destruct (applyAction j p (Known ActCheck) amt (state e)).
    + destruct H as (e' & He' & _). split; [eauto | discriminate].
    + split; [intros C; now elim C|].
      intros (e' & He'). rewrite H in He'. discriminate.
Qed.

Lemma offered_actions_are_accepted_witness :
  exists e',
    handleAction 0 "a" (Known ActRaise) (Some 150) preflopTable
    = Ok (true, e').
Proof.
  refine (proj1 (offered_actions_are_accepted 0 preflopTable preflopActor
                   _ _ _)
            (mkValidAction ActRaise (Some 4) (Some 200)) (Some 150) _ _).
  - unfold DeckOK. simpl. split; [reflexivity | lia].
  - vm_compute. reflexivity.
  - vm_compute. reflexivity.
  - vm_compute. auto.
  - simpl. exists 150, 4, 200. repeat split; lia.
Defined.

(** *** Seating *)

Lemma Forall_perm_iff {A} (P : A -> Prop) l l' :
  Permutation l l' -> Forall P l -> Forall P l'.
Proof.
  intros HP H. apply Forall_forall. intros x Hx.
  rewrite Forall_forall in H. apply H.
  eapply Permutation_in; [apply Permutation_sym, HP | exact Hx].
Qed.

Lemma StronglySorted_strict {A} (f : A -> Z) l :
  StronglySorted (fun a b => f a <= f b) l ->
  NoDup (map f l) ->
  StronglySorted (fun a b => f a < f b) l.
Proof.
  induction 1 as [|x l Hs IH Hx]; intros Hn; [constructor|].
  simpl in Hn. inversion Hn as [|? ? Hnotin Hn']; subst.
  constructor; [now apply IH|].
  rewrite Forall_forall in *. intros y Hy.
  specialize (Hx y Hy).
  assert (f x <> f y); [|lia].
  intros E. apply Hnotin. rewrite E. now apply in_map.
Qed.

Lemma StronglySorted_NoDup {A} (f : A -> Z) l :
  StronglySorted (fun a b => f a < f b) l -> NoDup (map f l).
Proof.
  induction 1 as [|x l Hs IH Hx]; simpl; constructor; [|exact IH].
  rewrite in_map_iff. intros (y & E & Hy).
  rewrite Forall_forall in Hx. specialize (Hx y Hy). lia.
Qed.
Lemma existsb_false_Forall {A} (f : A -> bool) l :
  existsb f l = false -> Forall (fun x => f x = false) l.
Proof.
  induction l as [|x l IH]; simpl; [constructor|].
  intros H. apply orb_false_iff in H. destruct H. constructor; auto.
Qed.

Lemma Roster_newcomer pid nm seat s ps' :
  Roster (players s) ->
  0 <= seat <= 5 ->
  Forall (fun p => seatIndex p <> seat /\ id p <> pid) (players s) ->
  ps' = sortBy (fun a b => seatIndex a - seatIndex b)
          (players s ++ [newcomer pid nm seat s]) ->
  Permutation (newcomer pid nm seat s :: players s) ps' /\ Roster ps'.
Proof.
  intros (Hs & Hids & Hr) Hseat Hfree ->.
  set (p := newcomer pid nm seat s).
  assert (HP : Permutation (p :: players s)
                 (sortBy (fun a b => seatIndex a - seatIndex b)
                    (players s ++ [p]))).
  { etransitivity; [|apply sortBy_perm].
    change (p :: players s) with ([p] ++ players s).
    apply Permutation_app_comm. }
  split; [exact HP|].
  assert (Hseats : NoDup (map seatIndex (p :: players s))).
  { simpl. constructor.
    - rewrite in_map_iff. intros (q & E & Hq).
      rewrite Forall_forall in Hfree. destruct (Hfree q Hq) as [H _].
      apply H. exact E.
    - now apply (StronglySorted_NoDup seatIndex). }
  assert (Hids' : NoDup (map id (p :: players s))).
  { simpl. constructor; [|exact Hids].
    rewrite in_map_iff. intros (q & E & Hq).
    rewrite Forall_forall in Hfree. destruct (Hfree q Hq) as [_ H].
    apply H. exact E. }
  split; [|split].
  - apply (StronglySorted_strict seatIndex).
    + apply Sorted_StronglySorted; [intros x y z; lia|].
      apply sortBy_Sorted; intros x y; lia.
    + eapply Permutation_NoDup; [apply Permutation_map, HP | exact Hseats].
  - eapply Permutation_NoDup; [apply Permutation_map, HP | exact Hids'].
  - eapply Forall_perm_iff; [exact HP|]. constructor; [exact Hseat | exact Hr].
Qed.

(** X11. [addPlayer] answers [true] exactly when its four tests pass: the
    seat index is between 0 and 5, no player sits on it, no player has the
    id, and fewer than six players are seated. At a table whose players are
    listed by strictly ascending seat index, with seat indices between 0
    and 5 and distinct ids, on [true] the roster is the old one plus the
    newcomer with a stack of [buyIn], again so ordered, and nothing else
    changes; on [false] the engine is unchanged. *)
Theorem addPlayer_seats_newcomer_in_order :
  forall pid nm seat e,
    Roster (players (state e)) ->
    let r := addPlayer pid nm seat e in
    let free :=
      0 <= seat <= 5
      /\ Forall (fun p => seatIndex p <> seat /\ id p <> pid)
           (players (state e))
      /\ (length (players (state e)) < 6)%nat in
    if fst r
    then free
         /\ Permutation (newcomer pid nm seat (state e) :: players (state e))
              (players (state (snd r)))
         /\ Roster (players (state (snd r)))
         /\ snd r = onState (setPlayers (players (state (snd r)))) e
    else ~ free /\ snd r = e.
Proof.
  intros pid nm seat e HR. cbv zeta. unfold addPlayer.
  destruct (Z.ltb_spec seat 0) as [H0|H0]; cbn [orb].
  { simpl. split; [lia | reflexivity]. }
  destruct (Z.gtb_spec seat 5) as [H5|H5].
  { simpl. split; [lia | reflexivity]. }
  destruct (existsb (fun p => seatIndex p =? seat) (players (state e)))
    eqn:Eseat.
  { simpl. split; [|reflexivity]. intros (_ & Hfree & _).
    apply existsb_exists in Eseat. destruct Eseat as (q & Hq & E).
    rewrite Forall_forall in Hfree. destruct (Hfree q Hq) as [H _].
    apply H. lia. }
  destruct (existsb (fun p => String.eqb (id p) pid) (players (state e)))
    eqn:Eid.
  { simpl. split; [|reflexivity]. intros (_ & Hfree & _).
    apply existsb_exists in Eid. destruct Eid as (q & Hq & E).
    rewrite Forall_forall in Hfree. destruct (Hfree q Hq) as [_ H].
    apply H. now apply String.eqb_eq. }
  assert (Hfree : Forall (fun p => seatIndex p <> seat /\ id p <> pid)
                    (players (state e))).
  { apply existsb_false_Forall in Eseat, Eid.
    rewrite Forall_forall in *. intros q Hq.
    specialize (Eseat q Hq). specialize (Eid q Hq). simpl in *.
    split; [lia|]. intros E. apply String.eqb_eq in E. congruence. }
  destruct (Z.geb_spec (len (players (state e))) 6) as [Hfull|Hroom].
  { simpl. split; [|reflexivity]. intros (_ & _ & Hlt).
    unfold len in Hfull. lia. }
  simpl fst. simpl snd.
  destruct (Roster_newcomer pid nm seat (state e) _ HR ltac:(lia) Hfree eq_refl)
    as [HP HR'].
  split; [split; [lia | split; [exact Hfree | unfold len in Hroom; lia]]|].
  split; [exact HP|]. split; [exact HR'|]. reflexivity.
Qed.

Lemma addPlayer_seats_newcomer_in_order_witness :
  Permutation (newcomer "e" "E" 4 (state threeSeats)
               :: players (state threeSeats))
    (players (state (snd (addPlayer "e" "E" 4 threeSeats)))).
Proof.
  refine (proj1 (proj2 (addPlayer_seats_newcomer_in_order "e" "E" 4 threeSeats _))).
  vm_compute. repeat split.
  - repeat (constructor; simpl; try lia).
  - repeat constructor; simpl; intuition discriminate.
  - repeat constructor; simpl; discriminate.
Defined.

(** *** Leaving *)

Lemma findIndex_withIndex_filter (pid : string) (ps : list Player) n :
  NoDup (map id ps) ->
  match find (fun ip => String.eqb (id (snd ip)) pid)
          (combine (seq n (length ps)) ps) with
  | Some (i, _) =>
      removeAt (i - n) ps
      = filter (fun p => negb (String.eqb (id p) pid)) ps
        /\ (n <= i)%nat
  | None => filter (fun p => negb (String.eqb (id p) pid)) ps = ps
  end.
Proof.
  revert n. induction ps as [|p ps IH]; intros n Hn; simpl; [reflexivity|].
  inversion Hn as [|? ? Hnotin Hn']; subst.
  destruct (String.eqb_spec (id p) pid) as [E|E]; simpl.
  - rewrite Nat.sub_diag. simpl. split; [|lia].
    symmetry. clear IH Hn Hn'.
    induction ps as [|q ps IH]; simpl; [reflexivity|].
    destruct (String.eqb_spec (id q) pid) as [Eq|Eq]; simpl.
    + exfalso. apply Hnotin. simpl. left. congruence.
    + f_equal. apply IH. intros H. apply Hnotin. now right.
  - specialize (IH (S n) Hn').
    destruct (find _ (combine (seq (S n) (length ps)) ps)) as [[i q]|].
    + destruct IH as [IH Hle]. split; [|lia].
      replace (i - n)%nat with (S (i - S n)) by lia. simpl. now f_equal.
    + now f_equal.
Qed.

(** X12. Between hands, at a table with distinct ids, [removePlayer] never
    throws and leaves exactly the players with another id, in their order;
    the rest of the engine is unchanged and no event is emitted. *)
Theorem removePlayer_between_hands :
  forall now pid e,
    handInProgress (state e) = false ->
    NoDup (map id (players (state e))) ->
    removePlayer now pid e
    = Ok (onState (setPlayers
                     (filter (fun p => negb (String.eqb (id p) pid))
                        (players (state e)))) e).
Proof.
  intros now pid e Hidle Hn. unfold removePlayer, findPlayer, withIndex.
  pose proof (findIndex_withIndex_filter pid (players (state e)) 0 Hn) as H.
  unfold withIndex in *.
  destruct (find _ _) as [[i q]|].
  - rewrite Hidle. destruct H as [H _]. rewrite Nat.sub_0_r in H.
    unfold onState. now rewrite H.
  - rewrite H. destruct e as [s d t ev]. destruct s. reflexivity.
Qed.

Lemma removePlayer_between_hands_witness :
  removePlayer 0 "b" threeSeats
  = Ok (onState (setPlayers
                   (filter (fun p => negb (String.eqb (id p) "b"))
                      (players (state threeSeats)))) threeSeats).
Proof.
  apply (removePlayer_between_hands 0 "b" threeSeats).
  - reflexivity.
  - vm_compute. repeat constructor; simpl; intuition discriminate.
Defined.

(** *** Pots *)

Lemma levelLoop_eligible bettors level prevLevel potAmount eligible :
  forall pid,
    In pid (snd (levelLoop bettors level prevLevel potAmount eligible)) ->
    In pid eligible
    \/ exists p, In p bettors /\ id p = pid /\ hasFolded p = false.
Proof.
  revert potAmount eligible.
  induction bettors as [|p rest IH]; intros potAmount eligible pid; simpl.
  - auto.
  - intros H. apply IH in H. destruct H as [H|(q & Hq & E & Hf)].
    + destruct (negb (hasFolded p) && (totalBetThisRound p >=? level)) eqn:Ec.
      * apply in_app_or in H. destruct H as [H|[H|[]]]; [now left|].
        right. exists p. apply andb_prop in Ec. destruct Ec as [Ec _].
        apply negb_true_iff in Ec. auto.
      * now left.
    + right. exists q. auto.
Qed.

Lemma levelsLoop_pots bettors levels acc (P : SidePot -> Prop) :
  Forall P (fst (fst acc)) ->
  (forall level prevLevel,
      0 < fst (levelLoop bettors level prevLevel 0 []) ->
      P (mkSidePot (fst (levelLoop bettors level prevLevel 0 []))
           (snd (levelLoop bettors level prevLevel 0 [])))) ->
  Forall P (fst (fst (levelsLoop bettors levels acc))).
Proof.
  intros Hacc Hstep. revert acc Hacc.
  induction levels as [|level rest IH]; intros [[pots processed] prev] Hacc;
    simpl; [exact Hacc|].
  pose proof (Hstep level prev) as Hs.
  destruct (levelLoop bettors level prev 0 []) as [potAmount eligible].
  simpl in Hs.
  destruct (Z.gtb_spec potAmount 0); apply IH; simpl in *; auto.
  apply Forall_app. split; [exact Hacc|]. constructor; [|constructor].
  apply Hs. lia.
Qed.

Lemma unfolded_ids s (keep : Player -> bool) pid :
  In pid (map id (filter keep (filter (fun p => negb (hasFolded p)) (players s)))) ->
  exists p, In p (players s) /\ id p = pid /\ hasFolded p = false.
Proof.
  rewrite in_map_iff. intros (p & E & Hp).
  apply filter_In in Hp. destruct Hp as [Hp _].
  apply filter_In in Hp. destruct Hp as [Hp Hf].
  apply negb_true_iff in Hf. eauto.
Qed.

(** X13. [calculatePots] never returns an empty list; every id it lists as
    eligible for a pot is the id of a player who has not folded; and every
    pot holds a positive amount, unless the result is the single pot of the
    whole [state.pot] for all players who have not folded. *)
Theorem calculatePots_lists_only_unfolded_players :
  forall s,
    calculatePots s <> []
    /\ (forall sp pid,
          In sp (calculatePots s) -> In pid (eligiblePlayerIds sp) ->
          exists p, In p (players s) /\ id p = pid /\ hasFolded p = false)
    /\ (Forall (fun sp => 0 < amount sp) (calculatePots s)
        \/ calculatePots s
           = [mkSidePot (pot s)
                (map id (filter (fun p => negb (hasFolded p)) (players s)))]).
Proof.
  intros s.
  assert (Hwhole : forall pid,
             In pid (map id (filter (fun p => negb (hasFolded p)) (players s))) ->
             exists p, In p (players s) /\ id p = pid /\ hasFolded p = false).
  { intros pid H. rewrite in_map_iff in H. destruct H as (p & E & Hp).
    apply filter_In in Hp. destruct Hp as [Hp Hf].
    apply negb_true_iff in Hf. eauto. }
  assert (Hcore :
            (Forall (SoundPot s) (calculatePots s) /\ calculatePots s <> [])
            \/ calculatePots s
               = [mkSidePot (pot s)
                    (map id (filter (fun p => negb (hasFolded p)) (players s)))]).
  { unfold calculatePots.
    destruct (len (sortBy _ (filter isAllIn _)) =? 0); [now right|].
    match goal with
    | |- context [levelsLoop ?b ?l ?a] =>
        pose proof (levelsLoop_pots b l a (SoundPot s)) as Hl;
        destruct (levelsLoop b l a) as [[pots processed] prev]
    end.
    simpl in Hl.
    assert (Hpots : Forall (SoundPot s) pots).
    { apply Hl; [constructor|].
      intros level prevLevel Hpos. split; [exact Hpos|].
      simpl. intros pid Hin.
      apply levelLoop_eligible in Hin. destruct Hin as [[]|(p & Hp & E & Hf)].
      apply filter_In in Hp. destruct Hp as [Hp _]. eauto. }
    clear Hl.
    destruct (Z.gtb_spec (pot s - processed) 0) as [Hrem|Hrem].
    - left.
      assert (Hne : pots ++
                    [mkSidePot (pot s - processed)
                       (map id
                          (filter (fun p => (totalBetThisRound p >? prev)
                                            || negb (isAllIn p))
                             (filter (fun p => negb (hasFolded p)) (players s))))]
                    <> []).
      { intros E. apply app_eq_nil in E. destruct E; discriminate. }
      destruct (len _ =? 0) eqn:El.
      + exfalso. apply Z.eqb_eq in El. unfold len in El.
        rewrite length_app in El. simpl in El. lia.
      + split; [|exact Hne].
        apply Forall_app. split; [exact Hpots|].
        constructor; [|constructor]. split; [simpl; lia|].
        simpl. apply unfolded_ids.
    - destruct pots as [|sp pots].
      + right. reflexivity.
      + left. simpl. split; [exact Hpots | discriminate]. }
  destruct Hcore as [[Hsound Hne]|Hone].
  - split; [exact Hne|]. split.
    + intros sp pid Hsp Hpid. rewrite Forall_forall in Hsound.
      destruct (Hsound sp Hsp) as [_ H]. now apply H.
    + left. eapply Forall_impl; [|exact Hsound]. intros sp [H _]. exact H.
  - rewrite Hone. split; [discriminate|]. split.
    + intros sp pid [<-|[]] Hpid. simpl in Hpid. now apply Hwhole.
    + now right.
Qed.

(* ================================================================= *)
(** ** The engine as a sequence of moves *)

Lemma Moves_trans e1 e2 e3 : Moves e1 e2 -> Moves e2 e3 -> Moves e1 e3.
Proof.
  induction 1 as [|e e1 e2 Hm Hms IH]; [auto|].
  intros H. econstructor; [exact Hm | now apply IH].
Qed.

Lemma Moves_one e e' : Move e e' -> Moves e e'.
Proof. intros H. econstructor; [exact H | constructor]. Qed.

Lemma Quiet_refl e : Quiet e e.
Proof. unfold Quiet; repeat split. Qed.

Lemma Moves_quiet e e' : Quiet e e' -> Moves e e'.
Proof. intros H. now apply Moves_one, move_quiet. Qed.

Ltac quiet := apply Moves_quiet; unfold Quiet; simpl; repeat split; auto.

Lemma findPlayer_nth pid s i player :
  findPlayer pid s = Some (i, player) ->
  nth_error (players s) i = Some player /\ id player = pid.
Proof.
  unfold findPlayer. intros H. apply find_some in H. destruct H as [Hin E].
  apply withIndex_In in Hin. apply String.eqb_eq in E. auto.
Qed.

Lemma getActivePlayer_busy s a :
  Idle s -> getActivePlayer s = Some a -> handInProgress s = true.
Proof.
  unfold Idle, getActivePlayer. intros Hidle.
  destruct (handInProgress s); [reflexivity|].
  rewrite (Hidle eq_refl). simpl. discriminate.
Qed.

Lemma dealCommunityCards_busy r e e' :
  dealCommunityCards r e = Ok e' ->
  handInProgress (state e') = handInProgress (state e).
Proof.
  unfold dealCommunityCards. destruct (deck e) as [d|].
  2:{ intros H; inversion H; reflexivity. }
  destruct (burn d) as [d1|]; [|discriminate]. cbn [bind].
  destruct r; try (intros H; inversion H; reflexivity);
    (destruct (dealMultiple _ d1) as [[cs d2]|]; [|discriminate]);
    cbn [bind]; intros H; inversion H; reflexivity.
Qed.

Lemma applyAction_busy i player action amt s s2 :
  applyAction i player action amt s = Some s2 ->
  handInProgress s2 = handInProgress s.
Proof.
  unfold applyAction. destruct action as [[]|]; try discriminate;
    repeat match goal with
           | |- context [if ?b then _ else _] => destruct b
           end;
    intros H; inversion H; reflexivity.
Qed.

Section Prompted.

Variable next : GameEngine -> Res GameEngine.
Hypothesis next_moves :
  forall x y, handInProgress (state x) = true -> next x = Ok y -> Moves x y.

Lemma promptActionWith_moves now e e' :
  handInProgress (state e) = true ->
  promptActionWith next now e = Ok e' -> Moves e e'.
Proof.
  intros Hb. unfold promptActionWith.
  destruct (getActivePlayer (state e)) as [[i player]|]; [|now apply next_moves].
  intros H; inversion H; subst. quiet.
Qed.

Lemma startBettingRoundWith_moves now e e' :
  handInProgress (state e) = true ->
  startBettingRoundWith next now e = Ok e' -> Moves e e'.
Proof.
  intros Hb. unfold startBettingRoundWith. cbv zeta.
  match goal with |- context [if _ then next ?x else _] => set (e1 := x) end.
  assert (M1 : Moves e e1).
  { unfold e1. destruct (bettingRound (state e)); [constructor| | |];
      (eapply Moves_trans; [apply Moves_one, move_street | quiet]). }
  assert (B1 : handInProgress (state e1) = true).
  { unfold e1. destruct (bettingRound (state e)); exact Hb. }
  clearbody e1.
  destruct (_ || _).
  - intros H. eapply Moves_trans; [exact M1 | now apply next_moves].
  - destruct (findFirstActor (state e1)) as [s2|] eqn:Es2; [|discriminate].
    cbn [bind]. intros H.
    apply findFirstActorFrom_shape in Es2.
    eapply Moves_trans; [exact M1|].
    destruct Es2 as [->|[j ->]].
    + eapply Moves_trans; [|apply (promptActionWith_moves now); [|exact H]].
      * quiet.
      * exact B1.
    + eapply Moves_trans; [apply Moves_one, (move_turn e1 j B1)|].
      apply (promptActionWith_moves now); [exact B1 | exact H].
Qed.

End Prompted.

Lemma advanceToNextRound_moves fuel now e e' :
  handInProgress (state e) = true ->
  advanceToNextRound fuel now e = Ok e' -> Moves e e'.
Proof.
  revert e e'. induction fuel as [|fuel IH]; intros e e' Hb; [discriminate|].
  cbn [advanceToNextRound].
  destruct (len (notFoldedPlayers (state e)) <=? 1).
  { intros H; inversion H; subst. now apply Moves_one, move_fold_win. }
  destruct (getNextBettingRound (state e)) as [r|] eqn:Er.
  2:{ intros H. now apply Moves_one, move_showdown. }
  destruct (dealCommunityCards r (onState (setBettingRound r) e)) as [e2|] eqn:Ed;
    [|discriminate].
  cbn [bind].
  assert (B2 : handInProgress (state e2) = true).
  { apply dealCommunityCards_busy in Ed. now rewrite Ed. }
  assert (M2 : Moves e e2) by (eapply Moves_one, move_deal; eassumption).
  destruct (len _ <=? 1); intros H; (eapply Moves_trans; [exact M2|]).
  - now apply IH.
  - eapply startBettingRoundWith_moves; [|exact B2 | exact H].
    intros x y Hx. now apply IH.
Qed.

Lemma promptAction_moves now e e' :
  handInProgress (state e) = true ->
  promptAction now e = Ok e' -> Moves e e'.
Proof.
  apply promptActionWith_moves. intros x y Hx.
  now apply advanceToNextRound_moves.
Qed.

Lemma startBettingRound_moves now e e' :
  handInProgress (state e) = true ->
  startBettingRound now e = Ok e' -> Moves e e'.
Proof.
  apply startBettingRoundWith_moves. intros x y Hx.
  now apply advanceToNextRound_moves.
Qed.

Lemma advanceAction_moves now e e' :
  handInProgress (state e) = true ->
  advanceAction now e = Ok e' -> Moves e e'.
Proof.
  intros Hb. unfold advanceAction.
  destruct (findNextActor (state e)) as [[[i p]|]|]; [| |discriminate];
    cbn [bind].
  - intros H.
    eapply Moves_trans; [apply Moves_one, (move_turn e (Z.of_nat i) Hb)|].
    apply promptAction_moves in H; [exact H | exact Hb].
  - now apply advanceToNextRound_moves.
Qed.

Lemma handleAction_moves now pid action amt e b e' :
  Idle (state e) ->
  handleAction now pid action amt e = Ok (b, e') -> Moves e e'.
Proof.
  intros Hidle. unfold handleAction.
  destruct (findPlayer pid (state e)) as [[i player]|] eqn:Hf.
  2:{ intros H; inversion H; constructor. }
  destruct (getActivePlayer (state e)) as [[j a]|] eqn:Ha.
  2:{ intros H; inversion H; constructor. }
  destruct (negb (String.eqb (id a) pid)).
  { intros H; inversion H; constructor. }
  pose proof (getActivePlayer_busy _ _ Hidle Ha) as Hb.
  apply findPlayer_nth in Hf. destruct Hf as [Hnth _].
  change (state (clearActionTimer e)) with (state e).
  destruct (applyAction i player action amt (state e)) as [s2|] eqn:Eapp.
  2:{ intros H; inversion H; subst. quiet. }
  pose proof (applyAction_busy _ _ _ _ _ _ Eapp) as Hb2.
  match goal with |- context [notFoldedPlayers (state ?x)] => set (e3 := x) end.
  assert (M3 : Moves e e3).
  { eapply Moves_trans; [apply Moves_one, (move_action e i player action amt s2 Hnth Eapp)|].
    unfold e3. destruct (nth_error (players s2) i); quiet. }
  assert (B3 : handInProgress (state e3) = true).
  { unfold e3. destruct (nth_error (players s2) i); simpl; congruence. }
  clearbody e3.
  destruct (len (notFoldedPlayers (state e3)) <=? 1).
  - intros H; inversion H; subst.
    eapply Moves_trans; [exact M3 | now apply Moves_one, move_fold_win].
  - destruct (advanceAction now e3) as [e4|] eqn:E4; [|discriminate].
    cbn [bind]. intros H; inversion H; subst.
    eapply Moves_trans; [exact M3 | now apply (advanceAction_moves now)].
Qed.

Lemma removePlayer_moves now pid e e' :
  Idle (state e) ->
  removePlayer now pid e = Ok e' -> Moves e e'.
Proof.
  intros Hidle. unfold removePlayer.
  destruct (findPlayer pid (state e)) as [[idx p]|].
  2:{ intros H; inversion H; constructor. }
  destruct (handInProgress (state e)) eqn:Hb.
  - match goal with |- context [getActivePlayer (state ?x)] => set (e1 := x) end.
    assert (M1 : Moves e e1).
    { apply Moves_one, move_flags. intros q. repeat split. }
    assert (I1 : Idle (state e1)).
    { unfold e1, Idle. simpl. congruence. }
    clearbody e1.
    destruct (getActivePlayer (state e1)) as [[j a]|];
      [|intros H; inversion H; subst; exact M1].
    destruct (String.eqb (id a) pid);
      [|intros H; inversion H; subst; exact M1].
    destruct (handleAction now pid (Known ActFold) None e1) as [[b e2]|] eqn:E2;
      [|discriminate].
    cbn [bind]. intros H; inversion H; subst.
    eapply Moves_trans; [exact M1 | eapply handleAction_moves; eassumption].
  - intros H; inversion H; subst. now apply Moves_one, move_leave.
Qed.

Lemma actionTimerFires_moves now e e' :
  Idle (state e) ->
  actionTimerFires now e = Ok e' -> Moves e e'.
Proof.
  intros Hidle. unfold actionTimerFires.
  destruct (actionTimer e) as [pid|].
  2:{ intros H; inversion H; constructor. }
  set (e1 := setActionTimer None e).
  assert (M1 : Moves e e1) by (unfold e1; quiet).
  assert (I1 : Idle (state e1)) by exact Hidle.
  clearbody e1.
  destruct (getActivePlayer (state e1)) as [[j a]|];
    [|intros H; inversion H; subst; exact M1].
  destruct (handInProgress (state e1) && String.eqb (id a) pid);
    [|intros H; inversion H; subst; exact M1].
  destruct (handleAction now pid (Known ActFold) None e1) as [[b e2]|] eqn:E2;
    [|discriminate].
  cbn [bind]. intros H; inversion H; subst.
  eapply Moves_trans; [exact M1 | eapply handleAction_moves; eassumption].
Qed.

Lemma setPlayerConnected_moves pid connected e :
  Moves e (setPlayerConnected pid connected e).
Proof.
  unfold setPlayerConnected.
  destruct (findPlayer pid (state e)) as [[i p]|]; [|constructor].
  apply Moves_one, move_flags. intros q. repeat split.
Qed.

(** What the dealing loop leaves as it was. *)
Lemma dealHoleCardsTo_moves view e e' :
  dealHoleCardsTo view e = Ok e' ->
  Moves e e'
  /\ handInProgress (state e') = handInProgress (state e)
  /\ bettingRound (state e') = bettingRound (state e).
Proof.
  revert e. induction view as [|[i player] rest IH]; intros e;
    cbn [dealHoleCardsTo].
  - intros H; inversion H; subst. repeat split. constructor.
  - destruct (negb (hasFolded player)); [|apply IH].
    destruct (deck e) as [d|] eqn:Ed; [|discriminate].
    destruct (dealMultiple 2 d) as [[cs d1]|] eqn:Em; [|discriminate].
    cbn [bind]. intros H. apply IH in H. destruct H as (M & Hb & Hr).
    split; [|split; [rewrite Hb | rewrite Hr]; reflexivity].
    eapply Moves_trans; [apply Moves_one, (move_hole e d i cs d1 Ed Em)|].
    eapply Moves_trans; [|exact M]. quiet.
Qed.

Lemma advanceDealer_shape s s4 :
  advanceDealer s = Ok s4 -> exists v, s4 = setDealerSeatIndex v s.
Proof.
  unfold advanceDealer.
  destruct (len (getActivePlayers s) =? 0).
  { intros H; inversion H; subst. exists (dealerSeatIndex s4).
    destruct s4; reflexivity. }
  destruct (dealerSeatIndex s =? -1);
    (destruct (deref _ _) as [ip|]; [|discriminate]);
    cbn [bind]; intros H; inversion H; eauto.
Qed.

Lemma postBlind_fields i blind s :
  handInProgress (postBlind i blind s) = handInProgress s
  /\ bettingRound (postBlind i blind s) = bettingRound s
  /\ bigBlind (postBlind i blind s) = bigBlind s.
Proof.
  unfold postBlind. destruct (nth_error (players s) i); repeat split.
Qed.

Lemma postBlinds_fields s s' :
  postBlinds s = Ok s' ->
  handInProgress s' = handInProgress s /\ bettingRound s' = bettingRound s.
Proof.
  unfold postBlinds. destruct (len (getActivePlayers s) <? 2).
  { intros H; inversion H; auto. }
  cbv zeta.
  destruct (deref _ _) as [sb|]; [|discriminate]. cbn [bind].
  destruct (deref _ _) as [bb|]; [|discriminate]. cbn [bind].
  intros H; inversion H; subst. simpl.
  destruct (postBlind_fields (fst bb)
              (bigBlind (postBlind (fst sb) (smallBlind s) s))
              (postBlind (fst sb) (smallBlind s) s)) as (A & B & _).
  destruct (postBlind_fields (fst sb) (smallBlind s) s) as (C & D & _).
  split; congruence.
Qed.

Lemma startHand_moves rv now e e' :
  startHand rv now e = Ok e' -> Moves e e'.
Proof.
  unfold startHand.
  destruct (canStartHand (state e)) eqn:Hcan; cbn [negb].
  2:{ intros H; inversion H; constructor. }
  cbv zeta. fold (handReset (state e)).
  destruct (advanceDealer (handReset (state e))) as [s4|] eqn:E4; [|discriminate].
  cbn [bind].
  change (state (setDeck (Some (newHandDeck rv)) (setState s4 e))) with s4.
  destruct (postBlinds s4) as [s5|] eqn:E5; [|discriminate].
  cbn [bind].
  match goal with |- context [dealHoleCards ?x] => set (e2 := x) end.
  assert (M2 : Moves e e2).
  { eapply Moves_trans;
      [apply Moves_one, (move_open e rv s4 s5 Hcan E4 E5)|].
    unfold e2. quiet. }
  assert (F2 : handInProgress (state e2) = true
               /\ bettingRound (state e2) = preflop).
  { unfold e2. simpl.
    destruct (postBlinds_fields _ _ E5) as [A B].
    destruct (advanceDealer_shape _ _ E4) as [v ->].
    simpl in A, B. auto. }
  clearbody e2. destruct F2 as [B2 R2].
  unfold dealHoleCards.
  destruct (dealHoleCardsTo _ e2) as [e3|] eqn:E3; [|discriminate].
  cbn [bind]. apply dealHoleCardsTo_moves in E3.
  destruct E3 as (M3 & B3 & R3).
  intros H. eapply Moves_trans; [exact M2|].
  eapply Moves_trans; [exact M3|].
  eapply Moves_trans; [|apply (startBettingRound_moves now); [|exact H]].
  - quiet. simpl. congruence.
  - simpl. congruence.
Qed.

Lemma perform_moves c e e' :
  seatsNobody c = true ->
  Idle (state e) ->
  perform c e = Ok e' -> Moves e e'.
Proof.
  destruct c as [pid nm seat | now pid | pid connected | rv now
                | now pid action amt | now]; simpl; intros Hc Hidle;
    try discriminate.
  - now apply removePlayer_moves.
  - intros H; inversion H; subst. apply setPlayerConnected_moves.
  - apply startHand_moves.
  - destruct (handleAction now pid action amt e) as [[b e1]|] eqn:E1;
      [|discriminate].
    cbn [bind]. intros H; inversion H; subst.
    eapply handleAction_moves; eassumption.
  - now apply actionTimerFires_moves.
Qed.

(* ================================================================= *)
(** ** Invariants of the table *)

(** *** What each move leaves of the state *)

Lemma endHand_fields e :
  players (state (endHand e))
  = filter (fun p => isConnected p || (chips p >? 0)) (players (state e))
  /\ handInProgress (state (endHand e)) = false
  /\ activePlayerIndex (state (endHand e)) = -1
  /\ deck (endHand e) = deck e
  /\ communityCards (state (endHand e)) = communityCards (state e)
  /\ bettingRound (state (endHand e)) = bettingRound (state e)
  /\ pot (state (endHand e)) = pot (state e)
  /\ stateCurrentBet (state (endHand e)) = stateCurrentBet (state e)
  /\ minRaise (state (endHand e)) = minRaise (state e)
  /\ smallBlind (state (endHand e)) = smallBlind (state e)
  /\ bigBlind (state (endHand e)) = bigBlind (state e)
  /\ buyIn (state (endHand e)) = buyIn (state e).
Proof. unfold endHand. simpl. repeat split. Qed.

Lemma endHandFold_idle w e :
  handInProgress (state (endHandFold w e)) = false
  /\ activePlayerIndex (state (endHandFold w e)) = -1.
Proof.
  unfold endHandFold. destruct w as [[i w]|];
    match goal with |- context [endHand ?x] =>
      destruct (endHand_fields x) as (_ & A & B & _) end; auto.
Qed.

Lemma showdown_shape e e' :
  showdown e = Ok e' ->
  exists ps hrs rs,
    showdownPots (calculatePots (state e)) 0 (notFoldedPlayers (state e))
      (communityCards (state e)) (players (state e), [], [])
    = Ok (ps, hrs, rs)
    /\ e' = endHand (onEvent (showdown_event rs)
                       (setState (setWinners (Some hrs)
                                    (setPlayers ps (state e))) e)).
Proof.
  unfold showdown.
  destruct (showdownPots _ _ _ _ _) as [[[ps hrs] rs]|]; [|discriminate].
  cbn [bind]. intros H. inversion H. eauto.
Qed.

Lemma applyAction_fields i player action amt s s2 :
  applyAction i player action amt s = Some s2 ->
  handInProgress s2 = handInProgress s
  /\ activePlayerIndex s2 = activePlayerIndex s
  /\ communityCards s2 = communityCards s
  /\ bettingRound s2 = bettingRound s
  /\ smallBlind s2 = smallBlind s
  /\ bigBlind s2 = bigBlind s
  /\ buyIn s2 = buyIn s.
Proof.
  unfold applyAction. destruct action as [[]|]; try discriminate;
    repeat match goal with
           | |- context [if ?b then _ else _] => destruct b
           end;
    intros H; inversion H; repeat split.
Qed.

Lemma advanceDealer_postBlinds_busy s s4 s5 :
  advanceDealer (handReset s) = Ok s4 ->
  postBlinds s4 = Ok s5 ->
  handInProgress s5 = true /\ bettingRound s5 = preflop.
Proof.
  intros E4 E5. destruct (postBlinds_fields _ _ E5) as [A B].
  destruct (advanceDealer_shape _ _ E4) as [v ->].
  simpl in A, B. auto.
Qed.

(** *** Nobody is on action between hands *)

Lemma Move_idle e e' : Move e e' -> Idle (state e) -> Idle (state e').
Proof.
  unfold Idle.
  destruct 1 as [e e' Q | e j Hb | e | e i player action amt s2 Hn Happ
                | e r e' Hb Hr Hd | e Hb | e e' Hb Hs | e rv s4 s5 Hc E4 E5
                | e d i cs d1 Hd Hm | e idx Hb | e i f Hf]; intros Hidle.
  - destruct Q as (_ & _ & _ & _ & _ & _ & _ & A & _ & B & _).
    rewrite A, B. exact Hidle.
  - simpl. congruence.
  - exact Hidle.
  - simpl. destruct (applyAction_fields _ _ _ _ _ _ Happ) as (A & B & _).
    rewrite A, B. exact Hidle.
  - apply dealCommunityCards_busy in Hd. simpl in Hd. congruence.
  - intros _. apply endHandFold_idle.
  - apply showdown_shape in Hs. destruct Hs as (ps & hrs & rs & _ & ->).
    intros _. reflexivity.
  - simpl. destruct (advanceDealer_postBlinds_busy _ _ _ E4 E5). congruence.
  - exact Hidle.
  - exact Hidle.
  - exact Hidle.
Qed.

Lemma Moves_keep (P : GameEngine -> Prop) :
  (forall e e', Move e e' -> P e -> P e') ->
  forall e e', Moves e e' -> P e -> P e'.
Proof.
  intros Hstep e e'. induction 1 as [|e e1 e2 Hm Hms IH]; eauto.
Qed.

Lemma addPlayer_fields pid nm seat e :
  let e' := snd (addPlayer pid nm seat e) in
  e' = e
  \/ (fst (addPlayer pid nm seat e) = true
      /\ e' = onState (setPlayers
                         (sortBy (fun a b => seatIndex a - seatIndex b)
                            (players (state e)
                             ++ [newcomer pid nm seat (state e)]))) e
      /\ 0 <= seat <= 5
      /\ Forall (fun p => seatIndex p <> seat /\ id p <> pid)
           (players (state e))).
Proof.
  cbv zeta. unfold addPlayer.
  destruct (Z.ltb_spec seat 0); cbn [orb]; [now left|].
  destruct (Z.gtb_spec seat 5); [now left|].
  destruct (existsb (fun p => seatIndex p =? seat) _) eqn:Eseat; [now left|].
  destruct (existsb (fun p => String.eqb (id p) pid) _) eqn:Eid; [now left|].
  destruct (len _ >=? 6); [now left|].
  right. simpl. split; [reflexivity|]. split; [reflexivity|].
  split; [lia|].
  apply existsb_false_Forall in Eseat, Eid.
  rewrite Forall_forall in *. intros q Hq.
  specialize (Eseat q Hq). specialize (Eid q Hq). simpl in *.
  split; [lia|]. intros E. apply String.eqb_eq in E. congruence.
Qed.

Lemma addPlayer_idle pid nm seat e :
  Idle (state e) -> Idle (state (snd (addPlayer pid nm seat e))).
Proof.
  destruct (addPlayer_fields pid nm seat e) as [->|(_ & -> & _)]; auto.
Qed.

(** *** The roster *)

Lemma Subseq_refl {A} (l : list A) : Subseq l l.
Proof. induction l; [apply subseq_nil | now apply subseq_take]. Qed.

Lemma Subseq_trans {A} (a b c : list A) :
  Subseq a b -> Subseq b c -> Subseq a c.
Proof.
  intros Hab Hbc. revert a Hab.
  induction Hbc as [|x b c Hbc IH|x b c Hbc IH]; intros a Hab.
  - exact Hab.
  - apply subseq_skip. now apply IH.
  - inversion Hab; subst.
    + apply subseq_skip. now apply IH.
    + apply subseq_take. now apply IH.
Qed.

Lemma Subseq_map {A B} (f : A -> B) l' l :
  Subseq l' l -> Subseq (map f l') (map f l).
Proof.
  induction 1; simpl;
    [apply subseq_nil | now apply subseq_skip | now apply subseq_take].
Qed.

Lemma Subseq_filter {A} (f : A -> bool) l : Subseq (filter f l) l.
Proof.
  induction l as [|x l IH]; simpl; [apply subseq_nil|].
  destruct (f x); [now apply subseq_take | now apply subseq_skip].
Qed.

Lemma Subseq_removeAt {A} i (l : list A) : Subseq (removeAt i l) l.
Proof.
  revert i. induction l as [|x l IH]; intros [|i]; simpl.
  - apply subseq_nil.
  - apply subseq_nil.
  - apply subseq_skip, Subseq_refl.
  - apply subseq_take, IH.
Qed.

Lemma Subseq_In {A} (l' l : list A) x : Subseq l' l -> In x l' -> In x l.
Proof. intros H. now apply Subseq_incl. Qed.

Lemma Subseq_Forall {A} (P : A -> Prop) l' l :
  Subseq l' l -> Forall P l -> Forall P l'.
Proof.
  intros Hs H. rewrite Forall_forall in *. intros x Hx.
  apply H. eapply Subseq_In; eassumption.
Qed.

Lemma Subseq_NoDup {A} (l' l : list A) : Subseq l' l -> NoDup l -> NoDup l'.
Proof.
  induction 1 as [|x c l Hs IH|x c l Hs IH]; intros Hn.
  - constructor.
  - inversion Hn; auto.
  - inversion Hn; subst. constructor; [|auto].
    intros Hx. eapply Subseq_In in Hx; eauto.
Qed.

Lemma Subseq_sorted {A} (R : A -> A -> Prop) l' l :
  Subseq l' l -> StronglySorted R l -> StronglySorted R l'.
Proof.
  induction 1 as [|x c l Hs IH|x c l Hs IH]; intros Hn.
  - constructor.
  - inversion Hn; auto.
  - inversion Hn; subst. constructor; [auto|].
    eapply Subseq_Forall; eassumption.
Qed.

Lemma StronglySorted_map {A B} (f : A -> B) (R : B -> B -> Prop) l :
  StronglySorted (fun a b => R (f a) (f b)) l <-> StronglySorted R (map f l).
Proof.
  induction l as [|x l IH]; simpl; split; intros H;
    try constructor; inversion H; subst;
    try (now apply IH); rewrite Forall_map in *; assumption.
Qed.

(** The roster is read off the seatings. *)
Lemma Roster_seatings ps :
  Roster ps
  <-> StronglySorted (fun a b => snd a < snd b) (map seating ps)
      /\ NoDup (map fst (map seating ps))
      /\ Forall (fun a => 0 <= snd a <= 5) (map seating ps).
Proof.
  unfold Roster.
  rewrite <- (StronglySorted_map seating (fun a b => snd a < snd b)).
  rewrite map_map, Forall_map. simpl. reflexivity.
Qed.

Lemma Roster_kept ps ps' :
  Subseq (map seating ps') (map seating ps) -> Roster ps -> Roster ps'.
Proof.
  rewrite !Roster_seatings. intros Hs (A & B & C).
  split; [|split].
  - eapply Subseq_sorted; eassumption.
  - eapply Subseq_NoDup; [apply Subseq_map; exact Hs | exact B].
  - eapply Subseq_Forall; eassumption.
Qed.

Lemma Roster_same ps ps' :
  map seating ps' = map seating ps -> Roster ps -> Roster ps'.
Proof. intros E. apply Roster_kept. rewrite E. apply Subseq_refl. Qed.

Lemma Roster_sub ps ps' : Subseq ps' ps -> Roster ps -> Roster ps'.
Proof. intros H. apply Roster_kept. now apply Subseq_map. Qed.

Lemma map_updateAt {A B} (g : A -> B) i (f : A -> A) l :
  (forall a, nth_error l i = Some a -> g (f a) = g a) ->
  map g (updateAt i f l) = map g l.
Proof.
  revert i. induction l as [|x l IH]; intros [|i] H; simpl; auto.
  - f_equal. now apply H.
  - f_equal. apply IH. exact H.
Qed.

Lemma payWinners_map {B} (g : Player -> B) ws i share remainder potIdx ps hrs :
  (forall p v, g (setChips v p) = g p) ->
  map g (fst (payWinners ws i share remainder potIdx ps hrs)) = map g ps.
Proof.
  intros Hg. revert i ps hrs.
  induction ws as [|[ip hand] ws IH]; intros i ps hrs; simpl; [reflexivity|].
  rewrite IH. apply map_updateAt. intros a _. apply Hg.
Qed.

Lemma showdownPots_map {B} (g : Player -> B) pots potIdx notFolded board
      ps hrs rs ps' hrs' rs' :
  (forall p v, g (setChips v p) = g p) ->
  showdownPots pots potIdx notFolded board (ps, hrs, rs) = Ok (ps', hrs', rs') ->
  map g ps' = map g ps.
Proof.
  intros Hg. revert potIdx ps hrs rs.
  induction pots as [|sp pots IH]; intros potIdx ps hrs rs;
    cbn [showdownPots].
  - intros H; inversion H; reflexivity.
  - destruct (evaluateEligible _ _) as [evs|]; [|discriminate]. cbn [bind].
    destruct (len evs =? 0); [apply IH|].
    destruct (payWinners _ _ _ _ _ _ _) as [ps1 hrs1] eqn:Ep.
    intros H. apply IH in H. rewrite H.
    change ps1 with (fst (ps1, hrs1)). rewrite <- Ep.
    now apply payWinners_map.
Qed.

Lemma updateAt_const {A} i (f : A -> A) l a :
  nth_error l i = Some a -> updateAt i f l = updateAt i (fun _ => f a) l.
Proof.
  revert i. induction l as [|x l IH]; intros [|i]; simpl; try discriminate.
  - intros H; inversion H; reflexivity.
  - intros H. f_equal. now apply IH.
Qed.

Lemma sumZ_updateAt {A} (g : A -> Z) i (b : A) l a :
  nth_error l i = Some a ->
  sumZ (map g (updateAt i (fun _ => b) l)) = sumZ (map g l) - g a + g b.
Proof.
  revert i. induction l as [|x l IH]; intros [|i]; simpl; try discriminate.
  - intros H; inversion H; subst. lia.
  - intros H. rewrite (IH i H). lia.
Qed.

Lemma updateAt_beyond {A} i (f : A -> A) l :
  nth_error l i = None -> updateAt i f l = l.
Proof.
  revert i. induction l as [|x l IH]; intros [|i]; simpl; try discriminate;
    auto.
  intros H. f_equal. now apply IH.
Qed.

Lemma Forall_updateAt {A} (P : A -> Prop) i (f : A -> A) l :
  Forall P l ->
  (forall a, nth_error l i = Some a -> P a -> P (f a)) ->
  Forall P (updateAt i f l).
Proof.
  intros H. revert i. induction H as [|x l Hx Hl IH]; intros [|i] Hf; simpl.
  - constructor.
  - constructor.
  - constructor; [now apply Hf | exact Hl].
  - constructor; [exact Hx|]. apply IH. exact Hf.
Qed.

Lemma applyAction_raise_effect i player (a : PlayerAction) amt s s2 :
  (let raiseAmount := raiseAmountOf a amt player in
   let minRaiseTotal := stateCurrentBet s + minRaise s in
   let minAllowedBet := minRaiseTotal - currentBet player in
   if (raiseAmount <? minAllowedBet) && (raiseAmount <? chips player)
   then None
   else
     let newBet := currentBet player + raiseAmount in
     let raiseOver := newBet - stateCurrentBet s in
     let s1 :=
       if (raiseOver >? 0) && (raiseOver >=? minRaise s)
       then setMinRaise raiseOver (setLastRaiseAmount raiseOver s)
       else s in
     let p1 :=
       setTotalBetThisRound (totalBetThisRound player + raiseAmount)
         (setCurrentBet newBet
            (setChips (chips player - raiseAmount) player)) in
     let s2 := setPot (pot s1 + raiseAmount) s1 in
     let s3 :=
       if newBet >? stateCurrentBet s2 then setStateCurrentBet newBet s2
       else s2 in
     let p2 :=
       if chips p1 =? 0
       then setLastAction (Some ActAllIn) (setIsAllIn true p1)
       else setLastAction (Some ActRaise) p1 in
     Some (modifyPlayer i (fun _ => p2) s3)) = Some s2 ->
  exists p2 x,
    players s2 = updateAt i (fun _ => p2) (players s)
    /\ seating p2 = seating player
    /\ holeCards p2 = holeCards player
    /\ chips p2 = chips player - x
    /\ currentBet p2 = currentBet player + x
    /\ totalBetThisRound p2 = totalBetThisRound player + x
    /\ pot s2 = pot s + x
    /\ (0 <= chips player ->
        currentBet player <= stateCurrentBet s ->
        2 <= minRaise s ->
        0 <= x <= chips player
        /\ currentBet player + x <= stateCurrentBet s2
        /\ stateCurrentBet s <= stateCurrentBet s2
        /\ 2 <= minRaise s2).
Proof.
  cbv zeta. set (x := raiseAmountOf a amt player).
  destruct ((x <? stateCurrentBet s + minRaise s - currentBet player)
            && (x <? chips player)) eqn:Eref; [discriminate|].
  intros H; inversion H; subst s2; clear H.
  match goal with
  | |- context [modifyPlayer i (fun _ => ?p) _] => exists p
  end.
  exists x. unfold modifyPlayer.
  assert (Hfacts :
            0 <= chips player -> currentBet player <= stateCurrentBet s ->
            2 <= minRaise s -> 0 <= x <= chips player).
  { intros Hc Hcb Hmr.
    pose proof (raiseAmountOf_le a amt player Hc) as Hle. fold x in Hle.
    apply andb_false_iff in Eref.
    destruct Eref as [E|E]; apply Z.ltb_ge in E; lia. }
  destruct (Z.gtb_spec (currentBet player + x - stateCurrentBet s) 0) as [G|G];
    destruct (Z.geb_spec (currentBet player + x - stateCurrentBet s)
                (minRaise s)) as [G'|G']; cbn [andb];
    match goal with
    | |- context [if ?c =? 0 then setLastAction _ _ else _] =>
        destruct (c =? 0)
    end; cbn -[Z.add Z.sub Z.gtb];
    (destruct (Z.gtb_spec (currentBet player + x) (stateCurrentBet s)) as [G2|G2]);
    cbn -[Z.add Z.sub]; repeat split; try reflexivity;
    specialize (Hfacts ltac:(assumption) ltac:(assumption) ltac:(assumption));
    lia.
Qed.

(** What the switch of [handleAction] does for the player found at
    position [i]: it moves [x] chips from the stack to the bets and the
    pot. *)
Lemma applyAction_effect i player action amt s s2 :
  nth_error (players s) i = Some player ->
  applyAction i player action amt s = Some s2 ->
  exists p2 x,
    players s2 = updateAt i (fun _ => p2) (players s)
    /\ seating p2 = seating player
    /\ holeCards p2 = holeCards player
    /\ chips p2 = chips player - x
    /\ currentBet p2 = currentBet player + x
    /\ totalBetThisRound p2 = totalBetThisRound player + x
    /\ pot s2 = pot s + x
    /\ (0 <= chips player ->
        currentBet player <= stateCurrentBet s ->
        2 <= minRaise s ->
        0 <= x <= chips player
        /\ currentBet player + x <= stateCurrentBet s2
        /\ stateCurrentBet s <= stateCurrentBet s2
        /\ 2 <= minRaise s2).
Proof.
  intros Hn. unfold applyAction.
  destruct action as [[| | | |]|tag]; try discriminate.
  - intros H; inversion H; subst; clear H. unfold modifyPlayer. simpl.
    rewrite (updateAt_const _ _ _ _ Hn).
    eexists. exists 0. split; [reflexivity|]. simpl.
    repeat split; try lia.
  - destruct (_ >? 0); [discriminate|].
    intros H; inversion H; subst; clear H. unfold modifyPlayer. simpl.
    rewrite (updateAt_const _ _ _ _ Hn).
    eexists. exists 0. split; [reflexivity|]. simpl.
    repeat split; try lia.
  - intros H; inversion H; subst; clear H. unfold modifyPlayer. simpl.
    eexists.
    exists (Z.min (stateCurrentBet s - currentBet player) (chips player)).
    split; [reflexivity|].
    destruct (_ =? 0); simpl; repeat split; try lia.
  - apply applyAction_raise_effect.
  - apply applyAction_raise_effect.
Qed.

(** *** The blinds *)

Lemma withIndex_positions {A} (l : list A) k :
  map fst (combine (seq k (length l)) l) = seq k (length l).
Proof.
  revert k. induction l as [|a l IH]; intros k; simpl; [reflexivity|].
  now rewrite IH.
Qed.

Lemma getActivePlayers_positions s : NoDup (map fst (getActivePlayers s)).
Proof.
  unfold getActivePlayers.
  eapply Subseq_NoDup; [apply Subseq_map, Subseq_filter|].
  unfold withIndex. rewrite withIndex_positions. apply seq_NoDup.
Qed.

Lemma deref_nth {A} (l : list A) i a :
  deref l i = Ok a -> 0 <= i /\ nth_error l (Z.to_nat i) = Some a.
Proof.
  unfold deref, at_. destruct (Z.ltb_spec i 0) as [Hlt|Hge]; [discriminate|].
  destruct (nth_error l (Z.to_nat i)); [|discriminate].
  intros H; inversion H; auto.
Qed.

Lemma deref_distinct {A} (l : list (nat * A)) i j a b :
  NoDup (map fst l) ->
  deref l i = Ok a -> deref l j = Ok b -> i <> j -> fst a <> fst b.
Proof.
  intros Hn Ha Hb Hij E.
  apply deref_nth in Ha, Hb. destruct Ha as [Hi Ha], Hb as [Hj Hb].
  apply Hij.
  assert (Z.to_nat i = Z.to_nat j); [|lia].
  apply (proj1 (NoDup_nth_error (map fst l)) Hn).
  - rewrite length_map. apply nth_error_Some. congruence.
  - rewrite !nth_error_map, Ha, Hb. simpl. congruence.
Qed.

Lemma rem_succ_distinct a n : 0 <= a -> 2 <= n -> Z.rem a n <> Z.rem (a + 1) n.
Proof.
  intros Ha Hn. rewrite !Z.rem_mod_nonneg by lia.
  intros E.
  pose proof (Z.div_mod a n ltac:(lia)) as D1.
  pose proof (Z.div_mod (a + 1) n ltac:(lia)) as D2.
  pose proof (Z.mod_pos_bound a n ltac:(lia)) as B1.
  assert (n * (a / n) + 1 = n * ((a + 1) / n)) by lia.
  assert (n * ((a + 1) / n - a / n) = 1) by lia.
  assert (0 < (a + 1) / n - a / n) by nia.
  nia.
Qed.

(** [postBlind] on the player stored at position [i]: [x] chips go from
    the stack to the pot and become the bet of the player. *)
Lemma postBlind_effect i blind s :
  postBlind i blind s = s /\ nth_error (players s) i = None
  \/ exists player p2 x,
      nth_error (players s) i = Some player
      /\ postBlind i blind s
         = setPot (pot s + x) (modifyPlayer i (fun _ => p2) s)
      /\ x = Z.min blind (chips player)
      /\ seating p2 = seating player
      /\ holeCards p2 = holeCards player
      /\ chips p2 = chips player - x
      /\ currentBet p2 = x
      /\ totalBetThisRound p2 = x.
Proof.
  unfold postBlind. destruct (nth_error (players s) i) as [player|];
    [|now left].
  right. exists player. eexists. eexists. split; [reflexivity|].
  cbv zeta. split; [reflexivity|]. split; [reflexivity|].
  destruct (_ =? 0); simpl; repeat split.
Qed.

Lemma postBlinds_shape s s' :
  postBlinds s = Ok s' ->
  s' = s
  \/ exists i j,
      i <> j
      /\ s' = setStateCurrentBet (bigBlind s)
                (postBlind j (bigBlind s) (postBlind i (smallBlind s) s)).
Proof.
  unfold postBlinds.
  destruct (Z.ltb_spec (len (getActivePlayers s)) 2) as [Hn|Hn].
  { intros H; inversion H; auto. }
  cbv zeta.
  set (view := getActivePlayers s) in *.
  set (d := findIndex (fun ip => seatIndex (snd ip) =? dealerSeatIndex s) view).
  assert (Hd : -1 <= d) by apply findIndex_ge.
  destruct (deref view _) as [sb|] eqn:Esb; [|discriminate]. cbn [bind].
  destruct (deref view (if len view =? 2 then Z.rem (d + 1) (len view)
                        else Z.rem (d + 2) (len view))) as [bb|] eqn:Ebb;
    [|discriminate].
  cbn [bind]. intros H; inversion H; subst s'; clear H.
  right. exists (fst sb), (fst bb).
  destruct (postBlind_fields (fst bb)
              (bigBlind (postBlind (fst sb) (smallBlind s) s))
              (postBlind (fst sb) (smallBlind s) s)) as (_ & _ & B2).
  destruct (postBlind_fields (fst sb) (smallBlind s) s) as (_ & _ & B1).
  split; [|rewrite B2, B1; reflexivity].
  eapply deref_distinct; [apply getActivePlayers_positions | exact Esb
                         | exact Ebb |].
  destruct (Z.eqb_spec (len view) 2) as [E2|E2].
  - apply deref_nth in Esb. destruct Esb as [H0 Hs].
    assert (Z.to_nat d < length view)%nat
      by (apply nth_error_Some; congruence).
    rewrite E2. unfold len in E2.
    assert (d = 0 \/ d = 1) as [->| ->] by lia; vm_compute; discriminate.
  - replace (d + 2) with (d + 1 + 1) by lia.
    apply rem_succ_distinct; lia.
Qed.

Lemma dealCommunityCards_shape r e e' :
  dealCommunityCards r e = Ok e' ->
  players (state e') = players (state e)
  /\ pot (state e') = pot (state e)
  /\ stateCurrentBet (state e') = stateCurrentBet (state e)
  /\ minRaise (state e') = minRaise (state e)
  /\ smallBlind (state e') = smallBlind (state e)
  /\ bigBlind (state e') = bigBlind (state e)
  /\ buyIn (state e') = buyIn (state e)
  /\ handInProgress (state e') = handInProgress (state e)
  /\ bettingRound (state e') = bettingRound (state e)
  /\ activePlayerIndex (state e') = activePlayerIndex (state e).
Proof.
  unfold dealCommunityCards. destruct (deck e) as [d|].
  2:{ intros H; inversion H; repeat split. }
  destruct (burn d) as [d1|]; [|discriminate]. cbn [bind].
  destruct r;
    [intros H; inversion H; repeat split | | |];
    (destruct (dealMultiple _ d1) as [[cs d2]|]; [|discriminate]);
    cbn [bind]; intros H; inversion H; repeat split.
Qed.

(** *** The roster is kept *)

Lemma postBlind_seatings i blind s :
  map seating (players (postBlind i blind s)) = map seating (players s).
Proof.
  destruct (postBlind_effect i blind s)
    as [[-> _]|(player & p2 & x & Hn & -> & _ & Hs & _)]; [reflexivity|].
  simpl. apply map_updateAt. intros a Ha. congruence.
Qed.

Lemma handReset_seatings s :
  Subseq (map seating (players (handReset s))) (map seating (players s)).
Proof.
  unfold handReset. simpl. rewrite map_map. simpl.
  change (fun x : Player => seating (resetForHand x)) with seating.
  apply Subseq_map, Subseq_filter.
Qed.

Lemma open_seatings s s4 s5 :
  advanceDealer (handReset s) = Ok s4 ->
  postBlinds s4 = Ok s5 ->
  Subseq (map seating (players s5)) (map seating (players s)).
Proof.
  intros E4 E5. destruct (advanceDealer_shape _ _ E4) as [v ->].
  apply postBlinds_shape in E5.
  eapply Subseq_trans; [|apply handReset_seatings].
  destruct E5 as [->|(i & j & _ & ->)]; simpl; [apply Subseq_refl|].
  rewrite !postBlind_seatings. apply Subseq_refl.
Qed.

Lemma Move_roster e e' :
  Move e e' -> Roster (players (state e)) -> Roster (players (state e')).
Proof.
  destruct 1 as [e e' Q | e j Hb | e | e i player action amt s2 Hn Happ
                | e r e' Hb Hr Hd | e Hb | e e' Hb Hs | e rv s4 s5 Hc E4 E5
                | e d i cs d1 Hd Hm | e idx Hb | e i f Hf].
  - destruct Q as (A & _). now rewrite A.
  - auto.
  - apply Roster_same. simpl. rewrite map_map. reflexivity.
  - destruct (applyAction_effect _ _ _ _ _ _ Hn Happ)
      as (p2 & x & Hp & Hs & _).
    apply Roster_same. simpl. rewrite Hp.
    apply map_updateAt. intros a Ha. congruence.
  - apply dealCommunityCards_shape in Hd. destruct Hd as (A & _).
    now rewrite A.
  - apply Roster_kept. unfold endHandFold.
    destruct (hd_error _) as [[i w]|]; simpl.
    + eapply Subseq_trans; [apply Subseq_map, Subseq_filter|].
      rewrite map_updateAt; [apply Subseq_refl | reflexivity].
    + apply Subseq_map, Subseq_filter.
  - apply showdown_shape in Hs. destruct Hs as (ps & hrs & rs & Hp & ->).
    apply Roster_kept. simpl.
    eapply Subseq_trans; [apply Subseq_map, Subseq_filter|].
    rewrite (showdownPots_map seating _ _ _ _ _ _ _ _ _ _
               ltac:(reflexivity) Hp).
    apply Subseq_refl.
  - apply Roster_kept. simpl. eapply open_seatings; eassumption.
  - apply Roster_same. simpl. apply map_updateAt. reflexivity.
  - apply Roster_sub. simpl. apply Subseq_removeAt.
  - apply Roster_same. simpl. apply map_updateAt. intros a _.
    destruct (Hf a) as (A & B & _). unfold seating. congruence.
Qed.

Lemma addPlayer_roster pid nm seat e :
  Roster (players (state e)) ->
  Roster (players (state (snd (addPlayer pid nm seat e)))).
Proof.
  intros HR.
  destruct (addPlayer_fields pid nm seat e) as [->|(_ & -> & Hseat & Hfree)];
    [exact HR|].
  simpl.
  apply (proj2 (Roster_newcomer pid nm seat (state e) _ HR Hseat Hfree eq_refl)).
Qed.

(** *** What the showdown pays *)

Lemma Raised_refl p : Raised p p.
Proof. exists 0. split; [lia|]. rewrite Z.add_0_r. now destruct p. Qed.

Lemma Raised_trans p q r : Raised p q -> Raised q r -> Raised p r.
Proof.
  intros (w & Hw & ->) (v & Hv & ->). exists (w + v). split; [lia|].
  unfold setChips. simpl. f_equal. lia.
Qed.

Lemma Forall2_refl {A} (R : A -> A -> Prop) l :
  (forall a, R a a) -> Forall2 R l l.
Proof. intros H. induction l; constructor; auto. Qed.

Lemma Forall2_trans {A} (R : A -> A -> Prop) l1 l2 l3 :
  (forall a b c, R a b -> R b c -> R a c) ->
  Forall2 R l1 l2 -> Forall2 R l2 l3 -> Forall2 R l1 l3.
Proof.
  intros HR H12. revert l3.
  induction H12; intros l3 H23; inversion H23; subst; constructor; eauto.
Qed.

Lemma updateAt_raised j w ps :
  0 <= w ->
  Forall2 Raised ps (updateAt j (fun p => setChips (chips p + w) p) ps)
  /\ sumZ (map chips (updateAt j (fun p => setChips (chips p + w) p) ps))
     <= sumZ (map chips ps) + w.
Proof.
  intros Hw. revert j. induction ps as [|p ps IH]; intros [|j]; simpl.
  - split; [constructor | lia].
  - split; [constructor | lia].
  - split; [|lia]. constructor; [now exists w|].
    apply Forall2_refl, Raised_refl.
  - destruct (IH j) as [A B]. split; [|lia].
    constructor; [apply Raised_refl | exact A].
Qed.

Lemma payWinners_raised ws i share remainder potIdx ps hrs :
  0 <= share -> 0 <= remainder -> 0 <= i ->
  let ps' := fst (payWinners ws i share remainder potIdx ps hrs) in
  Forall2 Raised ps ps'
  /\ sumZ (map chips ps')
     <= sumZ (map chips ps) + share * len ws
        + (if (i =? 0) && negb (len ws =? 0) then remainder else 0).
Proof.
  intros Hs Hr Hi0. cbv zeta. revert i Hi0 ps hrs.
  induction ws as [|[ip hand] ws IH]; intros i Hi ps hrs.
  - unfold len. simpl. rewrite andb_false_r, Z.mul_0_r. split; [|lia].
    apply Forall2_refl, Raised_refl.
  - cbn [payWinners].
    set (w := share + (if i =? 0 then remainder else 0)).
    assert (Hw : 0 <= w) by (unfold w; destruct (i =? 0); lia).
    assert (Ew : w = share + (if i =? 0 then remainder else 0)) by reflexivity.
    clearbody w.
    destruct (updateAt_raised (fst ip) w ps Hw) as [A B].
    match goal with |- context [payWinners ws _ _ _ _ ?p ?h] =>
      destruct (IH (i + 1) ltac:(lia) p h) as [A' B'] end.
    split.
    + eapply Forall2_trans; [apply Raised_trans | exact A | exact A'].
    + unfold len in *. simpl length. rewrite Nat2Z.inj_succ.
      replace (Z.succ (Z.of_nat (length ws)) =? 0) with false
        by (symmetry; apply Z.eqb_neq; lia).
      cbn [negb]. rewrite andb_true_r.
      replace (i + 1 =? 0) with false in B'
        by (symmetry; apply Z.eqb_neq; lia).
      cbn [andb] in B'.
      destruct (i =? 0); nia.
Qed.

Lemma showdownPots_paid pots potIdx notFolded board ps hrs rs ps' hrs' rs' :
  Forall (fun sp => 0 <= amount sp) pots ->
  showdownPots pots potIdx notFolded board (ps, hrs, rs) = Ok (ps', hrs', rs') ->
  Forall2 Raised ps ps'
  /\ sumZ (map chips ps') <= sumZ (map chips ps) + sumZ (map amount pots).
Proof.
  intros Hpots. revert potIdx ps hrs rs.
  induction Hpots as [|sp pots Hsp Hpots IH]; intros potIdx ps hrs rs;
    cbn [showdownPots].
  - intros H; inversion H; subst. simpl. split; [|lia].
    apply Forall2_refl, Raised_refl.
  - destruct (evaluateEligible _ _) as [evs|]; [|discriminate]. cbn [bind].
    destruct (len evs =? 0).
    { intros H. apply IH in H. destruct H as [A B]. split; [exact A|].
      simpl. lia. }
    set (ws := winnersOf evs).
    destruct (payWinners ws 0 _ _ _ _ _) as [ps1 hrs1] eqn:Ep.
    intros H. apply IH in H. destruct H as [A B].
    assert (Hshare : 0 <= amount sp / len ws
                     /\ 0 <= amount sp - amount sp / len ws * len ws
                     /\ (len ws = 0
                         \/ amount sp / len ws * len ws
                            + (amount sp - amount sp / len ws * len ws)
                            = amount sp)).
    { destruct (Z.eqb_spec (len ws) 0) as [E0|E0].
      - rewrite E0. rewrite Z.div_0_r. lia.
      - assert (0 < len ws) by (unfold len in *; lia).
        pose proof (Z.div_pos (amount sp) (len ws) Hsp ltac:(lia)).
        pose proof (Z.mod_pos_bound (amount sp) (len ws) ltac:(lia)).
        pose proof (Z.div_mod (amount sp) (len ws) ltac:(lia)).
        split; [lia|]. split; [nia | right; lia]. }
    destruct Hshare as (S1 & S2 & S3).
    pose proof (payWinners_raised ws 0 (amount sp / len ws)
                  (amount sp - amount sp / len ws * len ws) potIdx ps hrs
                  S1 S2 ltac:(lia)) as Hpay.
    cbv zeta in Hpay. rewrite Ep in Hpay. simpl fst in Hpay.
    destruct Hpay as [A1 B1].
    split; [eapply Forall2_trans; [apply Raised_trans | exact A1 | exact A]|].
    simpl. cbn [andb] in B1. rewrite Z.eqb_refl in B1. cbn [andb] in B1.
    destruct S3 as [E0|E];
      [rewrite E0 in B1; simpl in B1; lia|].
    destruct (len ws =? 0); simpl in B1; nia.
Qed.

Lemma calculatePots_amounts s :
  0 <= pot s -> Forall (fun sp => 0 <= amount sp) (calculatePots s).
Proof.
  intros Hpot. unfold calculatePots.
  destruct (len (sortBy _ (filter isAllIn _)) =? 0).
  { repeat constructor. exact Hpot. }
  match goal with
  | |- context [levelsLoop ?b ?l ?a] =>
      pose proof (levelsLoop_pots b l a (fun sp => 0 <= amount sp)) as Hl;
      destruct (levelsLoop b l a) as [[pots processed] prev]
  end.
  simpl in Hl.
  assert (Hpots : Forall (fun sp => 0 <= amount sp) pots).
  { apply Hl; [constructor|]. intros level prevLevel Hpos. simpl. lia. }
  destruct (Z.gtb_spec (pot s - processed) 0).
  - assert (Hall : Forall (fun sp => 0 <= amount sp)
                     (pots ++
                      [mkSidePot (pot s - processed)
                         (map id
                            (filter (fun p => (totalBetThisRound p >? prev)
                                              || negb (isAllIn p))
                               (filter (fun p => negb (hasFolded p))
                                  (players s))))])).
    { apply Forall_app. split; [exact Hpots|]. repeat constructor.
      simpl. lia. }
    destruct (len _ =? 0); [|exact Hall].
    apply Forall_app. split; [exact Hall|]. repeat constructor. exact Hpot.
  - destruct (len pots =? 0); [|exact Hpots].
    apply Forall_app. split; [exact Hpots|]. repeat constructor. exact Hpot.
Qed.

(** The pots add up to the pot when the pot is what was put in. *)
Lemma calculatePots_total s :
  Forall (fun p => 0 <= totalBetThisRound p) (players s) ->
  pot s = sumZ (map totalBetThisRound (players s)) ->
  sumZ (map amount (calculatePots s)) = pot s.
Proof.
  intros Hnn Hpot. unfold calculatePots.
  set (activePlayers := filter (fun p => negb (hasFolded p)) (players s)).
  set (allIn := sortBy (fun a b => totalBetThisRound a - totalBetThisRound b)
                  (filter isAllIn activePlayers)).
  destruct (len allIn =? 0); [simpl; lia|].
  set (bettors := filter (fun p => totalBetThisRound p >? 0) (players s)).
  set (levels := sortBy (fun a b => a - b)
                   (dedupe [] (map totalBetThisRound allIn))).
  assert (Hasc : ascendsFrom 0 levels).
  { apply sortBy_ascends. apply Forall_forall. intros x Hx.
    apply dedupe_incl in Hx. apply in_map_iff in Hx.
    destruct Hx as (p & <- & Hp).
    apply (Permutation_in _ (Permutation_sym (sortBy_perm _ _))) in Hp.
    apply filter_In in Hp. destruct Hp as [Hp _].
    apply filter_In in Hp. destruct Hp as [Hp _].
    rewrite Forall_forall in Hnn. now apply Hnn. }
  pose proof (levelsLoop_processed bettors levels [] 0 0 Hasc) as HL.
  destruct (levelsLoop bettors levels ([], 0, 0)) as [[pots processed] prev].
  destruct HL as (H1 & H2). simpl in H1.
  assert (Hcap : processed <= pot s).
  { pose proof (cappedTotal_le_total bettors prev).
    pose proof (cappedTotal_zero (players s)) as Hz. fold bettors in Hz.
    pose proof (bettors_total (players s) Hnn) as Hb. fold bettors in Hb.
    lia. }
  destruct (Z.gtb_spec (pot s - processed) 0) as [Hrem | Hrem].
  - unfold len. rewrite length_app. simpl.
    replace (Z.of_nat (length pots + 1) =? 0) with false
      by (symmetry; apply Z.eqb_neq; lia).
    rewrite map_app, sumZ_app. simpl. lia.
  - destruct (Z.eqb_spec (len pots) 0) as [He | He].
    + rewrite map_app, sumZ_app. simpl.
      assert (pots = []) by (destruct pots; [reflexivity | discriminate]).
      subst pots. simpl in *. lia.
    + lia.
Qed.

(** *** Stacks and bets are never negative *)

Lemma PlayerStake_mono L L' p : L <= L' -> PlayerStake L p -> PlayerStake L' p.
Proof. unfold PlayerStake. lia. Qed.

Lemma PlayerStake_raised L p p' : Raised p p' -> PlayerStake L p -> PlayerStake L p'.
Proof. intros (w & Hw & ->). unfold PlayerStake. simpl. lia. Qed.

Lemma Forall2_Forall {A} (R : A -> A -> Prop) (P : A -> Prop) l l' :
  (forall a b, R a b -> P a -> P b) ->
  Forall2 R l l' -> Forall P l -> Forall P l'.
Proof.
  intros H. induction 1; intros Hl; inversion Hl; subst; constructor; eauto.
Qed.

Lemma postBlind_consts i blind s :
  smallBlind (postBlind i blind s) = smallBlind s
  /\ bigBlind (postBlind i blind s) = bigBlind s
  /\ buyIn (postBlind i blind s) = buyIn s
  /\ minRaise (postBlind i blind s) = minRaise s
  /\ stateCurrentBet (postBlind i blind s) = stateCurrentBet s.
Proof.
  unfold postBlind. destruct (nth_error (players s) i); repeat split.
Qed.

Lemma postBlind_stakes i blind L s :
  0 <= blind <= L ->
  Forall (PlayerStake L) (players s) ->
  Forall (PlayerStake L) (players (postBlind i blind s))
  /\ pot s <= pot (postBlind i blind s).
Proof.
  intros Hb Hps.
  destruct (postBlind_effect i blind s)
    as [[-> _]|(player & p2 & x & Hn & -> & Hx & _ & _ & Hc & Hcb & Htb)];
    [split; [exact Hps | lia]|].
  assert (Hp : PlayerStake L player).
  { rewrite Forall_forall in Hps. apply Hps.
    eapply nth_error_In; eassumption. }
  simpl. split.
  - apply Forall_updateAt; [exact Hps|]. intros a _ _.
    unfold PlayerStake in *. lia.
  - unfold PlayerStake in Hp. lia.
Qed.

Lemma Move_stakes e e' : Move e e' -> Stakes (state e) -> Stakes (state e').
Proof.
  destruct 1 as [e e' Q | e j Hb | e | e i player action amt s2 Hn Happ
                | e r e' Hb Hr Hd | e Hb | e e' Hb Hs | e rv s4 s5 Hc E4 E5
                | e d i cs d1 Hd Hm | e idx Hb | e i f Hf];
    intros HS; pose proof HS as (A & B & C & D & E & F & G).
  - destruct Q as (Q1 & Q2 & Q3 & Q4 & Q5 & Q6 & Q7 & _).
    unfold Stakes. rewrite Q1, Q2, Q3, Q4, Q5, Q6, Q7. exact HS.
  - exact HS.
  - unfold Stakes. simpl. repeat split; try assumption; try lia.
    apply Forall_map. eapply Forall_impl; [|exact G].
    intros p Hp. unfold PlayerStake in *. simpl. lia.
  - destruct (applyAction_effect _ _ _ _ _ _ Hn Happ)
      as (p2 & x & Hp & _ & _ & Hc & Hcb & Htb & Hpot & Hx).
    destruct (applyAction_fields _ _ _ _ _ _ Happ)
      as (_ & _ & _ & _ & F1 & F2 & F3).
    assert (Hpl : PlayerStake (stateCurrentBet (state e)) player).
    { rewrite Forall_forall in G. apply G.
      eapply nth_error_In; eassumption. }
    destruct Hx as (X1 & X2 & X3 & X4); try (unfold PlayerStake in Hpl; lia).
    unfold Stakes. simpl. rewrite F1, F2, F3, Hpot.
    repeat split; try assumption; try lia.
    rewrite Hp. apply Forall_updateAt.
    + eapply Forall_impl; [|exact G]. intros q. now apply PlayerStake_mono.
    + intros a _ _. unfold PlayerStake in *. lia.
  - apply dealCommunityCards_shape in Hd.
    destruct Hd as (Q1 & Q2 & Q3 & Q4 & Q5 & Q6 & Q7 & _).
    unfold Stakes. rewrite Q1, Q2, Q3, Q4, Q5, Q6, Q7. exact HS.
  - unfold endHandFold. destruct (hd_error _) as [[i w]|]; simpl.
    + unfold Stakes. simpl. repeat split; try assumption.
      eapply Subseq_Forall; [apply Subseq_filter|].
      apply Forall_updateAt; [exact G|].
      intros a _ Ha. unfold PlayerStake in *. simpl. lia.
    + unfold Stakes. simpl. repeat split; try assumption.
      eapply Subseq_Forall; [apply Subseq_filter | exact G].
  - apply showdown_shape in Hs. destruct Hs as (ps & hrs & rs & Hp & ->).
    apply showdownPots_paid in Hp; [|now apply calculatePots_amounts].
    destruct Hp as [Hp _].
    unfold Stakes. simpl. repeat split; try assumption.
    eapply Subseq_Forall; [apply Subseq_filter|].
    eapply Forall2_Forall; [|exact Hp | exact G].
    intros a b. apply PlayerStake_raised.
  - destruct (advanceDealer_shape _ _ E4) as [v ->].
    set (s0 := setDealerSeatIndex v (handReset (state e))) in *.
    assert (G0 : Forall (PlayerStake 0) (players s0)).
    { unfold s0, handReset. simpl. apply Forall_map.
      eapply Subseq_Forall; [apply Subseq_filter|].
      eapply Forall_impl; [|exact G]. intros p Hp.
      unfold PlayerStake in *. simpl. lia. }
    assert (F0 : smallBlind s0 = 1 /\ bigBlind s0 = 2 /\ buyIn s0 = 200
                 /\ minRaise s0 = 2 /\ pot s0 = 0 /\ stateCurrentBet s0 = 0).
    { unfold s0, handReset. simpl. rewrite A, B, C. repeat split. }
    clearbody s0. destruct F0 as (F1 & F2 & F3 & F4 & F5 & F6).
    apply postBlinds_shape in E5.
    destruct E5 as [->|(i & j & _ & ->)]; simpl.
    + unfold Stakes. rewrite F1, F2, F3, F4, F5, F6.
      repeat split; try lia. exact G0.
    + assert (G0' : Forall (PlayerStake 2) (players s0)).
      { eapply Forall_impl; [|exact G0]. intros p.
        apply PlayerStake_mono. lia. }
      rewrite F1, F2.
      destruct (postBlind_stakes i 1 2 s0 ltac:(lia) G0') as [G1 P1].
      destruct (postBlind_stakes j 2 2 (postBlind i 1 s0) ltac:(lia) G1)
        as [G2 P2].
      destruct (postBlind_consts i 1 s0) as (C1 & C2 & C3 & C4 & C5).
      destruct (postBlind_consts j 2 (postBlind i 1 s0))
        as (D1 & D2 & D3 & D4 & D5).
      unfold Stakes. simpl.
      rewrite D1, D2, D3, D4, C1, C2, C3, C4, F1, F2, F3, F4.
      repeat split; try lia. exact G2.
  - unfold Stakes. simpl. repeat split; try assumption.
    apply Forall_updateAt; [exact G|]. intros a _ Ha. exact Ha.
  - unfold Stakes. simpl. repeat split; try assumption.
    eapply Subseq_Forall; [apply Subseq_removeAt | exact G].
  - unfold Stakes. simpl. repeat split; try assumption.
    apply Forall_updateAt; [exact G|]. intros a _ Ha.
    destruct (Hf a) as (_ & _ & S1 & S2 & S3 & _).
    unfold PlayerStake in *. rewrite S1, S2, S3. exact Ha.
Qed.

Lemma addPlayer_stakes pid nm seat e :
  Stakes (state e) -> Stakes (state (snd (addPlayer pid nm seat e))).
Proof.
  intros HS.
  destruct (addPlayer_fields pid nm seat e) as [->|(_ & -> & _)]; [exact HS|].
  destruct HS as (A & B & C & D & E & F & G).
  unfold Stakes. simpl. repeat split; try assumption.
  eapply Forall_perm_iff; [apply sortBy_perm|].
  apply Forall_app. split; [exact G|]. repeat constructor; simpl; lia.
Qed.

(** *** The pot is what was put in *)

Lemma sumZ_perm l l' : Permutation l l' -> sumZ l = sumZ l'.
Proof. induction 1; simpl; lia. Qed.

Lemma sumZ_map_same {A} (g : A -> Z) (f : A -> A) l :
  (forall a, g (f a) = g a) -> sumZ (map g (map f l)) = sumZ (map g l).
Proof.
  intros H. rewrite map_map. f_equal. apply map_ext. exact H.
Qed.

Lemma postBlind_pot i blind s :
  (forall p, nth_error (players s) i = Some p -> totalBetThisRound p = 0) ->
  pot (postBlind i blind s)
  - sumZ (map totalBetThisRound (players (postBlind i blind s)))
  = pot s - sumZ (map totalBetThisRound (players s)).
Proof.
  intros Hz.
  destruct (postBlind_effect i blind s)
    as [[-> _]|(player & p2 & x & Hn & -> & Hx & _ & _ & Hc & Hcb & Htb)];
    [reflexivity|].
  simpl. rewrite (sumZ_updateAt totalBetThisRound i p2 _ player Hn).
  rewrite (Hz player Hn). lia.
Qed.

Lemma postBlind_other i j blind s p :
  i <> j ->
  nth_error (players (postBlind i blind s)) j = Some p ->
  nth_error (players s) j = Some p.
Proof.
  intros Hij.
  destruct (postBlind_effect i blind s)
    as [[-> _]|(player & p2 & x & Hn & -> & _)]; [auto|].
  simpl. rewrite nth_error_updateAt.
  destruct (Nat.eqb_spec j i); [congruence | auto].
Qed.

Lemma Move_potBacked e e' :
  Move e e' -> PotBacked (state e) -> PotBacked (state e').
Proof.
  unfold PotBacked.
  destruct 1 as [e e' Q | e j Hb | e | e i player action amt s2 Hn Happ
                | e r e' Hb Hr Hd | e Hb | e e' Hb Hs | e rv s4 s5 Hc E4 E5
                | e d i cs d1 Hd Hm | e idx Hb | e i f Hf];
    intros HP.
  - destruct Q as (Q1 & Q2 & _ & _ & _ & _ & _ & Q8 & _).
    rewrite Q1, Q2, Q8. exact HP.
  - exact HP.
  - simpl. intros Hb. rewrite (HP Hb).
    symmetry. apply sumZ_map_same. reflexivity.
  - destruct (applyAction_effect _ _ _ _ _ _ Hn Happ)
      as (p2 & x & Hp & _ & _ & _ & _ & Htb & Hpot & _).
    destruct (applyAction_fields _ _ _ _ _ _ Happ) as (F1 & _).
    simpl. rewrite F1, Hpot, Hp. intros Hb.
    rewrite (sumZ_updateAt totalBetThisRound i p2 _ player Hn).
    rewrite (HP Hb). lia.
  - apply dealCommunityCards_shape in Hd.
    destruct Hd as (Q1 & Q2 & _ & _ & _ & _ & _ & Q8 & _).
    rewrite Q1, Q2, Q8. exact HP.
  - intros H. destruct (endHandFold_idle (hd_error (notFoldedPlayers (state e))) e).
    congruence.
  - apply showdown_shape in Hs. destruct Hs as (ps & hrs & rs & _ & ->).
    simpl. discriminate.
  - intros _. simpl.
    destruct (advanceDealer_shape _ _ E4) as [v ->].
    set (s0 := setDealerSeatIndex v (handReset (state e))) in *.
    assert (Hzero : forall k p, nth_error (players s0) k = Some p ->
                                totalBetThisRound p = 0).
    { intros k p Hk. apply nth_error_In in Hk. simpl in Hk.
      apply in_map_iff in Hk. destruct Hk as (q & <- & _). reflexivity. }
    assert (H0 : pot s0 - sumZ (map totalBetThisRound (players s0)) = 0).
    { simpl. rewrite map_map. simpl.
      induction (filter _ _) as [|q l IH]; simpl; lia. }
    clearbody s0.
    apply postBlinds_shape in E5.
    destruct E5 as [->|(i & j & Hij & ->)]; [lia|].
    cbn [pot players setStateCurrentBet].
    pose proof (postBlind_pot i (smallBlind s0) s0 (Hzero i)) as P1.
    assert (P2 := postBlind_pot j (bigBlind s0)
                    (postBlind i (smallBlind s0) s0)).
    rewrite P1, H0 in P2.
    assert (P3 : forall p,
               nth_error (players (postBlind i (smallBlind s0) s0)) j = Some p ->
               totalBetThisRound p = 0).
    { intros p Hp. apply (Hzero j). eapply postBlind_other; eassumption. }
    specialize (P2 P3). lia.
  - simpl. intros Hb. rewrite (HP Hb).
    symmetry. f_equal. apply map_updateAt. reflexivity.
  - simpl. congruence.
  - simpl. intros Hb. rewrite (HP Hb).
    symmetry. f_equal. apply map_updateAt. intros a _.
    destruct (Hf a) as (_ & _ & _ & _ & S3 & _). exact S3.
Qed.

Lemma addPlayer_potBacked pid nm seat e :
  PotBacked (state e) -> PotBacked (state (snd (addPlayer pid nm seat e))).
Proof.
  intros HP.
  destruct (addPlayer_fields pid nm seat e) as [->|(_ & -> & _)]; [exact HP|].
  unfold PotBacked in *. simpl. intros Hb. rewrite (HP Hb).
  rewrite <- (sumZ_perm _ _ (Permutation_map totalBetThisRound (sortBy_perm _ _))).
  rewrite map_app, sumZ_app. simpl. lia.
Qed.

(** *** No card is on the table twice *)

Lemma Subseq_app {A} (a a' b b' : list A) :
  Subseq a a' -> Subseq b b' -> Subseq (a ++ b) (a' ++ b').
Proof.
  induction 1; intros Hb; simpl;
    [exact Hb | apply subseq_skip; auto | apply subseq_take; auto].
Qed.

Lemma Subseq_nil {A} (l : list A) : Subseq [] l.
Proof. induction l; [apply subseq_nil | now apply subseq_skip]. Qed.

Lemma Subseq_flat_map {A B} (f : A -> list B) l' l :
  Subseq l' l -> Subseq (flat_map f l') (flat_map f l).
Proof.
  induction 1 as [|x c l Hs IH|x c l Hs IH]; simpl.
  - apply subseq_nil.
  - change (flat_map f c) with ([] ++ flat_map f c).
    apply Subseq_app; [apply Subseq_nil | exact IH].
  - apply Subseq_app; [apply Subseq_refl | exact IH].
Qed.

Lemma flat_map_same {A B} (f : A -> list B) l l' :
  map f l' = map f l -> flat_map f l' = flat_map f l.
Proof. intros H. rewrite !flat_map_concat_map. now rewrite H. Qed.

Lemma firstn_Subseq {A} (l : list A) n m :
  (n <= m)%nat -> Subseq (firstn n l) (firstn m l).
Proof.
  revert n m. induction l as [|x l IH]; intros [|n] [|m] H; simpl;
    try apply subseq_nil; try lia.
  - apply Subseq_nil.
  - apply subseq_take, IH. lia.
Qed.

Lemma CardsOK_sub e e' :
  deck e' = deck e ->
  Subseq (dealtCards (state e')) (dealtCards (state e)) ->
  CardsOK e -> CardsOK e'.
Proof.
  unfold CardsOK. intros -> Hs. destruct (deck e) as [d|].
  - intros (A & B & C). split; [exact A|]. split.
    + eapply Subseq_NoDup; eassumption.
    + intros c Hc. apply C. eapply Subseq_In; eassumption.
  - intros E. rewrite E in Hs. inversion Hs. reflexivity.
Qed.

Lemma dealt_sub s s' :
  Subseq (map holeCards (players s')) (map holeCards (players s)) ->
  communityCards s' = communityCards s ->
  Subseq (dealtCards s') (dealtCards s).
Proof.
  intros Hp Hc. unfold dealtCards. rewrite Hc.
  apply Subseq_app; [|apply Subseq_refl].
  rewrite !flat_map_concat_map.
  clear Hc. induction Hp as [|x c l Hs IH|x c l Hs IH]; simpl.
  - apply subseq_nil.
  - change (concat c) with ([] ++ concat c).
    apply Subseq_app; [apply Subseq_nil | exact IH].
  - apply Subseq_app; [apply Subseq_refl | exact IH].
Qed.

Lemma dealt_same s s' :
  map holeCards (players s') = map holeCards (players s) ->
  communityCards s' = communityCards s ->
  Subseq (dealtCards s') (dealtCards s).
Proof. intros E. apply dealt_sub. rewrite E. apply Subseq_refl. Qed.

Lemma NoDup_app_disjoint {A} (l1 l2 : list A) :
  NoDup (l1 ++ l2) -> forall a, In a l1 -> ~ In a l2.
Proof.
  induction l1 as [|x l1 IH]; simpl; intros Hn a Ha; [destruct Ha|].
  inversion Hn as [|? ? Hx Hn']; subst.
  destruct Ha as [->|Ha]; [|now apply IH].
  intros H2. apply Hx. apply in_or_app. now right.
Qed.

(** Cards dealt next are none of the cards dealt before. *)
Lemma deal_fresh k d cs d' (L : list Card) :
  NoDup (cards d) ->
  NoDup L ->
  incl L (firstn (position d) (cards d)) ->
  dealMultiple k d = Ok (cs, d') ->
  cards d' = cards d
  /\ NoDup (L ++ cs)
  /\ incl (L ++ cs) (firstn (position d') (cards d')).
Proof.
  intros Hn HL Hin Hd. apply dealMultiple_ok_inv in Hd.
  destruct Hd as (-> & -> & _ & _). simpl.
  split; [reflexivity|].
  rewrite firstn_add_skipn.
  assert (Hboth : NoDup (firstn (position d) (cards d)
                         ++ firstn k (skipn (position d) (cards d)))).
  { rewrite <- firstn_add_skipn. now apply NoDup_firstn. }
  split.
  - apply NoDup_app; [exact HL | eapply NoDup_app_remove_l; exact Hboth |].
    intros c Hc. apply (NoDup_app_disjoint _ _ Hboth). now apply Hin.
  - intros c Hc. apply in_app_or in Hc. apply in_or_app.
    destruct Hc as [Hc|Hc]; [left; now apply Hin | now right].
Qed.

Lemma burn_shape d d1 :
  burn d = Ok d1 -> cards d1 = cards d /\ position d1 = S (position d).
Proof.
  unfold burn, deal.
  destruct (_ <=? _)%nat; [discriminate|].
  destruct (nth_error _ _); [|discriminate].
  simpl. intros H; inversion H; auto.
Qed.

Lemma postBlind_cards i blind s :
  map holeCards (players (postBlind i blind s)) = map holeCards (players s)
  /\ communityCards (postBlind i blind s) = communityCards s.
Proof.
  destruct (postBlind_effect i blind s)
    as [[-> _]|(player & p2 & x & Hn & -> & _ & _ & Hh & _)]; [auto|].
  simpl. split; [|reflexivity].
  apply map_updateAt. intros a Ha. congruence.
Qed.

Lemma flat_map_nil {A B} (f : A -> list B) l :
  Forall (fun a => f a = []) l -> flat_map f l = [].
Proof. induction 1 as [|a l Ha Hl IH]; simpl; [|rewrite Ha, IH]; reflexivity. Qed.

Lemma open_cards s s4 s5 :
  advanceDealer (handReset s) = Ok s4 ->
  postBlinds s4 = Ok s5 ->
  dealtCards s5 = [] /\ Forall (fun p => holeCards p = []) (players s5).
Proof.
  intros E4 E5. destruct (advanceDealer_shape _ _ E4) as [v ->].
  set (s0 := setDealerSeatIndex v (handReset s)) in *.
  assert (H0 : Forall (fun h : list Card => h = []) (map holeCards (players s0))).
  { unfold s0, handReset. simpl. rewrite !Forall_map.
    apply Forall_forall. reflexivity. }
  assert (C0 : communityCards s0 = []) by reflexivity.
  clearbody s0.
  assert (Hall : forall s',
             map holeCards (players s') = map holeCards (players s0) ->
             communityCards s' = [] ->
             dealtCards s' = []
             /\ Forall (fun p => holeCards p = []) (players s')).
  { intros s' Hp Hc. rewrite <- Hp, Forall_map in H0. split; [|exact H0].
    unfold dealtCards. rewrite Hc, app_nil_r. now apply flat_map_nil. }
  apply postBlinds_shape in E5.
  destruct E5 as [->|(i & j & _ & ->)].
  - apply Hall; [reflexivity | exact C0].
  - destruct (postBlind_cards j (bigBlind s0) (postBlind i (smallBlind s0) s0))
      as [A1 A2].
    destruct (postBlind_cards i (smallBlind s0) s0) as [B1 B2].
    apply Hall; cbn [players communityCards setStateCurrentBet]; congruence.
Qed.

Lemma newHandDeck_NoDup rv : NoDup (cards (newHandDeck rv)).
Proof.
  eapply Permutation_NoDup; [|apply createDeck_NoDup].
  apply shuffleFrom_perm.
Qed.

Lemma updateAt_split {A} i (f : A -> A) l a :
  nth_error l i = Some a ->
  exists l1 l2, l = l1 ++ a :: l2 /\ updateAt i f l = l1 ++ f a :: l2.
Proof.
  revert i. induction l as [|x l IH]; intros [|i]; simpl; try discriminate.
  - intros H; inversion H; subst. exists [], l. auto.
  - intros H. destruct (IH i H) as (l1 & l2 & -> & E).
    exists (x :: l1), l2. simpl. now rewrite E.
Qed.

Lemma dealCommunityCards_cards r e e' :
  dealCommunityCards r e = Ok e' -> CardsOK e -> CardsOK e'.
Proof.
  unfold dealCommunityCards. destruct (deck e) as [d|] eqn:Ed.
  2:{ intros H; inversion H; subst. auto. }
  destruct (burn d) as [d1|] eqn:Eb; [|discriminate]. cbn [bind].
  apply burn_shape in Eb. destruct Eb as [Ec Ep].
  intros Hd HC. unfold CardsOK in HC. rewrite Ed in HC.
  destruct HC as (A & B & C).
  assert (C1 : incl (dealtCards (state e)) (firstn (position d1) (cards d1))).
  { rewrite Ec, Ep. intros c Hin.
    eapply Subseq_In; [apply (firstn_Subseq _ (position d)); lia|].
    now apply C. }
  assert (A1 : NoDup (cards d1)) by now rewrite Ec.
  assert (Hdeal : forall k cs d2,
             dealMultiple k d1 = Ok (cs, d2) ->
             CardsOK
               (onEvent (community (communityCards (state e) ++ cs) r)
                  (setDeck (Some d2)
                     (onState (fun s => setCommunityCards
                                          (communityCards s ++ cs) s) e)))).
  { intros k cs d2 Em.
    destruct (deal_fresh k d1 cs d2 (dealtCards (state e)) A1 B C1 Em)
      as (E2 & N2 & I2).
    unfold CardsOK. cbn [deck onEvent setDeck].
    unfold dealtCards in *. simpl. rewrite app_assoc.
    rewrite E2 in *. auto. }
  destruct r.
  - inversion Hd; subst. unfold CardsOK. simpl. auto.
  - destruct (dealMultiple 3 d1) as [[cs d2]|] eqn:Em; [|discriminate].
    cbn [bind] in Hd. inversion Hd; subst; clear Hd. eapply Hdeal, Em.
  - destruct (dealMultiple 1 d1) as [[cs d2]|] eqn:Em; [|discriminate].
    cbn [bind] in Hd. inversion Hd; subst; clear Hd. eapply Hdeal, Em.
  - destruct (dealMultiple 1 d1) as [[cs d2]|] eqn:Em; [|discriminate].
    cbn [bind] in Hd. inversion Hd; subst; clear Hd. eapply Hdeal, Em.
Qed.

Lemma Move_cards e e' : Move e e' -> CardsOK e -> CardsOK e'.
Proof.
  destruct 1 as [e e' Q | e j Hb | e | e i player action amt s2 Hn Happ
                | e r e' Hb Hr Hd | e Hb | e e' Hb Hs | e rv s4 s5 Hc E4 E5
                | e d i cs d1 Hd Hm | e idx Hb | e i f Hf].
  - destruct Q as (Q1 & _ & _ & _ & _ & _ & _ & _ & _ & _ & Q11 & Q12).
    apply CardsOK_sub; [exact Q12|].
    apply dealt_same; [now rewrite Q1 | exact Q11].
  - apply CardsOK_sub; [reflexivity | apply Subseq_refl].
  - apply CardsOK_sub; [reflexivity|].
    apply dealt_same; [|reflexivity]. simpl. rewrite map_map. reflexivity.
  - destruct (applyAction_effect _ _ _ _ _ _ Hn Happ)
      as (p2 & x & Hp & _ & Hh & _).
    destruct (applyAction_fields _ _ _ _ _ _ Happ) as (_ & _ & F3 & _).
    apply CardsOK_sub; [reflexivity|].
    apply dealt_same; [|exact F3]. simpl. rewrite Hp.
    apply map_updateAt. intros a Ha. congruence.
  - intros HC. apply (dealCommunityCards_cards r _ _ Hd).
    revert HC. apply CardsOK_sub; [reflexivity | apply Subseq_refl].
  - apply CardsOK_sub.
    + unfold endHandFold. destruct (hd_error _) as [[i w]|]; reflexivity.
    + unfold endHandFold. destruct (hd_error _) as [[i w]|]; simpl;
        (apply dealt_sub; [|reflexivity]); simpl.
      * eapply Subseq_trans; [apply Subseq_map, Subseq_filter|].
        rewrite map_updateAt; [apply Subseq_refl | reflexivity].
      * apply Subseq_map, Subseq_filter.
  - apply showdown_shape in Hs. destruct Hs as (ps & hrs & rs & Hp & ->).
    apply CardsOK_sub; [reflexivity|].
    apply dealt_sub; [|reflexivity]. simpl.
    eapply Subseq_trans; [apply Subseq_map, Subseq_filter|].
    rewrite (showdownPots_map holeCards _ _ _ _ _ _ _ _ _ _
               ltac:(reflexivity) Hp).
    apply Subseq_refl.
  - intros _. unfold CardsOK. cbn [deck setState setDeck state].
    destruct (open_cards _ _ _ E4 E5) as [-> _].
    split; [apply newHandDeck_NoDup|]. split; [constructor|].
    intros c [].
  - unfold CardsOK. rewrite Hd. simpl. intros (A & B & C).
    destruct (deal_fresh 2 d cs d1 (dealtCards (state e)) A B C Hm)
      as (E2 & N2 & I2).
    rewrite E2. split; [exact A|].
    rewrite E2 in I2.
    assert (Hperm : exists rest,
               Permutation (rest ++ dealtCards
                  (modifyPlayer i (setHoleCards cs) (state e)))
                 (dealtCards (state e) ++ cs)).
    { unfold dealtCards. simpl.
      destruct (nth_error (players (state e)) i) as [p|] eqn:En.
      - destruct (updateAt_split i (setHoleCards cs) _ p En)
          as (l1 & l2 & E1 & E3).
        rewrite E3, E1. exists (holeCards p).
        rewrite !flat_map_app. simpl.
        set (a := flat_map holeCards l1).
        set (b := flat_map holeCards l2).
        set (c := communityCards (state e)).
        set (h := holeCards p).
        rewrite <- !app_assoc.
        etransitivity; [apply Permutation_app_swap_app|].
        do 2 apply Permutation_app_head.
        etransitivity; [apply Permutation_app_comm|].
        now rewrite <- app_assoc.
      - rewrite updateAt_beyond by exact En. exists cs.
        apply Permutation_app_comm. }
    destruct Hperm as (rest & HP).
    assert (N3 : NoDup (rest ++ dealtCards
                          (modifyPlayer i (setHoleCards cs) (state e)))).
    { eapply Permutation_NoDup; [apply Permutation_sym, HP | exact N2]. }
    split.
    + eapply NoDup_app_remove_l; exact N3.
    + intros c Hc. apply I2.
      eapply Permutation_in; [exact HP|]. apply in_or_app. now right.
  - apply CardsOK_sub; [reflexivity|].
    apply dealt_sub; [|reflexivity]. simpl.
    apply Subseq_map, Subseq_removeAt.
  - apply CardsOK_sub; [reflexivity|].
    apply dealt_same; [|reflexivity]. simpl.
    apply map_updateAt. intros a _.
    destruct (Hf a) as (_ & _ & _ & _ & _ & H & _).
    exact H.
Qed.

Lemma addPlayer_cards pid nm seat e :
  CardsOK e -> CardsOK (snd (addPlayer pid nm seat e)).
Proof.
  intros HC.
  destruct (addPlayer_fields pid nm seat e) as [->|(_ & -> & _)]; [exact HC|].
  assert (HP : Permutation
                 (dealtCards (state e))
                 (dealtCards
                    (setPlayers
                       (sortBy (fun a b => seatIndex a - seatIndex b)
                          (players (state e)
                           ++ [newcomer pid nm seat (state e)]))
                       (state e)))).
  { unfold dealtCards. simpl. apply Permutation_app_tail.
    etransitivity; [|apply (Permutation_flat_map holeCards), sortBy_perm].
    rewrite flat_map_app. simpl. now rewrite app_nil_r. }
  unfold CardsOK in *. simpl. destruct (deck e) as [d|].
  - destruct HC as (A & B & C). split; [exact A|]. split.
    + eapply Permutation_NoDup; eassumption.
    + intros c Hc. apply C.
      eapply Permutation_in; [apply Permutation_sym, HP | exact Hc].
  - rewrite HC in HP. now apply Permutation_nil in HP.
Qed.

(** *** Hole cards and board *)

Lemma Move_board e e' : Move e e' -> BoardOK e -> BoardOK e'.
Proof.
  unfold BoardOK.
  destruct 1 as [e e' Q | e j Hb | e | e i player action amt s2 Hn Happ
                | e r e' Hb Hr Hd | e Hb | e e' Hb Hs | e rv s4 s5 Hc E4 E5
                | e d i cs d1 Hd Hm | e idx Hb | e i f Hf];
    intros (A & B & C).
  - destruct Q as (Q1 & _ & _ & _ & _ & _ & _ & Q8 & Q9 & _ & Q11 & Q12).
    rewrite Q1, Q8, Q9, Q11, Q12. auto.
  - auto.
  - simpl. split; [|auto]. apply Forall_map.
    eapply Forall_impl; [|exact A]. auto.
  - destruct (applyAction_effect _ _ _ _ _ _ Hn Happ)
      as (p2 & x & Hp & _ & Hh & _).
    destruct (applyAction_fields _ _ _ _ _ _ Happ) as (F1 & _ & F3 & F4 & _).
    simpl. rewrite Hp, F1, F3, F4. split; [|auto].
    apply Forall_updateAt; [exact A|]. intros a Ha.
    assert (a = player) by congruence. subst a. now rewrite Hh.
  - pose proof (dealCommunityCards_shape _ _ _ Hd)
      as (Q1 & _ & _ & _ & _ & _ & _ & Q8 & Q9 & _).
    rewrite Q1, Q8, Q9. simpl. split; [exact A|].
    specialize (C Hb).
    revert Hd. unfold dealCommunityCards.
    change (deck (onState (setBettingRound r) e)) with (deck e).
    destruct (deck e) as [d|]; [|now elim C].
    destruct (burn d) as [d1|]; [|discriminate]. cbn [bind].
    unfold getNextBettingRound in Hr.
    destruct (bettingRound (state e)) eqn:Er; inversion Hr; subst r;
      (destruct (dealMultiple _ d1) as [[cs d2]|] eqn:Em; [|discriminate]);
      cbn [bind]; intros H; inversion H; subst; simpl;
      apply dealMultiple_ok_inv in Em; destruct Em as (_ & _ & Hl & _);
      rewrite length_app, Hl, B; (split; [reflexivity | discriminate]).
  - unfold endHandFold. destruct (hd_error _) as [[i w]|]; simpl;
      (split; [|split; [exact B | discriminate]]).
    + eapply Subseq_Forall; [apply Subseq_filter|].
      apply Forall_updateAt; [exact A|]. auto.
    + eapply Subseq_Forall; [apply Subseq_filter | exact A].
  - apply showdown_shape in Hs. destruct Hs as (ps & hrs & rs & Hp & ->).
    simpl. split; [|split; [exact B | discriminate]].
    eapply Subseq_Forall; [apply Subseq_filter|].
    apply (showdownPots_map holeCards) in Hp; [|reflexivity].
    apply (Forall_map holeCards (fun h => h = [] \/ length h = 2%nat)).
    rewrite Hp. apply Forall_map. exact A.
  - cbn [state deck setState setDeck].
    destruct (open_cards _ _ _ E4 E5) as [Hd Hh].
    destruct (advanceDealer_postBlinds_busy _ _ _ E4 E5) as [_ Hr].
    split; [|split; [|discriminate]].
    + eapply Forall_impl; [|exact Hh]. auto.
    + unfold dealtCards in Hd. apply app_eq_nil in Hd.
      destruct Hd as [_ ->]. now rewrite Hr.
  - simpl. split; [|split; [exact B | discriminate]].
    apply Forall_updateAt; [exact A|]. intros a _ _. right. simpl.
    apply dealMultiple_ok_inv in Hm. tauto.
  - simpl. split; [|auto].
    eapply Subseq_Forall; [apply Subseq_removeAt | exact A].
  - simpl. split; [|auto].
    apply Forall_updateAt; [exact A|]. intros a _ Ha.
    destruct (Hf a) as (_ & _ & _ & _ & _ & H & _). now rewrite H.
Qed.

Lemma addPlayer_board pid nm seat e :
  BoardOK e -> BoardOK (snd (addPlayer pid nm seat e)).
Proof.
  intros HB.
  destruct (addPlayer_fields pid nm seat e) as [->|(_ & -> & _)]; [exact HB|].
  destruct HB as (A & B & C). unfold BoardOK. simpl.
  split; [|auto].
  eapply Forall_perm_iff; [apply sortBy_perm|].
  apply Forall_app. split; [exact A|]. repeat constructor.
Qed.

(** *** No chips are created *)

Lemma sumZ_subseq_le l' l :
  Subseq l' l -> Forall (fun z => 0 <= z) l -> sumZ l' <= sumZ l.
Proof.
  induction 1 as [|x c l Hs IH|x c l Hs IH]; intros Hl; simpl.
  - lia.
  - inversion Hl; subst. specialize (IH ltac:(assumption)). lia.
  - inversion Hl; subst. specialize (IH ltac:(assumption)). lia.
Qed.

Lemma chips_subseq_le (L : Z) ps' ps :
  Subseq ps' ps -> Forall (PlayerStake L) ps ->
  sumZ (map chips ps') <= sumZ (map chips ps).
Proof.
  intros Hs Hp. apply sumZ_subseq_le; [now apply Subseq_map|].
  apply Forall_map. eapply Forall_impl; [|exact Hp].
  intros p Hpp. unfold PlayerStake in Hpp. lia.
Qed.

Lemma postBlind_chips i blind s :
  sumZ (map chips (players (postBlind i blind s))) + pot (postBlind i blind s)
  = sumZ (map chips (players s)) + pot s.
Proof.
  destruct (postBlind_effect i blind s)
    as [[-> _]|(player & p2 & x & Hn & -> & Hx & _ & _ & Hc & _)];
    [reflexivity|].
  simpl. rewrite (sumZ_updateAt chips i p2 _ player Hn). lia.
Qed.

Lemma canStartHand_idle s : canStartHand s = true -> handInProgress s = false.
Proof.
  unfold canStartHand. intros H. apply andb_prop in H. destruct H as [_ H].
  now apply negb_true_iff in H.
Qed.

Lemma Move_chips e e' :
  Move e e' -> Stakes (state e) -> PotBacked (state e) ->
  chipsInGame e' <= chipsInGame e.
Proof.
  unfold chipsInGame, totalChips.
  destruct 1 as [e e' Q | e j Hb | e | e i player action amt s2 Hn Happ
                | e r e' Hb Hr Hd | e Hb | e e' Hb Hs | e rv s4 s5 Hc E4 E5
                | e d i cs d1 Hd Hm | e idx Hb | e i f Hf];
    intros HS HP; pose proof HS as (A & B & C & D & E & F & G).
  - destruct Q as (Q1 & Q2 & _ & _ & _ & _ & _ & Q8 & _).
    rewrite Q1, Q2, Q8. lia.
  - simpl. lia.
  - simpl. rewrite sumZ_map_same by reflexivity. lia.
  - destruct (applyAction_effect _ _ _ _ _ _ Hn Happ)
      as (p2 & x & Hp & _ & _ & Hc & _ & _ & Hpot & Hx).
    destruct (applyAction_fields _ _ _ _ _ _ Happ) as (F1 & _).
    assert (Hpl : PlayerStake (stateCurrentBet (state e)) player).
    { rewrite Forall_forall in G. apply G.
      eapply nth_error_In; eassumption. }
    destruct Hx as (X1 & _); try (unfold PlayerStake in Hpl; lia).
    simpl. rewrite F1, Hpot, Hp.
    rewrite (sumZ_updateAt chips i p2 _ player Hn).
    destruct (handInProgress (state e)); lia.
  - apply dealCommunityCards_shape in Hd.
    destruct Hd as (Q1 & Q2 & _ & _ & _ & _ & _ & Q8 & _).
    rewrite Q1, Q2, Q8. simpl. lia.
  - rewrite Hb.
    destruct (endHandFold_idle (hd_error (notFoldedPlayers (state e))) e)
      as [-> _].
    unfold endHandFold. destruct (hd_error _) as [[i w]|]; simpl.
    + destruct (updateAt_raised i (pot (state e)) (players (state e)) E)
        as [R1 R2].
      assert (Hf : sumZ (map chips
                           (filter (fun p => isConnected p || (chips p >? 0))
                              (updateAt i
                                 (fun p => setChips (chips p + pot (state e)) p)
                                 (players (state e)))))
                   <= sumZ (map chips
                              (updateAt i
                                 (fun p => setChips (chips p + pot (state e)) p)
                                 (players (state e))))).
      { apply (chips_subseq_le (stateCurrentBet (state e)));
          [apply Subseq_filter|].
        eapply Forall2_Forall; [|exact R1 | exact G].
        intros a b. apply PlayerStake_raised. }
      lia.
    + pose proof (chips_subseq_le (stateCurrentBet (state e)) _ _
                    (Subseq_filter (fun p => isConnected p || (chips p >? 0))
                       (players (state e))) G).
      lia.
  - rewrite Hb.
    apply showdown_shape in Hs. destruct Hs as (ps & hrs & rs & Hp & ->).
    simpl.
    apply showdownPots_paid in Hp; [|now apply calculatePots_amounts].
    destruct Hp as [R1 R2].
    rewrite calculatePots_total in R2.
    + assert (Hf : sumZ (map chips (filter (fun p => isConnected p || (chips p >? 0)) ps))
                   <= sumZ (map chips ps)).
      { apply (chips_subseq_le (stateCurrentBet (state e)));
          [apply Subseq_filter|].
        eapply Forall2_Forall; [|exact R1 | exact G].
        intros a b. apply PlayerStake_raised. }
      lia.
    + eapply Forall_impl; [|exact G]. intros p Hpp.
      unfold PlayerStake in Hpp. lia.
    + now apply HP.
  - rewrite (canStartHand_idle _ Hc).
    destruct (advanceDealer_postBlinds_busy _ _ _ E4 E5) as [Hb5 _].
    cbn [state setState setDeck]. rewrite Hb5.
    destruct (advanceDealer_shape _ _ E4) as [v ->].
    set (s0 := setDealerSeatIndex v (handReset (state e))) in *.
    assert (H0 : sumZ (map chips (players s0)) + pot s0
                 <= sumZ (map chips (players (state e)))).
    { unfold s0, handReset. simpl. rewrite sumZ_map_same by reflexivity.
      rewrite Z.add_0_r.
      apply (chips_subseq_le (stateCurrentBet (state e)));
        [apply Subseq_filter | exact G]. }
    clearbody s0.
    apply postBlinds_shape in E5.
    destruct E5 as [->|(i & j & _ & ->)]; [lia|].
    cbn [pot players setStateCurrentBet].
    rewrite !postBlind_chips. lia.
  - simpl. rewrite map_updateAt by reflexivity. lia.
  - simpl. rewrite Hb.
    pose proof (chips_subseq_le (stateCurrentBet (state e)) _ _
                  (Subseq_removeAt idx (players (state e))) G).
    lia.
  - simpl. rewrite map_updateAt; [lia|]. intros a _.
    destruct (Hf a) as (_ & _ & H & _). exact H.
Qed.

Lemma addPlayer_chips pid nm seat e :
  chipsInGame (snd (addPlayer pid nm seat e))
  = chipsInGame e
    + (if fst (addPlayer pid nm seat e) then buyIn (state e) else 0).
Proof.
  unfold chipsInGame, totalChips, addPlayer.
  destruct ((seat <? 0) || (seat >? 5)); [simpl; lia|].
  destruct (existsb _ _); [simpl; lia|].
  destruct (existsb _ _); [simpl; lia|].
  destruct (len _ >=? 6); [simpl; lia|].
  simpl.
  rewrite <- (sumZ_perm _ _ (Permutation_map chips (sortBy_perm _ _))).
  rewrite map_app, sumZ_app. simpl. destruct (handInProgress _); lia.
Qed.

(* ================================================================= *)
(** ** What holds of every table the engine can reach *)

Lemma Move_table e e' : Move e e' -> Table e -> Table e'.
Proof.
  intros M (A & B & C & D & E & F).
  exact (conj (Move_roster e e' M A)
           (conj (Move_stakes e e' M B)
              (conj (Move_potBacked e e' M C)
                 (conj (Move_idle e e' M D)
                    (conj (Move_cards e e' M E) (Move_board e e' M F)))))).
Qed.

Lemma Moves_table e e' :
  Moves e e' -> Table e -> Table e' /\ chipsInGame e' <= chipsInGame e.
Proof.
  induction 1 as [|e e1 e2 M Ms IH]; intros HT; [split; [exact HT | lia]|].
  pose proof (Move_table _ _ M HT) as HT1.
  destruct (IH HT1) as [HT2 Hle]. split; [exact HT2|].
  destruct HT as (_ & B & C & _).
  pose proof (Move_chips _ _ M B C). lia.
Qed.

Lemma addPlayer_table pid nm seat e :
  Table e -> Table (snd (addPlayer pid nm seat e)).
Proof.
  intros (A & B & C & D & E & F).
  exact (conj (addPlayer_roster pid nm seat e A)
           (conj (addPlayer_stakes pid nm seat e B)
              (conj (addPlayer_potBacked pid nm seat e C)
                 (conj (addPlayer_idle pid nm seat e D)
                    (conj (addPlayer_cards pid nm seat e E)
                       (addPlayer_board pid nm seat e F)))))).
Qed.

Lemma perform_table c e e' :
  Table e -> perform c e = Ok e' ->
  Table e'
  /\ chipsInGame e' <= chipsInGame e + (if seatsNobody c then 0 else 200).
Proof.
  intros HT H.
  destruct (seatsNobody c) eqn:Ec.
  - pose proof HT as (_ & _ & _ & D & _).
    destruct (Moves_table e e' (perform_moves c e e' Ec D H) HT) as [A B].
    split; [exact A | lia].
  - destruct c; try discriminate. simpl in H. inversion H; subst.
    split; [now apply addPlayer_table|].
    rewrite addPlayer_chips.
    destruct HT as (_ & (_ & _ & Hbuy & _) & _).
    rewrite Hbuy. destruct (fst _); lia.
Qed.

Lemma seatingsOf_cons c cs :
  seatingsOf (c :: cs) = (if seatsNobody c then 0 else 1) + seatingsOf cs.
Proof.
  unfold seatingsOf, len. simpl. destruct (seatsNobody c); simpl length; lia.
Qed.

Lemma performAll_table cs e e' :
  Table e -> performAll cs e = Ok e' ->
  Table e' /\ chipsInGame e' <= chipsInGame e + 200 * seatingsOf cs.
Proof.
  revert e. induction cs as [|c cs IH]; intros e HT; cbn [performAll].
  - intros H; inversion H; subst. split; [exact HT|].
    unfold seatingsOf. simpl. lia.
  - destruct (perform c e) as [e1|] eqn:E1; [|discriminate]. cbn [bind].
    intros H. destruct (perform_table c e e1 HT E1) as [HT1 Hle1].
    destruct (IH e1 HT1 H) as [HT' Hle]. split; [exact HT'|].
    rewrite seatingsOf_cons. destruct (seatsNobody c); lia.
Qed.

Lemma newGameEngine_table room host : Table (newGameEngine room host).
Proof.
  unfold Table, Roster, Stakes, PotBacked, Idle, CardsOK, BoardOK. simpl.
  repeat split; try constructor; try lia; try discriminate.
Qed.

Lemma reachable_table room host cs :
  exists e,
    performAll cs (newGameEngine room host) = Ok e
    /\ Table e
    /\ chipsInGame e <= 200 * seatingsOf cs.
Proof.
  destruct (performAll_ok cs (newGameEngine room host)
              (newGameEngine_inv room host)) as (e & He & _).
  exists e. split; [exact He|].
  destruct (performAll_table cs _ e (newGameEngine_table room host) He)
    as [HT Hle].
  split; [exact HT|].
  change (chipsInGame (newGameEngine room host)) with 0 in Hle. lia.
Qed.

(** X14. Whatever commands are run on a new engine, the players stay
    listed by strictly ascending seat index, so that no two share a seat,
    every seat index stays between 0 and 5, the ids stay distinct, and
    there are never more than six players: [addPlayer] counts them. *)
Theorem roster_stays_in_seat_order :
  forall room host cs,
    exists e,
      performAll cs (newGameEngine room host) = Ok e
      /\ Roster (players (state e))
      /\ (length (players (state e)) <= 6)%nat.
Proof.
  intros room host cs.
  destruct (performAll_ok cs (newGameEngine room host)
              (newGameEngine_inv room host)) as (e & He & Hseated & _).
  destruct (performAll_table cs _ e (newGameEngine_table room host) He)
    as [(A & _) _].
  exists e. split; [exact He|]. split; [exact A | exact Hseated].
Qed.

(** X15. Whatever commands are run on a new engine, no stack, bet or pot
    is negative, no player has bet more on the street than
    [state.currentBet], the blinds and the buy-in are the ones of the
    constructor, and the minimum raise is at least the big blind. *)
Theorem stacks_and_bets_never_negative :
  forall room host cs,
    exists e,
      performAll cs (newGameEngine room host) = Ok e
      /\ smallBlind (state e) = 1 /\ bigBlind (state e) = 2
      /\ buyIn (state e) = 200
      /\ bigBlind (state e) <= minRaise (state e)
      /\ 0 <= pot (state e)
      /\ 0 <= stateCurrentBet (state e)
      /\ Forall (fun p => 0 <= chips p
                          /\ 0 <= currentBet p <= stateCurrentBet (state e)
                          /\ 0 <= totalBetThisRound p)
           (players (state e)).
Proof.
  intros room host cs.
  destruct (reachable_table room host cs) as (e & He & HT & _).
  exists e. split; [exact He|].
  destruct HT as (_ & (A & B & C & D & E & F & G) & _).
  rewrite B. repeat split; try assumption.
Qed.

(** X16. Whatever commands are run on a new engine, while a hand is in
    progress the pot is the sum of what the players at the table have put
    in ([totalBetThisRound]), and the pots [calculatePots] builds add up to
    it. *)
Theorem pot_is_sum_of_contributions :
  forall room host cs,
    exists e,
      performAll cs (newGameEngine room host) = Ok e
      /\ (if handInProgress (state e)
          then pot (state e)
               = sumZ (map totalBetThisRound (players (state e)))
               /\ sumZ (map amount (calculatePots (state e))) = pot (state e)
          else True).
Proof.
  intros room host cs.
  destruct (reachable_table room host cs) as (e & He & HT & _).
  exists e. split; [exact He|].
  destruct HT as (_ & (_ & _ & _ & _ & _ & _ & G) & C & _).
  unfold PotBacked in C.
  destruct (handInProgress (state e)); [|exact I].
  specialize (C eq_refl). split; [exact C|].
  apply calculatePots_total; [|exact C].
  eapply Forall_impl; [|exact G]. intros p Hp. unfold PlayerStake in Hp. lia.
Qed.

(** X17. Whatever commands are run on a new engine, between hands nobody
    is on action, and [handleAction] refuses every request and leaves the
    engine as it is. *)
Theorem no_action_between_hands :
  forall room host cs,
    exists e,
      performAll cs (newGameEngine room host) = Ok e
      /\ (if handInProgress (state e) then True
          else getActivePlayer (state e) = None
               /\ forall now pid action amt,
                   handleAction now pid action amt e = Ok (false, e)).
Proof.
  intros room host cs.
  destruct (reachable_table room host cs) as (e & He & HT & _).
  exists e. split; [exact He|].
  destruct HT as (_ & _ & _ & D & _). unfold Idle in D.
  destruct (handInProgress (state e)); [exact I|].
  specialize (D eq_refl).
  assert (Ha : getActivePlayer (state e) = None).
  { unfold getActivePlayer. rewrite D. reflexivity. }
  split; [exact Ha|]. intros now pid action amt.
  unfold handleAction. rewrite Ha.
  destruct (findPlayer pid (state e)) as [[i p]|]; reflexivity.
Qed.

(** X18. Whatever commands are run on a new engine, the hole cards of all
    players and the board are distinct cards, and no more of them than the
    cards drawn from the deck. *)
Theorem no_card_is_dealt_twice :
  forall room host cs,
    exists e,
      performAll cs (newGameEngine room host) = Ok e
      /\ NoDup (flat_map holeCards (players (state e))
                ++ communityCards (state e))
      /\ (length (flat_map holeCards (players (state e))
                  ++ communityCards (state e)) <= cardsDrawn e)%nat.
Proof.
  intros room host cs.
  destruct (reachable_table room host cs) as (e & He & HT & _).
  exists e. split; [exact He|].
  destruct HT as (_ & _ & _ & _ & E & _).
  unfold CardsOK, dealtCards, cardsDrawn in *.
  destruct (deck e) as [d|].
  - destruct E as (A & B & C). split; [exact B|].
    etransitivity; [apply (NoDup_incl_length B C)|].
    rewrite length_firstn. lia.
  - rewrite E. split; [constructor | simpl; lia].
Qed.

(** X19. Whatever commands are run on a new engine, every player holds no
    hole cards or two, and the board has the size of the street: none
    before the flop, three on the flop, four on the turn, five on the
    river. *)
Theorem hole_cards_and_board_fit_the_street :
  forall room host cs,
    exists e,
      performAll cs (newGameEngine room host) = Ok e
      /\ Forall (fun p => holeCards p = [] \/ length (holeCards p) = 2%nat)
           (players (state e))
      /\ length (communityCards (state e))
         = boardSize (bettingRound (state e)).
Proof.
  intros room host cs.
  destruct (reachable_table room host cs) as (e & He & HT & _).
  exists e. split; [exact He|].
  destruct HT as (_ & _ & _ & _ & _ & (A & B & _)). auto.
Qed.

(** X20. Whatever commands are run on a new engine, the chips in the game
    (the stacks plus the pot of a hand in progress) never exceed the
    buy-ins of the [addPlayer] calls made, and one more command adds at
    most the buy-in of an [addPlayer] and nothing otherwise. *)
Theorem chips_are_never_created :
  forall room host cs c,
    exists e e',
      performAll cs (newGameEngine room host) = Ok e
      /\ perform c e = Ok e'
      /\ chipsInGame e <= 200 * seatingsOf cs
      /\ chipsInGame e'
         <= chipsInGame e + (if seatsNobody c then 0 else 200).
Proof.
  intros room host cs c.
  destruct (reachable_table room host cs) as (e & He & HT & Hle).
  destruct (performAll_ok cs (newGameEngine room host)
              (newGameEngine_inv room host)) as (e0 & He0 & HI).
  rewrite He in He0. inversion He0; subst e0.
  destruct (perform_ok c e HI) as (e' & He' & _).
  exists e, e'. split; [exact He|]. split; [exact He'|].
  split; [exact Hle|].
  apply (perform_table c e e' HT He').
Qed.

(* ================================================================= *)
(** ** Whose turn it is *)

Lemma findNextActorFrom_spec ap cur k i s r :
  findNextActorFrom ap cur k i s = Ok r ->
  match r with
  | Some ip => In ip ap /\ owesAction s (snd ip) = true
  | None =>
      forall j, i <= j < i + Z.of_nat k ->
      forall ip, deref ap (Z.rem (cur + j) (len ap)) = Ok ip ->
                 owesAction s (snd ip) = false
  end.
Proof.
  revert i. induction k as [|k IH]; intros i; cbn [findNextActorFrom].
  - intros H; inversion H; subst. intros j Hj. lia.
  - destruct (deref ap (Z.rem (cur + i) (len ap))) as [ip|] eqn:Ed;
      [|discriminate].
    cbn [bind]. unfold owesAction.
    assert (Hskip : findNextActorFrom ap cur k (i + 1) s = Ok r ->
                    owesAction s (snd ip) = false ->
                    match r with
                    | Some ip0 => In ip0 ap /\ owesAction s (snd ip0) = true
                    | None =>
                        forall j, i <= j < i + Z.of_nat (S k) ->
                        forall ip0,
                          deref ap (Z.rem (cur + j) (len ap)) = Ok ip0 ->
                          owesAction s (snd ip0) = false
                    end).
    { intros H Hno. apply IH in H. destruct r as [ip0|]; [exact H|].
      intros j Hj ip0 Hd.
      destruct (Z.eq_dec j i) as [->|Hne].
      - rewrite Ed in Hd. inversion Hd; subst. exact Hno.
      - apply (H j); [lia | exact Hd]. }
    unfold owesAction in Hskip.
    destruct (hasFolded (snd ip)) eqn:Ef; cbn [orb negb andb] in *;
      [intros H; now apply Hskip|].
    destruct (isAllIn (snd ip)) eqn:Ea; cbn [orb negb andb] in *;
      [intros H; now apply Hskip|].
    destruct (currentBet (snd ip) <? stateCurrentBet s) eqn:Eb;
      cbn [orb] in *.
    { intros H; inversion H; subst. split; [eapply deref_In; eassumption|].
      rewrite Ef, Ea, Eb. reflexivity. }
    destruct (bettingRound s) eqn:Er, (lastAction (snd ip)) eqn:El;
      try (intros H; now apply Hskip).
    intros H; inversion H; subst. split; [eapply deref_In; eassumption|].
    rewrite Ef, Ea, Eb, El. reflexivity.
Qed.

(** Offsets [1 .. n] from a position reach every position. *)
Lemma offsets_cover {A} (ap : list A) cur x :
  0 <= cur < len ap -> In x ap ->
  exists j, 1 <= j < 1 + len ap
            /\ deref ap (Z.rem (cur + j) (len ap)) = Ok x.
Proof.
  intros Hc Hin. apply In_nth_error in Hin. destruct Hin as [m Hm].
  assert (Hlt : (m < length ap)%nat) by (apply nth_error_Some; congruence).
  unfold len in *.
  set (n := Z.of_nat (length ap)) in *.
  assert (Hd : deref ap (Z.of_nat m) = Ok x).
  { unfold deref, at_. destruct (Z.ltb_spec (Z.of_nat m) 0); [lia|].
    rewrite Nat2Z.id, Hm. reflexivity. }
  destruct (Z_lt_le_dec cur (Z.of_nat m)) as [Hlow|Hhigh].
  - exists (Z.of_nat m - cur). split; [lia|].
    replace (cur + (Z.of_nat m - cur)) with (Z.of_nat m) by lia.
    rewrite Z.rem_small by lia. exact Hd.
  - exists (Z.of_nat m - cur + n). split; [lia|].
    replace (cur + (Z.of_nat m - cur + n)) with (Z.of_nat m + 1 * n) by lia.
    rewrite Z.rem_add by lia. rewrite Z.rem_small by lia. exact Hd.
Qed.

(** X21. [findNextActor] never throws. The player it returns is an active
    player who is in the hand, not all-in, and either behind the bet of the
    street or, before the flop, yet to act; it returns [null] only when
    nobody is on action or no active player is in that position. *)
Theorem findNextActor_returns_who_owes_action :
  forall s,
    match findNextActor s with
    | Ok (Some (i, p)) =>
        nth_error (players s) i = Some p
        /\ In (i, p) (getActivePlayers s)
        /\ owesAction s p = true
    | Ok None =>
        getActivePlayer s = None
        \/ Forall (fun ip => owesAction s (snd ip) = false)
             (getActivePlayers s)
    | Throw _ => False
    end.
Proof.
  intros s. destruct (findNextActor_ok s) as [r Hr]. rewrite Hr.
  revert Hr. unfold findNextActor.
  destruct (getActivePlayer s) as [[ci currentPlayer]|]; [|
    intros H; inversion H; now left].
  set (ap := getActivePlayers s).
  set (cur := if findIndex _ ap <? 0 then _ else _).
  intros H. apply findNextActorFrom_spec in H.
  destruct r as [[i p]|].
  - destruct H as [Hin Ho]. split; [|split; assumption].
    apply getActivePlayers_In in Hin. tauto.
  - right. apply Forall_forall. intros ip Hin.
    assert (Hcur : 0 <= cur < len ap).
    { assert (0 < len ap)
        by (destruct ap; [destruct Hin | unfold len; simpl length; lia]).
      unfold cur.
      pose proof (findIndexFrom_bounds
                    (fun ip : nat * Player => Nat.eqb (fst ip) ci) ap 0).
      pose proof (findIndexFrom_bounds
                    (fun ip : nat * Player =>
                       seatIndex (snd ip) >=? seatIndex currentPlayer) ap 0).
      unfold findIndex.
      repeat match goal with
             | |- context [?a <? 0] => destruct (Z.ltb_spec a 0)
             end; lia. }
    destruct (offsets_cover ap cur ip Hcur Hin) as (j & Hj & Hd).
    apply (H j); [unfold len in *; lia | exact Hd].
Qed.

Lemma findFirstActorFrom_spec ap startIdx k i s s' :
  findFirstActorFrom ap startIdx k i s = Ok s' ->
  (exists ip, In ip ap /\ canBet (snd ip) = true
              /\ s' = setActivePlayerIndex (Z.of_nat (fst ip)) s)
  \/ (s' = s
      /\ forall j, i <= j < i + Z.of_nat k ->
         exists ip, deref ap (Z.rem (startIdx + j) (len ap)) = Ok ip
                    /\ canBet (snd ip) = false).
Proof.
  revert i. induction k as [|k IH]; intros i; cbn [findFirstActorFrom].
  - intros H; inversion H; subst. right. split; [reflexivity|]. lia.
  - destruct (deref ap (Z.rem (startIdx + i) (len ap))) as [ip|] eqn:Ed;
      [|discriminate].
    cbn [bind]. fold (canBet (snd ip)).
    destruct (canBet (snd ip)) eqn:Ec.
    + intros H; inversion H; subst. left. exists ip.
      split; [eapply deref_In; eassumption | auto].
    + intros H. apply IH in H. destruct H as [H|[-> H]]; [now left|].
      right. split; [reflexivity|]. intros j Hj.
      destruct (Z.eq_dec j i) as [->|Hne]; [eauto|].
      apply H. lia.
Qed.

(** What [findFirstActor] has done when it returns. *)
Lemma findFirstActor_cases s s' :
  findFirstActor s = Ok s' ->
  (exists i p,
      s' = setActivePlayerIndex (Z.of_nat i) s
      /\ nth_error (players s) i = Some p
      /\ In (i, p) (getActivePlayers s)
      /\ canBet p = true)
  \/ (s' = s
      /\ Forall (fun ip => canBet (snd ip) = false)
           (getActivePlayers s)).
Proof.
  unfold findFirstActor.
  set (ap := getActivePlayers s).
  set (startIdx := match bettingRound s with preflop => _ | _ => _ end).
  intros H. apply findFirstActorFrom_spec in H.
  destruct H as [([i p] & Hin & Hc & ->)|[-> H]].
  - left. exists i, p. split; [reflexivity|].
    split; [apply getActivePlayers_In in Hin; tauto | auto].
  - right. split; [reflexivity|].
    apply Forall_forall. intros ip Hin.
    assert (Hn : 0 < len ap)
      by (destruct ap; [destruct Hin | unfold len; simpl length; lia]).
    (* the first iteration read a player, so the start is a position *)
    destruct (H 0 ltac:(unfold len in Hn; lia)) as (ip0 & Hd0 & _).
    rewrite Z.add_0_r in Hd0. apply deref_nth in Hd0.
    destruct Hd0 as [H0 Hnth].
    assert (Hs : 0 <= startIdx < len ap).
    { pose proof (findIndex_ge
                    (fun ip : nat * Player =>
                       seatIndex (snd ip) =? dealerSeatIndex s) ap) as Hd.
      unfold startIdx in *.
      destruct (bettingRound s);
        try (apply rem_index; lia).
      destruct (Z.eqb_spec (len ap) 2) as [E2|E2];
        [|apply rem_index; lia].
      rewrite E2 in H0.
      set (d := findIndex _ ap) in *.
      assert (d = -1 \/ 0 <= d) as [E|E] by lia.
      - rewrite E in H0. vm_compute in H0. now elim H0.
      - split; [exact E|].
        assert (Z.to_nat (Z.rem d 2) < length ap)%nat
          by (apply nth_error_Some; congruence).
        pose proof (findIndexFrom_bounds
                      (fun ip : nat * Player =>
                         seatIndex (snd ip) =? dealerSeatIndex s) ap 0).
        fold (findIndex (fun ip : nat * Player =>
                           seatIndex (snd ip) =? dealerSeatIndex s) ap) in *.
        fold d in H2. lia. }
    destruct (In_nth_error _ _ Hin) as [m Hm].
    assert (Hlt : (m < length ap)%nat) by (apply nth_error_Some; congruence).
    set (j := if Z_lt_le_dec (Z.of_nat m) startIdx
              then Z.of_nat m - startIdx + len ap
              else Z.of_nat m - startIdx).
    assert (Hj : 0 <= j < 0 + Z.of_nat (length ap)
                 /\ Z.rem (startIdx + j) (len ap) = Z.of_nat m).
    { unfold j, len in *. destruct (Z_lt_le_dec (Z.of_nat m) startIdx).
      - split; [lia|].
        replace (startIdx + (Z.of_nat m - startIdx + Z.of_nat (length ap)))
          with (Z.of_nat m + 1 * Z.of_nat (length ap)) by lia.
        rewrite Z.rem_add by lia. apply Z.rem_small. lia.
      - split; [lia|].
        replace (startIdx + (Z.of_nat m - startIdx)) with (Z.of_nat m) by lia.
        apply Z.rem_small. lia. }
    destruct Hj as [Hj1 Hj2].
    destruct (H j Hj1) as (ip1 & Hd1 & Hc1).
    rewrite Hj2 in Hd1. apply deref_nth in Hd1. destruct Hd1 as [_ Hd1].
    rewrite Nat2Z.id, Hm in Hd1. inversion Hd1; subst. exact Hc1.
Qed.


(** X22. When [findFirstActor] returns, either it has put on action an
    active player who is in the hand and not all-in, or it has changed
    nothing and every active player has folded or is all-in. *)
Theorem findFirstActor_picks_who_can_bet :
  forall s,
    match findFirstActor s with
    | Ok s' =>
        (exists i p,
            s' = setActivePlayerIndex (Z.of_nat i) s
            /\ nth_error (players s) i = Some p
            /\ In (i, p) (getActivePlayers s)
            /\ canBet p = true)
        \/ (s' = s
            /\ Forall (fun ip => canBet (snd ip) = false)
                 (getActivePlayers s))
    | Throw _ => True
    end.
Proof.
  intros s. destruct (findFirstActor s) as [s'|] eqn:Hr; [|exact I].
  now apply findFirstActor_cases.
Qed.

(* ================================================================= *)
(** ** Who is paid at showdown *)

Lemma Paid_refl p : Paid p p.
Proof.
  exists 0. split; [lia|].
  split; [rewrite Z.add_0_r; now destruct p | now destruct (hasFolded p)].
Qed.

Lemma Paid_trans p q r : Paid p q -> Paid q r -> Paid p r.
Proof.
  intros (w & Hw & -> & Hf) (v & Hv & -> & Hg). exists (w + v).
  split; [lia|]. split.
  - unfold setChips. simpl. f_equal. lia.
  - simpl in Hg. destruct (hasFolded p); [lia | exact I].
Qed.

Lemma updateAt_paid j w ps :
  0 <= w ->
  (forall p, nth_error ps j = Some p -> hasFolded p = false) ->
  Forall2 Paid ps (updateAt j (fun p => setChips (chips p + w) p) ps).
Proof.
  intros Hw. revert j. induction ps as [|p ps IH]; intros [|j] Hj; simpl.
  - constructor.
  - constructor.
  - constructor; [|apply Forall2_refl, Paid_refl].
    exists w. rewrite (Hj p eq_refl). auto.
  - constructor; [apply Paid_refl | apply IH; exact Hj].
Qed.

Lemma Forall2_Paid_folded ps ps' :
  Forall2 Paid ps ps' -> map hasFolded ps' = map hasFolded ps.
Proof.
  induction 1 as [|p p' ps ps' (w & _ & -> & _) H IH]; simpl;
    [reflexivity | now rewrite IH].
Qed.

(** A winner entry taken from the players still in the hand of [s]. *)
Lemma notFolded_entry s (ip : nat * Player) :
  In ip (notFoldedPlayers s) ->
  nth_error (players s) (fst ip) = Some (snd ip)
  /\ hasFolded (snd ip) = false.
Proof.
  unfold notFoldedPlayers. intros H. apply filter_In in H.
  destruct H as [Hin Hf]. destruct ip as [i p].
  apply withIndex_In in Hin. apply negb_true_iff in Hf. auto.
Qed.

Lemma payWinners_sound s ws i share remainder potIdx ps hrs :
  0 <= share -> 0 <= remainder ->
  Forall (fun ev : Evaluation => In (fst ev) (notFoldedPlayers s)) ws ->
  map hasFolded ps = map hasFolded (players s) ->
  Forall (fun hr => 0 <= hr_amount hr
                    /\ exists p, In p (players s) /\ id p = hr_playerId hr
                                 /\ hasFolded p = false) hrs ->
  let r := payWinners ws i share remainder potIdx ps hrs in
  Forall2 Paid ps (fst r)
  /\ Forall (fun hr => 0 <= hr_amount hr
                       /\ exists p, In p (players s) /\ id p = hr_playerId hr
                                    /\ hasFolded p = false) (snd r).
Proof.
  intros Hs Hr Hws. cbv zeta. revert i ps hrs.
  induction Hws as [|[ip hand] ws Hip Hws IH]; intros i ps hrs Hf Hh.
  - simpl. split; [apply Forall2_refl, Paid_refl | exact Hh].
  - cbn [payWinners].
    set (w := share + (if i =? 0 then remainder else 0)).
    assert (Hw : 0 <= w) by (unfold w; destruct (i =? 0); lia).
    clearbody w. simpl in Hip.
    apply notFolded_entry in Hip. destruct Hip as [Hn Hu].
    assert (P1 : Forall2 Paid ps
                   (updateAt (fst ip) (fun p => setChips (chips p + w) p) ps)).
    { apply updateAt_paid; [exact Hw|]. intros p Hp.
      apply (map_nth_error hasFolded) in Hp, Hn. rewrite Hf in Hp.
      congruence. }
    match goal with |- context [payWinners ws _ _ _ _ ?p ?h] =>
      destruct (IH (i + 1) p h) as [A B] end.
    + rewrite (Forall2_Paid_folded _ _ P1). exact Hf.
    + apply Forall_app. split; [exact Hh|]. constructor; [|constructor].
      simpl. split; [exact Hw|]. exists (snd ip).
      split; [eapply nth_error_In; eassumption | auto].
    + split; [|exact B].
      eapply Forall2_trans; [apply Paid_trans | exact P1 | exact A].
Qed.

Lemma evaluateEligible_sub eligible board evs :
  evaluateEligible eligible board = Ok evs ->
  Forall (fun ev : Evaluation => In (fst ev) eligible) evs.
Proof.
  revert evs. induction eligible as [|ip rest IH]; intros evs;
    cbn [evaluateEligible].
  - intros H; inversion H; constructor.
  - destruct (5 <=? _)%nat.
    + destruct (evaluateBestHand _) as [hand|]; [|discriminate]. cbn [bind].
      destruct (evaluateEligible rest board) as [more|]; [|discriminate].
      cbn [bind]. intros H; inversion H; subst.
      constructor; [now left|].
      eapply Forall_impl; [|apply IH; reflexivity].
      intros ev Hev. now right.
    + intros H. eapply Forall_impl; [|apply IH; exact H].
      intros ev Hev. now right.
Qed.

Lemma winnersOf_sub (P : Evaluation -> Prop) evs :
  Forall P evs -> Forall P (winnersOf evs).
Proof.
  intros H. unfold winnersOf.
  match goal with
  | |- context [sortBy ?c evs] => set (sorted := sortBy c evs)
  end.
  assert (Hs : Forall P sorted).
  { eapply Forall_perm_iff; [apply sortBy_perm | exact H]. }
  clearbody sorted.
  destruct sorted as [|best rest]; [constructor|].
  eapply Subseq_Forall; [apply Subseq_filter | exact Hs].
Qed.

Lemma showdownPots_sound s pots potIdx ps hrs rs ps' hrs' rs' :
  Forall (fun sp => 0 <= amount sp) pots ->
  map hasFolded ps = map hasFolded (players s) ->
  Forall (fun hr => 0 <= hr_amount hr
                    /\ exists p, In p (players s) /\ id p = hr_playerId hr
                                 /\ hasFolded p = false) hrs ->
  showdownPots pots potIdx (notFoldedPlayers s) (communityCards s)
    (ps, hrs, rs) = Ok (ps', hrs', rs') ->
  Forall2 Paid ps ps'
  /\ Forall (fun hr => 0 <= hr_amount hr
                       /\ exists p, In p (players s) /\ id p = hr_playerId hr
                                    /\ hasFolded p = false) hrs'.
Proof.
  intros Hpots. revert potIdx ps hrs rs.
  induction Hpots as [|sp pots Hsp Hpots IH]; intros potIdx ps hrs rs Hf Hh;
    cbn [showdownPots].
  - intros H; inversion H; subst.
    split; [apply Forall2_refl, Paid_refl | exact Hh].
  - destruct (evaluateEligible _ _) as [evs|] eqn:Ee; [|discriminate].
    cbn [bind].
    destruct (len evs =? 0); [now apply IH|].
    set (ws := winnersOf evs).
    assert (Hws : Forall (fun ev : Evaluation =>
                            In (fst ev) (notFoldedPlayers s)) ws).
    { apply winnersOf_sub. apply evaluateEligible_sub in Ee.
      eapply Forall_impl; [|exact Ee]. intros ev Hev.
      apply filter_In in Hev. tauto. }
    assert (Hshare : 0 <= amount sp / len ws
                     /\ 0 <= amount sp - amount sp / len ws * len ws).
    { destruct (Z.eqb_spec (len ws) 0) as [E0|E0].
      - rewrite E0. rewrite Z.div_0_r. lia.
      - assert (0 < len ws) by (unfold len in *; lia).
        pose proof (Z.div_pos (amount sp) (len ws) Hsp ltac:(lia)).
        pose proof (Z.mod_pos_bound (amount sp) (len ws) ltac:(lia)).
        pose proof (Z.div_mod (amount sp) (len ws) ltac:(lia)).
        split; [lia | nia]. }
    destruct Hshare as [S1 S2].
    pose proof (payWinners_sound s ws 0 _ _ potIdx ps hrs S1 S2 Hws Hf Hh)
      as Hpay.
    cbv zeta in Hpay.
    destruct (payWinners ws 0 _ _ _ _ _) as [ps1 hrs1]. simpl in Hpay.
    destruct Hpay as [P1 H1].
    intros H. apply IH in H; [|
      rewrite (Forall2_Paid_folded _ _ P1); exact Hf | exact H1].
    destruct H as [P2 H2]. split; [|exact H2].
    eapply Forall2_trans; [apply Paid_trans | exact P1 | exact P2].
Qed.

(** X23. At a showdown with a pot that is not negative, nobody loses
    chips, a player who has folded receives nothing, and every entry of
    [winners] names a player of the hand who has not folded, with an amount
    that is not negative. The players left afterwards are those records,
    less the disconnected ones without chips. *)
Theorem showdown_pays_only_unfolded_players :
  forall e e',
    0 <= pot (state e) ->
    showdown e = Ok e' ->
    exists ps hrs,
      players (state e')
      = filter (fun p => isConnected p || (chips p >? 0)) ps
      /\ winners (state e') = Some hrs
      /\ Forall2 Paid (players (state e)) ps
      /\ Forall (fun hr =>
                   0 <= hr_amount hr
                   /\ exists p, In p (players (state e))
                                /\ id p = hr_playerId hr
                                /\ hasFolded p = false) hrs.
Proof.
  intros e e' Hpot Hs.
  apply showdown_shape in Hs. destruct Hs as (ps & hrs & rs & Hp & ->).
  exists ps, hrs. split; [reflexivity|]. split; [reflexivity|].
  eapply (showdownPots_sound (state e)); [| | |exact Hp].
  - now apply calculatePots_amounts.
  - reflexivity.
  - constructor.
Qed.

Lemma showdown_pays_only_unfolded_players_witness :
  exists ps hrs,
    players (state splitPotPaid)
    = filter (fun p => isConnected p || (chips p >? 0)) ps
    /\ winners (state splitPotPaid) = Some hrs
    /\ Forall2 Paid (players (state splitPotTable)) ps
    /\ Forall (fun hr =>
                 0 <= hr_amount hr
                 /\ exists p, In p (players (state splitPotTable))
                              /\ id p = hr_playerId hr
                              /\ hasFolded p = false) hrs.
Proof.
  apply (showdown_pays_only_unfolded_players splitPotTable splitPotPaid).
  - simpl. lia.
  - vm_compute. reflexivity.
Defined.

(* ================================================================= *)
(** ** The evaluation does not depend on the order of the cards *)

Lemma descending_unique l l' :
  StronglySorted Z.ge l -> StronglySorted Z.ge l' ->
  Permutation l l' -> l = l'.
Proof.
  intros Hl. revert l'.
  induction Hl as [|x l Hs IH Hx]; intros l' Hl' HP.
  - apply Permutation_nil in HP. now subst.
  - destruct l' as [|y l']; [apply Permutation_sym, Permutation_nil in HP;
                             discriminate|].
    inversion Hl' as [|? ? Hs' Hy]; subst.
    assert (x = y).
    { assert (In x (y :: l'))
        by (eapply Permutation_in; [exact HP | now left]).
      assert (In y (x :: l))
        by (eapply Permutation_in; [apply Permutation_sym, HP | now left]).
      rewrite Forall_forall in Hx, Hy. simpl in *.
      destruct H as [->|H]; [reflexivity|].
      destruct H0 as [->|H0]; [reflexivity|].
      specialize (Hx y H0). specialize (Hy x H). lia. }
    subst y. f_equal. apply IH; [exact Hs'|].
    eapply Permutation_cons_inv; exact HP.
Qed.

Lemma descendingValues_sorted cs : StronglySorted Z.ge (descendingValues cs).
Proof.
  unfold descendingValues.
  apply (StronglySorted_map (fun c => RANK_VALUES (rank c)) Z.ge).
  apply Sorted_StronglySorted; [intros x y z; lia|].
  apply (sortBy_Sorted
           (fun a b => RANK_VALUES (rank b) - RANK_VALUES (rank a))
           (fun a b => RANK_VALUES (rank a) >= RANK_VALUES (rank b)));
    intros x y; lia.
Qed.

Lemma descendingValues_perm cs cs' :
  Permutation cs cs' -> descendingValues cs = descendingValues cs'.
Proof.
  intros HP. apply descending_unique; try apply descendingValues_sorted.
  unfold descendingValues. apply Permutation_map.
  etransitivity; [apply Permutation_sym, sortBy_perm|].
  etransitivity; [exact HP | apply sortBy_perm].
Qed.

Lemma evaluateFiveCards_perm cs cs' :
  Permutation cs cs' ->
  match evaluateFiveCards cs, evaluateFiveCards cs' with
  | Ok h, Ok h' =>
      eh_rank h = eh_rank h' /\ eh_values h = eh_values h'
  | Throw _, Throw _ => True
  | _, _ => False
  end.
Proof.
  intros HP. unfold evaluateFiveCards. cbv zeta.
  fold (descendingValues cs). fold (descendingValues cs').
  rewrite <- (descendingValues_perm cs cs' HP).
  assert (Hf : isFlushOf
                 (map suit
                    (sortBy (fun a b => RANK_VALUES (rank b) - RANK_VALUES (rank a))
                       cs'))
               = isFlushOf
                   (map suit
                      (sortBy (fun a b => RANK_VALUES (rank b) - RANK_VALUES (rank a))
                         cs))).
  { apply isFlushOf_perm, Permutation_map.
    etransitivity; [apply Permutation_sym, sortBy_perm|].
    etransitivity; [apply Permutation_sym, HP | apply sortBy_perm]. }
  rewrite Hf.
  set (values := descendingValues cs).
  set (flush := isFlushOf _).
  set (counts := sortBy cmpCounts (rankCounts values)).
  clearbody values flush.
  repeat match goal with
         | |- context [deref ?l ?i] => destruct (deref l i); cbn [bind]
         | |- context [if ?b then _ else _] => destruct b; cbn [bind]
         end;
    simpl; auto.
Qed.

Lemma Subseq_cons_inv {A} (c : list A) x l :
  Subseq c (x :: l) ->
  Subseq c l \/ exists c0, c = x :: c0 /\ Subseq c0 l.
Proof. intros H. inversion H; subst; eauto. Qed.

Lemma Subseq_perm {A} (l l' : list A) :
  Permutation l l' ->
  forall c, Subseq c l -> exists c', Subseq c' l' /\ Permutation c c'.
Proof.
  induction 1 as [|x l l' HP IH|x y l|l1 l2 l3 H1 IH1 H2 IH2]; intros c Hc.
  - inversion Hc; subst. exists []. split; [apply subseq_nil | constructor].
  - apply Subseq_cons_inv in Hc. destruct Hc as [Hc|(c0 & -> & Hc)].
    + destruct (IH c Hc) as (c' & Hs & Hp). exists c'.
      split; [now apply subseq_skip | exact Hp].
    + destruct (IH c0 Hc) as (c' & Hs & Hp). exists (x :: c').
      split; [now apply subseq_take | now apply perm_skip].
  - apply Subseq_cons_inv in Hc. destruct Hc as [Hc|(c0 & -> & Hc)];
      apply Subseq_cons_inv in Hc; destruct Hc as [Hc|(c1 & -> & Hc)].
    + exists c. split; [now do 2 apply subseq_skip | apply Permutation_refl].
    + exists (x :: c1).
      split; [now apply subseq_take, subseq_skip | apply Permutation_refl].
    + exists (y :: c0).
      split; [now apply subseq_skip, subseq_take | apply Permutation_refl].
    + exists (x :: y :: c1).
      split; [now do 2 apply subseq_take | apply perm_swap].
  - destruct (IH1 c Hc) as (c2 & Hs2 & Hp2).
    destruct (IH2 c2 Hs2) as (c3 & Hs3 & Hp3).
    exists c3. split; [exact Hs3 | now transitivity c2].
Qed.

(** The hand [evaluateBestHand] returns is evaluated from a selection of
    five of the cards and is beaten by no such selection. *)
Lemma evaluateBestHand_max cs best :
  evaluateBestHand cs = Ok best ->
  (exists combo,
      Subseq combo cs /\ length combo = 5%nat
      /\ evaluateFiveCards combo = Ok best)
  /\ (forall combo h,
        Subseq combo cs -> length combo = 5%nat ->
        evaluateFiveCards combo = Ok h ->
        compareHands h best <= 0).
Proof.
  unfold evaluateBestHand.
  destruct (length cs <? 5)%nat; [discriminate|].
  destruct (bestOf (getCombinations cs 5) None) as [r|] eqn:Er;
    [|discriminate].
  cbn [bind]. destruct r as [rb|]; [|discriminate].
  intros H; inversion H; subst rb.
  apply bestOf_max in Er; [|apply Forall_forall; intros c;
                            apply getCombinations_length | exact I].
  destruct Er as (_ & Hmax & _ & [(c & Hin & Ec)|E]); [|discriminate].
  apply getCombinations_subseq in Hin. destruct Hin as [Hsub Hlen].
  split; [exists c; auto|].
  intros combo h Hs Hl Eh. apply (Hmax combo h); [|exact Eh].
  apply getCombinations_subseq. auto.
Qed.

Lemma compareHands_same a a' b :
  eh_rank a = eh_rank a' -> eh_values a = eh_values a' ->
  compareHands a b = compareHands a' b.
Proof. unfold compareHands. intros -> ->. reflexivity. Qed.

Lemma evaluateBestHand_le cs cs' h h' :
  Permutation cs cs' ->
  evaluateBestHand cs = Ok h ->
  evaluateBestHand cs' = Ok h' ->
  compareHands h h' <= 0.
Proof.
  intros HP Hh Hh'.
  apply evaluateBestHand_max in Hh. destruct Hh as [(c & Hs & Hl & Ec) _].
  apply evaluateBestHand_max in Hh'. destruct Hh' as [_ Hmax].
  destruct (Subseq_perm cs cs' HP c Hs) as (c' & Hs' & Hp').
  assert (Hl' : length c' = 5%nat)
    by (rewrite <- (Permutation_length Hp'); exact Hl).
  pose proof (evaluateFiveCards_perm c c' Hp') as Hsame.
  rewrite Ec in Hsame.
  destruct (evaluateFiveCards c') as [h''|] eqn:Ec'; [|now elim Hsame].
  destruct Hsame as [Hr Hv].
  rewrite (compareHands_same h h'' h' Hr Hv).
  apply (Hmax c' h'' Hs' Hl' Ec').
Qed.

(** X24. The category and the tiebreak values [evaluateFiveCards] and
    [evaluateBestHand] return do not depend on the order of the cards they
    are given; the two calls also fail together. *)
Theorem evaluation_ignores_card_order :
  forall cs cs',
    Permutation cs cs' ->
    match evaluateFiveCards cs, evaluateFiveCards cs' with
    | Ok h, Ok h' => eh_rank h = eh_rank h' /\ eh_values h = eh_values h'
    | Throw _, Throw _ => True
    | _, _ => False
    end
    /\ match evaluateBestHand cs, evaluateBestHand cs' with
       | Ok h, Ok h' => eh_rank h = eh_rank h' /\ eh_values h = eh_values h'
       | Throw x, Throw x' => x = x'
       | _, _ => False
       end.
Proof.
  intros cs cs' HP. split; [now apply evaluateFiveCards_perm|].
  pose proof (Permutation_length HP) as Hlen.
  destruct (Nat.ltb_spec (length cs) 5) as [Hshort|Hlong].
  - unfold evaluateBestHand. rewrite <- Hlen.
    destruct (Nat.ltb_spec (length cs) 5); [reflexivity | lia].
  - destruct (evaluateBestHand_ok cs Hlong) as [h Hh].
    destruct (evaluateBestHand_ok cs' ltac:(lia)) as [h' Hh'].
    rewrite Hh, Hh'.
    pose proof (evaluateBestHand_le cs cs' h h' HP Hh Hh') as H1.
    pose proof (evaluateBestHand_le cs' cs h' h (Permutation_sym HP) Hh' Hh)
      as H2.
    rewrite compareHands_antisym in H2.
    apply compareHands_zero; [| |lia].
    + apply evaluateBestHand_max in Hh.
      destruct Hh as [(c & _ & Hl & Ec) _].
      now apply (evaluateFiveCards_tiebreak c).
    + apply evaluateBestHand_max in Hh'.
      destruct Hh' as [(c & _ & Hl & Ec) _].
      now apply (evaluateFiveCards_tiebreak c).
Qed.

Lemma evaluation_ignores_card_order_witness :
  match evaluateBestHand heroS3, evaluateBestHand (rev heroS3) with
  | Ok h, Ok h' => eh_rank h = eh_rank h' /\ eh_values h = eh_values h'
  | Throw x, Throw x' => x = x'
  | _, _ => False
  end.
Proof.
  apply (evaluation_ignores_card_order heroS3 (rev heroS3)).
  apply Permutation_rev.
Defined.

(* ================================================================= *)
(** ** Room codes *)

Lemma charAt_roomCodeChars v :
  exists c,
    charAt roomCodeChars
      (Z.rem (uint8 v) (Z.of_nat (String.length roomCodeChars)))
    = String c EmptyString
    /\ In c (list_ascii_of_string roomCodeChars).
Proof.
  change (Z.of_nat (String.length roomCodeChars)) with 32.
  assert (Hb : 0 <= Z.rem (uint8 v) 32 < 32).
  { apply Z.rem_bound_pos; [|lia]. unfold uint8.
    apply Z.mod_pos_bound. lia. }
  set (r := Z.rem (uint8 v) 32) in *. clearbody r.
  unfold charAt. destruct (Z.ltb_spec r 0); [lia|].
  assert (Hn : (Z.to_nat r < 32)%nat) by lia.
  set (n := Z.to_nat r) in *. clearbody n. clear - Hn.
  do 32 (destruct n as [|n];
         [eexists; split; [reflexivity | vm_compute; tauto]|]).
  lia.
Qed.

(** X25. Whatever bytes the random source delivers, [generateRoomCode]
    returns six characters, each one of the 32 characters of its alphabet;
    the alphabet has no repeated character, and each of its characters is
    selected by exactly 8 of the 256 values of a byte, so a uniform byte
    gives a uniform character. *)
Theorem generateRoomCode_is_six_uniform_characters :
  forall rv,
    String.length (generateRoomCode rv) = 6%nat
    /\ (forall c, In c (list_ascii_of_string (generateRoomCode rv)) ->
                  In c (list_ascii_of_string roomCodeChars))
    /\ NoDup (list_ascii_of_string roomCodeChars)
    /\ Forall (fun k => bytesFor (Z.of_nat k) = 8) (seq 0 32).
Proof.
  intros rv.
  assert (Hcode : exists c0 c1 c2 c3 c4 c5,
             generateRoomCode rv
             = String c0 (String c1 (String c2 (String c3 (String c4
                 (String c5 EmptyString)))))
             /\ Forall (fun c => In c (list_ascii_of_string roomCodeChars))
                  [c0; c1; c2; c3; c4; c5]).
  { unfold generateRoomCode. cbn [seq map].
    destruct (charAt_roomCodeChars (rv 0%nat)) as (c0 & -> & H0).
    destruct (charAt_roomCodeChars (rv 1%nat)) as (c1 & -> & H1).
    destruct (charAt_roomCodeChars (rv 2%nat)) as (c2 & -> & H2).
    destruct (charAt_roomCodeChars (rv 3%nat)) as (c3 & -> & H3).
    destruct (charAt_roomCodeChars (rv 4%nat)) as (c4 & -> & H4).
    destruct (charAt_roomCodeChars (rv 5%nat)) as (c5 & -> & H5).
    exists c0, c1, c2, c3, c4, c5. split; [reflexivity|].
    repeat (apply Forall_cons; [assumption|]). apply Forall_nil. }
  destruct Hcode as (c0 & c1 & c2 & c3 & c4 & c5 & -> & Hall).
  split; [reflexivity|]. split; [|split].
  - intros c Hc. rewrite Forall_forall in Hall. apply Hall. exact Hc.
  - apply (NoDup_map_inv (fun c => Z.of_nat (Ascii.nat_of_ascii c))).
    vm_compute.
    repeat (constructor; [simpl; intuition discriminate|]). constructor.
  - cbn [seq].
    repeat (apply Forall_cons; [vm_compute; reflexivity|]). apply Forall_nil.
Qed.

(* ================================================================= *)
(** ** The blinds *)

Lemma findIndexFrom_sound {A} (f : A -> bool) l k x :
  0 <= k ->
  k <= findIndexFrom f l k ->
  nth_error l (Z.to_nat (findIndexFrom f l k - k)) = Some x ->
  f x = true.
Proof.
  revert k. induction l as [|a l IH]; intros k Hk0; simpl.
  - intros _. destruct (Z.to_nat _); discriminate.
  - destruct (f a) eqn:Ea.
    + rewrite Z.sub_diag. simpl. intros _ H. inversion H; subst. exact Ea.
    + intros Hk Hn.
      destruct (findIndexFrom_bounds f l (k + 1)) as [E|E]; [lia|].
      apply (IH (k + 1)); [lia | lia |].
      replace (Z.to_nat (findIndexFrom f l (k + 1) - k))
        with (S (Z.to_nat (findIndexFrom f l (k + 1) - (k + 1)))) in Hn by lia.
      exact Hn.
Qed.

Lemma postBlind_posted i blind s p :
  nth_error (players s) i = Some p ->
  exists p',
    Posted blind p p'
    /\ players (postBlind i blind s) = updateAt i (fun _ => p') (players s)
    /\ pot (postBlind i blind s) = pot s + Z.min blind (chips p)
    /\ stateCurrentBet (postBlind i blind s) = stateCurrentBet s.
Proof.
  intros Hn. unfold postBlind. rewrite Hn. cbv zeta.
  eexists. split; [|split; [reflexivity | split; reflexivity]].
  unfold Posted. cbv zeta.
  destruct (_ =? 0) eqn:E; simpl in *; rewrite ?E; repeat split.
Qed.

(** X26. When [postBlinds] returns at a table with fewer than two active
    players it changes nothing. Otherwise two different active players
    post: each pays [min (blind, chips)], which becomes its bet and goes to
    the pot, and is all-in when that empties its stack; nobody else
    changes; [state.currentBet] becomes the big blind even when the big
    blind is posted short; and heads-up the small blind is posted from the
    dealer's seat. *)
Theorem postBlinds_takes_blinds_from_two_players :
  forall s s',
    postBlinds s = Ok s' ->
    if len (getActivePlayers s) <? 2 then s' = s
    else
      exists i j sb bb sb' bb',
        i <> j
        /\ In (i, sb) (getActivePlayers s)
        /\ In (j, bb) (getActivePlayers s)
        /\ Posted (smallBlind s) sb sb'
        /\ Posted (bigBlind s) bb bb'
        /\ players s'
           = updateAt j (fun _ => bb') (updateAt i (fun _ => sb') (players s))
        /\ pot s'
           = pot s + Z.min (smallBlind s) (chips sb)
             + Z.min (bigBlind s) (chips bb)
        /\ stateCurrentBet s' = bigBlind s
        /\ (if len (getActivePlayers s) =? 2
            then seatIndex sb = dealerSeatIndex s
            else True).
Proof.
  intros s s'. unfold postBlinds.
  destruct (Z.ltb_spec (len (getActivePlayers s)) 2) as [Hn|Hn].
  { intros H; inversion H; reflexivity. }
  cbv zeta.
  set (view := getActivePlayers s) in *.
  set (d := findIndex (fun ip => seatIndex (snd ip) =? dealerSeatIndex s) view).
  assert (Hd : -1 <= d) by apply findIndex_ge.
  destruct (deref view (if len view =? 2 then d else Z.rem (d + 1) (len view)))
    as [[i sb]|] eqn:Esb; [|discriminate].
  cbn [bind].
  destruct (deref view (if len view =? 2 then Z.rem (d + 1) (len view)
                        else Z.rem (d + 2) (len view))) as [[j bb]|] eqn:Ebb;
    [|discriminate].
  cbn [bind fst]. intros H; inversion H; subst s'; clear H.
  assert (Hij : i <> j).
  { change i with (fst (i, sb)). change j with (fst (j, bb)).
    eapply deref_distinct; [apply getActivePlayers_positions | exact Esb
                           | exact Ebb |].
    destruct (Z.eqb_spec (len view) 2) as [E2|E2].
    - pose proof (deref_nth _ _ _ Esb) as [H0 Hs].
      assert (Z.to_nat d < length view)%nat
        by (apply nth_error_Some; congruence).
      rewrite E2. unfold len in E2.
      assert (d = 0 \/ d = 1) as [->| ->] by lia; vm_compute; discriminate.
    - replace (d + 2) with (d + 1 + 1) by lia.
      apply rem_succ_distinct; lia. }
  pose proof (deref_In _ _ _ Esb) as Hsb.
  pose proof (deref_In _ _ _ Ebb) as Hbb.
  pose proof (proj1 (proj1 (getActivePlayers_In s i sb) Hsb)) as Ni.
  pose proof (proj1 (proj1 (getActivePlayers_In s j bb) Hbb)) as Nj.
  destruct (postBlind_posted i (smallBlind s) s sb Ni)
    as (sb' & P1 & Hp1 & Hpot1 & Hc1).
  set (s1 := postBlind i (smallBlind s) s) in *.
  assert (Nj1 : nth_error (players s1) j = Some bb).
  { rewrite Hp1, nth_error_updateAt.
    destruct (Nat.eqb_spec j i); [congruence | exact Nj]. }
  assert (B1 : bigBlind s1 = bigBlind s)
    by apply (postBlind_fields i (smallBlind s) s).
  clearbody s1.
  destruct (postBlind_posted j (bigBlind s1) s1 bb Nj1)
    as (bb' & P2 & Hp2 & Hpot2 & Hc2).
  rewrite B1 in *.
  exists i, j, sb, bb, sb', bb'.
  split; [exact Hij|]. split; [exact Hsb|]. split; [exact Hbb|].
  split; [exact P1|]. split; [exact P2|].
  cbn [players pot stateCurrentBet setStateCurrentBet].
  assert (B2 : bigBlind (postBlind j (bigBlind s) s1) = bigBlind s).
  { rewrite <- B1 at 2. apply (postBlind_fields j (bigBlind s) s1). }
  split; [rewrite Hp2, Hp1; reflexivity|].
  split; [rewrite Hpot2, Hpot1; reflexivity|].
  split; [exact B2|].
  destruct (Z.eqb_spec (len view) 2) as [E2|E2]; [|exact I].
  apply deref_nth in Esb. destruct Esb as [H0 Hs].
  pose proof (findIndexFrom_sound
                (fun ip : nat * Player => seatIndex (snd ip) =? dealerSeatIndex s)
                view 0 (i, sb)) as Hfound.
  fold (findIndex (fun ip : nat * Player =>
                     seatIndex (snd ip) =? dealerSeatIndex s) view) in Hfound.
  fold d in Hfound. rewrite Z.sub_0_r in Hfound.
  specialize (Hfound ltac:(lia) H0 Hs). simpl in Hfound. lia.
Qed.

Lemma postBlinds_takes_blinds_from_two_players_witness :
  exists i j sb bb,
    i <> j
    /\ In (i, sb) (getActivePlayers (state threeSeats))
    /\ In (j, bb) (getActivePlayers (state threeSeats))
    /\ pot blindsPosted
       = pot (state threeSeats) + Z.min 1 (chips sb) + Z.min 2 (chips bb).
Proof.
  pose proof (postBlinds_takes_blinds_from_two_players
                (state threeSeats) blindsPosted eq_refl) as H.
  change (len (getActivePlayers (state threeSeats)) <? 2) with false in H.
  cbv iota in H.
  destruct H as (i & j & sb & bb & sb' & bb' & Hij & Hi & Hj & _ & _ & _
                 & Hpot & _).
  exists i, j, sb, bb. auto.
Defined.

(* ================================================================= *)
(** ** What the players are told of their cards *)

Lemma dealHoleCardsTo_events view e e' :
  NoDup (map fst view) ->
  Forall (fun ip => nth_error (map id (players (state e))) (fst ip)
                    = Some (id (snd ip))) view ->
  dealHoleCardsTo view e = Ok e' ->
  (forall k, ~ In k (map fst view) ->
             nth_error (players (state e')) k
             = nth_error (players (state e)) k)
  /\ map id (players (state e')) = map id (players (state e))
  /\ exists evs,
      emitted e' = emitted e ++ evs
      /\ Forall2 (ToldItsCards (state e'))
           (filter (fun ip => negb (hasFolded (snd ip))) view) evs.
Proof.
  revert e. induction view as [|[i p] rest IH]; intros e Hnd Hval;
    cbn [dealHoleCardsTo].
  - intros H; inversion H; subst. split; [auto|]. split; [reflexivity|].
    exists []. rewrite app_nil_r. split; [reflexivity | constructor].
  - simpl in Hnd. inversion Hnd as [|? ? Hi Hnd']; subst.
    inversion Hval as [|? ? Hp Hval']; subst. simpl in Hp.
    cbn [filter snd].
    destruct (negb (hasFolded p)) eqn:Ef; cbn [negb].
    2:{ intros H. destruct (IH e Hnd' Hval' H) as (A & B & evs & C & D).
        split; [|split; [exact B|]].
        - intros k Hk. apply A. simpl in Hk. tauto.
        - exists evs. auto. }
    destruct (deck e) as [d|]; [|discriminate].
    destruct (dealMultiple 2 d) as [[cs d1]|] eqn:Em; [|discriminate].
    cbn [bind].
    set (e1 := onEvent (hole_cards (id p) cs)
                 (setDeck (Some d1)
                    (onState (modifyPlayer i (setHoleCards cs)) e))).
    assert (Hids : map id (players (state e1)) = map id (players (state e))).
    { simpl. apply map_updateAt. reflexivity. }
    assert (Hval1 : Forall (fun ip => nth_error (map id (players (state e1)))
                                        (fst ip)
                                      = Some (id (snd ip))) rest).
    { rewrite Hids. exact Hval'. }
    intros H. destruct (IH e1 Hnd' Hval1 H) as (A & B & evs & C & D).
    split; [|split].
    + intros k Hk. simpl in Hk. rewrite A by tauto.
      simpl. rewrite nth_error_updateAt.
      destruct (Nat.eqb_spec k i); [subst; tauto | reflexivity].
    + now rewrite B.
    + exists (hole_cards (id p) cs :: evs). split.
      * rewrite C. simpl. now rewrite <- app_assoc.
      * constructor; [|exact D].
        rewrite nth_error_map in Hp.
        destruct (nth_error (players (state e)) i) as [p0|] eqn:En;
          [|discriminate].
        simpl in Hp. injection Hp as Hid.
        exists cs, (setHoleCards cs p0). simpl.
        split; [reflexivity|].
        split; [apply dealMultiple_ok_inv in Em; tauto|].
        split; [|split; [reflexivity | exact Hid]].
        rewrite (A i Hi). simpl. rewrite nth_error_updateAt, Nat.eqb_refl, En.
        reflexivity.
Qed.

(** X27. When [dealHoleCards] returns, it has emitted exactly one
    [hole_cards] event for each active player who has not folded, in their
    order and nothing else; each event carries the id of that player and
    two cards, the very cards the record of that player now holds. Nobody
    has joined or left. *)
Theorem dealHoleCards_tells_each_player_its_cards :
  forall e e',
    dealHoleCards e = Ok e' ->
    map id (players (state e')) = map id (players (state e))
    /\ exists evs,
        emitted e' = emitted e ++ evs
        /\ Forall2 (ToldItsCards (state e'))
             (filter (fun ip => negb (hasFolded (snd ip)))
                (getActivePlayers (state e))) evs.
Proof.
  intros e e' H. unfold dealHoleCards in H.
  apply dealHoleCardsTo_events in H.
  - destruct H as (_ & B & C). auto.
  - apply getActivePlayers_positions.
  - apply Forall_forall. intros [i p] Hin.
    apply getActivePlayers_In in Hin. destruct Hin as [Hn _].
    simpl. rewrite nth_error_map, Hn. reflexivity.
Qed.

Lemma dealHoleCards_tells_each_player_its_cards_witness :
  exists evs,
    emitted holeCardsDealt = emitted readyToDeal ++ evs
    /\ Forall2 (ToldItsCards (state holeCardsDealt))
         (filter (fun ip => negb (hasFolded (snd ip)))
            (getActivePlayers (state readyToDeal))) evs.
Proof.
  apply (dealHoleCards_tells_each_player_its_cards readyToDeal holeCardsDealt).
  vm_compute. reflexivity.
Defined.

(* ================================================================= *)
(** ** The dealer button *)

(** X28. [advanceDealer] never throws and changes nothing but
    [dealerSeatIndex]. Without an active player the seat stays. Otherwise
    the button goes to the seat of an active player: the first active
    player when no dealer was set, when the dealer's seat is not among the
    active players, or when the dealer is the last of them; else the active
    player listed right after the dealer. *)
Theorem advanceDealer_moves_button_to_next_active_seat :
  forall s,
    exists v,
      advanceDealer s = Ok (setDealerSeatIndex v s)
      /\ match getActivePlayers s with
         | [] => v = dealerSeatIndex s
         | _ :: _ =>
             let k :=
               findIndex (fun ip => seatIndex (snd ip) =? dealerSeatIndex s)
                 (getActivePlayers s) in
             let next :=
               if (dealerSeatIndex s =? -1) || (k <? 0)
                  || (k + 1 =? len (getActivePlayers s))
               then 0%nat else Z.to_nat (k + 1) in
             exists ip,
               nth_error (getActivePlayers s) next = Some ip
               /\ v = seatIndex (snd ip)
         end.
Proof.
  intros s. unfold advanceDealer.
  remember (getActivePlayers s) as ap0 eqn:Eap.
  destruct ap0 as [|first rest].
  { exists (dealerSeatIndex s). simpl. split; [|reflexivity].
    destruct s; reflexivity. }
  set (ap := first :: rest) in *.
  assert (Hn : 0 < len ap) by (unfold ap, len; simpl length; lia).
  replace (len ap =? 0) with false by (symmetry; apply Z.eqb_neq; lia).
  assert (H0 : nth_error ap 0 = Some first) by reflexivity.
  assert (D0 : deref ap 0 = Ok first) by reflexivity.
  clearbody ap. cbv zeta.
  set (k := findIndex (fun ip => seatIndex (snd ip) =? dealerSeatIndex s) ap).
  assert (Hk : k = -1 \/ 0 <= k < len ap).
  { unfold k, findIndex.
    destruct (findIndexFrom_bounds
                (fun ip : nat * Player => seatIndex (snd ip) =? dealerSeatIndex s)
                ap 0); [now left | right; lia]. }
  destruct (dealerSeatIndex s =? -1) eqn:Ed; cbn [orb].
  { rewrite D0. cbn [bind]. exists (seatIndex (snd first)).
    split; [reflexivity|]. exists first. auto. }
  destruct (Z.ltb_spec k 0) as [Hneg|Hpos]; cbn [orb].
  { assert (k = -1) by lia.
    replace (Z.rem (k + 1) (len ap)) with 0
      by (rewrite H; simpl; symmetry; apply Z.rem_0_l; lia).
    rewrite D0. cbn [bind]. exists (seatIndex (snd first)).
    split; [reflexivity|]. exists first. auto. }
  destruct (Z.eqb_spec (k + 1) (len ap)) as [Hlast|Hmid].
  { rewrite Hlast, Z.rem_same by lia.
    rewrite D0. cbn [bind]. exists (seatIndex (snd first)).
    split; [reflexivity|]. exists first. auto. }
  rewrite Z.rem_small by lia.
  destruct (deref_ok ap (k + 1) ltac:(lia)) as [ip Hip].
  rewrite Hip. cbn [bind]. exists (seatIndex (snd ip)).
  split; [reflexivity|]. exists ip. split; [|reflexivity].
  apply deref_nth in Hip. tauto.
Qed.

(* ================================================================= *)
(** ** Who is prompted *)

(** *** Nobody sits out *)

Lemma sitting_kept ps ps' :
  Subseq (map isSittingOut ps') (map isSittingOut ps) ->
  Forall (fun p => isSittingOut p = false) ps ->
  Forall (fun p => isSittingOut p = false) ps'.
Proof.
  intros Hs H.
  apply (Forall_map isSittingOut (fun b => b = false)).
  apply (Forall_map isSittingOut (fun b => b = false)) in H.
  eapply Subseq_Forall; eassumption.
Qed.

Lemma sitting_same ps ps' :
  map isSittingOut ps' = map isSittingOut ps ->
  Forall (fun p => isSittingOut p = false) ps ->
  Forall (fun p => isSittingOut p = false) ps'.
Proof. intros E. apply sitting_kept. rewrite E. apply Subseq_refl. Qed.

Lemma applyAction_sitting i player action amt s s2 :
  nth_error (players s) i = Some player ->
  applyAction i player action amt s = Some s2 ->
  map isSittingOut (players s2) = map isSittingOut (players s).
Proof.
  intros Hn. unfold applyAction.
  destruct action as [[| | | |]|tag]; try discriminate;
    repeat match goal with
           | |- context [if ?b then _ else _] => destruct b
           end;
    intros H; inversion H; subst; clear H; simpl;
    apply map_updateAt; intros a Ha;
    try reflexivity;
    rewrite Hn in Ha; inversion Ha; subst; reflexivity.
Qed.

Lemma postBlind_sitting i blind s :
  map isSittingOut (players (postBlind i blind s))
  = map isSittingOut (players s).
Proof.
  unfold postBlind. destruct (nth_error (players s) i) as [player|] eqn:Hn;
    [|reflexivity].
  cbv zeta. simpl. apply map_updateAt. intros a Ha.
  rewrite Hn in Ha. inversion Ha; subst.
  destruct (_ =? 0); reflexivity.
Qed.

Lemma Move_sitting e e' :
  Move e e' -> NobodySitsOut (state e) -> NobodySitsOut (state e').
Proof.
  unfold NobodySitsOut.
  destruct 1 as [e e' Q | e j Hb | e | e i player action amt s2 Hn Happ
                | e r e' Hb Hr Hd | e Hb | e e' Hb Hs | e rv s4 s5 Hc E4 E5
                | e d i cs d1 Hd Hm | e idx Hb | e i f Hf].
  - destruct Q as (A & _). now rewrite A.
  - auto.
  - apply sitting_same. simpl. rewrite map_map. reflexivity.
  - apply sitting_same. simpl. eapply applyAction_sitting; eassumption.
  - apply dealCommunityCards_shape in Hd. destruct Hd as (A & _).
    now rewrite A.
  - apply sitting_kept. unfold endHandFold.
    destruct (hd_error _) as [[i w]|]; simpl.
    + eapply Subseq_trans; [apply Subseq_map, Subseq_filter|].
      rewrite map_updateAt; [apply Subseq_refl | reflexivity].
    + apply Subseq_map, Subseq_filter.
  - apply showdown_shape in Hs. destruct Hs as (ps & hrs & rs & Hp & ->).
    apply sitting_kept. simpl.
    eapply Subseq_trans; [apply Subseq_map, Subseq_filter|].
    rewrite (showdownPots_map isSittingOut _ _ _ _ _ _ _ _ _ _
               ltac:(reflexivity) Hp).
    apply Subseq_refl.
  - apply sitting_kept. simpl.
    destruct (advanceDealer_shape _ _ E4) as [v ->].
    apply postBlinds_shape in E5.
    assert (Hr : Subseq (map isSittingOut (players (handReset (state e))))
                   (map isSittingOut (players (state e)))).
    { unfold handReset. simpl. rewrite map_map. simpl.
      change (fun x : Player => isSittingOut x) with isSittingOut.
      apply Subseq_map, Subseq_filter. }
    eapply Subseq_trans; [|exact Hr].
    destruct E5 as [->|(i & j & _ & ->)]; simpl; [apply Subseq_refl|].
    rewrite !postBlind_sitting. apply Subseq_refl.
  - apply sitting_same. simpl. apply map_updateAt. reflexivity.
  - apply sitting_kept. simpl. apply Subseq_map, Subseq_removeAt.
  - apply sitting_same. simpl. apply map_updateAt. intros a _.
    destruct (Hf a) as (_ & _ & _ & _ & _ & _ & H). exact H.
Qed.

Lemma addPlayer_sitting pid nm seat e :
  NobodySitsOut (state e) ->
  NobodySitsOut (state (snd (addPlayer pid nm seat e))).
Proof.
  intros H.
  destruct (addPlayer_fields pid nm seat e) as [->|(_ & -> & _)];
    [exact H|].
  unfold NobodySitsOut. simpl.
  eapply Permutation_Forall; [apply sortBy_perm|].
  apply Forall_app. split; [exact H|].
  constructor; [reflexivity | constructor].
Qed.

Lemma Move_ready e e' : Move e e' -> Ready e -> Ready e'.
Proof.
  intros M [A B]. split; [eapply Move_stakes | eapply Move_sitting]; eassumption.
Qed.

Lemma Moves_ready e e' : Moves e e' -> Ready e -> Ready e'.
Proof. apply (Moves_keep Ready). exact Move_ready. Qed.

Lemma performAll_ready cs e e' :
  Table e -> NobodySitsOut (state e) -> performAll cs e = Ok e' ->
  Table e' /\ NobodySitsOut (state e').
Proof.
  revert e. induction cs as [|c cs IH]; intros e HT HN; cbn [performAll].
  - intros H; inversion H; subst. auto.
  - destruct (perform c e) as [e1|] eqn:E1; [|discriminate]. cbn [bind].
    destruct (perform_table c e e1 HT E1) as [HT1 _].
    apply IH; [exact HT1|].
    destruct (seatsNobody c) eqn:Ec.
    + pose proof HT as (_ & B & _ & D & _).
      apply (Moves_ready e e1 (perform_moves c e e1 Ec D E1) (conj B HN)).
    + destruct c; try discriminate. simpl in E1. inversion E1; subst.
      now apply addPlayer_sitting.
Qed.

Lemma reachable_ready room host cs :
  exists e,
    performAll cs (newGameEngine room host) = Ok e
    /\ Inv e /\ Table e /\ Ready e.
Proof.
  destruct (performAll_ok cs (newGameEngine room host)
              (newGameEngine_inv room host)) as (e & He & HI).
  exists e. split; [exact He|]. split; [exact HI|].
  destruct (performAll_ready cs _ e (newGameEngine_table room host)
              ltac:(constructor) He) as [HT HN].
  split; [exact HT|]. split; [|exact HN].
  now destruct HT as (_ & B & _).
Qed.

(** *** The player put on action *)

Lemma getActivePlayer_at s i p :
  nth_error (players s) i = Some p ->
  getActivePlayer (setActivePlayerIndex (Z.of_nat i) s) = Some (i, p).
Proof.
  intros Hn. unfold getActivePlayer, at_. simpl.
  assert (Hlt : (i < length (players s))%nat)
    by (apply nth_error_Some; congruence).
  destruct (Z.ltb_spec (Z.of_nat i) 0) as [Hneg|_]; [lia|].
  destruct (Z.geb_spec (Z.of_nat i) (len (players s))) as [Hge|_];
    [unfold len in Hge; lia|].
  simpl. rewrite Nat2Z.id, Hn. reflexivity.
Qed.

Lemma findNextActor_some s i p :
  findNextActor s = Ok (Some (i, p)) ->
  nth_error (players s) i = Some p
  /\ isConnected p = true
  /\ canBet p = true.
Proof.
  unfold findNextActor.
  destruct (getActivePlayer s) as [[ci currentPlayer]|]; [|discriminate].
  intros H. apply findNextActorFrom_spec in H. destruct H as [Hin Ho].
  apply getActivePlayers_In in Hin. destruct Hin as (Hn & _ & _ & Hc).
  split; [exact Hn|]. split; [exact Hc|].
  simpl in Ho. unfold owesAction in Ho. unfold canBet.
  apply andb_true_iff in Ho. tauto.
Qed.

Lemma ended_prompted e : handInProgress (state e) = false -> Prompted e.
Proof. unfold Prompted. now intros ->. Qed.

(** A player who can still act is an active player of a ready table. *)
Lemma canAct_active e ip :
  Ready e -> In ip (getPlayersWhoCanAct (state e)) ->
  In ip (getActivePlayers (state e)) /\ canBet (snd ip) = true.
Proof.
  intros [HS HN] Hin. unfold getPlayersWhoCanAct in Hin.
  apply filter_In in Hin. destruct Hin as [Hw Hf].
  destruct ip as [i p]. simpl in Hf.
  apply andb_true_iff in Hf. destruct Hf as [Hc Hconn].
  split; [|exact Hc].
  apply getActivePlayers_In. apply withIndex_In in Hw.
  assert (Hp : In p (players (state e))) by (eapply nth_error_In; eassumption).
  split; [exact Hw|]. split; [|split; [|exact Hconn]].
  - unfold NobodySitsOut in HN. rewrite Forall_forall in HN. now apply HN.
  - destruct HS as (_ & _ & _ & _ & _ & _ & HF).
    rewrite Forall_forall in HF. now destruct (HF p Hp).
Qed.

Section PromptedNext.

Variable next : GameEngine -> Res GameEngine.
Variable now : Z.
Hypothesis next_prompted :
  forall x y, Ready x -> handInProgress (state x) = true ->
              next x = Ok y -> Prompted y.

Lemma promptActionWith_prompted e e' :
  Ready e -> handInProgress (state e) = true ->
  (forall i p, getActivePlayer (state e) = Some (i, p) ->
               canBet p = true /\ isConnected p = true) ->
  promptActionWith next now e = Ok e' -> Prompted e'.
Proof.
  intros HR Hb Hact. unfold promptActionWith.
  destruct (getActivePlayer (state e)) as [[i player]|] eqn:Ha;
    [|now apply next_prompted].
  destruct (Hact i player eq_refl) as [Hc Hconn].
  intros H; inversion H; subst; clear H.
  unfold Prompted. simpl. rewrite Hb.
  exists i, player. split; [|auto].
  unfold getActivePlayer in *. simpl. exact Ha.
Qed.

Lemma startBettingRoundWith_prompted e e' :
  Ready e -> handInProgress (state e) = true ->
  startBettingRoundWith next now e = Ok e' -> Prompted e'.
Proof.
  intros HR Hb. unfold startBettingRoundWith. cbv zeta.
  match goal with |- context [if _ then next ?x else _] => set (e1 := x) end.
  assert (M1 : Moves e e1).
  { unfold e1. destruct (bettingRound (state e)); [constructor| | |];
      (eapply Moves_trans; [apply Moves_one, move_street | quiet]). }
  assert (B1 : handInProgress (state e1) = true).
  { unfold e1. destruct (bettingRound (state e)); exact Hb. }
  pose proof (Moves_ready e e1 M1 HR) as R1.
  clearbody e1.
  destruct (_ || _) eqn:Eo; [now apply next_prompted|].
  apply orb_false_iff in Eo. destruct Eo as [_ Ecan].
  destruct (findFirstActor (state e1)) as [s2|] eqn:Es2; [|discriminate].
  cbn [bind]. intros H.
  apply findFirstActor_cases in Es2.
  destruct Es2 as [(i & p & -> & Hn & Hin & Hc)|[_ Hnone]].
  - apply (promptActionWith_prompted
             (onState (setActivePlayerIndex (Z.of_nat i)) e1) e');
      [| exact B1 | | exact H].
    + apply (Move_ready e1); [apply (move_turn e1 (Z.of_nat i) B1) | exact R1].
    + intros i0 p0 Ha. simpl in Ha. rewrite (getActivePlayer_at _ _ _ Hn) in Ha.
      inversion Ha; subst. split; [exact Hc|].
      apply getActivePlayers_In in Hin. tauto.
  - exfalso.
    destruct (getPlayersWhoCanAct (state e1)) as [|ip rest] eqn:Ec;
      [discriminate|].
    destruct (canAct_active e1 ip R1) as [Hin Hc];
      [rewrite Ec; now left|].
    rewrite Forall_forall in Hnone. rewrite (Hnone ip Hin) in Hc.
    discriminate.
Qed.

End PromptedNext.

Lemma advanceToNextRound_prompted fuel now e e' :
  Ready e -> handInProgress (state e) = true ->
  advanceToNextRound fuel now e = Ok e' -> Prompted e'.
Proof.
  revert e e'. induction fuel as [|fuel IH]; intros e e' HR Hb; [discriminate|].
  cbn [advanceToNextRound].
  destruct (len (notFoldedPlayers (state e)) <=? 1).
  { intros H; inversion H; subst. apply ended_prompted, endHandFold_idle. }
  destruct (getNextBettingRound (state e)) as [r|] eqn:Er.
  2:{ intros H. apply showdown_shape in H.
      destruct H as (ps & hrs & rs & _ & ->).
      apply ended_prompted.
      match goal with |- context [endHand ?x] =>
        destruct (endHand_fields x) as (_ & A & _) end.
      exact A. }
  destruct (dealCommunityCards r (onState (setBettingRound r) e)) as [e2|] eqn:Ed;
    [|discriminate].
  cbn [bind].
  assert (B2 : handInProgress (state e2) = true).
  { apply dealCommunityCards_busy in Ed. now rewrite Ed. }
  assert (M2 : Moves e e2) by (eapply Moves_one, move_deal; eassumption).
  pose proof (Moves_ready e e2 M2 HR) as R2.
  destruct (len _ <=? 1); intros H.
  - now apply (IH e2).
  - eapply startBettingRoundWith_prompted; [|exact R2 | exact B2 | exact H].
    intros x y Rx Hx. now apply IH.
Qed.

Lemma advanceAction_prompted now e e' :
  Ready e -> handInProgress (state e) = true ->
  advanceAction now e = Ok e' -> Prompted e'.
Proof.
  intros HR Hb. unfold advanceAction.
  destruct (findNextActor (state e)) as [[[i p]|]|] eqn:Ef; [| |discriminate];
    cbn [bind].
  - apply findNextActor_some in Ef. destruct Ef as (Hn & Hconn & Hc).
    unfold promptAction. intros H.
    apply (promptActionWith_prompted (advanceToNextRound roundFuel now) now)
      in H; [exact H | | | exact Hb |].
    + intros x y Rx Hx. now apply advanceToNextRound_prompted.
    + apply (Move_ready e); [apply (move_turn e (Z.of_nat i) Hb) | exact HR].
    + intros i0 p0 Ha. simpl in Ha. rewrite (getActivePlayer_at _ _ _ Hn) in Ha.
      inversion Ha; subst. auto.
  - now apply advanceToNextRound_prompted.
Qed.

Lemma handleAction_prompted now pid action amt e e' :
  Idle (state e) -> Ready e ->
  handleAction now pid action amt e = Ok (true, e') -> Prompted e'.
Proof.
  intros Hidle HR. unfold handleAction.
  destruct (findPlayer pid (state e)) as [[i player]|] eqn:Hf; [|discriminate].
  destruct (getActivePlayer (state e)) as [[j a]|] eqn:Ha; [|discriminate].
  destruct (negb (String.eqb (id a) pid)); [discriminate|].
  pose proof (getActivePlayer_busy _ _ Hidle Ha) as Hb.
  apply findPlayer_nth in Hf. destruct Hf as [Hnth _].
  change (state (clearActionTimer e)) with (state e).
  destruct (applyAction i player action amt (state e)) as [s2|] eqn:Eapp;
    [|discriminate].
  pose proof (applyAction_busy _ _ _ _ _ _ Eapp) as Hb2.
  match goal with |- context [notFoldedPlayers (state ?x)] => set (e3 := x) end.
  assert (M3 : Moves e e3).
  { eapply Moves_trans;
      [apply Moves_one, (move_action e i player action amt s2 Hnth Eapp)|].
    unfold e3. destruct (nth_error (players s2) i); quiet. }
  assert (B3 : handInProgress (state e3) = true).
  { unfold e3. destruct (nth_error (players s2) i); simpl; congruence. }
  pose proof (Moves_ready e e3 M3 HR) as R3.
  clearbody e3.
  destruct (len (notFoldedPlayers (state e3)) <=? 1).
  - intros H; inversion H; subst. apply ended_prompted, endHandFold_idle.
  - destruct (advanceAction now e3) as [e4|] eqn:E4; [|discriminate].
    cbn [bind]. intros H; inversion H; subst.
    eapply advanceAction_prompted; eassumption.
Qed.

Lemma startHand_prompted rv now e e' :
  Ready e -> canStartHand (state e) = true ->
  startHand rv now e = Ok e' -> Prompted e'.
Proof.
  intros HR Hcan. unfold startHand. rewrite Hcan. cbn [negb].
  cbv zeta. fold (handReset (state e)).
  destruct (advanceDealer (handReset (state e))) as [s4|] eqn:E4; [|discriminate].
  cbn [bind].
  change (state (setDeck (Some (newHandDeck rv)) (setState s4 e))) with s4.
  destruct (postBlinds s4) as [s5|] eqn:E5; [|discriminate].
  cbn [bind].
  match goal with |- context [dealHoleCards ?x] => set (e2 := x) end.
  assert (M2 : Moves e e2).
  { eapply Moves_trans;
      [apply Moves_one, (move_open e rv s4 s5 Hcan E4 E5)|].
    unfold e2. quiet. }
  assert (F2 : handInProgress (state e2) = true
               /\ bettingRound (state e2) = preflop).
  { unfold e2. simpl.
    destruct (postBlinds_fields _ _ E5) as [A B].
    destruct (advanceDealer_shape _ _ E4) as [v ->].
    simpl in A, B. auto. }
  clearbody e2. destruct F2 as [B2 R2].
  unfold dealHoleCards.
  destruct (dealHoleCardsTo _ e2) as [e3|] eqn:E3; [|discriminate].
  cbn [bind]. apply dealHoleCardsTo_moves in E3.
  destruct E3 as (M3 & B3 & R3).
  intros H.
  assert (M4 : Moves e (onState (setBettingRound preflop) e3)).
  { eapply Moves_trans; [exact M2|].
    eapply Moves_trans; [exact M3|].
    quiet. simpl. congruence. }
  unfold startBettingRound in H.
  eapply startBettingRoundWith_prompted; [| | |exact H].
  - intros x y Rx Hx. now apply advanceToNextRound_prompted.
  - eapply Moves_ready; eassumption.
  - simpl. congruence.
Qed.

(** X29. Whatever commands have been run on a new engine, a request made
    then returns, and when it was accepted and the hand goes on, the player
    now on action is connected, in the hand and not all-in, and the
    auto-fold timer runs for that player. *)
Theorem accepted_action_prompts_who_can_bet :
  forall room host cs now pid action amt,
    exists e b e',
      performAll cs (newGameEngine room host) = Ok e
      /\ handleAction now pid action amt e = Ok (b, e')
      /\ (if b then Prompted e' else True).
Proof.
  intros room host cs now pid action amt.
  destruct (reachable_ready room host cs) as (e & He & HI & HT & HR).
  destruct (handleAction_ok now pid action amt e (proj2 HI))
    as (b & e' & Hh & _).
  exists e, b, e'. split; [exact He|]. split; [exact Hh|].
  destruct b; [|exact I].
  destruct HT as (_ & _ & _ & Hidle & _).
  eapply handleAction_prompted; eassumption.
Qed.

(** X30. Whatever commands have been run on a new engine, [startHand]
    returns; when a hand could start and is still in progress afterwards,
    the player on action is connected, in the hand and not all-in, and the
    auto-fold timer runs for that player; when no hand could start, nothing
    has changed. *)
Theorem startHand_prompts_who_can_bet :
  forall room host cs rv now,
    exists e e',
      performAll cs (newGameEngine room host) = Ok e
      /\ startHand rv now e = Ok e'
      /\ (if canStartHand (state e) then Prompted e' else e' = e).
Proof.
  intros room host cs rv now.
  destruct (reachable_ready room host cs) as (e & He & HI & HT & HR).
  destruct (startHand_ok rv now e HI) as (e' & Hs & _).
  exists e, e'. split; [exact He|]. split; [exact Hs|].
  destruct (canStartHand (state e)) eqn:Hcan.
  - eapply startHand_prompted; eassumption.
  - unfold startHand in Hs. rewrite Hcan in Hs. simpl in Hs.
    now inversion Hs.
Qed.

(* ================================================================= *)
(** ** The winners of a pot *)

Lemma evaluateEligible_positions eligible board evs :
  evaluateEligible eligible board = Ok evs ->
  Subseq (map fst evs) eligible.
Proof.
  revert evs. induction eligible as [|ip rest IH]; intros evs;
    cbn [evaluateEligible].
  - intros H; inversion H; subst. apply subseq_nil.
  - destruct (5 <=? _)%nat.
    + destruct (evaluateBestHand _) as [hand|]; [|discriminate]. cbn [bind].
      destruct (evaluateEligible rest board) as [more|]; [|discriminate].
      cbn [bind]. intros H; inversion H; subst. simpl.
      apply subseq_take. now apply IH.
    + intros H. apply subseq_skip. now apply IH.
Qed.

(** The winners [showdown] pays for a pot are distinct players of the
    table, each found at its position: what the split of the pot asks of
    them. *)
Lemma showdown_winners_distinct s (keep : nat * Player -> bool) evs :
  evaluateEligible (filter keep (notFoldedPlayers s)) (communityCards s)
  = Ok evs ->
  NoDup (map (fun ev : Evaluation => fst (fst ev)) (winnersOf evs))
  /\ Forall (fun ev : Evaluation =>
               nth_error (players s) (fst (fst ev)) = Some (snd (fst ev)))
       (winnersOf evs).
Proof.
  intros H. split.
  - assert (Hd : NoDup (map (fun ev : Evaluation => fst (fst ev)) evs)).
    { replace (map (fun ev : Evaluation => fst (fst ev)) evs)
        with (map fst (map fst evs)) by apply map_map.
      apply evaluateEligible_positions in H.
      eapply Subseq_NoDup; [apply Subseq_map; exact H|].
      eapply Subseq_NoDup;
        [apply Subseq_map; eapply Subseq_trans; apply Subseq_filter|].
      unfold withIndex. rewrite withIndex_positions. apply seq_NoDup. }
    unfold winnersOf.
    match goal with
    | |- context [sortBy ?c evs] => set (sorted := sortBy c evs)
    end.
    assert (Hs : NoDup (map (fun ev : Evaluation => fst (fst ev)) sorted)).
    { eapply Permutation_NoDup; [apply Permutation_map, sortBy_perm|].
      exact Hd. }
    clearbody sorted. destruct sorted as [|best rest]; [constructor|].
    eapply Subseq_NoDup; [apply Subseq_map, Subseq_filter | exact Hs].
  - apply winnersOf_sub. apply evaluateEligible_sub in H.
    eapply Forall_impl; [|exact H]. intros ev Hin. simpl in Hin.
    apply filter_In in Hin. destruct Hin as [Hin _].
    now apply notFolded_entry in Hin.
Qed.
